(** * GBWT support structures: records, LF-mapping, samples, dictionaries

    A shallow embedding of [src/support.cpp] (namespace [gbwt]) and the
    properties of its record types.

    Conventions of the embedding.
    - [size_type], [node_type], [rank_type] are 64-bit unsigned integers:
      they are values of [Z] in [0, 2^64), and every C++ [+], [-], [++]
      on them is written with [wadd] / [wsub], which reduce modulo 2^64.
    - [edge_type], [run_type], [sample_type], [range_type] are pairs.
    - A [std::vector] is a [list]; [v[i]] is [vec_at v i].  Reading out of
      range is undefined in C++; the embedding returns a default there and
      no theorem relies on it.
    - Loops over a vector are structural recursions over the list; loops
      over indices carry explicit fuel where they are not structural. *)

From Stdlib Require Import ZArith List Lia Bool.
From stdpp Require Import base tactics option list numbers sorting.

Open Scope Z_scope.

(** ** Machine words *)

Definition WORD : Z := 2 ^ 64.

Definition wrap (x : Z) : Z := x mod WORD.
Definition wadd (a b : Z) : Z := wrap (a + b).
Definition wsub (a b : Z) : Z := wrap (a - b).

Definition is_word (x : Z) : Prop := 0 <= x < WORD.

(** The integer and pair types of the sources are abbreviations. *)
Abbreviation size_type := Z (only parsing).
Abbreviation node_type := Z (only parsing).
Abbreviation rank_type := Z (only parsing).
Abbreviation byte_type := Z (only parsing).
Abbreviation edge_type := (Z * Z)%type (only parsing).
Abbreviation run_type := (Z * Z)%type (only parsing).
Abbreviation sample_type := (Z * Z)%type (only parsing).
Abbreviation range_type := (Z * Z)%type (only parsing).

Definition ENDMARKER : node_type := 0.
Definition invalid_node : node_type := WORD - 1.
Definition invalid_offset : size_type := WORD - 1.
Definition invalid_sequence : size_type := WORD - 1.
Definition invalid_edge : edge_type := (invalid_node, invalid_offset).

Definition edge_eqb (a b : edge_type) : bool :=
  (a.1 =? b.1) && (a.2 =? b.2).

(** [v[i]] on a vector of pairs. *)
Definition vec_at (v : list (Z * Z)) (i : Z) : Z * Z :=
  nth (Z.to_nat i) v (0, 0).

(** [v[i].second = x]. *)
Definition set_second (v : list (Z * Z)) (i : Z) (x : Z) : list (Z * Z) :=
  <[Z.to_nat i := ((vec_at v i).1, x)]> v.

Definition vec_size {A} (v : list A) : Z := Z.of_nat (length v).

(** ** Node and Range helpers *)

Module Node.

(** Modelled from the spec: [Node::reverse] and [Node::is_reverse] are
    declared in a header that is not part of the sources; "reverse(n) flips
    the low bit; is_reverse(n) tests it". *)
Definition reverse (n : node_type) : node_type := Z.lxor n 1.
Definition is_reverse (n : node_type) : bool := negb (Z.land n 1 =? 0).

End Node.

Module Range.

(** Modelled from the spec: [Range::empty] and [Range::empty_range] are
    declared in a header that is not part of the sources; a range is a
    closed interval [(first, second)], empty when [first > second], and
    the canonical empty range is [(1, 0)]. *)
Definition empty (range : range_type) : bool := range.1 >? range.2.
Definition empty_range : range_type := (1, 0).

End Range.

(** ** Sorting edges

    Modelled from the spec: [sequentialSort] lives in a header that is not
    part of the sources; it sorts a vector in increasing order of the
    element type's [operator<], which for [std::pair] is lexicographic. *)

Definition edge_le (a b : edge_type) : Prop :=
  a.1 < b.1 \/ (a.1 = b.1 /\ a.2 <= b.2).

#[global] Instance edge_le_dec : RelDecision edge_le.
Proof. intros a b. unfold edge_le. apply _. Defined.

Definition sequentialSort (v : list edge_type) : list edge_type :=
  merge_sort edge_le v.

(** ** Binary search over the outgoing edges (free function [edgeTo]) *)

Fixpoint edgeTo_loop (fuel : nat) (to : node_type) (outgoing : list edge_type)
    (low high : Z) : rank_type :=
  match fuel with
  | O => vec_size outgoing
  | S fuel' =>
      if low <? high then
        let mid := low + (high - low) / 2 in
        if (vec_at outgoing mid).1 =? to then mid
        else if (vec_at outgoing mid).1 >? to
             then edgeTo_loop fuel' to outgoing low mid
             else edgeTo_loop fuel' to outgoing (mid + 1) high
      else vec_size outgoing
  end.

(** The interval [high - low] at least halves in every iteration, so
    [length outgoing] iterations always suffice (see [edgeTo_loop_fuel]). *)
Definition edgeTo (to : node_type) (outgoing : list edge_type) : rank_type :=
  edgeTo_loop (length outgoing) to outgoing 0 (vec_size outgoing).

(** ** DynamicRecord *)

Module DynamicRecord.

Record t := mk {
  body_size : size_type;
  incoming : list edge_type;
  outgoing : list edge_type;
  body : list run_type;
  ids : list sample_type
}.

Definition size (r : t) : size_type := body_size r.
Definition empty (r : t) : bool := size r =? 0.
Definition outdegree (r : t) : size_type := vec_size (outgoing r).
Definition runs (r : t) : size_type := vec_size (body r).
Definition samples (r : t) : size_type := vec_size (ids r).
Definition successor (r : t) (outrank : rank_type) : node_type :=
  (vec_at (outgoing r) outrank).1.
Definition offset (r : t) (outrank : rank_type) : size_type :=
  (vec_at (outgoing r) outrank).2.
Definition edgeTo (r : t) (to : node_type) : rank_type :=
  edgeTo to (outgoing r).

(** The scan of [recode] that looks for a successor smaller than the
    previous one. *)
Fixpoint sorted_scan (prev : node_type) (v : list edge_type) : bool :=
  match v with
  | [] => true
  | e :: v' => if e.1 <? prev then false else sorted_scan e.1 v'
  end.

Definition successors_sorted (v : list edge_type) : bool :=
  match v with
  | [] => true
  | e :: v' => sorted_scan e.1 v'
  end.

Definition recode (r : t) : t :=
  if empty r then r
  else if successors_sorted (outgoing r) then r
  else
    let body1 := map (fun run : run_type => (successor r run.1, run.2)) (body r) in
    let r1 := mk (body_size r) (incoming r) (sequentialSort (outgoing r)) body1 (ids r) in
    let body2 := map (fun run : run_type => (edgeTo r1 run.1, run.2)) body1 in
    mk (body_size r) (incoming r) (outgoing r1) body2 (ids r).

(** First loop of [removeUnusedEdges]: [used[run.first] = true]. *)
Definition mark_used (n : nat) (body : list run_type) : list bool :=
  fold_left (fun used (run : run_type) => <[Z.to_nat run.1 := true]> used)
            body (replicate n false).

(** Second loop of [removeUnusedEdges], one iteration:
    [outgoing[tail] = outgoing[i]; if(used[i]) tail++]. *)
Definition compact_step (used : list bool) (st : list edge_type * nat) (i : nat)
    : list edge_type * nat :=
  let out := st.1 in
  let tail := st.2 in
  (<[tail := nth i out (0, 0)]> out, if nth i used false then S tail else tail).

Definition compact (used : list bool) (outgoing : list edge_type) : list edge_type :=
  let st := fold_left (compact_step used) (seq 0 (length outgoing)) (outgoing, O) in
  take st.2 st.1.

Definition removeUnusedEdges (r : t) : t :=
  let used := mark_used (length (outgoing r)) (body r) in
  let body1 := map (fun run : run_type => (successor r run.1, run.2)) (body r) in
  let r1 := mk (body_size r) (incoming r) (compact used (outgoing r)) body1 (ids r) in
  let body2 := map (fun run : run_type => (edgeTo r1 run.1, run.2)) body1 in
  mk (body_size r) (incoming r) (outgoing r1) body2 (ids r).

(** [LFLoop] over an array of accumulators (the template function). The
    state is [(result, last_edge, offset)]. *)
Fixpoint LFLoop_array (result : list edge_type) (body : list run_type) (i : size_type)
    (last_edge : rank_type) (offset : size_type)
    : list edge_type * rank_type * size_type :=
  match body with
  | [] => (result, last_edge, offset)
  | run :: body' =>
      let result' := set_second result run.1 (wadd (vec_at result run.1).2 run.2) in
      let offset' := wadd offset run.2 in
      if offset' >? i then (result', run.1, offset')
      else LFLoop_array result' body' i run.1 offset'
  end.

Definition LFLoop_result (result : list edge_type) (body : list run_type) (i : size_type)
    : edge_type * size_type :=
  let '(result', last_edge, offset) := LFLoop_array result body i 0 0 in
  let result'' := set_second result' last_edge
                    (wsub (vec_at result' last_edge).2 (wsub offset i)) in
  (vec_at result'' last_edge, wsub offset 1).

(** [runLF(i, run_end)] returns the edge and the new value of [run_end].
    Both branches on [MAX_OUTDEGREE_FOR_ARRAY] run [LFLoop] over a copy of
    [outgoing]; the array of the first branch has uninitialised entries
    past [outdegree], which no rank of a well-formed body addresses. *)
Definition runLF (r : t) (i : size_type) (run_end : size_type) : edge_type * size_type :=
  if i >=? size r then (invalid_edge, run_end)
  else LFLoop_result (outgoing r) (body r) i.

Definition LF (r : t) (i : size_type) : edge_type := (runLF r i 0).1.

(** State of the iterator version of [LFLoop]: the arguments passed by
    reference. *)
Record lf_state := mk_lf {
  lf_iter : list run_type;
  lf_run : run_type;
  lf_offset : size_type;
  lf_result : size_type
}.

Fixpoint LFLoop_iter (iter : list run_type) (i : size_type) (outrank : rank_type)
    (run : run_type) (offset result : size_type) : lf_state :=
  match iter with
  | [] => mk_lf iter run offset result
  | run' :: iter' =>
      if offset <? i then
        LFLoop_iter iter' i outrank run' (wadd offset run'.2)
          (if run'.1 =? outrank then wadd result run'.2 else result)
      else mk_lf iter run offset result
  end.

Definition LFLoop (st : lf_state) (i : size_type) (outrank : rank_type)
    : size_type * lf_state :=
  let st' := LFLoop_iter (lf_iter st) i outrank (lf_run st) (lf_offset st) (lf_result st) in
  (wsub (lf_result st')
        (if (lf_run st').1 =? outrank then wsub (lf_offset st') i else 0), st').

Definition lf_init (r : t) (outrank : rank_type) : lf_state :=
  mk_lf (body r) (0, 0) 0 (offset r outrank).

Definition LF_to (r : t) (i : size_type) (to : node_type) : size_type :=
  let outrank := edgeTo r to in
  if outrank >=? outdegree r then invalid_offset
  else (LFLoop (lf_init r outrank) i outrank).1.

Definition LF_range (r : t) (range : range_type) (to : node_type) : range_type :=
  if Range.empty range then Range.empty_range
  else
    let outrank := edgeTo r to in
    if outrank >=? outdegree r then Range.empty_range
    else
      let '(first, st) := LFLoop (lf_init r outrank) range.1 outrank in
      let '(second, _) := LFLoop st (wadd range.2 1) outrank in
      (first, wsub second 1).

(** The counting loop of [bdLF]; the state is
    [(iter, run, offset, equal, reverse_offset)]. *)
Fixpoint bdLF_loop (iter : list run_type) (limit : size_type)
    (outrank reverse_rank : rank_type) (run : run_type)
    (offset equal reverse_offset : size_type)
    : run_type * size_type * size_type * size_type :=
  match iter with
  | [] => (run, offset, equal, reverse_offset)
  | run' :: iter' =>
      if offset <? limit then
        bdLF_loop iter' limit outrank reverse_rank run' (wadd offset run'.2)
          (if run'.1 =? outrank then wadd equal run'.2 else equal)
          (if run'.1 <? reverse_rank then wadd reverse_offset run'.2 else reverse_offset)
      else (run, offset, equal, reverse_offset)
  end.

(** [bdLF(range, to, reverse_offset)] returns the range and the new value
    of [reverse_offset]. *)
Definition bdLF (r : t) (range : range_type) (to : node_type) (reverse_offset : size_type)
    : range_type * size_type :=
  if Range.empty range then (Range.empty_range, reverse_offset)
  else
    let outrank := edgeTo r to in
    if outrank >=? outdegree r then (Range.empty_range, reverse_offset)
    else
      let '(sp, st) := LFLoop (lf_init r outrank) range.1 outrank in
      let reverse_rank0 := edgeTo r (Node.reverse to) in
      let '(reverse_rank, subtract_equal) :=
        if reverse_rank0 >=? outdegree r then (outrank, false)
        else if negb (Node.is_reverse to) then (wadd reverse_rank0 1, true)
        else (reverse_rank0, false) in
      let run := lf_run st in
      let offset := lf_offset st in
      let equal := if run.1 =? outrank then wsub offset range.1 else 0 in
      let reverse_offset1 := if run.1 <? reverse_rank then wsub offset range.1 else 0 in
      let second := wadd range.2 1 in
      let '(run', offset', equal', reverse_offset2) :=
        bdLF_loop (lf_iter st) second outrank reverse_rank run offset equal reverse_offset1 in
      let equal'' := if run'.1 =? outrank then wsub equal' (wsub offset' second) else equal' in
      let reverse_offset3 :=
        if run'.1 <? reverse_rank then wsub reverse_offset2 (wsub offset' second)
        else reverse_offset2 in
      let reverse_offset4 :=
        if subtract_equal then wsub reverse_offset3 equal'' else reverse_offset3 in
      ((sp, wsub (wadd sp equal'') 1), reverse_offset4).

(** [operator[]]. *)
Fixpoint at_loop (outgoing : list edge_type) (body : list run_type) (i offset : size_type)
    : node_type :=
  match body with
  | [] => ENDMARKER
  | run :: body' =>
      let offset' := wadd offset run.2 in
      if offset' >? i then (vec_at outgoing run.1).1
      else at_loop outgoing body' i offset'
  end.

Definition at_ (r : t) (i : size_type) : node_type :=
  if i >=? size r then ENDMARKER else at_loop (outgoing r) (body r) i 0.

(** [hasEdge(to)] and [edgeToLinear(to)]: a scan of the successors by
    increasing rank; [outrank] is the rank of the head of [outgoing]. *)
Fixpoint hasEdge_loop (outgoing : list edge_type) (to : node_type) : bool :=
  match outgoing with
  | [] => false
  | e :: outgoing' => if e.1 =? to then true else hasEdge_loop outgoing' to
  end.

Definition hasEdge (r : t) (to : node_type) : bool := hasEdge_loop (outgoing r) to.



(** [countBefore(from)] and [countUntil(from)]: the loops stop at the first
    predecessor that is not smaller than (not at most) [from]. *)
Fixpoint countBefore_loop (incoming : list edge_type) (from : node_type)
    (result : size_type) : size_type :=
  match incoming with
  | [] => result
  | e :: incoming' =>
      if e.1 <? from then countBefore_loop incoming' from (wadd result e.2) else result
  end.

Definition countBefore (r : t) (from : node_type) : size_type :=
  countBefore_loop (incoming r) from 0.

Fixpoint countUntil_loop (incoming : list edge_type) (from : node_type)
    (result : size_type) : size_type :=
  match incoming with
  | [] => result
  | e :: incoming' =>
      if e.1 <=? from then countUntil_loop incoming' from (wadd result e.2) else result
  end.

Definition countUntil (r : t) (from : node_type) : size_type :=
  countUntil_loop (incoming r) from 0.

Definition with_incoming (r : t) (v : list edge_type) : t :=
  mk (body_size r) v (outgoing r) (body r) (ids r).

(** [addIncoming(inedge)]. *)
Definition addIncoming (r : t) (inedge : edge_type) : t :=
  with_incoming r (sequentialSort (incoming r ++ [inedge])).

(** [increment(from)]: the loop adds one to the count of the first entry
    of [from] and returns; [None] when the loop finds no such entry. *)
Fixpoint increment_loop (incoming : list edge_type) (from : node_type)
    : option (list edge_type) :=
  match incoming with
  | [] => None
  | e :: incoming' =>
      if e.1 =? from then Some ((e.1, wadd e.2 1) :: incoming')
      else option_map (cons e) (increment_loop incoming' from)
  end.

Definition increment (r : t) (from : node_type) : t :=
  match increment_loop (incoming r) from with
  | Some v => with_incoming r v
  | None => addIncoming r (from, 1)
  end.

(** [nextSample(i)]: the iterator returned is the part of [ids] from the
    first sample whose offset is at least [i]. *)
Fixpoint nextSample_loop (curr : list sample_type) (i : size_type) : list sample_type :=
  match curr with
  | [] => []
  | s :: curr' => if s.1 <? i then nextSample_loop curr' i else curr
  end.

Definition nextSample (r : t) (i : size_type) : list sample_type :=
  nextSample_loop (ids r) i.

(** [clear()]. *)
Definition clear (r : t) : t := mk 0 [] [] [] [].

End DynamicRecord.

(** ** Byte codecs

    Modelled from the spec: the variable-byte integer codec [ByteCode] and
    the run codec [Run] are declared in a header that is not part of the
    sources.  [ByteCode] is the 7-bit-continuation scheme: seven data bits
    per byte, least significant group first, the high bit set on every byte
    but the last.  [Run] encodes a run over a rank space of size [sigma]:
    when [sigma] is small the rank and a short length share one byte
    ("the pair is combined"; for [sigma = 1] the byte is the length alone),
    and lengths that do not fit continue in a variable-byte integer; for
    large [sigma] the rank and the length are two variable-byte integers.

    Positions in a byte vector are indices of an in-memory vector and are
    modelled as [nat]; a byte is a [Z] in [0, 256). *)

Module ByteCode.

Definition DATA_BITS : Z := 7.
Definition DATA_MASK : Z := 127.
Definition NEXT_BYTE : Z := 128.

(** [write]: [while(value > DATA_MASK) { push((value & DATA_MASK) | NEXT_BYTE);
    value >>= DATA_BITS; } push(value)].  A 64-bit value leaves the loop
    after at most nine iterations. *)
Fixpoint write_loop (fuel : nat) (value : Z) : list byte_type :=
  match fuel with
  | O => [value]
  | S fuel' =>
      if value >? DATA_MASK
      then Z.lor (Z.land value DATA_MASK) NEXT_BYTE
             :: write_loop fuel' (Z.shiftr value DATA_BITS)
      else [value]
  end.

Definition encode (value : Z) : list byte_type := write_loop 10 value.

Definition write (array : list byte_type) (value : Z) : list byte_type :=
  array ++ encode value.

(** [read]: [tail] is the vector from [array[i]] on. *)
Fixpoint read_loop (tail : list byte_type) (i : nat) (offset res : Z) : Z * nat :=
  match tail with
  | [] => (res, S i)
  | b :: tail' =>
      if Z.land b NEXT_BYTE =? 0 then (res, S i)
      else
        let offset' := offset + DATA_BITS in
        read_loop tail' (S i) offset'
          (wadd res (wrap (Z.shiftl (Z.land (hd 0 tail') DATA_MASK) offset')))
  end.

Definition read (array : list byte_type) (i : nat) : Z * nat :=
  let tail := drop i array in
  read_loop tail i 0 (Z.land (hd 0 tail) DATA_MASK).

End ByteCode.

Module Run.

Record t := mk { sigma : Z; run_continues : Z }.

(** The constructor [Run(alphabet_size)]. *)
Definition make (alphabet_size : Z) : t :=
  mk alphabet_size (if alphabet_size <? 255 then 256 / alphabet_size else 0).

Definition encodeBasic (c : t) (value length : Z) : byte_type :=
  (value + sigma c * (length - 1)) mod 256.

Definition decodeBasic (c : t) (code : byte_type) : run_type :=
  (code mod sigma c, code / sigma c + 1).

Definition encode (c : t) (run : run_type) : list byte_type :=
  if run_continues c =? 0 then
    ByteCode.encode run.1 ++ ByteCode.encode (wsub run.2 1)
  else if run.2 <? run_continues c then
    [encodeBasic c run.1 run.2]
  else
    encodeBasic c run.1 (run_continues c)
      :: ByteCode.encode (wsub run.2 (run_continues c)).

Definition write (c : t) (array : list byte_type) (run : run_type) : list byte_type :=
  array ++ encode c run.

Definition read (c : t) (array : list byte_type) (i : nat) : run_type * nat :=
  if run_continues c =? 0 then
    let '(value, i1) := ByteCode.read array i in
    let '(length, i2) := ByteCode.read array i1 in
    ((value, wadd length 1), i2)
  else
    let run := decodeBasic c (nth i array 0) in
    if run.2 >=? run_continues c then
      let '(length, i2) := ByteCode.read array (S i) in
      ((run.1, wadd run.2 length), i2)
    else (run, S i).

End Run.

(** ** DynamicRecord::writeBWT *)

Fixpoint write_edges (data : list byte_type) (prev : node_type) (outgoing : list edge_type)
    : list byte_type :=
  match outgoing with
  | [] => data
  | outedge :: outgoing' =>
      let data1 := ByteCode.write data (wsub outedge.1 prev) in
      write_edges (ByteCode.write data1 outedge.2) outedge.1 outgoing'
  end.

Definition writeBWT (r : DynamicRecord.t) (data : list byte_type) : list byte_type :=
  let data1 := ByteCode.write data (DynamicRecord.outdegree r) in
  let data2 := write_edges data1 0 (DynamicRecord.outgoing r) in
  if DynamicRecord.outdegree r >? 0 then
    fold_left (Run.write (Run.make (DynamicRecord.outdegree r))) (DynamicRecord.body r) data2
  else data2.

(** ** CompressedRecord

    A view over the bytes of one record: the decoded [outgoing] edges, the
    pointer [body] to the run stream (the source vector from that position
    on) and the number [data_size] of bytes of the stream. *)

Module CompressedRecord.

Record t := mk {
  outgoing : list edge_type;
  body : list byte_type;
  data_size : nat
}.

(** The loop of the constructor over the [outdegree] edges. *)
Fixpoint read_edges (n : nat) (source : list byte_type) (start : nat) (prev : node_type)
    : list edge_type * nat :=
  match n with
  | O => ([], start)
  | S n' =>
      let '(delta, start1) := ByteCode.read source start in
      let first := wadd delta prev in
      let '(second, start2) := ByteCode.read source start1 in
      let '(rest, start3) := read_edges n' source start2 first in
      ((first, second) :: rest, start3)
  end.

(** The constructor [CompressedRecord(source, start, limit)]. *)
Definition make (source : list byte_type) (start limit : nat) : t :=
  let '(outdegree, start1) := ByteCode.read source start in
  let '(outgoing, start2) := read_edges (Z.to_nat outdegree) source start1 0 in
  mk outgoing (drop start2 source) (limit - start2).

Definition emptyRecord (source : list byte_type) (start : nat) : bool :=
  (ByteCode.read source start).1 =? 0.

Definition outdegree (c : t) : size_type := vec_size (outgoing c).
Definition successor (c : t) (outrank : rank_type) : node_type :=
  (vec_at (outgoing c) outrank).1.
Definition offset (c : t) (outrank : rank_type) : size_type :=
  (vec_at (outgoing c) outrank).2.
Definition edgeTo (c : t) (to : node_type) : rank_type := edgeTo to (outgoing c).

(** *** Iterators over the run stream

    Modelled from the spec: the iterator classes are declared in a header
    that is not part of the sources.  All three read the first run when
    they are constructed and keep the current run, the cumulative offset
    after it ([record_offset]) and two byte positions; the iterator is at
    its end when the current byte position has reached [data_size].
    - forward iterator: nothing more;
    - array / full iterator: a copy [ranks] of [outgoing] whose offsets
      are advanced by every run read;
    - rank iterator, bound to the rank [value]: [result], which starts at
      [offset(value)] and accumulates the lengths of the runs of [value]. *)

Record iterator := mk_iter {
  record_offset : size_type;
  curr_offset : nat;
  next_offset : nat;
  run : run_type;
  ranks : list edge_type;
  value : rank_type;
  result : size_type
}.

Inductive kind := Forward | Full | Rank.

Definition at_end (c : t) (it : iterator) : bool :=
  (data_size c <=? curr_offset it)%nat.

(** [read()]: decode the next run and update the accumulators. *)
Definition read (k : kind) (c : t) (it : iterator) : iterator :=
  if at_end c it then it
  else
    let '(run', next) := Run.read (Run.make (outdegree c)) (body c) (next_offset it) in
    mk_iter (wadd (record_offset it) run'.2) (curr_offset it) next run'
      (match k with
       | Full => set_second (ranks it) run'.1 (wadd (vec_at (ranks it) run'.1).2 run'.2)
       | _ => ranks it
       end)
      (value it)
      (match k with
       | Rank => if run'.1 =? value it then wadd (result it) run'.2 else result it
       | _ => result it
       end).

(** The constructors. *)
Definition forward_iterator (c : t) : iterator :=
  read Forward c (mk_iter 0 O O (0, 0) [] 0 0).
Definition full_iterator (c : t) : iterator :=
  read Full c (mk_iter 0 O O (0, 0) (outgoing c) 0 0).
Definition rank_iterator (c : t) (outrank : rank_type) : iterator :=
  read Rank c (mk_iter 0 O O (0, 0) [] outrank (offset c outrank)).

(** [operator++]. *)
Definition next (k : kind) (c : t) (it : iterator) : iterator :=
  read k c (mk_iter (record_offset it) (next_offset it) (next_offset it) (run it)
              (ranks it) (value it) (result it)).

(** Every run takes at least one byte, so a loop that advances the
    iterator until its end runs at most [data_size + 1] times. *)
Definition fuel_of (c : t) : nat := S (data_size c).

(** [size()]. *)
Fixpoint size_loop (fuel : nat) (c : t) (it : iterator) (result : size_type) : size_type :=
  match fuel with
  | O => result
  | S fuel' =>
      if at_end c it then result
      else size_loop fuel' c (next Forward c it) (wadd result (run it).2)
  end.

Definition size (c : t) : size_type :=
  if outdegree c >? 0 then size_loop (fuel_of c) c (forward_iterator c) 0 else 0.

(** [edgeAt(i)] of the array and full iterators; returns the edge and the
    iterator it leaves behind. *)
Fixpoint edgeAt (fuel : nat) (c : t) (it : iterator) (i : size_type)
    : edge_type * iterator :=
  match fuel with
  | O => (invalid_edge, it)
  | S fuel' =>
      if at_end c it then (invalid_edge, it)
      else if record_offset it >? i then
        let temp := vec_at (ranks it) (run it).1 in
        ((temp.1, wsub temp.2 (wsub (record_offset it) i)), it)
      else edgeAt fuel' c (next Full c it) i
  end.

(** [runLF(i, run_end)].  The array and the full iterator differ only in
    where the accumulators live. *)
Definition runLF (c : t) (i : size_type) (run_end : size_type) : edge_type * size_type :=
  if outdegree c =? 0 then (invalid_edge, run_end)
  else
    let '(result, it) := edgeAt (fuel_of c) c (full_iterator c) i in
    if negb (edge_eqb result invalid_edge) then (result, wsub (record_offset it) 1)
    else (result, run_end).

Definition LF (c : t) (i : size_type) : edge_type := (runLF c i 0).1.

(** [rankAt(i)] of the rank iterator. *)
Fixpoint seek (fuel : nat) (c : t) (it : iterator) (i : size_type) : iterator :=
  match fuel with
  | O => it
  | S fuel' =>
      if negb (at_end c it) && (record_offset it <? i)
      then seek fuel' c (next Rank c it) i
      else it
  end.

Definition rankAt (c : t) (it : iterator) (i : size_type) : size_type * iterator :=
  let it' := seek (fuel_of c) c it i in
  (if (i <? record_offset it') && ((run it').1 =? value it')
   then wsub (result it') (wsub (record_offset it') i)
   else result it', it').

Definition LF_to (c : t) (i : size_type) (to : node_type) : size_type :=
  let outrank := edgeTo c to in
  if outrank >=? outdegree c then invalid_offset
  else (rankAt c (rank_iterator c outrank) i).1.

Definition LF_range (c : t) (range : range_type) (to : node_type) : range_type :=
  if Range.empty range then Range.empty_range
  else
    let outrank := edgeTo c to in
    if outrank >=? outdegree c then Range.empty_range
    else
      let '(first, it) := rankAt c (rank_iterator c outrank) range.1 in
      let '(second, _) := rankAt c it (wadd range.2 1) in
      (first, wsub second 1).

(** The counting loop of [bdLF]. *)
Fixpoint bdLF_loop (fuel : nat) (c : t) (it : iterator) (limit : size_type)
    (outrank reverse_rank : rank_type) (reverse_offset : size_type)
    : iterator * size_type :=
  match fuel with
  | O => (it, reverse_offset)
  | S fuel' =>
      if negb (at_end c it) && (record_offset it <? limit) then
        let it' := next Rank c it in
        bdLF_loop fuel' c it' limit outrank reverse_rank
          (if ((run it').1 <? reverse_rank) && negb ((run it').1 =? outrank)
           then wadd reverse_offset (run it').2 else reverse_offset)
      else (it, reverse_offset)
  end.

Definition bdLF (c : t) (range : range_type) (to : node_type) (reverse_offset : size_type)
    : range_type * size_type :=
  if Range.empty range then (Range.empty_range, reverse_offset)
  else
    let outrank := edgeTo c to in
    if outrank >=? outdegree c then (Range.empty_range, reverse_offset)
    else
      let '(sp, it) := rankAt c (rank_iterator c outrank) range.1 in
      let reverse_rank0 := edgeTo c (Node.reverse to) in
      let reverse_rank :=
        if reverse_rank0 >=? outdegree c then outrank
        else if negb (Node.is_reverse to) then wadd reverse_rank0 1
        else reverse_rank0 in
      let counted (x : rank_type) := (x <? reverse_rank) && negb (x =? outrank) in
      let reverse_offset1 :=
        if counted (run it).1 then wsub (record_offset it) range.1 else 0 in
      let second := wadd range.2 1 in
      let '(it', reverse_offset2) :=
        bdLF_loop (fuel_of c) c it second outrank reverse_rank reverse_offset1 in
      let reverse_offset3 :=
        if counted (run it').1 then wsub reverse_offset2 (wsub (record_offset it') second)
        else reverse_offset2 in
      let '(ep, _) := rankAt c it' second in
      ((sp, wsub ep 1), reverse_offset3).

(** [operator[]]. *)
Fixpoint at_loop (fuel : nat) (c : t) (it : iterator) (i : size_type) : node_type :=
  match fuel with
  | O => ENDMARKER
  | S fuel' =>
      if at_end c it then ENDMARKER
      else if record_offset it >? i then successor c (run it).1
      else at_loop fuel' c (next Forward c it) i
  end.

Definition at_ (c : t) (i : size_type) : node_type :=
  if outdegree c =? 0 then ENDMARKER
  else at_loop (fuel_of c) c (forward_iterator c) i.

(** [runs()]. *)
Fixpoint runs_loop (fuel : nat) (c : t) (it : iterator) (result : size_type) : size_type :=
  match fuel with
  | O => result
  | S fuel' =>
      if at_end c it then result
      else runs_loop fuel' c (next Forward c it) (wadd result 1)
  end.

Definition runs (c : t) : size_type :=
  if outdegree c >? 0 then runs_loop (fuel_of c) c (forward_iterator c) 0 else 0.

(** [hasEdge(to)]. *)
Definition hasEdge (c : t) (to : node_type) : bool :=
  DynamicRecord.hasEdge_loop (outgoing c) to.

End CompressedRecord.

(** The record obtained by encoding [r] alone and parsing the bytes. *)
Definition compress (r : DynamicRecord.t) : CompressedRecord.t :=
  let data := writeBWT r [] in
  CompressedRecord.make data 0 (length data).

(** ** Paths

    [reversePath(path)] reverses the vector in place and then flips the
    orientation of every node; [reversePath(path, output)] appends the
    flipped nodes to [output], reading [path] from its end. *)

Definition reversePath (path : list node_type) : list node_type :=
  map Node.reverse (rev path).

Definition reversePath_into (path output : list node_type) : list node_type :=
  fold_left (fun out node => out ++ [Node.reverse node]) (rev path) output.

(** ** DecompressedRecord

    The record with one edge per position. *)

Module DecompressedRecord.

Record t := mk {
  outgoing : list edge_type;
  after : list edge_type;
  body : list edge_type
}.

Definition size (d : t) : size_type := vec_size (body d).
Definition empty (d : t) : bool := size d =? 0.
Definition outdegree (d : t) : size_type := vec_size (outgoing d).
Definition successor (d : t) (outrank : rank_type) : node_type :=
  (vec_at (outgoing d) outrank).1.

(** The inner loop of the constructors, for a run of [n] positions of
    [rank]: [body.push_back(after[rank]); after[rank].second++]. *)
Fixpoint push_run (n : nat) (rank : rank_type) (st : list edge_type * list edge_type)
    : list edge_type * list edge_type :=
  match n with
  | O => st
  | S n' =>
      push_run n' rank
        (set_second st.1 rank (wadd (vec_at st.1 rank).2 1), st.2 ++ [vec_at st.1 rank])
  end.

(** [DecompressedRecord(const DynamicRecord&)]. *)
Definition of_dynamic (source : DynamicRecord.t) : t :=
  let st := fold_left (fun st (run : run_type) => push_run (Z.to_nat run.2) run.1 st)
                      (DynamicRecord.body source) (DynamicRecord.outgoing source, []) in
  mk (DynamicRecord.outgoing source) st.1 st.2.

(** [DecompressedRecord(const CompressedRecord&)]: the same loop over the
    runs read with the forward iterator. *)
Fixpoint of_compressed_loop (fuel : nat) (c : CompressedRecord.t)
    (it : CompressedRecord.iterator) (st : list edge_type * list edge_type)
    : list edge_type * list edge_type :=
  match fuel with
  | O => st
  | S fuel' =>
      if CompressedRecord.at_end c it then st
      else
        let run := CompressedRecord.run it in
        of_compressed_loop fuel' c (CompressedRecord.next CompressedRecord.Forward c it)
          (push_run (Z.to_nat run.2) run.1 st)
  end.

Definition of_compressed (source : CompressedRecord.t) : t :=
  let st := of_compressed_loop (CompressedRecord.fuel_of source) source
              (CompressedRecord.forward_iterator source)
              (CompressedRecord.outgoing source, []) in
  mk (CompressedRecord.outgoing source) st.1 st.2.

(** [runs()]; the state of the loop is [(result, prev)]. *)
Definition runs (d : t) : size_type :=
  if empty d then 0
  else
    (fold_left (fun (st : size_type * node_type) (edge : edge_type) =>
                  if negb (edge.1 =? st.2) then (wadd st.1 1, edge.1) else st)
               (body d) (0, invalid_node)).1.

Definition LF (d : t) (i : size_type) : edge_type :=
  if i >=? size d then invalid_edge else vec_at (body d) i.

(** The loop of [runLF]: it advances [run_end] at most [size()] times. *)
Fixpoint runLF_loop (fuel : nat) (d : t) (i run_end : size_type) : size_type :=
  match fuel with
  | O => run_end
  | S fuel' =>
      if (wadd run_end 1 <? size d)
         && ((vec_at (body d) (wadd run_end 1)).1 =? (vec_at (body d) i).1)
      then runLF_loop fuel' d i (wadd run_end 1)
      else run_end
  end.

Definition runLF (d : t) (i : size_type) (run_end : size_type) : edge_type * size_type :=
  if i >=? size d then (invalid_edge, run_end)
  else (vec_at (body d) i, runLF_loop (length (body d)) d i i).

Definition at_ (d : t) (i : size_type) : node_type :=
  if i >=? size d then ENDMARKER else (vec_at (body d) i).1.

Definition hasEdge (d : t) (to : node_type) : bool :=
  DynamicRecord.hasEdge_loop (outgoing d) to.

End DecompressedRecord.

(** ** Succinct vectors

    Modelled from the spec: the bit vectors with [rank] / [select] support
    and the packed integer vector belong to an external library.  A sparse
    bit vector is given by its length and the increasing positions of its
    1-bits, set through a builder; [select(k)] is the position of the
    [k]-th 1-bit (counting from 1), [rank(i)] the number of 1-bits before
    position [i], and [v[i]] tells whether position [i] holds a 1-bit. *)

Module sdsl.

Record sd_vector := mk_sd { sd_size : Z; sd_ones : list Z }.

(** The builder: [set(i)] appends a 1-bit position. *)
Definition sd_empty (size : Z) : sd_vector := mk_sd size [].
Definition sd_set (v : sd_vector) (i : Z) : sd_vector :=
  mk_sd (sd_size v) (sd_ones v ++ [i]).

Definition select_1 (v : sd_vector) (k : Z) : Z :=
  nth (Z.to_nat (k - 1)) (sd_ones v) (sd_size v).
Definition rank_1 (v : sd_vector) (i : Z) : Z :=
  Z.of_nat (length (List.filter (fun p => p <? i) (sd_ones v))).
Definition sd_get (v : sd_vector) (i : Z) : bool :=
  existsb (fun p => p =? i) (sd_ones v).

(** A plain bit vector and its rank support. *)
Definition bit_get (v : list bool) (i : Z) : bool := nth (Z.to_nat i) v false.
Definition bit_set (v : list bool) (i : Z) : list bool := <[Z.to_nat i := true]> v.
Definition bit_rank (v : list bool) (i : Z) : Z :=
  Z.of_nat (length (List.filter (fun b : bool => b) (take (Z.to_nat i) v))).

(** A packed integer vector; every entry written fits its width. *)
Definition int_get (v : list Z) (i : Z) : Z := nth (Z.to_nat i) v 0.

End sdsl.

(** ** RecordArray *)

Module RecordArray.

Record t := mk {
  records : size_type;
  index : sdsl.sd_vector;
  data : list byte_type
}.

Definition size (a : t) : size_type := records a.
Definition empty (a : t) : bool := size a =? 0.

(** Modelled from the spec: [start] and [limit] are declared in a header
    that is not part of the sources; "start(i) = select(i+1), limit(i) =
    select(i+2) (or data.size() for the last record)". *)
Definition start (a : t) (record : size_type) : size_type :=
  sdsl.select_1 (index a) (wadd record 1).
Definition limit (a : t) (record : size_type) : size_type :=
  if wadd record 1 <? records a then sdsl.select_1 (index a) (wadd record 2)
  else vec_size (data a).

(** [buildIndex(offsets)]. *)
Definition buildIndex (data : list byte_type) (offsets : list Z) : sdsl.sd_vector :=
  fold_left sdsl.sd_set offsets (sdsl.sd_empty (vec_size data)).

(** The constructor from a vector of dynamic records. *)
Definition build_step (st : list Z * list byte_type) (r : DynamicRecord.t)
    : list Z * list byte_type :=
  (st.1 ++ [vec_size st.2], writeBWT r st.2).

Definition build (bwt : list DynamicRecord.t) : t :=
  let st := fold_left build_step bwt ([], []) in
  mk (vec_size bwt) (buildIndex st.2 st.1) st.2.

(** The runs of a compressed record, read with the forward iterator. *)
Fixpoint read_runs (fuel : nat) (c : CompressedRecord.t) (it : CompressedRecord.iterator)
    : list run_type :=
  match fuel with
  | O => []
  | S fuel' =>
      if CompressedRecord.at_end c it then []
      else CompressedRecord.run it
             :: read_runs fuel' c (CompressedRecord.next CompressedRecord.Forward c it)
  end.

(** One iteration of the loop that merges the endmarkers; the state is
    the record [merged] and the vector [limits]. *)
Definition merge_endmarker_step (sources : list t)
    (st : DynamicRecord.t * list Z) (i : nat) : DynamicRecord.t * list Z :=
  let merged := st.1 in
  let source := nth i sources (mk 0 (sdsl.sd_empty 0) []) in
  if empty source then st
  else
    let start := start source ENDMARKER in
    let limit := limit source ENDMARKER in
    let record := CompressedRecord.make (data source) (Z.to_nat start) (Z.to_nat limit) in
    let runs := read_runs (CompressedRecord.fuel_of record) record
                  (CompressedRecord.forward_iterator record) in
    let merged1 :=
      fold_left (fun (m : DynamicRecord.t) (run : run_type) =>
                   DynamicRecord.mk (wadd (DynamicRecord.body_size m) run.2)
                     (DynamicRecord.incoming m) (DynamicRecord.outgoing m)
                     (DynamicRecord.body m ++ [(wadd run.1 (DynamicRecord.outdegree m), run.2)])
                     (DynamicRecord.ids m))
                runs merged in
    let merged2 :=
      fold_left (fun (m : DynamicRecord.t) (outedge : edge_type) =>
                   DynamicRecord.mk (DynamicRecord.body_size m) (DynamicRecord.incoming m)
                     (DynamicRecord.outgoing m ++ [outedge]) (DynamicRecord.body m)
                     (DynamicRecord.ids m))
                (CompressedRecord.outgoing record) merged1 in
    (merged2, <[i := limit]> st.2).

(** The merged endmarker, after [recode], and the vector [limits]. *)
Definition merge_endmarker (sources : list t) : DynamicRecord.t * list Z :=
  let st := fold_left (merge_endmarker_step sources) (seq 0 (length sources))
              (DynamicRecord.mk 0 [] [] [] [], replicate (length sources) 0) in
  (DynamicRecord.recode st.1, st.2).

(** One iteration of the loop that copies the other records; the state is
    [(data, offsets, limits)]. *)
Definition merge_records_step (sources : list t) (origins record_offsets : list Z)
    (st : list byte_type * list Z * list Z) (comp : nat)
    : list byte_type * list Z * list Z :=
  let '(data, offsets, limits) := st in
  let offsets1 := <[comp := vec_size data]> offsets in
  let origin := nth comp origins 0 in
  if origin >=? vec_size sources then (data ++ [0], offsets1, limits)
  else
    let source := nth (Z.to_nat origin) sources (mk 0 (sdsl.sd_empty 0) []) in
    let start := nth (Z.to_nat origin) limits 0 in
    let limit := limit source (wsub (Z.of_nat comp) (nth (Z.to_nat origin) record_offsets 0)) in
    let copied := map (fun i => nth i (RecordArray.data source) 0)
                      (seq (Z.to_nat start) (Z.to_nat limit - Z.to_nat start)) in
    (data ++ copied, offsets1, <[Z.to_nat origin := limit]> limits).

(** The merging constructor. *)
Definition merge (sources : list t) (origins record_offsets : list Z) : t :=
  let '(merged, limits) := merge_endmarker sources in
  let data0 := writeBWT merged [] in
  let '(data, offsets, _) :=
    fold_left (merge_records_step sources origins record_offsets)
              (seq 1 (length origins - 1))
              (data0, replicate (length origins) 0, limits) in
  mk (vec_size origins) (buildIndex data offsets) data.

End RecordArray.

(** ** DASamples *)

(** Modelled from the spec: [bit_length] is declared in a header that is
    not part of the sources; it is the number of bits of a value, and 1
    for the value 0. *)
Definition bit_length (val : size_type) : size_type := Z.log2 val + 1.

(** Modelled from the spec: [invalid_sample] is declared in a header that
    is not part of the sources; it is the sentinel sample, both of whose
    components are the largest 64-bit value. *)
Definition invalid_sample : sample_type := (invalid_offset, invalid_sequence).

Module DASamples.

Record t := mk {
  sampled_records : list bool;
  bwt_ranges : sdsl.sd_vector;
  sampled_offsets : sdsl.sd_vector;
  array : list Z
}.

(** First loop of the constructor; the state is
    [(record_count, bwt_offsets, sample_count, sampled_records)] and [i]
    is the index of [r]. *)
Definition count_step (st : Z * Z * Z * list bool) (ir : nat * DynamicRecord.t)
    : Z * Z * Z * list bool :=
  let '(record_count, bwt_offsets, sample_count, sampled) := st in
  let '(i, r) := ir in
  if DynamicRecord.samples r >? 0 then
    (wadd record_count 1, wadd bwt_offsets (DynamicRecord.size r),
     wadd sample_count (DynamicRecord.samples r), sdsl.bit_set sampled (Z.of_nat i))
  else st.

(** Second loop; the state is
    [(range_builder, offset_builder, offset, max_sample)]. *)
Definition mark_step (st : sdsl.sd_vector * sdsl.sd_vector * Z * Z) (r : DynamicRecord.t)
    : sdsl.sd_vector * sdsl.sd_vector * Z * Z :=
  let '(range_builder, offset_builder, offset, max_sample) := st in
  if DynamicRecord.samples r >? 0 then
    let range_builder1 := sdsl.sd_set range_builder offset in
    let '(offset_builder1, max_sample1) :=
      fold_left (fun (b : sdsl.sd_vector * Z) (sample : sample_type) =>
                   (sdsl.sd_set b.1 (wadd offset sample.1), Z.max b.2 sample.2))
                (DynamicRecord.ids r) (offset_builder, max_sample) in
    (range_builder1, offset_builder1, wadd offset (DynamicRecord.size r), max_sample1)
  else st.

(** Third loop; the state is [(array, curr)] and [width] the width of the
    entries of [array]. *)
Definition store_step (width : Z) (st : list Z * Z) (r : DynamicRecord.t) : list Z * Z :=
  if DynamicRecord.samples r >? 0 then
    fold_left (fun (b : list Z * Z) (sample : sample_type) =>
                 (<[Z.to_nat b.2 := sample.2 mod 2 ^ width]> b.1, wadd b.2 1))
              (DynamicRecord.ids r) st
  else st.

(** The constructor from a vector of dynamic records. *)
Definition build (bwt : list DynamicRecord.t) : t :=
  let '(record_count, bwt_offsets, sample_count, sampled) :=
    fold_left count_step (combine (seq 0 (length bwt)) bwt)
              (0, 0, 0, replicate (length bwt) false) in
  let '(range_builder, offset_builder, _, max_sample) :=
    fold_left mark_step bwt (sdsl.sd_empty bwt_offsets, sdsl.sd_empty bwt_offsets, 0, 0) in
  let '(array, _) :=
    fold_left (store_step (bit_length max_sample)) bwt
              (replicate (Z.to_nat sample_count) 0, 0) in
  mk sampled range_builder offset_builder array.

(** Modelled from the spec: [isSampled] and [start] are declared in a
    header that is not part of the sources; a record is sampled when its
    bit of [sampled_records] is set, and
    "record_start = bwt_select(record_rank(record) + 1)". *)
Definition isSampled (s : t) (record : size_type) : bool :=
  sdsl.bit_get (sampled_records s) record.
Definition start (s : t) (record : size_type) : size_type :=
  sdsl.select_1 (bwt_ranges s) (wadd (sdsl.bit_rank (sampled_records s) record) 1).

Definition tryLocate (s : t) (record offset : size_type) : size_type :=
  if negb (isSampled s record) then invalid_sequence
  else
    let record_start := start s record in
    if sdsl.sd_get (sampled_offsets s) (wadd record_start offset)
    then sdsl.int_get (array s) (sdsl.rank_1 (sampled_offsets s) (wadd record_start offset))
    else invalid_sequence.

(** [nextSample(record, offset)]. *)
Definition nextSample (s : t) (record offset : size_type) : sample_type :=
  if negb (isSampled s record) then invalid_sample
  else
    let record_start := start s record in
    let rank := sdsl.rank_1 (sampled_offsets s) (wadd record_start offset) in
    if rank <? vec_size (array s)
    then (wsub (sdsl.select_1 (sampled_offsets s) (wadd rank 1)) record_start,
          sdsl.int_get (array s) rank)
    else invalid_sample.

(** [limit(rank)]. *)
Definition limit (s : t) (rank : size_type) : size_type :=
  let rank_limit := sdsl.bit_rank (sampled_records s) (vec_size (sampled_records s)) in
  if wadd rank 1 <? rank_limit then sdsl.select_1 (bwt_ranges s) (wadd rank 2)
  else sdsl.sd_size (bwt_ranges s).

End DASamples.

(** ** Dictionary *)

(** [stringCompare(a_pos, a_lim, b_pos, b_lim)] on the two character
    sequences. *)
Fixpoint stringCompare (a b : list Z) : bool :=
  match a, b with
  | x :: a', y :: b' => if negb (x =? y) then x <? y else stringCompare a' b'
  | [], _ :: _ => true
  | _, _ => false
  end.

Module Dictionary.

Record t := mk {
  offsets : list Z;
  sorted_ids : list Z;
  data : list Z
}.

(** [Dictionary()]. *)
Definition default : t := mk [0] [] [].

(** Modelled from the spec: [size], [empty] and the lookup by id are
    declared in a header that is not part of the sources; the dictionary
    has one entry per element of [sorted_ids], and the string with id [i]
    is the part of [data] between [offsets[i]] and [offsets[i + 1]]
    ("lookup by id (offsets into a flat byte buffer)"). *)
Definition size (d : t) : size_type := vec_size (sorted_ids d).
Definition empty (d : t) : bool := size d =? 0.
Definition between (d : t) (first last : Z) : list Z :=
  take (Z.to_nat (last - first)) (drop (Z.to_nat first) (data d)).
Definition at_ (d : t) (i : size_type) : list Z :=
  between d (sdsl.int_get (offsets d) i) (sdsl.int_get (offsets d) (i + 1)).

(** The three overloads of [smaller]. *)
Definition smaller (d : t) (a b : size_type) : bool :=
  stringCompare (at_ d (sdsl.int_get (sorted_ids d) a))
                (at_ d (sdsl.int_get (sorted_ids d) b)).
Definition smaller_id_string (d : t) (a : size_type) (b : list Z) : bool :=
  stringCompare (at_ d (sdsl.int_get (sorted_ids d) a)) b.
Definition smaller_string_id (d : t) (a : list Z) (b : size_type) : bool :=
  stringCompare a (at_ d (sdsl.int_get (sorted_ids d) b)).

(** The sort of [sorted_ids]; the comparator is [smaller], which reads
    [sorted_ids] itself: the model evaluates it on the vector as it is
    when the sort starts. *)
Definition before (d : t) (a b : size_type) : Prop := smaller d a b = true.

#[export] Instance before_dec d a b : Decision (before d a b).
Proof. unfold before. apply _. Defined.

Definition sort_ids (d : t) : list Z := merge_sort (before d) (sorted_ids d).

(** An entry of a packed vector of the given width. *)
Definition stored (width v : Z) : Z := v mod 2 ^ width.

(** [Dictionary(source)]. *)
Definition make (source : list (list Z)) : t :=
  match source with
  | [] => default
  | _ =>
      let total_length := fold_left (fun n (s : list Z) => wadd n (vec_size s)) source 0 in
      let width := bit_length total_length in
      let '(offs, dat, _) :=
        fold_left (fun (st : list Z * list Z * Z) (s : list Z) =>
                     let '(offs, dat, offset) := st in
                     (offs ++ [stored width offset], dat ++ s, wadd offset (vec_size s)))
                  source ([], [], 0) in
      let offs1 := offs ++ [stored width total_length] in
      let d := mk offs1 (seqZ 0 (vec_size source)) dat in
      mk offs1 (sort_ids d) dat
  end.

Definition clear (d : t) : t := default.

Fixpoint find_loop (fuel : nat) (d : t) (s : list Z) (start limit : size_type)
    : size_type :=
  match fuel with
  | O => size d
  | S fuel' =>
      if start <? limit then
        let mid := wadd start (wsub limit start / 2) in
        if smaller_string_id d s mid then find_loop fuel' d s start mid
        else if smaller_id_string d mid s then find_loop fuel' d s (wadd mid 1) limit
        else sdsl.int_get (sorted_ids d) mid
      else size d
  end.

Definition find (d : t) (s : list Z) : size_type :=
  find_loop (S (Z.to_nat (size d))) d s 0 (size d).

(** [append(source)].  The second loop writes every offset of the source
    to the entry [this->size() + 1]; [sorted_ids] is rebuilt after it, so
    [this->size()] is still the old size there. *)
Definition append (d source : t) : t :=
  if empty source then d
  else
    let old_data_size := vec_size (data d) in
    let old_size := size d in
    let new_size := wadd (size d) (size source) in
    let new_data := data d ++ data source in
    let width := bit_length (vec_size new_data) in
    let new_offsets :=
      replicate (Z.to_nat (wadd (wadd old_size (size source)) 1)) 0 in
    let new_offsets1 :=
      fold_left (fun v i => <[Z.to_nat i := stored width (sdsl.int_get (offsets d) i)]> v)
                (seqZ 0 old_size) new_offsets in
    let new_offsets2 :=
      fold_left (fun v i =>
                   <[Z.to_nat (wadd (size d) 1)
                     := stored width (wadd old_data_size (sdsl.int_get (offsets source) i))]> v)
                (seqZ 0 (size source + 1)) new_offsets1 in
    let d1 := mk new_offsets2 (seqZ 0 new_size) new_data in
    mk new_offsets2 (sort_ids d1) new_data.

End Dictionary.

(** ** Metadata *)

Module PathName.

(** Modelled from the spec: "a fixed struct {sample, contig, phase,
    count}"; the fields are 32-bit. *)
Record t := mk { sample : Z; contig : Z; phase : Z; count : Z }.

Definition shift (p : t) (sample_offset contig_offset : size_type) : t :=
  mk ((sample p + sample_offset) mod 2 ^ 32) ((contig p + contig_offset) mod 2 ^ 32)
     (phase p) (count p).

End PathName.

Module Metadata.

Record t := mk {
  tag : Z;
  version : Z;
  sample_count : size_type;
  haplotype_count : size_type;
  contig_count : size_type;
  flags : size_type;
  path_names : list PathName.t;
  sample_names : Dictionary.t;
  contig_names : Dictionary.t
}.

(** Modelled from the spec: the flag constants and the accessors are
    declared in a header that is not part of the sources; [flags] is "a
    bitflag field indicating which optional sections are present (path
    names, sample names, contig names)", one bit per section. *)
Definition FLAG_PATH_NAMES : size_type := 1.
Definition FLAG_SAMPLE_NAMES : size_type := 2.
Definition FLAG_CONTIG_NAMES : size_type := 4.

Definition get (m : t) (flag : size_type) : bool := negb (Z.land (flags m) flag =? 0).
Definition with_flags (m : t) (f : size_type) : t :=
  mk (tag m) (version m) (sample_count m) (haplotype_count m) (contig_count m) f
     (path_names m) (sample_names m) (contig_names m).
Definition set (m : t) (flag : size_type) : t := with_flags m (Z.lor (flags m) flag).
Definition unset (m : t) (flag : size_type) : t :=
  with_flags m (Z.land (flags m) (wrap (Z.lnot flag))).

Definition samples (m : t) : size_type := sample_count m.
Definition haplotypes (m : t) : size_type := haplotype_count m.
Definition contigs (m : t) : size_type := contig_count m.
Definition paths (m : t) : size_type := vec_size (path_names m).
Definition hasPathNames (m : t) : bool := get m FLAG_PATH_NAMES.
Definition hasSampleNames (m : t) : bool := get m FLAG_SAMPLE_NAMES.
Definition hasContigNames (m : t) : bool := get m FLAG_CONTIG_NAMES.

Definition with_path_names (m : t) (p : list PathName.t) : t :=
  mk (tag m) (version m) (sample_count m) (haplotype_count m) (contig_count m) (flags m)
     p (sample_names m) (contig_names m).
Definition with_sample_names (m : t) (d : Dictionary.t) : t :=
  mk (tag m) (version m) (sample_count m) (haplotype_count m) (contig_count m) (flags m)
     (path_names m) d (contig_names m).
Definition with_contig_names (m : t) (d : Dictionary.t) : t :=
  mk (tag m) (version m) (sample_count m) (haplotype_count m) (contig_count m) (flags m)
     (path_names m) (sample_names m) d.
Definition with_samples (m : t) (samples haplotypes : size_type) : t :=
  mk (tag m) (version m) samples haplotypes (contig_count m) (flags m)
     (path_names m) (sample_names m) (contig_names m).
Definition with_contigs (m : t) (contigs : size_type) : t :=
  mk (tag m) (version m) (sample_count m) (haplotype_count m) contigs (flags m)
     (path_names m) (sample_names m) (contig_names m).

Definition clearPathNames (m : t) : t :=
  with_path_names (unset m FLAG_PATH_NAMES) [].
Definition clearSampleNames (m : t) : t :=
  let m1 := unset m FLAG_SAMPLE_NAMES in
  with_sample_names m1 (Dictionary.clear (sample_names m1)).
Definition clearContigNames (m : t) : t :=
  let m1 := unset m FLAG_CONTIG_NAMES in
  with_contig_names m1 (Dictionary.clear (contig_names m1)).

(** The three parts of [merge(source, same_samples, same_contigs)]; the
    first two also give the offset of the source's samples and contigs. *)
Definition merge_samples (m source : t) (same_samples : bool) : t * size_type :=
  if same_samples then
    (if negb (hasSampleNames m) && hasSampleNames source
     then with_sample_names m (sample_names source) else m, 0)
  else
    let source_sample_offset := samples m in
    let m1 := with_samples m (wadd (sample_count m) (samples source))
                           (wadd (haplotype_count m) (haplotypes source)) in
    (if hasSampleNames m1 then
       if hasSampleNames source
       then with_sample_names m1 (Dictionary.append (sample_names m1) (sample_names source))
       else clearSampleNames m1
     else m1, source_sample_offset).

Definition merge_contigs (m source : t) (same_contigs : bool) : t * size_type :=
  if same_contigs then
    (if negb (hasContigNames m) && hasContigNames source
     then with_contig_names m (contig_names source) else m, 0)
  else
    let source_contig_offset := contigs m in
    let m1 := with_contigs m (wadd (contig_count m) (contigs source)) in
    (if hasContigNames m1 then
       if hasContigNames source
       then with_contig_names m1 (Dictionary.append (contig_names m1) (contig_names source))
       else clearContigNames m1
     else m1, source_contig_offset).

Definition merge_paths (m source : t) (source_sample_offset source_contig_offset : size_type)
    : t :=
  if hasPathNames m then
    if hasPathNames source then
      with_path_names m
        (path_names m
           ++ map (fun p => PathName.shift p source_sample_offset source_contig_offset)
                  (path_names source))
    else clearPathNames m
  else m.

Definition merge (m source : t) (same_samples same_contigs : bool) : t :=
  let '(m1, source_sample_offset) := merge_samples m source same_samples in
  let '(m2, source_contig_offset) := merge_contigs m1 source same_contigs in
  merge_paths m2 source source_sample_offset source_contig_offset.

(** [findPaths], [pathsForSample] and [pathsForContig]: one loop over the
    path names, which collects the indices [i] of the paths selected by
    [select]. *)
Fixpoint collect_paths (select : PathName.t -> bool) (paths : list PathName.t)
    (i : size_type) (result : list size_type) : list size_type :=
  match paths with
  | [] => result
  | p :: paths' =>
      collect_paths select paths' (wadd i 1) (if select p then result ++ [i] else result)
  end.

Definition findPaths (m : t) (sample_id contig_id : size_type) : list size_type :=
  collect_paths (fun p => (PathName.sample p =? sample_id) && (PathName.contig p =? contig_id))
                (path_names m) 0 [].

Definition pathsForSample (m : t) (sample_id : size_type) : list size_type :=
  collect_paths (fun p => PathName.sample p =? sample_id) (path_names m) 0 [].

Definition pathsForContig (m : t) (contig_id : size_type) : list size_type :=
  collect_paths (fun p => PathName.contig p =? contig_id) (path_names m) 0 [].

(** [addPath(path)]. *)
Definition addPath (m : t) (path : PathName.t) : t :=
  let m1 := set m FLAG_PATH_NAMES in
  with_path_names m1 (path_names m1 ++ [path]).

(** [setSamples(n)], [setHaplotypes(n)] and [setContigs(n)]. *)
Definition setSamples (m : t) (n : size_type) : t :=
  with_samples m n (haplotype_count m).
Definition setHaplotypes (m : t) (n : size_type) : t :=
  with_samples m (sample_count m) n.
Definition setContigs (m : t) (n : size_type) : t := with_contigs m n.

(** [setSamples(names)] and [setContigs(names)]. *)
Definition setSampleNames (m : t) (names : list (list Z)) : t :=
  match names with
  | [] => clearSampleNames m
  | _ =>
      let m1 := setSamples m (vec_size names) in
      let m2 := set m1 FLAG_SAMPLE_NAMES in
      with_sample_names m2 (Dictionary.make names)
  end.

Definition setContigNames (m : t) (names : list (list Z)) : t :=
  match names with
  | [] => clearContigNames m
  | _ =>
      let m1 := setContigs m (vec_size names) in
      let m2 := set m1 FLAG_CONTIG_NAMES in
      with_contig_names m2 (Dictionary.make names)
  end.

(** [merge(sources, same_samples, same_contigs)]. *)
Definition merge_all (m : t) (sources : list t) (same_samples same_contigs : bool) : t :=
  fold_left (fun m source => merge m source same_samples same_contigs) sources m.

(** [path(i)]. *)
Definition path (m : t) (i : size_type) : PathName.t :=
  nth (Z.to_nat i) (path_names m) (PathName.mk 0 0 0 0).

End Metadata.

(** ** Record invariants

    The invariants of the data model: every stored number is a 64-bit
    value; the successors of [outgoing] are strictly increasing (sorted and
    unique); every run has a rank below the outdegree and a positive length;
    [body_size] is the sum of the run lengths, and so is the sum of the
    [incoming] counts; the sample offsets are strictly increasing and
    below [body_size]. *)

Definition pair_words (p : Z * Z) : Prop := is_word p.1 /\ is_word p.2.

Definition total_length (body : list run_type) : Z :=
  foldr (fun (run : run_type) acc => run.2 + acc) 0 body.

Record typed (r : DynamicRecord.t) : Prop := {
  typed_size : is_word (DynamicRecord.body_size r);
  typed_incoming : Forall pair_words (DynamicRecord.incoming r);
  typed_outgoing : Forall pair_words (DynamicRecord.outgoing r);
  typed_body : Forall pair_words (DynamicRecord.body r);
  typed_ids : Forall pair_words (DynamicRecord.ids r);
  typed_outdegree : DynamicRecord.outdegree r < WORD
}.

Record body_ok (r : DynamicRecord.t) : Prop := {
  body_runs : Forall (fun run : run_type =>
                        0 <= run.1 < DynamicRecord.outdegree r /\ 0 < run.2)
                     (DynamicRecord.body r);
  body_total : DynamicRecord.body_size r = total_length (DynamicRecord.body r)
}.

Definition outgoing_ok (r : DynamicRecord.t) : Prop :=
  StronglySorted Z.lt (DynamicRecord.outgoing r).*1.

Record ids_ok (r : DynamicRecord.t) : Prop := {
  ids_sorted : StronglySorted Z.lt (DynamicRecord.ids r).*1;
  ids_bound : Forall (fun s : sample_type => 0 <= s.1 < DynamicRecord.body_size r)
                     (DynamicRecord.ids r)
}.

Record incoming_ok (r : DynamicRecord.t) : Prop := {
  incoming_sorted : StronglySorted Z.lt (DynamicRecord.incoming r).*1;
  incoming_total : total_length (DynamicRecord.incoming r) = DynamicRecord.body_size r
}.


(** The number of positions [j] in [lo, hi) that satisfy [P]. *)
Definition count_positions (P : Z -> bool) (lo hi : Z) : Z :=
  Z.of_nat (length (List.filter P (seqZ lo (hi - lo)))).

(** ** Position-level view of a body

    [expand body] lists the rank of every position, run after run; it is
    the sequence the run-length encoded body stands for.  [occurrences P l]
    counts the ranks of [l] that satisfy [P], and [window lo hi l] is the
    part of [l] at positions [lo, hi). *)

Fixpoint expand (body : list run_type) : list rank_type :=
  match body with
  | [] => []
  | run :: body' => replicate (Z.to_nat run.2) run.1 ++ expand body'
  end.

Definition occurrences (P : rank_type -> bool) (l : list rank_type) : Z :=
  Z.of_nat (length (List.filter P l)).

Definition window (lo hi : Z) (l : list rank_type) : list rank_type :=
  take (Z.to_nat (hi - lo)) (drop (Z.to_nat lo) l).

Definition runs_ok (body : list run_type) : Prop :=
  Forall (fun run : run_type => 0 < run.2) body.

(** The scanning loop shared by [LFLoop] and [bdLF]: read runs while
    [offset < limit], adding to [acc] the lengths of the runs whose rank
    satisfies [P]. *)
Fixpoint scan (P : rank_type -> bool) (iter : list run_type) (limit : size_type)
    (run : run_type) (offset acc : size_type)
    : list run_type * run_type * size_type * size_type :=
  match iter with
  | [] => (iter, run, offset, acc)
  | run' :: iter' =>
      if offset <? limit then
        scan P iter' limit run' (wadd offset run'.2)
          (if P run'.1 then wadd acc run'.2 else acc)
      else (iter, run, offset, acc)
  end.

(** Scenario 2 of the specification. *)
Definition scenario2 : DynamicRecord.t :=
  DynamicRecord.mk 6 [] [(4, 0); (6, 3)] [(0, 2); (1, 3); (0, 1)] [].

(** ** Definitions of the statements and of the proofs

    The sorted-key view of [outgoing], the decoding invariants that relate
    a compressed record and its iterators to the body they encode, the
    functional descriptions of the constructors, and the records of the
    examples. *)

(** The successor stored at index [i] of a vector of edges, and the two
    orders on these successors that [edgeTo] is used with. *)
Definition key (v : list edge_type) (i : Z) : node_type := (vec_at v i).1.

Definition keys_sorted (v : list edge_type) : Prop :=
  forall i j, 0 <= i -> i <= j -> j < vec_size v -> key v i <= key v j.

Definition keys_strict (v : list edge_type) : Prop :=
  forall i j, 0 <= i -> i < j -> j < vec_size v -> key v i < key v j.

(** The ranks counted by [bdLF], as a predicate on a rank [x]: the three
    cases of the comment in the source. *)
Definition counted_rank (outdegree outrank reverse_rank0 : Z) (to : Z) (x : Z) : bool :=
  if reverse_rank0 >=? outdegree then x <? outrank
  else if negb (Node.is_reverse to) then (x <? reverse_rank0 + 1) && negb (x =? outrank)
  else x <? reverse_rank0.

(** The elements of [l] whose flag in [used] is set: what the compaction
    loop of [removeUnusedEdges] keeps. *)
Fixpoint select {A} (used : list bool) (l : list A) {struct l} : list A :=
  match l, used with
  | x :: l', u :: used' => if u then x :: select used' l' else select used' l'
  | _, _ => []
  end.

(** Every rank of the body addresses an edge of [outgoing]. *)
Definition ranks_ok (r : DynamicRecord.t) : Prop :=
  Forall (fun run : Z * Z => 0 <= run.1 < DynamicRecord.outdegree r) (DynamicRecord.body r).

(** The bytes of a body and of the edges of a record header. *)
Definition enc (c : Run.t) (body : list (Z * Z)) : list Z :=
  concat (map (Run.encode c) body).

Fixpoint edges_bytes (prev : Z) (outgoing : list (Z * Z)) : list Z :=
  match outgoing with
  | [] => []
  | e :: outgoing' =>
      ByteCode.encode (wsub e.1 prev) ++ ByteCode.encode e.2 ++ edges_bytes e.1 outgoing'
  end.

(** The compressed record [c] holds the encoding of the runs [body]. *)
Record decodes (c : CompressedRecord.t) (body : list (Z * Z)) : Prop := {
  dec_sigma : 0 < CompressedRecord.outdegree c < WORD;
  dec_runs : Forall (fun run : Z * Z =>
                       0 <= run.1 < CompressedRecord.outdegree c /\ 0 < run.2 < WORD) body;
  dec_bytes : exists post,
      CompressedRecord.body c = enc (Run.make (CompressedRecord.outdegree c)) body ++ post;
  dec_size : CompressedRecord.data_size c
             = length (enc (Run.make (CompressedRecord.outdegree c)) body)
}.

(** What the full iterator and the rank iterator accumulate over the runs
    they have read. *)
Definition add_rank (ranks : list (Z * Z)) (run : Z * Z) : list (Z * Z) :=
  set_second ranks run.1 (wadd (vec_at ranks run.1).2 run.2).

Definition add_result (value : Z) (result : Z) (run : Z * Z) : Z :=
  if run.1 =? value then wadd result run.2 else result.

Definition ranks_after (k : CompressedRecord.kind) (ranks0 : list (Z * Z))
    (runs : list (Z * Z)) : list (Z * Z) :=
  match k with
  | CompressedRecord.Full => fold_left add_rank runs ranks0
  | _ => ranks0
  end.

Definition result_after (k : CompressedRecord.kind) (value result0 : Z)
    (runs : list (Z * Z)) : Z :=
  match k with
  | CompressedRecord.Rank => fold_left (add_result value) runs result0
  | _ => result0
  end.

(** The iterator whose current run is [r], after the runs [pre]. *)
Definition iter_on (k : CompressedRecord.kind) (c : CompressedRecord.t)
    (pre : list (Z * Z)) (r : Z * Z) (ranks0 : list (Z * Z)) (value result0 : Z)
    : CompressedRecord.iterator :=
  let sigma := Run.make (CompressedRecord.outdegree c) in
  CompressedRecord.mk_iter (wrap (total_length (pre ++ [r])))
    (length (enc sigma pre)) (length (enc sigma (pre ++ [r]))) r
    (ranks_after k ranks0 (pre ++ [r])) value (result_after k value result0 (pre ++ [r])).

(** The iterator about to read the run that follows [pre]. *)
Definition iter_before (k : CompressedRecord.kind) (c : CompressedRecord.t)
    (pre : list (Z * Z)) (x : Z * Z) (ranks0 : list (Z * Z)) (value result0 : Z)
    : CompressedRecord.iterator :=
  let sigma := Run.make (CompressedRecord.outdegree c) in
  CompressedRecord.mk_iter (wrap (total_length pre))
    (length (enc sigma pre)) (length (enc sigma pre)) x
    (ranks_after k ranks0 pre) value (result_after k value result0 pre).

(** The value [LFLoop] returns from the final state of [scan]. *)
Definition rank_value (v i : Z) (st : list (Z * Z) * (Z * Z) * Z * Z) : Z :=
  let '(_, r', off', acc') := st in
  wsub acc' (if r'.1 =? v then wsub off' i else 0).

(** The bytes [writeBWT] writes after the header, and the record offsets
    the constructor of [RecordArray] collects. *)
Definition body_bytes (r : DynamicRecord.t) : list Z :=
  if DynamicRecord.outdegree r >? 0
  then enc (Run.make (DynamicRecord.outdegree r)) (DynamicRecord.body r) else [].

Fixpoint offsets_from (start : Z) (bwt : list DynamicRecord.t) : list Z :=
  match bwt with
  | [] => []
  | r :: bwt' => start :: offsets_from (start + vec_size (writeBWT r [])) bwt'
  end.

(** What the endmarker loop does with one source, on records. *)
Definition append_endmarker (m e : DynamicRecord.t) : DynamicRecord.t :=
  DynamicRecord.mk
    (wadd (DynamicRecord.body_size m) (DynamicRecord.body_size e))
    (DynamicRecord.incoming m)
    (DynamicRecord.outgoing m ++ DynamicRecord.outgoing e)
    (DynamicRecord.body m
       ++ map (fun run : Z * Z => (wadd run.1 (DynamicRecord.outdegree m), run.2))
              (DynamicRecord.body e))
    (DynamicRecord.ids m).

(** The endmarkers of the non-empty sources, in source order. *)
Definition endmarkers (bwts : list (list DynamicRecord.t)) : list DynamicRecord.t :=
  flat_map (fun bwt => match bwt with [] => [] | e :: _ => [e] end) bwts.

(** A source of the merge: fewer than [2^64] records and, when it is not
    empty, a well-formed endmarker with at least one edge. *)
Definition source_ok (bwt : list DynamicRecord.t) : Prop :=
  vec_size bwt < WORD /\
  match bwt with
  | [] => True
  | e :: _ => typed e /\ body_ok e /\ 0 < DynamicRecord.outdegree e
  end.

(** The test [record.samples() > 0] of the constructor of [DASamples]. *)
Definition sampled (r : DynamicRecord.t) : bool := DynamicRecord.samples r >? 0.

(** The positions and sequences stored for the records [bwt], the first
    sampled record starting at [off]. *)
Fixpoint ranges_of (off : Z) (bwt : list DynamicRecord.t) : list Z :=
  match bwt with
  | [] => []
  | r :: bwt' =>
      if sampled r then off :: ranges_of (wadd off (DynamicRecord.size r)) bwt'
      else ranges_of off bwt'
  end.

Fixpoint entries_of (off : Z) (bwt : list DynamicRecord.t) : list (Z * Z) :=
  match bwt with
  | [] => []
  | r :: bwt' =>
      if sampled r
      then map (fun s : Z * Z => (wadd off s.1, s.2)) (DynamicRecord.ids r)
             ++ entries_of (wadd off (DynamicRecord.size r)) bwt'
      else entries_of off bwt'
  end.

(** The total size of the sampled records, the largest sequence
    identifier seen and the number of samples, as the loops compute them. *)
Fixpoint sampled_size (bwt : list DynamicRecord.t) : Z :=
  match bwt with
  | [] => 0
  | r :: bwt' =>
      if sampled r then DynamicRecord.size r + sampled_size bwt' else sampled_size bwt'
  end.

Definition max_sample_of (mx : Z) (bwt : list DynamicRecord.t) : Z :=
  fold_left (fun m (r : DynamicRecord.t) =>
               if sampled r
               then fold_left (fun m (sample : Z * Z) => Z.max m sample.2)
                              (DynamicRecord.ids r) m
               else m) bwt mx.

Fixpoint sample_total (bwt : list DynamicRecord.t) : Z :=
  match bwt with
  | [] => 0
  | r :: bwt' =>
      if sampled r then DynamicRecord.samples r + sample_total bwt' else sample_total bwt'
  end.

(** The same lists without wrap-around. *)
Fixpoint ranges_at (off : Z) (bwt : list DynamicRecord.t) : list Z :=
  match bwt with
  | [] => []
  | r :: bwt' =>
      if sampled r then off :: ranges_at (off + DynamicRecord.size r) bwt'
      else ranges_at off bwt'
  end.

Fixpoint entries_at (off : Z) (bwt : list DynamicRecord.t) : list (Z * Z) :=
  match bwt with
  | [] => []
  | r :: bwt' =>
      if sampled r
      then map (fun s : Z * Z => (off + s.1, s.2)) (DynamicRecord.ids r)
             ++ entries_at (off + DynamicRecord.size r) bwt'
      else entries_at off bwt'
  end.

(** The invariants of a record that [DASamples] relies on. *)
Record sample_ok (r : DynamicRecord.t) : Prop := {
  sample_size : is_word (DynamicRecord.body_size r);
  sample_words : Forall pair_words (DynamicRecord.ids r);
  sample_ids : ids_ok r
}.

(** The sequence identifiers of the sampled records, in order. *)
Fixpoint values_of (bwt : list DynamicRecord.t) : list Z :=
  match bwt with
  | [] => []
  | r :: bwt' =>
      if sampled r then (DynamicRecord.ids r).*2 ++ values_of bwt' else values_of bwt'
  end.

(** The part of a [Metadata] that concerns the samples, and the one that
    concerns the contigs. *)
Definition sample_part (m : Metadata.t) :=
  (Metadata.hasSampleNames m, Metadata.sample_names m, Metadata.sample_count m,
   Metadata.haplotype_count m).

Definition contig_part (m : Metadata.t) :=
  (Metadata.hasContigNames m, Metadata.contig_names m, Metadata.contig_count m).

(** The records of the examples. *)
Definition sentinel_record : DynamicRecord.t :=
  DynamicRecord.mk 1 [(0, 1)] [(WORD - 1, WORD - 1)] [(0, 1)] [].

Definition two_runs : DynamicRecord.t :=
  DynamicRecord.mk 5 [(0, 5)] [(4, 0); (6, 3)] [(1, 2); (0, 3)] [].

(** The sources of scenario 5 of the specification: each has an endmarker
    and one more record. *)
Definition source0 : list DynamicRecord.t :=
  [DynamicRecord.mk 3 [] [(1, 0)] [(0, 3)] [];
   DynamicRecord.mk 3 [(0, 3)] [(0, 0)] [(0, 3)] []].

Definition source1 : list DynamicRecord.t :=
  [DynamicRecord.mk 2 [] [(2, 0)] [(0, 2)] [];
   DynamicRecord.mk 2 [(0, 2)] [(0, 0)] [(0, 2)] []].

(** The records of the example for [DASamples]: the second and the fourth
    carry samples. *)
Definition sampled_bwt : list DynamicRecord.t :=
  [DynamicRecord.mk 4 [] [(1, 0)] [(0, 4)] [];
   DynamicRecord.mk 10 [] [(1, 0)] [(0, 10)] [(2, 7); (5, 99)];
   DynamicRecord.mk 4 [] [(1, 0)] [(0, 4)] [];
   DynamicRecord.mk 3 [] [(1, 0)] [(0, 3)] [(0, 1); (2, 0)]].

(** The dictionaries of the example for [append]: the strings are given
    by their character codes, ["a"] is [[97]] and ["b"] is [[98]]. *)
Definition dictionary_a : Dictionary.t := Dictionary.make [[97]].

Definition dictionary_b : Dictionary.t := Dictionary.make [[98]].

(** The records of the examples for [recode] and [removeUnusedEdges]. *)
Definition unsorted_record : DynamicRecord.t :=
  DynamicRecord.mk 3 [(0, 3)] [(6, 3); (4, 0); (8, 1)] [(0, 2); (1, 1)] [].

Definition unused_edge_record : DynamicRecord.t :=
  DynamicRecord.mk 3 [(0, 3)] [(4, 0); (6, 3); (8, 1)] [(0, 2); (1, 1)] [].

Definition empty_unsorted_record : DynamicRecord.t :=
  DynamicRecord.mk 0 [] [(6, 0); (4, 0)] [] [].

(** The metadata of the example for [merge]: [m] has two samples and two
    contigs with their names, the source has one of each and no names. *)
Definition named_metadata : Metadata.t :=
  Metadata.mk 0 1 2 4 2 6 []
    (Dictionary.make [[97]; [98]]) (Dictionary.make [[120]; [121]]).

Definition unnamed_metadata : Metadata.t :=
  Metadata.mk 0 1 1 2 1 0 [] Dictionary.default Dictionary.default.

(** The edges that [LF] gives position by position, for the ranks [E] of
    the positions and the accumulators [after]. *)
Fixpoint lf_table (after : list edge_type) (E : list rank_type) : list edge_type :=
  match E with
  | [] => []
  | x :: E' => vec_at after x :: lf_table (add_rank after (x, 1)) E'
  end.

Fixpoint after_table (after : list edge_type) (E : list rank_type) : list edge_type :=
  match E with
  | [] => after
  | x :: E' => after_table (add_rank after (x, 1)) E'
  end.



(** The starting offsets of the strings of [source] in their
    concatenation, the first one at [off]. *)
Fixpoint prefix_from (off : Z) (source : list (list Z)) : list Z :=
  match source with
  | [] => []
  | s :: source' => off :: prefix_from (off + vec_size s) source'
  end.

(** * Properties *)

Example scenario2_LF :
  DynamicRecord.LF scenario2 0 = (4, 0) /\ DynamicRecord.LF scenario2 2 = (6, 3) /\
  DynamicRecord.LF scenario2 4 = (6, 5) /\ DynamicRecord.LF scenario2 5 = (4, 2).
Proof. vm_compute. repeat split. Qed.

(** ** Word arithmetic *)

Lemma WORD_pos : 0 < WORD.
Proof. reflexivity. Qed.

Lemma wrap_small x : is_word x -> wrap x = x.
Proof. intros H. apply Z.mod_small, H. Qed.

Lemma wrap_is_word x : is_word (wrap x).
Proof. apply Z.mod_pos_bound, WORD_pos. Qed.

Lemma wrap_wrap x : wrap (wrap x) = wrap x.
Proof. apply Z.mod_mod. discriminate. Qed.

Lemma wrap_add_l a b : wrap (wrap a + b) = wrap (a + b).
Proof. apply Zplus_mod_idemp_l. Qed.

Lemma wrap_add_r a b : wrap (a + wrap b) = wrap (a + b).
Proof. apply Zplus_mod_idemp_r. Qed.

Lemma wrap_sub_l a b : wrap (wrap a - b) = wrap (a - b).
Proof. apply Zminus_mod_idemp_l. Qed.

Lemma wrap_sub_r a b : wrap (a - wrap b) = wrap (a - b).
Proof. apply Zminus_mod_idemp_r. Qed.

Lemma wrap_eq_of_small a b : is_word a -> wrap b = wrap a -> is_word b -> b = a.
Proof. intros Ha Hw Hb. rewrite !wrap_small in Hw; auto. Qed.

(** ** Vectors *)

Lemma vec_at_lookup (v : list (Z * Z)) (i : nat) e :
  v !! i = Some e -> vec_at v (Z.of_nat i) = e.
Proof.
  intros H. unfold vec_at. rewrite Nat2Z.id.
  apply nth_lookup_Some with (d := (0, 0)) in H. exact H.
Qed.

Lemma vec_at_app_l (v w : list (Z * Z)) i :
  0 <= i < vec_size v -> vec_at (v ++ w) i = vec_at v i.
Proof.
  unfold vec_at, vec_size. intros H. apply app_nth1. lia.
Qed.

(** ** Binary search *)

Lemma keys_strict_sorted v : keys_strict v -> keys_sorted v.
Proof.
  intros H i j Hi Hij Hj.
  destruct (Z.eq_dec i j) as [->|Hne]; [lia|].
  apply Z.lt_le_incl, H; lia.
Qed.

Lemma edgeTo_loop_spec fuel to v low high :
  keys_sorted v ->
  0 <= low -> low <= high -> high <= vec_size v ->
  (Z.to_nat (high - low) <= fuel)%nat ->
  let k := edgeTo_loop fuel to v low high in
  (low <= k < high /\ key v k = to) \/
  (k = vec_size v /\ forall i, low <= i < high -> key v i <> to).
Proof.
  intros Hs. revert low high.
  induction fuel as [|fuel IH]; intros low high Hl Hlh Hh Hf; simpl.
  - right. split; [reflexivity|]. intros i Hi. lia.
  - destruct (Z.ltb_spec low high) as [Hlt|Hge].
    2:{ right. split; [reflexivity|]. intros i Hi. lia. }
    assert (Hmid : low <= low + (high - low) / 2 < high).
    { pose proof (Z.div_pos (high - low) 2).
      pose proof (Z.div_lt_upper_bound (high - low) 2 (high - low)). lia. }
    set (mid := low + (high - low) / 2) in *.
    fold (key v mid).
    destruct (Z.eqb_spec (key v mid) to) as [Heq|Hne].
    { left. split; [lia|exact Heq]. }
    destruct (Z.gtb_spec (key v mid) to) as [Hgt|Hle].
    + destruct (IH low mid ltac:(lia) ltac:(lia) ltac:(lia) ltac:(lia))
        as [[Hk Hkey]|[Hk Hnone]].
      * left. split; [lia|exact Hkey].
      * right. split; [exact Hk|]. intros i Hi.
        destruct (Z.lt_ge_cases i mid) as [Him|Him]; [apply Hnone; lia|].
        pose proof (Hs mid i). lia.
    + destruct (IH (mid + 1) high ltac:(lia) ltac:(lia) ltac:(lia) ltac:(lia))
        as [[Hk Hkey]|[Hk Hnone]].
      * left. split; [lia|exact Hkey].
      * right. split; [exact Hk|]. intros i Hi.
        destruct (Z.lt_ge_cases mid i) as [Him|Him]; [apply Hnone; lia|].
        destruct (Z.eq_dec i mid) as [->|Hnm]; [exact Hne|].
        pose proof (Hs i mid). lia.
Qed.

(** More fuel than the width of the interval changes nothing. *)
Lemma edgeTo_loop_fuel fuel fuel' to v low high :
  0 <= low -> low <= high ->
  (Z.to_nat (high - low) <= fuel)%nat -> (Z.to_nat (high - low) <= fuel')%nat ->
  edgeTo_loop fuel to v low high = edgeTo_loop fuel' to v low high.
Proof.
  revert fuel' low high.
  induction fuel as [|fuel IH]; intros fuel' low high Hl Hlh Hf Hf'.
  - assert (high = low) as -> by lia.
    destruct fuel'; simpl; [reflexivity|]. rewrite Z.ltb_irrefl. reflexivity.
  - destruct fuel' as [|fuel'].
    + assert (high = low) as -> by lia. simpl. rewrite Z.ltb_irrefl. reflexivity.
    + simpl. destruct (Z.ltb_spec low high) as [Hlt|Hge]; [|reflexivity].
      assert (Hmid : low <= low + (high - low) / 2 < high).
      { pose proof (Z.div_pos (high - low) 2).
        pose proof (Z.div_lt_upper_bound (high - low) 2 (high - low)). lia. }
      destruct (_ =? to); [reflexivity|].
      destruct (_ >? to); apply IH; lia.
Qed.

Lemma edgeTo_spec to v :
  keys_sorted v ->
  (0 <= edgeTo to v < vec_size v /\ key v (edgeTo to v) = to) \/
  (edgeTo to v = vec_size v /\ forall i, 0 <= i < vec_size v -> key v i <> to).
Proof.
  intros Hs. unfold edgeTo.
  apply (edgeTo_loop_spec (length v) to v 0 (vec_size v)); unfold vec_size; try lia.
  exact Hs.
Qed.

Lemma edgeTo_key v k :
  keys_strict v -> 0 <= k < vec_size v -> edgeTo (key v k) v = k.
Proof.
  intros Hs Hk.
  destruct (edgeTo_spec (key v k) v (keys_strict_sorted _ Hs)) as [[Hr Hkey]|[_ Hnone]].
  - destruct (Z.lt_trichotomy (edgeTo (key v k) v) k) as [Hlt|[Heq|Hgt]]; [|exact Heq|].
    + pose proof (Hs _ k (proj1 Hr) Hlt (proj2 Hk)). lia.
    + pose proof (Hs k _ (proj1 Hk) Hgt (proj2 Hr)). lia.
  - exfalso. apply (Hnone k Hk). reflexivity.
Qed.

Lemma edgeTo_range to v : keys_sorted v -> 0 <= edgeTo to v <= vec_size v.
Proof.
  intros Hs. destruct (edgeTo_spec to v Hs) as [[Hr _]|[Hr _]]; unfold vec_size in *; lia.
Qed.

(** ** Sorting *)

#[global] Instance edge_le_total : Total edge_le.
Proof. intros a b. unfold edge_le. lia. Qed.

#[global] Instance edge_le_trans : Transitive edge_le.
Proof. intros a b c. unfold edge_le. lia. Qed.

Lemma sequentialSort_perm v : sequentialSort v ≡ₚ v.
Proof. apply merge_sort_Permutation. Qed.

Lemma sequentialSort_sorted v : StronglySorted edge_le (sequentialSort v).
Proof. unfold sequentialSort. apply StronglySorted_merge_sort; apply _. Qed.

Lemma vec_at_nat (v : list (Z * Z)) i :
  0 <= i -> vec_at v i = nth (Z.to_nat i) v (0, 0).
Proof. reflexivity. Qed.

Lemma lookup_vec_at (v : list (Z * Z)) i :
  0 <= i < vec_size v -> v !! Z.to_nat i = Some (vec_at v i).
Proof.
  intros H. unfold vec_at, vec_size in *.
  destruct (nth_lookup_or_length v (Z.to_nat i) (0, 0)) as [Hn|Hn]; [exact Hn|lia].
Qed.

Lemma StronglySorted_index {A} (R : A -> A -> Prop) (l : list A) i j x y :
  StronglySorted R l -> (i < j)%nat -> l !! i = Some x -> l !! j = Some y -> R x y.
Proof.
  intros Hs. revert i j. induction Hs as [|a l Hs IH Hall]; intros i j Hij Hi Hj.
  - discriminate.
  - destruct j as [|j]; [lia|]. destruct i as [|i]; simpl in *.
    + inversion Hi; subst. rewrite Forall_forall in Hall. apply Hall.
      apply list_elem_of_lookup. eauto.
    + apply (IH i j); [lia|assumption..].
Qed.

Lemma sorted_edges_keys v : StronglySorted edge_le v -> keys_sorted v.
Proof.
  intros Hs i j Hi Hij Hj. unfold key.
  destruct (Z.eq_dec i j) as [->|Hne]; [lia|].
  pose proof (lookup_vec_at v i ltac:(lia)) as Li.
  pose proof (lookup_vec_at v j ltac:(lia)) as Lj.
  pose proof (StronglySorted_index edge_le v (Z.to_nat i) (Z.to_nat j) _ _ Hs
                ltac:(lia) Li Lj) as Hle.
  unfold edge_le in Hle. lia.
Qed.

Lemma sorted_keys_strict v : StronglySorted Z.lt v.*1 -> keys_strict v.
Proof.
  intros Hs i j Hi Hij Hj. unfold key.
  pose proof (lookup_vec_at v i ltac:(lia)) as Li.
  pose proof (lookup_vec_at v j ltac:(lia)) as Lj.
  apply (StronglySorted_index Z.lt v.*1 (Z.to_nat i) (Z.to_nat j)); [exact Hs|lia| |].
  - rewrite list_lookup_fmap, Li. reflexivity.
  - rewrite list_lookup_fmap, Lj. reflexivity.
Qed.

Lemma sorted_scan_true prev v :
  DynamicRecord.sorted_scan prev v = true <-> StronglySorted Z.le (prev :: v.*1).
Proof.
  revert prev. induction v as [|e v IH]; intros prev; simpl.
  - split; [intros _; repeat constructor|reflexivity].
  - destruct (Z.ltb_spec e.1 prev) as [Hlt|Hge].
    + split; [discriminate|]. intros Hs. inversion Hs as [|? ? _ Hall]; subst.
      inversion Hall; subst. lia.
    + rewrite IH. split; intros Hs.
      * constructor; [exact Hs|]. constructor; [exact Hge|].
        inversion Hs as [|? ? _ Hall]; subst.
        eapply Forall_impl; [exact Hall|]. simpl. intros; lia.
      * inversion Hs; subst. assumption.
Qed.

Lemma successors_sorted_true v :
  DynamicRecord.successors_sorted v = true <-> StronglySorted Z.le v.*1.
Proof.
  destruct v as [|e v]; simpl.
  - split; [intros _; constructor|reflexivity].
  - apply sorted_scan_true.
Qed.

Lemma sorted_edges_successors v :
  StronglySorted edge_le v -> StronglySorted Z.le v.*1.
Proof.
  induction 1 as [|a l Hs IH Hall]; simpl; constructor; [exact IH|].
  rewrite Forall_fmap. eapply Forall_impl; [exact Hall|].
  intros b. unfold edge_le. simpl. lia.
Qed.

Lemma recode_sorted_output v :
  DynamicRecord.successors_sorted (sequentialSort v) = true.
Proof.
  apply successors_sorted_true, sorted_edges_successors, sequentialSort_sorted.
Qed.

(** ** recode *)

Lemma recode_fixed r :
  DynamicRecord.empty r = true \/
  DynamicRecord.successors_sorted (DynamicRecord.outgoing r) = true ->
  DynamicRecord.recode r = r.
Proof.
  unfold DynamicRecord.recode. intros [H|H].
  - rewrite H. reflexivity.
  - rewrite H. destruct (DynamicRecord.empty r); reflexivity.
Qed.

Lemma recode_idempotent r :
  DynamicRecord.recode (DynamicRecord.recode r) = DynamicRecord.recode r.
Proof.
  destruct (DynamicRecord.empty r) eqn:He.
  { rewrite (recode_fixed r) by auto. apply recode_fixed. auto. }
  destruct (DynamicRecord.successors_sorted (DynamicRecord.outgoing r)) eqn:Hs.
  { rewrite (recode_fixed r) by auto. apply recode_fixed. auto. }
  apply recode_fixed. right.
  unfold DynamicRecord.recode. rewrite He, Hs. simpl.
  apply recode_sorted_output.
Qed.

(** ** The position-level view *)

Lemma total_length_app a b : total_length (a ++ b) = total_length a + total_length b.
Proof. induction a as [|x a IH]; simpl; [reflexivity|]. rewrite IH. lia. Qed.

Lemma runs_ok_total_nonneg body : runs_ok body -> 0 <= total_length body.
Proof. induction 1; simpl; lia. Qed.

Lemma expand_length body :
  runs_ok body -> Z.of_nat (length (expand body)) = total_length body.
Proof.
  induction 1 as [|run body Hr _ IH]; simpl; [reflexivity|].
  rewrite length_app, length_replicate. lia.
Qed.

Lemma occurrences_app P a b : occurrences P (a ++ b) = occurrences P a + occurrences P b.
Proof. unfold occurrences. rewrite List.filter_app, length_app. lia. Qed.

Lemma occurrences_replicate P n k :
  occurrences P (replicate n k) = if P k then Z.of_nat n else 0.
Proof.
  unfold occurrences. induction n as [|n IH]; simpl.
  - destruct (P k); reflexivity.
  - destruct (P k); simpl; lia.
Qed.

Lemma occurrences_nonneg P l : 0 <= occurrences P l.
Proof. unfold occurrences. lia. Qed.

Lemma occurrences_le P l : occurrences P l <= Z.of_nat (length l).
Proof.
  unfold occurrences. pose proof (List.filter_length_le P l). lia.
Qed.

Lemma occurrences_ext P Q l :
  (forall k, In k l -> P k = Q k) -> occurrences P l = occurrences Q l.
Proof.
  intros H. unfold occurrences. f_equal. f_equal.
  apply List.filter_ext_in. exact H.
Qed.

Lemma window_split lo mid hi l :
  0 <= lo -> lo <= mid -> mid <= hi ->
  window lo hi l = window lo mid l ++ window mid hi l.
Proof.
  intros H0 H1 H2. unfold window.
  replace (Z.to_nat (hi - lo)) with (Z.to_nat (mid - lo) + Z.to_nat (hi - mid))%nat by lia.
  rewrite <- take_take_drop. f_equal. rewrite drop_drop. do 2 f_equal. lia.
Qed.

Lemma window_app_ge lo hi (a b : list Z) :
  Z.of_nat (length a) <= lo ->
  window lo hi (a ++ b) = window (lo - Z.of_nat (length a)) (hi - Z.of_nat (length a)) b.
Proof.
  intros H. unfold window. rewrite drop_app_ge by lia. f_equal; [lia|]. f_equal. lia.
Qed.

Lemma window_0_app hi (a b : list Z) :
  Z.of_nat (length a) <= hi ->
  window 0 hi (a ++ b) = a ++ window 0 (hi - Z.of_nat (length a)) b.
Proof.
  intros H. unfold window. simpl. rewrite !drop_0, take_app_ge by lia.
  do 2 f_equal. lia.
Qed.

Lemma window_replicate lo hi n k (b : list Z) :
  0 <= lo -> lo <= hi -> hi <= Z.of_nat n ->
  window lo hi (replicate n k ++ b) = replicate (Z.to_nat (hi - lo)) k.
Proof.
  intros H0 H1 H2. unfold window.
  rewrite drop_app_le by (rewrite length_replicate; lia).
  rewrite take_app_le by (rewrite length_drop, length_replicate; lia).
  rewrite drop_replicate, take_replicate. f_equal. lia.
Qed.

Lemma window_nil lo l : window lo lo l = [].
Proof. unfold window. rewrite Z.sub_diag. reflexivity. Qed.

(** ** The scanning loop *)

Lemma scan_stop P iter limit run offset acc :
  limit <= offset -> scan P iter limit run offset acc = (iter, run, offset, acc).
Proof.
  intros H. destruct iter as [|run' iter']; simpl; [reflexivity|].
  destruct (Z.ltb_spec offset limit); [lia|reflexivity].
Qed.

Lemma scan_result P rest : forall limit run offset acc,
  runs_ok rest -> 0 <= offset -> offset < limit ->
  limit <= offset + total_length rest -> offset + total_length rest < WORD ->
  let '(iter', run', offset', acc') := scan P rest limit run offset acc in
  limit <= offset' <= offset + total_length rest /\
  (runs_ok iter' /\ offset' + total_length iter' = offset + total_length rest) /\
  expand iter' = drop (Z.to_nat (offset' - offset)) (expand rest) /\
  window (limit - 1 - offset) (offset' - offset) (expand rest)
    = replicate (Z.to_nat (offset' - limit + 1)) run'.1 /\
  wrap (acc' - (if P run'.1 then offset' - limit else 0))
    = wrap (acc + occurrences P (window 0 (limit - offset) (expand rest))).
Proof.
  induction rest as [|r rest IH]; intros limit run offset acc Hok H0 Hlt Hle Hw.
  { simpl in Hle. lia. }
  inversion Hok as [|? ? Hr Hok']; subst.
  pose proof (runs_ok_total_nonneg _ Hok') as Hnn.
  simpl in Hle, Hw. simpl scan.
  destruct (Z.ltb_spec offset limit) as [_|?]; [|lia].
  assert (Ho1 : wadd offset r.2 = offset + r.2).
  { apply wrap_small. unfold is_word. lia. }
  rewrite Ho1.
  set (acc1 := if P r.1 then wadd acc r.2 else acc).
  assert (Hacc1 : wrap acc1 = wrap (acc + (if P r.1 then r.2 else 0))).
  { unfold acc1. destruct (P r.1); [apply wrap_wrap|f_equal; lia]. }
  assert (Hlen : Z.of_nat (length (replicate (Z.to_nat r.2) r.1)) = r.2).
  { rewrite length_replicate. lia. }
  destruct (Z.le_gt_cases limit (offset + r.2)) as [Hstop|Hgo].
  - rewrite scan_stop by exact Hstop. simpl expand. simpl total_length.
    split; [lia|]. split; [split; [exact Hok'|lia]|]. split; [|split].
    + rewrite drop_app_length'; [reflexivity|]. rewrite length_replicate. lia.
    + rewrite window_replicate by lia. f_equal. lia.
    + rewrite window_replicate by lia. rewrite occurrences_replicate.
      rewrite <- wrap_sub_l, Hacc1, wrap_sub_l.
      destruct (P r.1); f_equal; lia.
  - specialize (IH limit r (offset + r.2) acc1 Hok' ltac:(lia) Hgo ltac:(lia) ltac:(lia)).
    destruct (scan P rest limit r (offset + r.2) acc1) as [[[iter' run'] offset'] acc'].
    destruct IH as (Hb & [Hrok Hrtot] & He & Hwin & Hacc).
    simpl expand. simpl total_length.
    split; [lia|]. split; [split; [exact Hrok|lia]|]. split; [|split].
    + rewrite He, drop_app_ge by (rewrite length_replicate; lia).
      f_equal. rewrite length_replicate. lia.
    + rewrite window_app_ge by lia. rewrite Hlen, <- Hwin. f_equal; lia.
    + rewrite Hacc. rewrite window_0_app by lia. rewrite Hlen.
      rewrite occurrences_app, occurrences_replicate.
      replace (limit - offset - r.2) with (limit - (offset + r.2)) by lia.
      rewrite <- wrap_add_l, Hacc1, wrap_add_l.
      destruct (P r.1); f_equal; lia.
Qed.

Lemma LFLoop_iter_scan iter i outrank run offset result :
  DynamicRecord.LFLoop_iter iter i outrank run offset result =
  let '(iter', run', offset', result') :=
    scan (fun k => k =? outrank) iter i run offset result in
  DynamicRecord.mk_lf iter' run' offset' result'.
Proof.
  revert run offset result.
  induction iter as [|r iter IH]; intros run offset result; simpl; [reflexivity|].
  destruct (offset <? i); [apply IH|reflexivity].
Qed.

(** Scanning to [a] and then on to [b] is scanning to [b]. *)
Lemma scan_compose P iter a b run offset acc :
  a <= b ->
  let '(iter', run', offset', acc') := scan P iter a run offset acc in
  scan P iter' b run' offset' acc' = scan P iter b run offset acc.
Proof.
  intros Hab. revert run offset acc.
  induction iter as [|r iter IH]; intros run offset acc; simpl; [reflexivity|].
  destruct (Z.ltb_spec offset a) as [Ha|Ha].
  - destruct (Z.ltb_spec offset b) as [Hb|Hb]; [apply IH|lia].
  - reflexivity.
Qed.

(** ** operator[] and the position-level view *)

Lemma at_loop_expand out body : forall i off,
  runs_ok body -> 0 <= off -> off <= i -> i < off + total_length body ->
  off + total_length body < WORD ->
  DynamicRecord.at_loop out body i off = key out (nth (Z.to_nat (i - off)) (expand body) 0).
Proof.
  induction body as [|r body IH]; intros i off Hok H0 Hle Hlt Hw; simpl in *; [lia|].
  inversion Hok as [|? ? Hr Hok']; subst.
  pose proof (runs_ok_total_nonneg _ Hok') as Hnn.
  assert (Ho1 : wadd off r.2 = off + r.2).
  { apply wrap_small. unfold is_word. lia. }
  rewrite Ho1.
  destruct (Z.gtb_spec (off + r.2) i) as [Hin|Hout].
  - rewrite app_nth1 by (rewrite length_replicate; lia).
    unfold key. do 2 f_equal. symmetry.
    apply nth_lookup_Some, lookup_replicate_2. lia.
  - rewrite IH by (auto; lia).
    rewrite app_nth2 by (rewrite length_replicate; lia).
    rewrite length_replicate. do 2 f_equal. lia.
Qed.

Lemma at_expand r i :
  body_ok r -> is_word (DynamicRecord.body_size r) -> 0 <= i < DynamicRecord.size r ->
  DynamicRecord.at_ r i
  = key (DynamicRecord.outgoing r) (nth (Z.to_nat i) (expand (DynamicRecord.body r)) 0).
Proof.
  intros [Hruns Htot] Hw Hi. unfold DynamicRecord.at_, DynamicRecord.size in *.
  destruct (Z.geb_spec i (DynamicRecord.body_size r)) as [?|_]; [lia|].
  rewrite at_loop_expand; unfold is_word in *; try lia.
  - do 2 f_equal. lia.
  - eapply Forall_impl; [exact Hruns|]. simpl. tauto.
Qed.

Lemma body_ok_runs r : body_ok r -> runs_ok (DynamicRecord.body r).
Proof. intros [H _]. eapply Forall_impl; [exact H|]. simpl. tauto. Qed.

Lemma expand_ranks body n :
  Forall (fun run : Z * Z => 0 <= run.1 < n /\ 0 < run.2) body ->
  Forall (fun k => 0 <= k < n) (expand body).
Proof.
  induction 1 as [|run body [Hr _] _ IH]; simpl; [constructor|].
  apply Forall_app. split; [|exact IH]. apply Forall_replicate. exact Hr.
Qed.

Lemma count_positions_window f g lo hi (l : list Z) :
  0 <= lo -> lo <= hi -> hi <= Z.of_nat (length l) ->
  (forall j, lo <= j < hi -> f j = g (nth (Z.to_nat j) l 0)) ->
  count_positions f lo hi = occurrences g (window lo hi l).
Proof.
  intros H0 Hle Hhi Hfg. unfold count_positions, occurrences, window.
  f_equal.
  remember (Z.to_nat (hi - lo)) as n eqn:Hn.
  replace (hi - lo) with (Z.of_nat n) by lia.
  assert (Hbound : lo + Z.of_nat n <= hi) by lia.
  clear Hn Hle. revert lo H0 Hbound Hfg.
  induction n as [|n IH]; intros lo H0 Hbound Hfg.
  - reflexivity.
  - rewrite seqZ_cons by lia.
    destruct (l !! Z.to_nat lo) as [x|] eqn:Hx.
    2:{ apply lookup_ge_None in Hx. lia. }
    rewrite (drop_S _ _ _ Hx). simpl.
    rewrite (Hfg lo) by lia.
    rewrite (nth_lookup_Some _ _ 0 _ Hx).
    replace (Z.pred (Z.of_nat (S n))) with (Z.of_nat n) by lia.
    replace (S (Z.to_nat lo)) with (Z.to_nat (Z.succ lo)) by lia.
    specialize (IH (Z.succ lo) ltac:(lia) ltac:(lia)).
    destruct (g x); simpl; rewrite IH; try reflexivity; intros; apply Hfg; lia.
Qed.

(** ** LF with a target node *)

Lemma edgeTo_loop_absent fuel to v low high :
  (forall i, low <= i < high -> key v i <> to) ->
  edgeTo_loop fuel to v low high = vec_size v.
Proof.
  revert low high. induction fuel as [|fuel IH]; intros low high Habs; simpl.
  - reflexivity.
  - destruct (Z.ltb_spec low high) as [Hlt|Hge]; [|reflexivity].
    assert (Hmid : low <= low + (high - low) / 2 < high).
    { pose proof (Z.div_pos (high - low) 2).
      pose proof (Z.div_lt_upper_bound (high - low) 2 (high - low)). lia. }
    fold (key v (low + (high - low) / 2)).
    destruct (Z.eqb_spec (key v (low + (high - low) / 2)) to) as [Heq|Hne].
    { exfalso. exact (Habs _ Hmid Heq). }
    destruct (_ >? to); apply IH; intros i Hi; apply Habs; lia.
Qed.

Lemma key_elem_of (v : list (Z * Z)) i :
  0 <= i < vec_size v -> key v i ∈ v.*1.
Proof.
  intros Hi. apply list_elem_of_fmap. exists (vec_at v i). split; [reflexivity|].
  apply list_elem_of_lookup. exists (Z.to_nat i). apply lookup_vec_at, Hi.
Qed.

Lemma elem_of_key (v : list (Z * Z)) to :
  to ∈ v.*1 -> exists i, 0 <= i < vec_size v /\ key v i = to.
Proof.
  intros (e & -> & He)%list_elem_of_fmap.
  apply list_elem_of_lookup in He as [n Hn].
  exists (Z.of_nat n). split.
  - apply lookup_lt_Some in Hn. unfold vec_size. lia.
  - unfold key. rewrite (vec_at_lookup _ _ _ Hn). reflexivity.
Qed.

Lemma edgeTo_absent to (v : list (Z * Z)) : to ∉ v.*1 -> edgeTo to v = vec_size v.
Proof.
  intros Hn. unfold edgeTo. apply edgeTo_loop_absent.
  intros i Hi Hk. apply Hn. rewrite <- Hk. apply key_elem_of. exact Hi.
Qed.

Lemma edgeTo_present to (v : list (Z * Z)) :
  keys_sorted v -> to ∈ v.*1 ->
  0 <= edgeTo to v < vec_size v /\ key v (edgeTo to v) = to.
Proof.
  intros Hs Hin. destruct (edgeTo_spec to v Hs) as [H|[_ Hnone]]; [exact H|].
  apply elem_of_key in Hin as (i & Hi & Hk). exfalso. exact (Hnone i Hi Hk).
Qed.

Lemma LF_to_occurrences r i to :
  body_ok r -> is_word (DynamicRecord.body_size r) ->
  0 <= i <= DynamicRecord.size r ->
  DynamicRecord.edgeTo r to < DynamicRecord.outdegree r ->
  DynamicRecord.LF_to r i to
  = wrap (DynamicRecord.offset r (DynamicRecord.edgeTo r to)
          + occurrences (fun k => k =? DynamicRecord.edgeTo r to)
                        (window 0 i (expand (DynamicRecord.body r)))).
Proof.
  intros Hb Hw Hi Hk. pose proof (body_ok_runs r Hb) as Hruns.
  destruct Hb as [_ Htot]. unfold DynamicRecord.size in *.
  unfold DynamicRecord.LF_to.
  destruct (Z.geb_spec (DynamicRecord.edgeTo r to) (DynamicRecord.outdegree r)); [lia|].
  unfold DynamicRecord.LFLoop, DynamicRecord.lf_init. simpl.
  rewrite LFLoop_iter_scan.
  set (k := DynamicRecord.edgeTo r to) in *.
  set (P := fun x => x =? k).
  destruct (Z.eq_dec i 0) as [->|Hne].
  - rewrite scan_stop by lia. cbn [fst snd DynamicRecord.lf_result
      DynamicRecord.lf_run DynamicRecord.lf_offset]. rewrite window_nil.
    change (wsub 0 0) with 0. change (occurrences P []) with 0.
    unfold wsub. destruct (0 =? k); f_equal; lia.
  - pose proof (scan_result P (DynamicRecord.body r) i (0, 0) 0
                  (DynamicRecord.offset r k) Hruns ltac:(lia) ltac:(lia)
                  ltac:(lia) ltac:(unfold is_word in Hw; lia)) as Hs.
    destruct (scan P (DynamicRecord.body r) i (0, 0) 0 (DynamicRecord.offset r k))
      as [[[iter' run'] offset'] acc'].
    destruct Hs as (Hbound & _ & _ & _ & Hacc). simpl.
    rewrite Z.sub_0_r in Hacc. rewrite <- Hacc.
    unfold wsub. fold (P run'.1).
    destruct (P run'.1); [|reflexivity].
    rewrite wrap_sub_r. reflexivity.
Qed.

(** Positions whose successor is [to] are the positions whose rank is
    [edgeTo to]. *)
Lemma count_target r to lo hi :
  body_ok r -> is_word (DynamicRecord.body_size r) -> outgoing_ok r ->
  to ∈ (DynamicRecord.outgoing r).*1 ->
  0 <= lo -> lo <= hi -> hi <= DynamicRecord.size r ->
  count_positions (fun j => DynamicRecord.at_ r j =? to) lo hi
  = occurrences (fun k => k =? DynamicRecord.edgeTo r to)
                (window lo hi (expand (DynamicRecord.body r))).
Proof.
  intros Hb Hw Hs Hin H0 Hle Hhi.
  pose proof (sorted_keys_strict _ Hs) as Hstrict.
  pose proof (body_ok_runs r Hb) as Hruns.
  pose proof (expand_length _ Hruns) as Hlen.
  pose proof (expand_ranks _ _ (body_runs r Hb)) as Hranks.
  destruct (edgeTo_present to _ (keys_strict_sorted _ Hstrict) Hin) as [Hk Hkey].
  unfold DynamicRecord.size in *.
  rewrite (body_total r Hb) in Hhi.
  apply count_positions_window; try lia.
  intros j Hj. rewrite at_expand; auto.
  2:{ unfold DynamicRecord.size. rewrite (body_total r Hb). lia. }
  set (x := nth (Z.to_nat j) (expand (DynamicRecord.body r)) 0).
  assert (Hx : 0 <= x < DynamicRecord.outdegree r).
  { rewrite Forall_forall in Hranks. apply Hranks.
    apply list_elem_of_In, nth_In. lia. }
  unfold DynamicRecord.edgeTo, DynamicRecord.outdegree in *.
  destruct (Z.eqb_spec x (edgeTo to (DynamicRecord.outgoing r))) as [->|Hne].
  - apply Z.eqb_eq. exact Hkey.
  - apply Z.eqb_neq. intros Heq. apply Hne.
    rewrite <- Heq. symmetry. apply edgeTo_key; assumption.
Qed.

(** ** Range LF *)

Lemma LF_range_decompose r a b to :
  a <= b -> 0 <= b < WORD - 1 ->
  DynamicRecord.LF_range r (a, b) to
  = if DynamicRecord.edgeTo r to >=? DynamicRecord.outdegree r then Range.empty_range
    else (DynamicRecord.LF_to r a to, wsub (DynamicRecord.LF_to r (b + 1) to) 1).
Proof.
  intros Hab Hb. unfold DynamicRecord.LF_range, DynamicRecord.LF_to, Range.empty.
  cbn [fst snd].
  destruct (Z.gtb_spec a b) as [?|_]; [lia|].
  destruct (_ >=? _); [reflexivity|].
  assert (Hb1 : wadd b 1 = b + 1).
  { apply wrap_small. unfold is_word. lia. }
  rewrite Hb1. unfold DynamicRecord.LFLoop, DynamicRecord.lf_init.
  cbn [DynamicRecord.lf_iter DynamicRecord.lf_run DynamicRecord.lf_offset
       DynamicRecord.lf_result].
  rewrite !LFLoop_iter_scan.
  set (k := DynamicRecord.edgeTo r to).
  pose proof (scan_compose (fun x => x =? k) (DynamicRecord.body r) a (b + 1) (0, 0) 0
                (DynamicRecord.offset r k) ltac:(lia)) as Hc.
  destruct (scan (fun x => x =? k) (DynamicRecord.body r) a (0, 0) 0
              (DynamicRecord.offset r k)) as [[[iter1 run1] offset1] acc1].
  cbn [DynamicRecord.lf_iter DynamicRecord.lf_run DynamicRecord.lf_offset
       DynamicRecord.lf_result fst snd].
  rewrite Hc.
  destruct (scan (fun x => x =? k) (DynamicRecord.body r) (b + 1) (0, 0) 0
              (DynamicRecord.offset r k)) as [[[iter2 run2] offset2] acc2].
  reflexivity.
Qed.

(** ** Counting inside a range *)

Lemma window_length lo hi (l : list Z) :
  0 <= lo -> lo <= hi -> hi <= Z.of_nat (length l) ->
  Z.of_nat (length (window lo hi l)) = hi - lo.
Proof.
  intros. unfold window. rewrite length_take, length_drop. lia.
Qed.

Lemma window_drop lo hi n (l : list Z) :
  0 <= lo -> 0 <= n ->
  window lo hi (drop (Z.to_nat n) l) = window (lo + n) (hi + n) l.
Proof.
  intros. unfold window. rewrite drop_drop. f_equal; [lia|]. f_equal. lia.
Qed.

Lemma occurrences_word P (l : list Z) :
  Z.of_nat (length l) < WORD -> is_word (occurrences P l).
Proof.
  intros H. pose proof (occurrences_nonneg P l). pose proof (occurrences_le P l).
  unfold is_word. lia.
Qed.

Lemma scan_state_indep P Q iter limit : forall run offset acc acc2,
  (scan P iter limit run offset acc).1 = (scan Q iter limit run offset acc2).1.
Proof.
  induction iter as [|r iter IH]; intros run offset acc acc2; simpl; [reflexivity|].
  destruct (offset <? limit); [apply IH|reflexivity].
Qed.

Lemma scan_word P iter limit : forall run offset acc,
  is_word acc -> is_word (scan P iter limit run offset acc).2.
Proof.
  induction iter as [|r iter IH]; intros run offset acc Hacc; simpl; [exact Hacc|].
  destruct (offset <? limit); [|exact Hacc].
  apply IH. destruct (P r.1); [apply wrap_is_word|exact Hacc].
Qed.

Lemma replicate_prefix (a b : list Z) n x :
  a ++ b = replicate n x -> a = replicate (length a) x.
Proof.
  intros H.
  assert (Hlen : (length a <= n)%nat).
  { apply (f_equal length) in H. rewrite length_app, length_replicate in H. lia. }
  apply (f_equal (take (length a))) in H.
  rewrite take_app_length, take_replicate in H.
  rewrite Nat.min_l in H by exact Hlen. exact H.
Qed.

Lemma replicate_suffix (a b : list Z) n x :
  a ++ b = replicate n x -> b = replicate (length b) x.
Proof.
  intros H.
  assert (Hlen : (length a + length b = n)%nat).
  { apply (f_equal length) in H. rewrite length_app, length_replicate in H. lia. }
  apply (f_equal (drop (length a))) in H.
  rewrite drop_app_length, drop_replicate in H. rewrite H at 1. f_equal. lia.
Qed.

(** Scan to [a1] (where [a1] is [a] or [a + 1]), start counting at the
    part of the current run from position [a] on, scan on to [limit] and
    take back what the last run has past [limit]: the result counts the
    positions of [a, limit). *)
Lemma scan_two_phase P Q body a a1 limit acc0 :
  runs_ok body -> total_length body < WORD ->
  0 <= a -> a <= a1 -> a1 <= a + 1 -> a1 <= limit -> limit <= total_length body ->
  let '(iter_a, run_a, off_a, _) := scan Q body a1 (0, 0) 0 acc0 in
  let '(_, run', off', acc') :=
    scan P iter_a limit run_a off_a (if P run_a.1 then wsub off_a a else 0) in
  (if P run'.1 then wsub acc' (wsub off' limit) else acc')
  = occurrences P (window a limit (expand body)).
Proof.
  intros Hok Hw Ha Haa1 Ha1 Hal Hlt.
  pose proof (expand_length _ Hok) as Hlen.
  assert (Hwin : forall lo hi, 0 <= lo -> lo <= hi -> hi <= total_length body ->
                 wrap (occurrences P (window lo hi (expand body)))
                 = occurrences P (window lo hi (expand body))).
  { intros lo hi H1 H2 H3. apply wrap_small, occurrences_word.
    rewrite window_length; lia. }
  destruct (Z.eq_dec a1 0) as [->|Hne].
  - assert (a = 0) as -> by lia.
    rewrite scan_stop by lia.
    replace (if P (0, 0).1 then wsub 0 0 else 0) with 0
      by (destruct (P (0, 0).1); reflexivity).
    destruct (Z.eq_dec limit 0) as [->|Hl0].
    + rewrite scan_stop by lia. rewrite window_nil.
      destruct (P (0, 0).1); reflexivity.
    + pose proof (scan_result P body limit (0, 0) 0 0 Hok ltac:(lia) ltac:(lia)
                    ltac:(lia) ltac:(lia)) as Hs.
      pose proof (scan_word P body limit (0, 0) 0 0 ltac:(unfold is_word, WORD; lia)) as Hacc'.
      destruct (scan P body limit (0, 0) 0 0) as [[[iter' run'] off'] acc'].
      destruct Hs as (Hb & _ & _ & _ & Hacc). simpl in Hacc'.
      rewrite Z.sub_0_r, Z.add_0_l in Hacc. rewrite <- Hwin by lia. rewrite <- Hacc.
      unfold wsub. destruct (P run'.1).
      * rewrite wrap_sub_r. reflexivity.
      * rewrite Z.sub_0_r. symmetry. apply wrap_small, Hacc'.
  - pose proof (scan_result Q body a1 (0, 0) 0 acc0 Hok ltac:(lia) ltac:(lia)
                  ltac:(lia) ltac:(lia)) as Hs.
    destruct (scan Q body a1 (0, 0) 0 acc0) as [[[iter_a run_a] off_a] acc_a].
    destruct Hs as (Hb & [Hrok Hrtot] & He & Hrep1 & _).
    rewrite !Z.sub_0_r in *.
    assert (Hrep : window a off_a (expand body)
                   = replicate (Z.to_nat (off_a - a)) run_a.1).
    { pose proof (window_split (a1 - 1) a off_a (expand body) ltac:(lia) ltac:(lia)
                    ltac:(lia)) as Hsp.
      rewrite Hrep1 in Hsp. symmetry in Hsp. apply replicate_suffix in Hsp.
      rewrite Hsp at 1. f_equal.
      pose proof (window_length a off_a (expand body) ltac:(lia) ltac:(lia) ltac:(lia)).
      lia. }
    assert (Hoa : wsub off_a a = off_a - a).
    { apply wrap_small. unfold is_word. lia. }
    rewrite Hoa.
    set (acc1 := if P run_a.1 then off_a - a else 0).
    assert (Hacc1 : acc1 = occurrences P (window a off_a (expand body))).
    { rewrite Hrep, occurrences_replicate. unfold acc1.
      destruct (P run_a.1); lia. }
    destruct (Z.le_gt_cases limit off_a) as [Hstop|Hgo].
    + rewrite scan_stop by exact Hstop.
      pose proof (window_split a limit off_a (expand body) Ha ltac:(lia) Hstop) as Hsp.
      rewrite Hrep in Hsp. symmetry in Hsp. apply replicate_prefix in Hsp.
      rewrite Hsp, occurrences_replicate.
      pose proof (window_length a limit (expand body) Ha ltac:(lia) ltac:(lia)) as Hwl.
      unfold acc1, wsub. destruct (P run_a.1); [|reflexivity].
      rewrite wrap_sub_r. rewrite wrap_small; unfold is_word; lia.
    + pose proof (scan_result P iter_a limit run_a off_a acc1 Hrok ltac:(lia) Hgo
                    ltac:(lia) ltac:(lia)) as Hs.
      assert (Hw1 : is_word acc1).
      { rewrite Hacc1, <- Hwin by lia. apply wrap_is_word. }
      pose proof (scan_word P iter_a limit run_a off_a acc1 Hw1) as Hacc'.
      destruct (scan P iter_a limit run_a off_a acc1) as [[[iter' run'] off'] acc'].
      destruct Hs as (Hb' & _ & _ & _ & Hacc). simpl in Hacc'.
      rewrite He in Hacc. rewrite window_drop in Hacc by lia.
      replace (0 + off_a) with off_a in Hacc by lia.
      replace (limit - off_a + off_a) with limit in Hacc by lia.
      rewrite Hacc1, <- occurrences_app in Hacc.
      rewrite <- window_split in Hacc by lia.
      rewrite Hwin in Hacc by lia. rewrite <- Hacc.
      unfold wsub. destruct (P run'.1).
      * rewrite wrap_sub_r. reflexivity.
      * rewrite Z.sub_0_r. symmetry. apply wrap_small, Hacc'.
Qed.

Lemma bdLF_loop_scan iter limit outrank reverse_rank : forall run offset equal reverse_offset,
  DynamicRecord.bdLF_loop iter limit outrank reverse_rank run offset equal reverse_offset
  = let s1 := scan (fun k => k =? outrank) iter limit run offset equal in
    let s2 := scan (fun k => k <? reverse_rank) iter limit run offset reverse_offset in
    (s1.1.1.2, s1.1.2, s1.2, s2.2).
Proof.
  induction iter as [|r iter IH]; intros run offset equal reverse_offset; simpl;
    [reflexivity|].
  destruct (offset <? limit); [apply IH|reflexivity].
Qed.

(** ** Orientation of nodes *)

Lemma reverse_decomp n :
  0 <= n ->
  exists q b, (b = 0 \/ b = 1) /\ 0 <= q /\ n = 2 * q + b /\
              Node.reverse n = 2 * q + 1 - b /\
              Node.is_reverse n = (b =? 1).
Proof.
  intros Hn. unfold Node.reverse, Node.is_reverse.
  destruct n as [|p|p]; [| |lia].
  - exists 0, 0. repeat split; auto; lia.
  - destruct p as [p|p|].
    + exists (Z.pos p), 1. simpl. repeat split; auto; lia.
    + exists (Z.pos p), 0. simpl. repeat split; auto; lia.
    + exists 0, 1. simpl. repeat split; auto; lia.
Qed.

Lemma keys_strict_lt v x y :
  keys_strict v -> 0 <= x < vec_size v -> 0 <= y < vec_size v ->
  (x < y <-> key v x < key v y).
Proof.
  intros Hs Hx Hy. split; intros H.
  - apply Hs; lia.
  - destruct (Z.lt_trichotomy x y) as [?|[->|Hgt]]; [assumption|lia|].
    pose proof (Hs y x ltac:(lia) Hgt ltac:(lia)). lia.
Qed.

Lemma keys_strict_eq v x y :
  keys_strict v -> 0 <= x < vec_size v -> 0 <= y < vec_size v ->
  (x = y <-> key v x = key v y).
Proof.
  intros Hs Hx Hy. split; [intros ->; reflexivity|]. intros H.
  destruct (Z.lt_trichotomy x y) as [Hlt|[?|Hgt]]; [|assumption|].
  - pose proof (Hs x y ltac:(lia) Hlt ltac:(lia)). lia.
  - pose proof (Hs y x ltac:(lia) Hgt ltac:(lia)). lia.
Qed.

Lemma counted_rank_reverse v to x :
  keys_strict v -> Forall pair_words v -> to ∈ v.*1 ->
  0 <= x < vec_size v ->
  counted_rank (vec_size v) (edgeTo to v) (edgeTo (Node.reverse to) v) to x
  = (Node.reverse (key v x) <? Node.reverse to).
Proof.
  intros Hs Hw Hin Hx.
  pose proof (keys_strict_sorted _ Hs) as Hsorted.
  destruct (edgeTo_present to v Hsorted Hin) as [Hk Hkey].
  assert (Hkw : forall y, 0 <= y < vec_size v -> 0 <= key v y).
  { intros y Hy. rewrite Forall_forall in Hw.
    destruct (Hw (vec_at v y)) as [[H0 _] _]; [|exact H0].
    apply list_elem_of_lookup. exists (Z.to_nat y). apply lookup_vec_at, Hy. }
  pose proof (Hkw _ Hx) as Hu. pose proof (Hkw _ Hk) as Hto. rewrite Hkey in Hto.
  pose proof (keys_strict_lt v x _ Hs Hx Hk) as Hlt.
  pose proof (keys_strict_eq v x _ Hs Hx Hk) as Heq.
  rewrite Hkey in Hlt, Heq.
  destruct (reverse_decomp _ Hu) as (qu & bu & Hbu & Hqu & Hun & Hur & _).
  destruct (reverse_decomp _ Hto) as (qt & bt & Hbt & Hqt & Htn & Htr & Hti).
  unfold counted_rank.
  destruct (edgeTo_spec (Node.reverse to) v Hsorted) as [[Hr Hrkey]|[Hr Habs]].
  - destruct (Z.geb_spec (edgeTo (Node.reverse to) v) (vec_size v)) as [?|_]; [lia|].
    pose proof (keys_strict_lt v x _ Hs Hx Hr) as Hlt'.
    pose proof (keys_strict_eq v x _ Hs Hx Hr) as Heq'.
    rewrite Hrkey in Hlt', Heq'.
    rewrite Hti.
    destruct (Z.eqb_spec bt 1) as [Hb1|Hb1]; simpl.
    + destruct (Z.ltb_spec x (edgeTo (Node.reverse to) v));
        destruct (Z.ltb_spec (Node.reverse (key v x)) (Node.reverse to)); try reflexivity; lia.
    + destruct (Z.ltb_spec x (edgeTo (Node.reverse to) v + 1));
        destruct (Z.eqb_spec x (edgeTo to v));
        destruct (Z.ltb_spec (Node.reverse (key v x)) (Node.reverse to));
        simpl; try reflexivity; lia.
  - rewrite Hr. rewrite Z.geb_leb, Z.leb_refl.
    specialize (Habs x Hx).
    destruct (Z.ltb_spec x (edgeTo to v));
      destruct (Z.ltb_spec (Node.reverse (key v x)) (Node.reverse to)); try reflexivity; lia.
Qed.

Lemma occurrences_diff P Q (l : list Z) :
  (forall x, Q x = true -> P x = true) ->
  occurrences (fun x => P x && negb (Q x)) l = occurrences P l - occurrences Q l.
Proof.
  intros H. unfold occurrences.
  induction l as [|x l IH]; simpl; [reflexivity|].
  specialize (H x).
  destruct (P x), (Q x); simpl; try lia;
    try (specialize (H eq_refl); discriminate H).
Qed.

Lemma bdLF_occurrences r a b to ro0 :
  typed r -> body_ok r -> outgoing_ok r ->
  0 <= a -> a <= b -> b < DynamicRecord.size r ->
  to ∈ (DynamicRecord.outgoing r).*1 ->
  DynamicRecord.bdLF r (a, b) to ro0
  = (DynamicRecord.LF_range r (a, b) to,
     occurrences (counted_rank (DynamicRecord.outdegree r) (DynamicRecord.edgeTo r to)
                    (DynamicRecord.edgeTo r (Node.reverse to)) to)
                 (window a (b + 1) (expand (DynamicRecord.body r)))).
Proof.
  intros Ht Hb Hs H0 Hab Hbs Hin.
  pose proof (sorted_keys_strict _ Hs) as Hstrict.
  pose proof (keys_strict_sorted _ Hstrict) as Hsorted.
  pose proof (body_ok_runs r Hb) as Hruns.
  pose proof (typed_size r Ht) as Hw.
  pose proof (typed_outdegree r Ht) as Hod.
  pose proof (body_total r Hb) as Htot.
  destruct (edgeTo_present to _ Hsorted Hin) as [Hk Hkey].
  unfold DynamicRecord.size in *.
  assert (Hb1 : wadd b 1 = b + 1).
  { apply wrap_small. unfold is_word in *. lia. }
  rewrite LF_range_decompose by (unfold is_word in *; lia).
  fold (DynamicRecord.edgeTo r to) in Hk, Hkey. fold (DynamicRecord.outdegree r) in Hk.
  pose proof (LF_to_occurrences r a to Hb Hw ltac:(unfold DynamicRecord.size; lia)
                ltac:(lia)) as Hsp.
  pose proof (LF_to_occurrences r (b + 1) to Hb Hw ltac:(unfold DynamicRecord.size; lia)
                ltac:(lia)) as Hep.
  assert (Hdef : DynamicRecord.LF_to r a to
                 = (DynamicRecord.LFLoop (DynamicRecord.lf_init r (DynamicRecord.edgeTo r to))
                      a (DynamicRecord.edgeTo r to)).1).
  { unfold DynamicRecord.LF_to.
    destruct (Z.geb_spec (DynamicRecord.edgeTo r to) (DynamicRecord.outdegree r));
      [lia|reflexivity]. }
  unfold DynamicRecord.bdLF, Range.empty. cbn [fst snd].
  destruct (Z.gtb_spec a b) as [?|_]; [lia|].
  destruct (Z.geb_spec (DynamicRecord.edgeTo r to) (DynamicRecord.outdegree r)) as [?|_]; [lia|].
  rewrite Hb1.
  set (k := DynamicRecord.edgeTo r to) in *.
  set (rr0 := DynamicRecord.edgeTo r (Node.reverse to)) in *.
  set (od := DynamicRecord.outdegree r) in *.
  set (E := expand (DynamicRecord.body r)) in *.
  destruct (DynamicRecord.LFLoop (DynamicRecord.lf_init r k) a k) as [sp st] eqn:HL.
  simpl in Hdef. rewrite Hdef in *. clear Hdef.
  unfold DynamicRecord.LFLoop, DynamicRecord.lf_init in HL.
  cbn [DynamicRecord.lf_iter DynamicRecord.lf_run DynamicRecord.lf_offset
       DynamicRecord.lf_result] in HL.
  rewrite LFLoop_iter_scan in HL.
  injection HL as _ Hst.
  (* the threshold rank *)
  set (rs := if rr0 >=? od then (k, false)
             else if negb (Node.is_reverse to) then (wadd rr0 1, true) else (rr0, false)).
  destruct rs as [rr sub] eqn:Hrs.
  pose proof (scan_two_phase (fun x => x =? k) (fun x => x =? k) (DynamicRecord.body r)
                a a (b + 1) (DynamicRecord.offset r k) Hruns
                ltac:(unfold is_word in *; lia) H0 ltac:(lia) ltac:(lia) ltac:(lia)
                ltac:(lia)) as H1.
  pose proof (scan_two_phase (fun x => x <? rr) (fun x => x =? k) (DynamicRecord.body r)
                a a (b + 1) (DynamicRecord.offset r k) Hruns
                ltac:(unfold is_word in *; lia) H0 ltac:(lia) ltac:(lia) ltac:(lia)
                ltac:(lia)) as H2.
  destruct (scan (fun x => x =? k) (DynamicRecord.body r) a (0, 0) 0
              (DynamicRecord.offset r k)) as [[[iter_a run_a] off_a] acc_a].
  subst st.
  cbn [DynamicRecord.lf_iter DynamicRecord.lf_run DynamicRecord.lf_offset
       DynamicRecord.lf_result].
  rewrite bdLF_loop_scan. cbv zeta.
  pose proof (scan_state_indep (fun x => x =? k) (fun x => x <? rr) iter_a (b + 1) run_a off_a
                (if run_a.1 =? k then wsub off_a a else 0)
                (if run_a.1 <? rr then wsub off_a a else 0)) as Hind.
  destruct (scan (fun x => x =? k) iter_a (b + 1) run_a off_a
              (if run_a.1 =? k then wsub off_a a else 0))
    as [[[iter1 run1] off1] eq1].
  destruct (scan (fun x => x <? rr) iter_a (b + 1) run_a off_a
              (if run_a.1 <? rr then wsub off_a a else 0))
    as [[[iter2 run2] off2] ro2].
  simpl in Hind. injection Hind as -> -> ->.
  cbn [fst snd].
  rewrite H1, H2. clear H1 H2.
  fold E.
  assert (Hlen : Z.of_nat (length E) = DynamicRecord.body_size r).
  { unfold E. rewrite expand_length by exact Hruns. lia. }
  assert (Hocc : forall P lo hi, 0 <= lo -> lo <= hi -> hi <= DynamicRecord.body_size r ->
                 is_word (occurrences P (window lo hi E))).
  { intros P lo hi ? ? ?. apply occurrences_word.
    rewrite window_length by lia. unfold is_word in *. lia. }
  f_equal; [f_equal|].
  - rewrite Hep, Hsp. unfold wsub, wadd.
    rewrite (window_split 0 a (b + 1) E) by lia.
    rewrite occurrences_app.
    rewrite wrap_add_l, !wrap_sub_l. f_equal. lia.
  - assert (Hvalid : forall x, In x (window a (b + 1) E) -> 0 <= x < od).
    { intros x Hx. pose proof (expand_ranks _ _ (body_runs r Hb)) as Hranks.
      rewrite Forall_forall in Hranks. apply Hranks.
      apply list_elem_of_In in Hx. unfold window in Hx.
      eapply subseteq_drop, subseteq_take, Hx. }
    unfold rs in Hrs. unfold counted_rank.
    destruct (Z.geb_spec rr0 od) as [Hge|Hlt].
    { injection Hrs as <- <-. reflexivity. }
    destruct (negb (Node.is_reverse to)) eqn:Hrev; injection Hrs as <- <-;
      [|reflexivity].
    assert (Hrng : 0 <= rr0) by (apply edgeTo_range; exact Hsorted).
    assert (Hrr : wadd rr0 1 = rr0 + 1).
    { apply wrap_small. unfold is_word. lia. }
    rewrite Hrr.
    assert (Hkr : forall x, (x =? k) = true -> (x <? rr0 + 1) = true).
    { intros x Hx. apply Z.eqb_eq in Hx. subst x. apply Z.ltb_lt.
      destruct (edgeTo_spec (Node.reverse to) _ Hsorted) as [[Hr Hrkey]|[Hr _]].
      2:{ unfold rr0, od, DynamicRecord.edgeTo, DynamicRecord.outdegree in Hlt. lia. }
      fold (DynamicRecord.edgeTo r (Node.reverse to)) in Hr, Hrkey. fold rr0 in Hr, Hrkey.
      assert (Hto : 0 <= to).
      { pose proof (typed_outgoing r Ht) as Hwords. rewrite Forall_forall in Hwords.
        apply list_elem_of_fmap in Hin as (e & -> & He). apply (Hwords e He). }
      destruct (reverse_decomp _ Hto) as (q & bt & Hbt & Hq & Htn & Htr & Hti).
      rewrite Hti in Hrev.
      pose proof (keys_strict_lt _ k rr0 Hstrict Hk Hr) as Hlt'.
      rewrite Hkey, Hrkey in Hlt'.
      destruct (Z.eqb_spec bt 1); [discriminate|]. lia. }
    unfold wsub. rewrite <- (occurrences_diff _ _ _ Hkr).
    apply wrap_small, Hocc; lia.
Qed.

(** ** removeUnusedEdges: the compaction loop keeps the used edges *)

Lemma select_cons_drop {A} (used : list bool) (n : nat) (x : A) l :
  (n < length used)%nat ->
  select (drop n used) (x :: l)
  = if nth n used false then x :: select (drop (S n) used) l
    else select (drop (S n) used) l.
Proof.
  intros Hn. destruct (used !! n) as [u|] eqn:Hu.
  2:{ apply lookup_ge_None in Hu. lia. }
  rewrite (drop_S _ _ _ Hu), (nth_lookup_Some _ _ false _ Hu). reflexivity.
Qed.

Lemma compact_fold used : forall (rest done kept junk : list (Z * Z)),
  (length kept + length junk = length done)%nat ->
  (length done + length rest <= length used)%nat ->
  exists junk',
    fold_left (DynamicRecord.compact_step used) (seq (length done) (length rest))
              (kept ++ junk ++ rest, length kept)
    = ((kept ++ select (drop (length done) used) rest) ++ junk',
       length (kept ++ select (drop (length done) used) rest)).
Proof.
  induction rest as [|x rest IH]; intros done kept junk Hlen Hused.
  - simpl. exists junk. rewrite !app_nil_r. reflexivity.
  - cbn [length seq fold_left]. unfold DynamicRecord.compact_step at 2. cbn [fst snd].
    assert (Hnth : nth (length done) (kept ++ junk ++ x :: rest) (0, 0) = x).
    { rewrite app_assoc, app_nth2 by (rewrite length_app; lia).
      rewrite length_app.
      replace (length done - (length kept + length junk))%nat with O by lia.
      reflexivity. }
    rewrite Hnth.
    rewrite select_cons_drop by (simpl in Hused; lia).
    assert (Hins : exists junk1,
               <[length kept := x]> (kept ++ junk ++ x :: rest) = kept ++ x :: junk1 ++ rest
               /\ length junk1 = length junk).
    { destruct junk as [|j junk0].
      - exists []. simpl. split; [|reflexivity].
        rewrite insert_app_r_alt by lia. rewrite Nat.sub_diag. reflexivity.
      - exists (junk0 ++ [x]). split.
        + rewrite insert_app_r_alt by lia. rewrite Nat.sub_diag. simpl.
          rewrite <- app_assoc. reflexivity.
        + rewrite length_app. simpl. lia. }
    destruct Hins as (junk1 & -> & Hj1).
    assert (Hd : length (done ++ [x]) = S (length done)).
    { rewrite length_app. simpl. lia. }
    assert (Hk : length (kept ++ [x]) = S (length kept)).
    { rewrite length_app. simpl. lia. }
    set (sel := select (drop (S (length done)) used) rest).
    destruct (nth (length done) used false).
    + destruct (IH (done ++ [x]) (kept ++ [x]) junk1) as [junk' IH'].
      { rewrite Hd, Hk. lia. }
      { rewrite Hd. simpl in Hused. lia. }
      rewrite Hd, Hk in IH'. fold sel in IH'.
      exists junk'.
      replace ((kept ++ [x]) ++ junk1 ++ rest) with (kept ++ x :: junk1 ++ rest) in IH'
        by (rewrite <- app_assoc; reflexivity).
      replace ((kept ++ [x]) ++ sel) with (kept ++ x :: sel) in IH'
        by (rewrite <- app_assoc; reflexivity).
      exact IH'.
    + destruct (IH (done ++ [x]) kept (x :: junk1)) as [junk' IH'].
      { rewrite Hd. simpl. lia. }
      { rewrite Hd. simpl in Hused. lia. }
      rewrite Hd in IH'. fold sel in IH'.
      exists junk'. exact IH'.
Qed.

Lemma compact_select used (out : list (Z * Z)) :
  (length out <= length used)%nat ->
  DynamicRecord.compact used out = select used out.
Proof.
  intros Hlen. unfold DynamicRecord.compact.
  destruct (compact_fold used out [] [] [] eq_refl Hlen) as [junk' H].
  simpl in H. rewrite H. simpl. apply take_app_length.
Qed.

Lemma elem_of_select {A} (used : list bool) (l : list A) x :
  x ∈ select used l <-> exists i, nth i used false = true /\ l !! i = Some x.
Proof.
  revert used. induction l as [|y l IH]; intros used.
  - simpl. split; [intros H; inversion H|intros (i & _ & H); destruct i; discriminate].
  - destruct used as [|u used].
    + simpl. split; [intros H; inversion H|]. intros (i & H & _). destruct i; discriminate.
    + simpl. destruct u.
      * rewrite elem_of_cons, IH. split.
        -- intros [->|(i & H1 & H2)]; [exists O; auto|exists (S i); auto].
        -- intros ([|i] & H1 & H2); [left; simpl in H2; congruence|right; eauto].
      * rewrite IH. split.
        -- intros (i & H1 & H2). exists (S i). auto.
        -- intros ([|i] & H1 & H2); [discriminate|eauto].
Qed.

Lemma select_sorted (used : list bool) (l : list (Z * Z)) :
  StronglySorted Z.lt l.*1 -> StronglySorted Z.lt (select used l).*1.
Proof.
  revert used. induction l as [|y l IH]; intros used Hs.
  - constructor.
  - inversion Hs as [|? ? Hs' Hall]; subst.
    destruct used as [|u used]; [constructor|]. simpl.
    destruct u; [|apply IH, Hs'].
    simpl. constructor; [apply IH, Hs'|].
    rewrite Forall_forall in *. intros z Hz. apply Hall.
    apply list_elem_of_fmap in Hz as (e & -> & He).
    apply elem_of_select in He as (i & _ & Hi).
    apply list_elem_of_fmap. exists e. split; [reflexivity|].
    apply list_elem_of_lookup. eauto.
Qed.

Lemma select_all {A} (used : list bool) (l : list A) :
  (forall i, (i < length l)%nat -> nth i used false = true) -> select used l = l.
Proof.
  revert used. induction l as [|y l IH]; intros used H; [reflexivity|].
  destruct used as [|u used].
  - specialize (H O ltac:(simpl; lia)). discriminate.
  - simpl. pose proof (H O ltac:(simpl; lia)) as H0. simpl in H0. subst u.
    f_equal. apply IH. intros i Hi. apply (H (S i)). simpl. lia.
Qed.

Lemma mark_used_spec n body k :
  nth k (DynamicRecord.mark_used n body) false = true
  <-> (k < n)%nat /\ exists run : Z * Z, run ∈ body /\ Z.to_nat run.1 = k.
Proof.
  unfold DynamicRecord.mark_used.
  assert (Hgen : forall used,
    nth k (fold_left (fun u (run : Z * Z) => <[Z.to_nat run.1 := true]> u) body used) false
      = true
    <-> nth k used false = true \/
        ((k < length used)%nat /\ exists run : Z * Z, run ∈ body /\ Z.to_nat run.1 = k)).
  { induction body as [|run body IH]; intros used; simpl.
    - split; [auto|]. intros [H|(_ & run & Hr & _)]; [exact H|inversion Hr].
    - rewrite IH. rewrite length_insert.
      destruct (Nat.eq_dec (Z.to_nat run.1) k) as [Heq|Hne].
      + subst k. destruct (Nat.lt_ge_cases (Z.to_nat run.1) (length used)) as [Hlt|Hge].
        * rewrite !nth_lookup, list_lookup_insert_eq by exact Hlt. simpl.
          split; [|auto]. intros _. right. split; [exact Hlt|].
          exists run. split; [left|reflexivity].
        * rewrite list_insert_ge by exact Hge.
          split; intros [H|(Hlt & _)]; auto; lia.
      + rewrite !nth_lookup, list_lookup_insert_ne by exact Hne.
        split; intros [H|(Hlt & run' & Hr & Hk)]; auto; right; split; auto.
        * exists run'. split; [right; exact Hr|exact Hk].
        * exists run'. split; [|exact Hk].
          apply elem_of_cons in Hr as [->|Hr]; [contradiction|exact Hr]. }
  rewrite Hgen. rewrite length_replicate.
  split.
  - intros [H|H]; [|exact H]. exfalso.
    rewrite nth_lookup in H. destruct (replicate n false !! k) as [b|] eqn:Hb; simpl in H.
    + apply lookup_replicate in Hb as [-> _]. discriminate.
    + discriminate.
  - auto.
Qed.

(** ** recode and removeUnusedEdges preserve the node sequence *)

Lemma body_ok_ranks r : body_ok r -> ranks_ok r.
Proof. intros [H _]. eapply Forall_impl; [exact H|]. simpl. tauto. Qed.

Lemma at_loop_nodes out out' body : forall body' i off,
  map (fun run : Z * Z => (key out run.1, run.2)) body
  = map (fun run : Z * Z => (key out' run.1, run.2)) body' ->
  DynamicRecord.at_loop out body i off = DynamicRecord.at_loop out' body' i off.
Proof.
  induction body as [|run body IH]; intros [|run' body'] i off H; try discriminate.
  - reflexivity.
  - simpl in H. injection H as Hk Hl Hrest. simpl. rewrite Hl.
    fold (key out run.1). fold (key out' run'.1). rewrite Hk.
    destruct (_ >? i); [reflexivity|]. apply IH, Hrest.
Qed.

(** Re-ranking a body against a sorted vector that contains all its
    successors keeps the successor of every run. *)
Lemma rerank_nodes out out' body :
  keys_sorted out' ->
  Forall (fun run : Z * Z => key out run.1 ∈ out'.*1) body ->
  map (fun run : Z * Z => (key out run.1, run.2)) body
  = map (fun run : Z * Z => (key out' run.1, run.2))
        (map (fun run : Z * Z => (edgeTo run.1 out', run.2))
             (map (fun run : Z * Z => (key out run.1, run.2)) body)).
Proof.
  intros Hs Hall. rewrite !map_map. apply map_ext_Forall.
  eapply Forall_impl; [exact Hall|]. intros run Hin. simpl.
  destruct (edgeTo_present _ _ Hs Hin) as [_ Hk]. rewrite Hk. reflexivity.
Qed.

Lemma recode_at r i :
  ranks_ok r -> DynamicRecord.at_ (DynamicRecord.recode r) i = DynamicRecord.at_ r i.
Proof.
  intros Hr. unfold DynamicRecord.recode.
  destruct (DynamicRecord.empty r); [reflexivity|].
  destruct (DynamicRecord.successors_sorted _); [reflexivity|].
  unfold DynamicRecord.at_, DynamicRecord.size. simpl.
  destruct (_ >=? _); [reflexivity|].
  symmetry. apply at_loop_nodes.
  unfold DynamicRecord.edgeTo, DynamicRecord.successor. simpl.
  apply (rerank_nodes (DynamicRecord.outgoing r)).
  - apply sorted_edges_keys, sequentialSort_sorted.
  - eapply Forall_impl; [exact Hr|]. intros run Hrun. simpl in Hrun.
    rewrite (sequentialSort_perm (DynamicRecord.outgoing r)).
    apply key_elem_of. exact Hrun.
Qed.

Lemma used_successor r (run : Z * Z) :
  ranks_ok r -> run ∈ DynamicRecord.body r ->
  key (DynamicRecord.outgoing r) run.1
  ∈ (select (DynamicRecord.mark_used (length (DynamicRecord.outgoing r)) (DynamicRecord.body r))
            (DynamicRecord.outgoing r)).*1.
Proof.
  intros Hr Hin. unfold ranks_ok in Hr. rewrite Forall_forall in Hr.
  pose proof (Hr run Hin) as Hrun. unfold DynamicRecord.outdegree, vec_size in Hrun.
  apply list_elem_of_fmap. exists (vec_at (DynamicRecord.outgoing r) run.1).
  split; [reflexivity|]. apply elem_of_select. exists (Z.to_nat run.1). split.
  - apply mark_used_spec. split; [lia|]. exists run. auto.
  - apply lookup_vec_at. unfold vec_size. lia.
Qed.

Lemma removeUnusedEdges_outgoing r :
  DynamicRecord.outgoing (DynamicRecord.removeUnusedEdges r)
  = select (DynamicRecord.mark_used (length (DynamicRecord.outgoing r)) (DynamicRecord.body r))
           (DynamicRecord.outgoing r).
Proof.
  unfold DynamicRecord.removeUnusedEdges. simpl. apply compact_select.
  unfold DynamicRecord.mark_used.
  assert (H : forall body used,
            length (fold_left (fun u (run : Z * Z) => <[Z.to_nat run.1 := true]> u) body used)
            = length used).
  { induction body as [|run body IH]; intros used; simpl; [reflexivity|].
    rewrite IH. apply length_insert. }
  rewrite H, length_replicate. lia.
Qed.

Lemma removeUnusedEdges_body r :
  DynamicRecord.body (DynamicRecord.removeUnusedEdges r)
  = map (fun run : Z * Z =>
           (edgeTo run.1 (DynamicRecord.outgoing (DynamicRecord.removeUnusedEdges r)), run.2))
        (map (fun run : Z * Z => (key (DynamicRecord.outgoing r) run.1, run.2))
             (DynamicRecord.body r)).
Proof. reflexivity. Qed.

Lemma removeUnusedEdges_sorted r :
  outgoing_ok r -> outgoing_ok (DynamicRecord.removeUnusedEdges r).
Proof.
  unfold outgoing_ok. rewrite removeUnusedEdges_outgoing. apply select_sorted.
Qed.

Lemma removeUnusedEdges_at r i :
  ranks_ok r -> outgoing_ok r ->
  DynamicRecord.at_ (DynamicRecord.removeUnusedEdges r) i = DynamicRecord.at_ r i.
Proof.
  intros Hr Hs. unfold DynamicRecord.at_, DynamicRecord.size.
  change (DynamicRecord.body_size (DynamicRecord.removeUnusedEdges r))
    with (DynamicRecord.body_size r).
  destruct (_ >=? _); [reflexivity|].
  symmetry. apply at_loop_nodes. rewrite removeUnusedEdges_body.
  apply rerank_nodes.
  - apply keys_strict_sorted, sorted_keys_strict, removeUnusedEdges_sorted, Hs.
  - rewrite removeUnusedEdges_outgoing. apply Forall_forall. intros run Hin.
    apply used_successor; assumption.
Qed.

Lemma record_eq (r1 r2 : DynamicRecord.t) :
  DynamicRecord.body_size r1 = DynamicRecord.body_size r2 ->
  DynamicRecord.incoming r1 = DynamicRecord.incoming r2 ->
  DynamicRecord.outgoing r1 = DynamicRecord.outgoing r2 ->
  DynamicRecord.body r1 = DynamicRecord.body r2 ->
  DynamicRecord.ids r1 = DynamicRecord.ids r2 ->
  r1 = r2.
Proof. destruct r1, r2. simpl. congruence. Qed.

Lemma removeUnusedEdges_ranks r :
  ranks_ok r -> outgoing_ok r -> ranks_ok (DynamicRecord.removeUnusedEdges r).
Proof.
  intros Hr Hs. unfold ranks_ok. rewrite removeUnusedEdges_body.
  rewrite map_map. apply Forall_forall. intros run' Hin.
  apply list_elem_of_fmap in Hin as (run & -> & Hin). simpl.
  unfold DynamicRecord.outdegree.
  apply edgeTo_present.
  - apply keys_strict_sorted, sorted_keys_strict, removeUnusedEdges_sorted, Hs.
  - rewrite removeUnusedEdges_outgoing. apply used_successor; assumption.
Qed.

Lemma map_fixed {A} (f : A -> A) (l : list A) :
  Forall (fun x => f x = x) l -> map f l = l.
Proof. induction 1 as [|x l Hx _ IH]; simpl; congruence. Qed.

Lemma removeUnusedEdges_idempotent r :
  ranks_ok r -> outgoing_ok r ->
  DynamicRecord.removeUnusedEdges (DynamicRecord.removeUnusedEdges r)
  = DynamicRecord.removeUnusedEdges r.
Proof.
  intros Hr Hs.
  pose proof (removeUnusedEdges_ranks r Hr Hs) as Hr'.
  pose proof (removeUnusedEdges_sorted r Hs) as Hs'.
  pose proof (sorted_keys_strict _ Hs') as Hstrict'.
  set (r' := DynamicRecord.removeUnusedEdges r) in *.
  assert (Hout : DynamicRecord.outgoing (DynamicRecord.removeUnusedEdges r')
                 = DynamicRecord.outgoing r').
  { rewrite removeUnusedEdges_outgoing. apply select_all. intros j Hj.
    apply mark_used_spec. split; [exact Hj|].
    destruct (lookup_lt_is_Some_2 _ _ Hj) as [e He].
    assert (Hin : e ∈ DynamicRecord.outgoing r') by (apply list_elem_of_lookup; eauto).
    unfold r' in Hin. rewrite removeUnusedEdges_outgoing in Hin.
    apply elem_of_select in Hin as (i & Hused & Hi).
    apply mark_used_spec in Hused as (Hlt & run & Hrun & Hri).
    exists (edgeTo (key (DynamicRecord.outgoing r) run.1) (DynamicRecord.outgoing r'), run.2).
    split.
    - change (DynamicRecord.body r')
        with (DynamicRecord.body (DynamicRecord.removeUnusedEdges r)).
      rewrite removeUnusedEdges_body, map_map.
      apply list_elem_of_fmap. exists run. split; [reflexivity|exact Hrun].
    - simpl. unfold ranks_ok in Hr. rewrite Forall_forall in Hr.
      pose proof (Hr run Hrun) as Hrk.
      assert (Hkey : key (DynamicRecord.outgoing r) run.1
                     = key (DynamicRecord.outgoing r') (Z.of_nat j)).
      { unfold key. rewrite (vec_at_lookup _ _ _ He).
        replace run.1 with (Z.of_nat i) by lia.
        rewrite (vec_at_lookup _ _ _ Hi). reflexivity. }
      rewrite Hkey, edgeTo_key; [lia|exact Hstrict'|].
      split; [lia|]. exact (inj_lt _ _ Hj). }
  apply record_eq; try reflexivity; [exact Hout|].
  rewrite removeUnusedEdges_body, Hout, map_map. apply map_fixed.
  eapply Forall_impl; [exact Hr'|]. intros [k len] Hk. simpl in *.
  f_equal. apply edgeTo_key; assumption.
Qed.

(** ** The variable-byte codec *)

Lemma forall_below (P : Z -> bool) (n : nat) :
  forallb P (map Z.of_nat (seq 0 n)) = true ->
  forall a, 0 <= a < Z.of_nat n -> P a = true.
Proof.
  intros H a Ha. rewrite forallb_forall in H. apply H.
  apply in_map_iff. exists (Z.to_nat a). split; [lia|].
  apply in_seq. lia.
Qed.

Lemma low_byte_facts a :
  0 <= a < 128 ->
  Z.land a 128 = 0 /\ Z.land a 127 = a /\
  Z.land (Z.lor a 128) 128 = 128 /\ Z.land (Z.lor a 128) 127 = a.
Proof.
  intros Ha.
  pose proof (forall_below
    (fun a => (Z.land a 128 =? 0) && (Z.land a 127 =? a)
              && (Z.land (Z.lor a 128) 128 =? 128) && (Z.land (Z.lor a 128) 127 =? a))
    128 eq_refl a Ha) as H.
  simpl in H. rewrite !andb_true_iff, !Z.eqb_eq in H. tauto.
Qed.

Lemma land_127 v : 0 <= v -> Z.land v 127 = v mod 128.
Proof. intros _. apply (Z.land_ones v 7). lia. Qed.

Lemma shiftr_7 v : Z.shiftr v 7 = v / 128.
Proof. apply (Z.shiftr_div_pow2 v 7). lia. Qed.

Lemma write_loop_length fuel v : (1 <= length (ByteCode.write_loop fuel v))%nat.
Proof.
  destruct fuel; simpl; [lia|]. destruct (v >? ByteCode.DATA_MASK); simpl; lia.
Qed.

Lemma write_loop_head fuel v post :
  0 <= v ->
  Z.land (hd 0 (ByteCode.write_loop fuel v ++ post)) 127 = v mod 128
  \/ (fuel = O /\ 128 <= v).
Proof.
  intros Hv. destruct fuel; simpl.
  - destruct (Z.lt_ge_cases v 128); [left|right; auto].
    rewrite Z.mod_small by lia. apply low_byte_facts. lia.
  - left. unfold ByteCode.DATA_MASK, ByteCode.NEXT_BYTE.
    destruct (Z.gtb_spec v 127); simpl.
    + rewrite (land_127 v) by lia.
      apply low_byte_facts. apply Z.mod_pos_bound. lia.
    + rewrite Z.mod_small by lia. apply low_byte_facts. lia.
Qed.

Lemma read_loop_write_loop fuel : forall v post i offset base,
  0 <= v -> v < 128 ^ (Z.of_nat fuel + 1) ->
  0 <= offset -> 0 <= base -> base + v * 2 ^ offset < WORD ->
  ByteCode.read_loop (ByteCode.write_loop fuel v ++ post) i offset
    (base + (v mod 128) * 2 ^ offset)
  = (base + v * 2 ^ offset, (i + length (ByteCode.write_loop fuel v))%nat).
Proof.
  induction fuel as [|fuel IH]; intros v post i offset base Hv Hfuel Hoff Hbase Hbound.
  - simpl in *. assert (Hlt : v < 128) by lia.
    destruct (low_byte_facts v ltac:(lia)) as (H128 & _).
    unfold ByteCode.NEXT_BYTE. rewrite H128. simpl.
    rewrite Z.mod_small by lia. f_equal. lia.
  - cbn [ByteCode.write_loop]. unfold ByteCode.DATA_MASK, ByteCode.NEXT_BYTE,
      ByteCode.DATA_BITS.
    destruct (Z.gtb_spec v 127) as [Hbig|Hsmall].
    + cbn [app ByteCode.read_loop]. unfold ByteCode.NEXT_BYTE, ByteCode.DATA_BITS,
        ByteCode.DATA_MASK.
      rewrite (land_127 v) by lia.
      destruct (low_byte_facts (v mod 128) ltac:(apply Z.mod_pos_bound; lia))
        as (_ & _ & H128 & _).
      rewrite H128. simpl (128 =? 0).  cbv iota.
      rewrite shiftr_7.
      assert (Hq : 0 <= v / 128) by (apply Z.div_pos; lia).
      assert (Hq2 : v / 128 < 128 ^ (Z.of_nat fuel + 1)).
      { apply Z.div_lt_upper_bound; [lia|].
        replace (Z.of_nat (S fuel) + 1) with (Z.succ (Z.of_nat fuel + 1)) in Hfuel by lia.
        rewrite Z.pow_succ_r in Hfuel by lia. exact Hfuel. }
      assert (Hpow : 2 ^ (offset + 7) = 128 * 2 ^ offset).
      { rewrite Z.pow_add_r by lia. change (2 ^ 7) with 128. lia. }
      assert (Hp : 0 < 2 ^ offset) by (apply Z.pow_pos_nonneg; lia).
      pose proof (Z.div_mod v 128 ltac:(lia)) as Hdm.
      pose proof (Z.mod_pos_bound v 128 ltac:(lia)) as Hm.
      pose proof (Z.mod_pos_bound (v / 128) 128 ltac:(lia)) as Hm2.
      pose proof (Z.div_mod (v / 128) 128 ltac:(lia)) as Hdm2.
      assert (Hq3 : 0 <= v / 128 / 128) by (apply Z.div_pos; lia).
      destruct (write_loop_head fuel (v / 128) post Hq) as [Hhd|[-> Hge]].
      2:{ simpl in Hq2. lia. }
      rewrite Hhd. rewrite Z.shiftl_mul_pow2 by lia.
      assert (Hw : wadd (base + v mod 128 * 2 ^ offset)
                     (wrap (v / 128 mod 128 * 2 ^ (offset + 7)))
                   = (base + v mod 128 * 2 ^ offset) + (v / 128 mod 128) * 2 ^ (offset + 7)).
      { unfold wadd. rewrite wrap_add_r. apply wrap_small. unfold is_word.
        rewrite Hpow. nia. }
      rewrite Hw.
      assert (Hsplit : v * 2 ^ offset
                       = v mod 128 * 2 ^ offset + v / 128 * (128 * 2 ^ offset)).
      { rewrite Hdm at 1. ring. }
      assert (Hlow : 0 <= v mod 128 * 2 ^ offset) by (apply Z.mul_nonneg_nonneg; lia).
      rewrite (IH (v / 128) post (S i) (offset + 7) (base + v mod 128 * 2 ^ offset)
                 Hq Hq2 ltac:(lia) ltac:(lia) ltac:(rewrite Hpow; lia)).
      f_equal; [rewrite Hpow; lia|simpl; lia].
    + cbn [app ByteCode.read_loop]. unfold ByteCode.NEXT_BYTE.
      destruct (low_byte_facts v ltac:(lia)) as (H128 & _).
      rewrite H128. simpl. rewrite Z.mod_small by lia. f_equal. lia.
Qed.

Lemma encode_length v : (1 <= length (ByteCode.encode v))%nat.
Proof. apply write_loop_length. Qed.

Lemma ByteCode_read_encode pre v post :
  is_word v ->
  ByteCode.read (pre ++ ByteCode.encode v ++ post) (length pre)
  = (v, (length pre + length (ByteCode.encode v))%nat).
Proof.
  intros [Hv Hw]. unfold ByteCode.read. rewrite drop_app_length.
  unfold ByteCode.encode, ByteCode.DATA_MASK.
  destruct (write_loop_head 10 v post Hv) as [Hhd|[Hf _]]; [|discriminate].
  rewrite Hhd.
  pose proof (read_loop_write_loop 10 v post (length pre) 0 0 Hv) as H.
  rewrite Z.pow_0_r, !Z.mul_1_r, !Z.add_0_l in H.
  apply H; try lia. unfold WORD in Hw. simpl. lia.
Qed.

(** ** The run codec *)

Lemma Run_encode_length c run : (1 <= length (Run.encode c run))%nat.
Proof.
  unfold Run.encode. destruct (_ =? 0).
  - rewrite length_app. pose proof (encode_length run.1). lia.
  - destruct (_ <? _); simpl; lia.
Qed.

Lemma Run_make_continues sigma :
  0 < sigma ->
  (255 <= sigma /\ Run.run_continues (Run.make sigma) = 0) \/
  (sigma < 255 /\ 1 <= Run.run_continues (Run.make sigma) /\
   sigma * Run.run_continues (Run.make sigma) <= 256).
Proof.
  intros Hs. unfold Run.make. simpl.
  destruct (Z.ltb_spec sigma 255) as [Hlt|Hge]; [right|left; auto].
  split; [exact Hlt|]. split.
  - apply Z.div_le_lower_bound; lia.
  - apply Z.mul_div_le. lia.
Qed.

Lemma Run_read_encode sigma pre (run : Z * Z) post :
  0 < sigma < WORD -> 0 <= run.1 < sigma -> 0 < run.2 < WORD ->
  Run.read (Run.make sigma) (pre ++ Run.encode (Run.make sigma) run ++ post) (length pre)
  = (run, (length pre + length (Run.encode (Run.make sigma) run))%nat).
Proof.
  intros Hs Hk Hl. destruct run as [k len]. simpl in Hk, Hl.
  unfold Run.read, Run.encode. cbn [fst snd].
  destruct (Run_make_continues sigma ltac:(lia)) as [[Hbig Hrc]|(Hsmall & Hrc1 & Hrc2)].
  - rewrite Hrc. simpl (0 =? 0). cbv iota.
    rewrite <- app_assoc.
    rewrite ByteCode_read_encode by (unfold is_word; lia).
    replace (pre ++ ByteCode.encode k ++ ByteCode.encode (wsub len 1) ++ post)
      with ((pre ++ ByteCode.encode k) ++ ByteCode.encode (wsub len 1) ++ post)
      by (rewrite <- app_assoc; reflexivity).
    rewrite <- length_app.
    rewrite ByteCode_read_encode by apply wrap_is_word.
    unfold wsub, wadd. rewrite wrap_add_l.
    rewrite !length_app. f_equal; [|lia].
    f_equal. rewrite wrap_small; unfold is_word; lia.
  - set (rc := Run.run_continues (Run.make sigma)) in *.
    destruct (Z.eqb_spec rc 0) as [?|_]; [lia|].
    assert (Hsig : Run.sigma (Run.make sigma) = sigma) by reflexivity.
    destruct (Z.ltb_spec len rc) as [Hshort|Hlong].
    + cbn [app]. rewrite nth_middle.
      unfold Run.decodeBasic, Run.encodeBasic. rewrite Hsig. cbn [fst snd].
      assert (Hcode : (k + sigma * (len - 1)) mod 256 = k + sigma * (len - 1)).
      { apply Z.mod_small. nia. }
      rewrite Hcode.
      assert (Hdiv : (k + sigma * (len - 1)) / sigma = len - 1).
      { rewrite Z.mul_comm, Z.div_add by lia. rewrite Z.div_small by lia. lia. }
      assert (Hmod : (k + sigma * (len - 1)) mod sigma = k).
      { rewrite Z.mul_comm, Z.mod_add by lia. apply Z.mod_small. lia. }
      rewrite Hdiv, Hmod.
      replace (len - 1 + 1) with len by lia.
      destruct (Z.geb_spec len rc) as [?|_]; [lia|].
      f_equal. simpl. lia.
    + cbn [app]. rewrite nth_middle.
      unfold Run.decodeBasic, Run.encodeBasic. rewrite Hsig. cbn [fst snd].
      assert (Hcode : (k + sigma * (rc - 1)) mod 256 = k + sigma * (rc - 1)).
      { apply Z.mod_small. nia. }
      rewrite Hcode.
      assert (Hdiv : (k + sigma * (rc - 1)) / sigma = rc - 1).
      { rewrite Z.mul_comm, Z.div_add by lia. rewrite Z.div_small by lia. lia. }
      assert (Hmod : (k + sigma * (rc - 1)) mod sigma = k).
      { rewrite Z.mul_comm, Z.mod_add by lia. apply Z.mod_small. lia. }
      rewrite Hdiv, Hmod.
      replace (rc - 1 + 1) with rc by lia.
      destruct (Z.geb_spec rc rc) as [_|?]; [|lia].
      replace (pre ++ (k + sigma * (rc - 1)) :: ByteCode.encode (wsub len rc) ++ post)
        with ((pre ++ [k + sigma * (rc - 1)]) ++ ByteCode.encode (wsub len rc) ++ post)
        by (rewrite <- app_assoc; reflexivity).
      replace (S (length pre)) with (length (pre ++ [k + sigma * (rc - 1)]))
        by (rewrite length_app; simpl; lia).
      rewrite ByteCode_read_encode by apply wrap_is_word.
      unfold wsub, wadd. rewrite wrap_add_r.
      rewrite !length_app. simpl. f_equal; [|lia].
      f_equal. rewrite wrap_small; unfold is_word; lia.
Qed.

Lemma fold_Run_write c body data :
  fold_left (Run.write c) body data = data ++ concat (map (Run.encode c) body).
Proof.
  revert data. induction body as [|run body IH]; intros data; simpl.
  - rewrite app_nil_r. reflexivity.
  - rewrite IH. unfold Run.write. rewrite <- app_assoc. reflexivity.
Qed.

(** ** Parsing the bytes written by writeBWT *)

Lemma write_edges_bytes outgoing : forall data prev,
  write_edges data prev outgoing = data ++ edges_bytes prev outgoing.
Proof.
  induction outgoing as [|e outgoing IH]; intros data prev; simpl.
  - rewrite app_nil_r. reflexivity.
  - rewrite IH. unfold ByteCode.write. rewrite <- !app_assoc. reflexivity.
Qed.

Lemma writeBWT_bytes r data :
  writeBWT r data
  = data ++ ByteCode.encode (DynamicRecord.outdegree r)
         ++ edges_bytes 0 (DynamicRecord.outgoing r)
         ++ (if DynamicRecord.outdegree r >? 0
             then enc (Run.make (DynamicRecord.outdegree r)) (DynamicRecord.body r)
             else []).
Proof.
  unfold writeBWT. rewrite write_edges_bytes. unfold ByteCode.write.
  destruct (_ >? 0).
  - rewrite fold_Run_write. unfold enc. rewrite <- !app_assoc. reflexivity.
  - rewrite app_nil_r, <- app_assoc. reflexivity.
Qed.

Lemma read_edges_bytes outgoing : forall pre prev post,
  Forall pair_words outgoing -> is_word prev ->
  CompressedRecord.read_edges (length outgoing) (pre ++ edges_bytes prev outgoing ++ post)
    (length pre) prev
  = (outgoing, (length pre + length (edges_bytes prev outgoing))%nat).
Proof.
  induction outgoing as [|e outgoing IH]; intros pre prev post Hw Hprev.
  - simpl. f_equal. lia.
  - inversion Hw as [|? ? [He1 He2] Hw']; subst.
    cbn [length CompressedRecord.read_edges edges_bytes].
    rewrite <- !app_assoc.
    rewrite ByteCode_read_encode by apply wrap_is_word.
    replace (pre ++ ByteCode.encode (wsub e.1 prev) ++
             ByteCode.encode e.2 ++ edges_bytes e.1 outgoing ++ post)
      with ((pre ++ ByteCode.encode (wsub e.1 prev)) ++
            ByteCode.encode e.2 ++ edges_bytes e.1 outgoing ++ post)
      by (rewrite <- app_assoc; reflexivity).
    rewrite <- length_app.
    rewrite ByteCode_read_encode by exact He2.
    replace ((pre ++ ByteCode.encode (wsub e.1 prev)) ++
             ByteCode.encode e.2 ++ edges_bytes e.1 outgoing ++ post)
      with (((pre ++ ByteCode.encode (wsub e.1 prev)) ++ ByteCode.encode e.2)
            ++ edges_bytes e.1 outgoing ++ post)
      by (rewrite <- !app_assoc; reflexivity).
    rewrite <- length_app.
    assert (Hfirst : wadd (wsub e.1 prev) prev = e.1).
    { unfold wadd, wsub. rewrite wrap_add_l.
      replace (e.1 - prev + prev) with e.1 by lia. apply wrap_small, He1. }
    rewrite Hfirst.
    rewrite IH by assumption.
    destruct e as [e1 e2]. simpl. f_equal.
    rewrite !length_app. lia.
Qed.

Lemma compress_fields r :
  typed r ->
  CompressedRecord.outgoing (compress r) = DynamicRecord.outgoing r /\
  CompressedRecord.body (compress r)
    = (if DynamicRecord.outdegree r >? 0
       then enc (Run.make (DynamicRecord.outdegree r)) (DynamicRecord.body r) else []) /\
  CompressedRecord.data_size (compress r) = length (CompressedRecord.body (compress r)).
Proof.
  intros Ht. unfold compress. rewrite writeBWT_bytes. simpl app.
  set (tail := if DynamicRecord.outdegree r >? 0
               then enc (Run.make (DynamicRecord.outdegree r)) (DynamicRecord.body r)
               else []).
  unfold CompressedRecord.make.
  assert (Hod : is_word (DynamicRecord.outdegree r)).
  { pose proof (typed_outdegree r Ht). unfold is_word, DynamicRecord.outdegree, vec_size in *.
    lia. }
  pose proof (ByteCode_read_encode [] (DynamicRecord.outdegree r)
                (edges_bytes 0 (DynamicRecord.outgoing r) ++ tail) Hod) as Hread.
  simpl in Hread. rewrite Hread.
  assert (Hn : Z.to_nat (DynamicRecord.outdegree r) = length (DynamicRecord.outgoing r)).
  { unfold DynamicRecord.outdegree, vec_size. lia. }
  rewrite Hn.
  pose proof (read_edges_bytes (DynamicRecord.outgoing r)
                (ByteCode.encode (DynamicRecord.outdegree r)) 0 tail
                (typed_outgoing r Ht) ltac:(unfold is_word, WORD; lia)) as Hedges.
  rewrite Hedges. simpl.
  rewrite !app_assoc, <- length_app.
  rewrite drop_app_length. split; [reflexivity|]. split; [reflexivity|].
  rewrite !length_app. lia.
Qed.

(** ** Iterators over an encoded body *)

Lemma enc_app c a b : enc c (a ++ b) = enc c a ++ enc c b.
Proof. unfold enc. rewrite map_app, concat_app. reflexivity. Qed.

Lemma enc_cons c r b : enc c (r :: b) = Run.encode c r ++ enc c b.
Proof. reflexivity. Qed.

Lemma enc_length c body : (length body <= length (enc c body))%nat.
Proof.
  induction body as [|r body IH]; simpl; [lia|].
  rewrite enc_cons, length_app. pose proof (Run_encode_length c r). lia.
Qed.

Lemma next_on k c pre r ranks0 value result0 :
  CompressedRecord.next k c (iter_on k c pre r ranks0 value result0)
  = CompressedRecord.read k c (iter_before k c (pre ++ [r]) r ranks0 value result0).
Proof. reflexivity. Qed.

Lemma at_end_on k c body pre r rest ranks0 value result0 :
  decodes c body -> body = pre ++ r :: rest ->
  CompressedRecord.at_end c (iter_on k c pre r ranks0 value result0) = false.
Proof.
  intros Hd ->. unfold CompressedRecord.at_end, iter_on. simpl.
  rewrite (dec_size c _ Hd). apply Nat.leb_gt.
  rewrite enc_app, enc_cons, !length_app.
  pose proof (Run_encode_length (Run.make (CompressedRecord.outdegree c)) r). lia.
Qed.

Lemma read_before k c body pre r rest x ranks0 value result0 :
  decodes c body -> body = pre ++ r :: rest ->
  CompressedRecord.read k c (iter_before k c pre x ranks0 value result0)
  = iter_on k c pre r ranks0 value result0.
Proof.
  intros Hd ->. unfold CompressedRecord.read.
  assert (Hne : CompressedRecord.at_end c (iter_before k c pre x ranks0 value result0)
                = false).
  { unfold CompressedRecord.at_end, iter_before. simpl.
    rewrite (dec_size c _ Hd). apply Nat.leb_gt.
    rewrite enc_app, enc_cons, !length_app.
    pose proof (Run_encode_length (Run.make (CompressedRecord.outdegree c)) r). lia. }
  rewrite Hne. unfold iter_before. cbn [CompressedRecord.next_offset
    CompressedRecord.record_offset CompressedRecord.curr_offset CompressedRecord.ranks
    CompressedRecord.value CompressedRecord.result].
  destruct (dec_bytes c _ Hd) as [post Hbytes].
  rewrite Hbytes, enc_app, enc_cons, <- !app_assoc.
  pose proof (dec_runs c _ Hd) as Hruns.
  apply Forall_app in Hruns as [_ Hruns]. inversion Hruns as [|? ? [Hk Hl] _]; subst.
  rewrite Run_read_encode; [|exact (dec_sigma c _ Hd)|exact Hk|exact Hl].
  unfold iter_on. f_equal.
  - unfold wadd. rewrite wrap_add_l, total_length_app. simpl. f_equal. lia.
  - rewrite enc_app, length_app. simpl. unfold enc. simpl. rewrite app_nil_r. reflexivity.
  - destruct k; simpl; try reflexivity. rewrite fold_left_app. reflexivity.
  - destruct k; simpl; try reflexivity. rewrite fold_left_app. reflexivity.
Qed.

Lemma at_end_before k c body x ranks0 value result0 :
  decodes c body ->
  CompressedRecord.at_end c (iter_before k c body x ranks0 value result0) = true.
Proof.
  intros Hd. unfold CompressedRecord.at_end, iter_before. simpl.
  rewrite (dec_size c _ Hd). apply Nat.leb_refl.
Qed.

(** The three constructors. *)
Lemma forward_iterator_before c :
  CompressedRecord.forward_iterator c
  = CompressedRecord.read CompressedRecord.Forward c
      (iter_before CompressedRecord.Forward c [] (0, 0) [] 0 0).
Proof. reflexivity. Qed.


Lemma rank_iterator_before c outrank :
  CompressedRecord.rank_iterator c outrank
  = CompressedRecord.read CompressedRecord.Rank c
      (iter_before CompressedRecord.Rank c [] (0, 0) [] outrank
         (CompressedRecord.offset c outrank)).
Proof. reflexivity. Qed.

(** ** operator[] on the compressed record *)

Lemma total_snoc pre (r : Z * Z) :
  wrap (total_length (pre ++ [r])) = wadd (wrap (total_length pre)) r.2.
Proof.
  unfold wadd. rewrite wrap_add_l, total_length_app.
  change (total_length [r]) with (r.2 + 0). f_equal. lia.
Qed.



(** ** runLF on the compressed record *)

Lemma LFLoop_array_cons result (run : Z * Z) body i le off :
  DynamicRecord.LFLoop_array result (run :: body) i le off
  = if wadd off run.2 >? i then (add_rank result run, run.1, wadd off run.2)
    else DynamicRecord.LFLoop_array (add_rank result run) body i run.1 (wadd off run.2).
Proof. reflexivity. Qed.


(** ** A dynamic record and its compressed form *)


Lemma decodes_compress r :
  typed r -> body_ok r -> 0 < DynamicRecord.outdegree r ->
  decodes (compress r) (DynamicRecord.body r).
Proof.
  intros Ht Hb Hod.
  destruct (compress_fields r Ht) as (Hout & Hbody & Hsize).
  assert (Hdeg : CompressedRecord.outdegree (compress r) = DynamicRecord.outdegree r).
  { unfold CompressedRecord.outdegree, DynamicRecord.outdegree. rewrite Hout. reflexivity. }
  destruct (Z.gtb_spec (DynamicRecord.outdegree r) 0) as [_|?]; [|lia].
  constructor.
  - rewrite Hdeg. pose proof (typed_outdegree r Ht). lia.
  - rewrite Hdeg. pose proof (body_runs r Hb) as Hruns. pose proof (typed_body r Ht) as Hw.
    rewrite Forall_forall in *. intros run Hin.
    destruct (Hruns run Hin) as [Hr Hl]. destruct (Hw run Hin) as [_ [_ Hlw]]. lia.
  - exists []. rewrite Hdeg, Hbody, app_nil_r. reflexivity.
  - rewrite Hsize, Hbody, Hdeg. reflexivity.
Qed.



Lemma set_second_length v i x : length (set_second v i x) = length v.
Proof. unfold set_second. apply length_insert. Qed.

Lemma vec_at_set_second v i x :
  0 <= i < vec_size v -> vec_at (set_second v i x) i = ((vec_at v i).1, x).
Proof.
  intros Hi. unfold set_second, vec_at at 1.
  apply nth_lookup_Some, list_lookup_insert_eq. unfold vec_size in Hi. lia.
Qed.

Lemma LFLoop_array_state body : forall result i le off,
  let '(res, last, _) := DynamicRecord.LFLoop_array result body i le off in
  length res = length result /\ (last = le \/ exists run : Z * Z, run ∈ body /\ last = run.1).
Proof.
  induction body as [|run body IH]; intros result i le off.
  - simpl. auto.
  - rewrite LFLoop_array_cons.
    destruct (_ >? i).
    + split; [apply set_second_length|]. right. exists run. split; [left|reflexivity].
    + specialize (IH (add_rank result run) i run.1 (wadd off run.2)).
      destruct (DynamicRecord.LFLoop_array _ body i run.1 _) as [[res last] off'].
      destruct IH as [Hlen Hlast]. split.
      * rewrite Hlen. apply set_second_length.
      * right. destruct Hlast as [->|(run' & Hin & ->)].
        -- exists run. split; [left|reflexivity].
        -- exists run'. split; [right; exact Hin|reflexivity].
Qed.


(** ** The rank iterator *)

Lemma decodes_runs_ok c body : decodes c body -> runs_ok body.
Proof.
  intros Hd. eapply Forall_impl; [exact (dec_runs c _ Hd)|]. simpl. intros; lia.
Qed.

Lemma scan_cons P (r1 : Z * Z) rest limit run offset acc :
  offset < limit ->
  scan P (r1 :: rest) limit run offset acc
  = scan P rest limit r1 (wadd offset r1.2) (if P r1.1 then wadd acc r1.2 else acc).
Proof.
  intros H. simpl. destruct (Z.ltb_spec offset limit); [reflexivity|lia].
Qed.

Lemma compressed_seek c body v res0 :
  decodes c body -> total_length body < WORD ->
  forall rest pre r fuel limit,
    body = pre ++ r :: rest -> (length rest < fuel)%nat -> limit <= total_length body ->
    exists pre' r' rest',
      body = pre' ++ r' :: rest' /\
      CompressedRecord.seek fuel c (iter_on CompressedRecord.Rank c pre r [] v res0) limit
      = iter_on CompressedRecord.Rank c pre' r' [] v res0 /\
      scan (fun x => x =? v) rest limit r (wrap (total_length (pre ++ [r])))
           (result_after CompressedRecord.Rank v res0 (pre ++ [r]))
      = (rest', r', wrap (total_length (pre' ++ [r'])),
         result_after CompressedRecord.Rank v res0 (pre' ++ [r'])).
Proof.
  intros Hd Hw. pose proof (decodes_runs_ok c body Hd) as Hok.
  induction rest as [|r1 rest IH]; intros pre r fuel limit Hbody Hfuel Hlimit;
    (destruct fuel as [|fuel]; [simpl in Hfuel; lia|]).
  - cbn [CompressedRecord.seek].
    rewrite (at_end_on _ c body pre r [] _ _ _ Hd Hbody). cbn [negb andb].
    assert (Hoff : CompressedRecord.record_offset
                     (iter_on CompressedRecord.Rank c pre r [] v res0)
                   = wrap (total_length (pre ++ [r]))) by reflexivity.
    rewrite Hoff.
    assert (Htot : wrap (total_length (pre ++ [r])) = total_length body).
    { rewrite Hbody. apply wrap_small. rewrite <- Hbody.
      pose proof (runs_ok_total_nonneg _ Hok). unfold is_word. lia. }
    destruct (Z.ltb_spec (wrap (total_length (pre ++ [r]))) limit) as [?|Hge]; [lia|].
    exists pre, r, []. split; [exact Hbody|]. split; [reflexivity|].
    reflexivity.
  - cbn [CompressedRecord.seek].
    rewrite (at_end_on _ c body pre r (r1 :: rest) _ _ _ Hd Hbody). cbn [negb andb].
    assert (Hoff : CompressedRecord.record_offset
                     (iter_on CompressedRecord.Rank c pre r [] v res0)
                   = wrap (total_length (pre ++ [r]))) by reflexivity.
    rewrite Hoff.
    destruct (Z.ltb_spec (wrap (total_length (pre ++ [r]))) limit) as [Hlt|Hge].
    + rewrite next_on.
      assert (Hbody' : body = (pre ++ [r]) ++ r1 :: rest).
      { rewrite Hbody, <- app_assoc. reflexivity. }
      rewrite (read_before _ c body (pre ++ [r]) r1 rest _ _ _ _ Hd Hbody').
      destruct (IH (pre ++ [r]) r1 fuel limit Hbody' ltac:(simpl in Hfuel; lia) Hlimit)
        as (pre' & r' & rest' & Hb & Hseek & Hscan).
      exists pre', r', rest'. split; [exact Hb|]. split; [exact Hseek|].
      rewrite scan_cons by exact Hlt. rewrite <- Hscan. f_equal.
      * symmetry. apply total_snoc.
      * simpl. rewrite !fold_left_app. reflexivity.
    + exists pre, r, (r1 :: rest). split; [exact Hbody|]. split; [reflexivity|].
      apply scan_stop. lia.
Qed.

Lemma compressed_bdLF_loop c body v res0 k rr :
  decodes c body -> total_length body < WORD ->
  forall rest pre r fuel limit ro,
    body = pre ++ r :: rest -> (length rest < fuel)%nat -> limit <= total_length body ->
    CompressedRecord.bdLF_loop fuel c (iter_on CompressedRecord.Rank c pre r [] v res0)
      limit k rr ro
    = (CompressedRecord.seek fuel c (iter_on CompressedRecord.Rank c pre r [] v res0) limit,
       (scan (fun x => (x <? rr) && negb (x =? k)) rest limit r
             (wrap (total_length (pre ++ [r]))) ro).2).
Proof.
  intros Hd Hw. pose proof (decodes_runs_ok c body Hd) as Hok.
  induction rest as [|r1 rest IH]; intros pre r fuel limit ro Hbody Hfuel Hlimit;
    (destruct fuel as [|fuel]; [simpl in Hfuel; lia|]).
  - cbn [CompressedRecord.bdLF_loop CompressedRecord.seek].
    rewrite (at_end_on _ c body pre r [] _ _ _ Hd Hbody). cbn [negb andb].
    assert (Hoff : CompressedRecord.record_offset
                     (iter_on CompressedRecord.Rank c pre r [] v res0)
                   = wrap (total_length (pre ++ [r]))) by reflexivity.
    rewrite Hoff.
    assert (Htot : wrap (total_length (pre ++ [r])) = total_length body).
    { rewrite Hbody. apply wrap_small. rewrite <- Hbody.
      pose proof (runs_ok_total_nonneg _ Hok). unfold is_word. lia. }
    destruct (Z.ltb_spec (wrap (total_length (pre ++ [r]))) limit) as [?|Hge]; [lia|].
    reflexivity.
  - cbn [CompressedRecord.bdLF_loop CompressedRecord.seek].
    rewrite (at_end_on _ c body pre r (r1 :: rest) _ _ _ Hd Hbody). cbn [negb andb].
    assert (Hoff : CompressedRecord.record_offset
                     (iter_on CompressedRecord.Rank c pre r [] v res0)
                   = wrap (total_length (pre ++ [r]))) by reflexivity.
    rewrite Hoff.
    destruct (Z.ltb_spec (wrap (total_length (pre ++ [r]))) limit) as [Hlt|Hge].
    + rewrite next_on.
      assert (Hbody' : body = (pre ++ [r]) ++ r1 :: rest).
      { rewrite Hbody, <- app_assoc. reflexivity. }
      rewrite (read_before _ c body (pre ++ [r]) r1 rest _ _ _ _ Hd Hbody').
      rewrite (IH (pre ++ [r]) r1 fuel limit _ Hbody' ltac:(simpl in Hfuel; lia) Hlimit).
      rewrite scan_cons by exact Hlt. rewrite <- total_snoc. reflexivity.
    + rewrite scan_stop by lia. reflexivity.
Qed.

Lemma dyn_LF_to_scan r i to :
  DynamicRecord.edgeTo r to < DynamicRecord.outdegree r ->
  DynamicRecord.LF_to r i to
  = rank_value (DynamicRecord.edgeTo r to) i
      (scan (fun x => x =? DynamicRecord.edgeTo r to) (DynamicRecord.body r) i (0, 0) 0
            (DynamicRecord.offset r (DynamicRecord.edgeTo r to))).
Proof.
  intros Hk. unfold DynamicRecord.LF_to.
  destruct (Z.geb_spec (DynamicRecord.edgeTo r to) (DynamicRecord.outdegree r)); [lia|].
  unfold DynamicRecord.LFLoop, DynamicRecord.lf_init.
  cbn [DynamicRecord.lf_iter DynamicRecord.lf_run DynamicRecord.lf_offset
       DynamicRecord.lf_result fst].
  rewrite LFLoop_iter_scan.
  destruct (scan _ _ _ _ _ _) as [[[iter' run'] off'] acc']. reflexivity.
Qed.

Lemma result_after_word k v res0 runs :
  is_word res0 -> is_word (result_after k v res0 runs).
Proof.
  intros Hw. destruct k; simpl; try exact Hw.
  revert res0 Hw. induction runs as [|r runs IH]; intros res0 Hw; simpl; [exact Hw|].
  apply IH. unfold add_result. destruct (_ =? v); [apply wrap_is_word|exact Hw].
Qed.

Lemma wsub_0_r acc : is_word acc -> wsub acc 0 = acc.
Proof. intros Hw. unfold wsub. rewrite Z.sub_0_r. apply wrap_small, Hw. Qed.

Lemma rank_value_compressed v i (r' : Z * Z) off' acc' :
  is_word acc' -> i <= off' ->
  (if (i <? off') && (r'.1 =? v) then wsub acc' (wsub off' i) else acc')
  = wsub acc' (if r'.1 =? v then wsub off' i else 0).
Proof.
  intros Hw Hle.
  destruct (Z.ltb_spec i off') as [Hlt|Hge]; simpl.
  - destruct (r'.1 =? v); [reflexivity|]. symmetry. apply wsub_0_r, Hw.
  - assert (off' = i) as -> by lia.
    replace (wsub i i) with 0 by (unfold wsub; rewrite Z.sub_diag; reflexivity).
    destruct (r'.1 =? v); symmetry; apply wsub_0_r, Hw.
Qed.

Lemma rankAt_on c body v res0 pre r rest limit :
  decodes c body -> total_length body < WORD -> is_word res0 ->
  body = pre ++ r :: rest -> limit <= total_length body ->
  exists pre' r' rest',
    body = pre' ++ r' :: rest' /\
    scan (fun x => x =? v) rest limit r (wrap (total_length (pre ++ [r])))
         (result_after CompressedRecord.Rank v res0 (pre ++ [r]))
    = (rest', r', wrap (total_length (pre' ++ [r'])),
       result_after CompressedRecord.Rank v res0 (pre' ++ [r'])) /\
    limit <= wrap (total_length (pre' ++ [r'])) /\
    CompressedRecord.rankAt c (iter_on CompressedRecord.Rank c pre r [] v res0) limit
    = (rank_value v limit (rest', r', wrap (total_length (pre' ++ [r'])),
                           result_after CompressedRecord.Rank v res0 (pre' ++ [r'])),
       iter_on CompressedRecord.Rank c pre' r' [] v res0).
Proof.
  intros Hd Hw Hres Hbody Hlimit.
  pose proof (decodes_runs_ok c body Hd) as Hok.
  assert (Hfuel : (length rest < CompressedRecord.fuel_of c)%nat).
  { unfold CompressedRecord.fuel_of. rewrite (dec_size c _ Hd).
    pose proof (enc_length (Run.make (CompressedRecord.outdegree c)) body) as Hl.
    rewrite Hbody, length_app in Hl. simpl in Hl. rewrite <- Hbody in Hl. lia. }
  destruct (compressed_seek c body v res0 Hd Hw rest pre r _ limit Hbody Hfuel Hlimit)
    as (pre' & r' & rest' & Hb & Hseek & Hscan).
  exists pre', r', rest'. split; [exact Hb|]. split; [exact Hscan|].
  assert (Hge : limit <= wrap (total_length (pre' ++ [r']))).
  { assert (Hpre : 0 <= total_length (pre ++ [r]) /\
                   total_length (pre ++ [r]) + total_length rest = total_length body
                   /\ runs_ok rest).
    { rewrite Hbody in Hok |- *. apply Forall_app in Hok as [Hok1 Hok2].
      inversion Hok2 as [|? ? Hr Hok3]; subst.
      rewrite !total_length_app. simpl.
      pose proof (runs_ok_total_nonneg _ Hok1). pose proof (runs_ok_total_nonneg _ Hok3).
      repeat split; try lia. exact Hok3. }
    destruct Hpre as (Hp0 & Hpt & Hrok).
    pose proof (runs_ok_total_nonneg _ Hrok) as Hrn.
    assert (Hwp : wrap (total_length (pre ++ [r])) = total_length (pre ++ [r])).
    { apply wrap_small. unfold is_word. lia. }
    rewrite Hwp in Hscan.
    destruct (Z.le_gt_cases limit (total_length (pre ++ [r]))) as [Hstop|Hgo].
    - rewrite scan_stop in Hscan by exact Hstop.
      injection Hscan as _ _ <- _. exact Hstop.
    - pose proof (scan_result (fun x => x =? v) rest limit r (total_length (pre ++ [r]))
                    (result_after CompressedRecord.Rank v res0 (pre ++ [r]))
                    Hrok Hp0 Hgo ltac:(lia) ltac:(lia)) as Hs.
      rewrite Hscan in Hs. lia. }
  split; [exact Hge|].
  unfold CompressedRecord.rankAt. rewrite Hseek. cbv zeta. f_equal.
  unfold rank_value.
  apply rank_value_compressed; [|exact Hge].
  apply result_after_word, Hres.
Qed.

Lemma rank_iterator_on c r0 rest0 v :
  decodes c (r0 :: rest0) ->
  CompressedRecord.rank_iterator c v
  = iter_on CompressedRecord.Rank c [] r0 [] v (CompressedRecord.offset c v).
Proof.
  intros Hd. rewrite rank_iterator_before.
  apply (read_before _ c (r0 :: rest0) [] r0 rest0 _ _ _ _ Hd eq_refl).
Qed.

Lemma rank_iterator_empty c v :
  decodes c [] ->
  CompressedRecord.rank_iterator c v
  = iter_before CompressedRecord.Rank c [] (0, 0) [] v (CompressedRecord.offset c v)
  /\ CompressedRecord.at_end c (CompressedRecord.rank_iterator c v) = true.
Proof.
  intros Hd. rewrite rank_iterator_before.
  pose proof (at_end_before CompressedRecord.Rank c [] (0, 0) [] v
                (CompressedRecord.offset c v) Hd) as Hend.
  unfold CompressedRecord.read. rewrite Hend. auto.
Qed.

Lemma seek_end fuel c it limit :
  CompressedRecord.at_end c it = true -> CompressedRecord.seek fuel c it limit = it.
Proof. intros H. destruct fuel; simpl; [reflexivity|]. rewrite H. reflexivity. Qed.

(** The first [rankAt] on a fresh rank iterator over a non-empty body. *)
Lemma rank_init c r0 rest0 v i :
  decodes c (r0 :: rest0) -> total_length (r0 :: rest0) < WORD ->
  is_word (CompressedRecord.offset c v) -> 0 <= i -> i <= total_length (r0 :: rest0) ->
  exists pre' r' rest',
    r0 :: rest0 = pre' ++ r' :: rest' /\
    scan (fun x => x =? v) (r0 :: rest0) (Z.max i 1) (0, 0) 0 (CompressedRecord.offset c v)
    = (rest', r', wrap (total_length (pre' ++ [r'])),
       result_after CompressedRecord.Rank v (CompressedRecord.offset c v) (pre' ++ [r'])) /\
    i <= wrap (total_length (pre' ++ [r'])) /\
    CompressedRecord.rankAt c (CompressedRecord.rank_iterator c v) i
    = (rank_value v i (scan (fun x => x =? v) (r0 :: rest0) i (0, 0) 0
                            (CompressedRecord.offset c v)),
       iter_on CompressedRecord.Rank c pre' r' [] v (CompressedRecord.offset c v)).
Proof.
  intros Hd Hw Hres H0 Hi.
  rewrite (rank_iterator_on c r0 rest0 v Hd).
  destruct (rankAt_on c (r0 :: rest0) v (CompressedRecord.offset c v) [] r0 rest0 i
              Hd Hw Hres eq_refl Hi) as (pre' & r' & rest' & Hb & Hscan & Hge & Hrank).
  exists pre', r', rest'. split; [exact Hb|].
  pose proof (decodes_runs_ok _ _ Hd) as Hok.
  inversion Hok as [|? ? Hr0 Hok']; subst.
  pose proof (runs_ok_total_nonneg _ Hok') as Hnn. simpl in Hw, Hi.
  assert (Hfirst : forall limit, 0 < limit ->
            scan (fun x => x =? v) (r0 :: rest0) limit (0, 0) 0 (CompressedRecord.offset c v)
            = scan (fun x => x =? v) rest0 limit r0 (wrap (total_length ([] ++ [r0])))
                (result_after CompressedRecord.Rank v (CompressedRecord.offset c v)
                              ([] ++ [r0]))).
  { intros limit Hl. rewrite scan_cons by exact Hl. f_equal.
    unfold wadd. simpl. f_equal. lia. }
  destruct (Z.eq_dec i 0) as [->|Hne].
  - change (Z.max 0 1) with 1. rewrite Hfirst by lia.
    assert (Hw0 : wrap (total_length ([] ++ [r0])) = r0.2).
    { simpl. rewrite Z.add_0_r. apply wrap_small. unfold is_word. lia. }
    rewrite Hw0 in *.
    rewrite scan_stop in Hscan by lia. rewrite scan_stop by lia.
    split; [exact Hscan|]. split; [exact Hge|].
    rewrite Hrank, <- Hscan. f_equal.
    rewrite scan_stop by lia. unfold rank_value. simpl.
    unfold add_result. change (wsub 0 0) with 0.
    replace (wsub r0.2 0) with r0.2 by (symmetry; apply wsub_0_r; unfold is_word; lia).
    assert (Hz : forall b : bool, (if b then 0 else 0) = 0) by (intros []; reflexivity).
    rewrite Hz.
    rewrite (wsub_0_r _ Hres).
    destruct (r0.1 =? v); [|apply wsub_0_r, Hres].
    unfold wsub, wadd. rewrite wrap_sub_l.
    replace (CompressedRecord.offset c v + r0.2 - r0.2)
      with (CompressedRecord.offset c v) by lia.
    apply wrap_small, Hres.
  - replace (Z.max i 1) with i by lia. rewrite Hfirst by lia.
    split; [exact Hscan|]. split; [exact Hge|].
    rewrite Hrank, <- Hscan. reflexivity.
Qed.

Lemma compress_outgoing r : typed r ->
  CompressedRecord.outgoing (compress r) = DynamicRecord.outgoing r.
Proof. intros Ht. apply (compress_fields r Ht). Qed.

Lemma compress_LF_to r i to :
  typed r -> body_ok r -> 0 <= i <= DynamicRecord.size r ->
  CompressedRecord.LF_to (compress r) i to = DynamicRecord.LF_to r i to.
Proof.
  intros Ht Hb Hi.
  pose proof (compress_outgoing r Ht) as Hout.
  unfold CompressedRecord.LF_to.
  unfold CompressedRecord.edgeTo, CompressedRecord.outdegree. rewrite Hout.
  fold (DynamicRecord.edgeTo r to). fold (DynamicRecord.outdegree r).
  destruct (Z.geb_spec (DynamicRecord.edgeTo r to) (DynamicRecord.outdegree r)) as [Hge|Hlt].
  { unfold DynamicRecord.LF_to.
    destruct (Z.geb_spec (DynamicRecord.edgeTo r to) (DynamicRecord.outdegree r));
      [reflexivity|lia]. }
  rewrite dyn_LF_to_scan by exact Hlt.
  assert (Hod : 0 < DynamicRecord.outdegree r).
  { destruct (DynamicRecord.outgoing r) as [|e out] eqn:Ho.
    - unfold DynamicRecord.edgeTo, DynamicRecord.outdegree in Hlt. rewrite Ho in Hlt.
      unfold edgeTo in Hlt. simpl in Hlt. unfold vec_size in Hlt. simpl in Hlt. lia.
    - unfold DynamicRecord.outdegree, vec_size. rewrite Ho. simpl. lia. }
  pose proof (decodes_compress r Ht Hb Hod) as Hd.
  pose proof (body_total r Hb) as Htot. pose proof (typed_size r Ht) as Hw.
  unfold DynamicRecord.size in Hi.
  set (k := DynamicRecord.edgeTo r to) in *.
  assert (Hoff : CompressedRecord.offset (compress r) k = DynamicRecord.offset r k).
  { unfold CompressedRecord.offset, DynamicRecord.offset. rewrite Hout. reflexivity. }
  assert (Hres : is_word (DynamicRecord.offset r k)).
  { unfold DynamicRecord.offset, vec_at.
    destruct (nth_lookup_or_length (DynamicRecord.outgoing r) (Z.to_nat k) (0, 0))
      as [Hn|Hn].
    - pose proof (typed_outgoing r Ht) as Hall. rewrite Forall_forall in Hall.
      apply (Hall _ (proj2 (list_elem_of_lookup _ _) (ex_intro _ _ Hn))).
    - rewrite nth_overflow by lia. unfold is_word, WORD. simpl. lia. }
  destruct (DynamicRecord.body r) as [|r0 rest0] eqn:Hbody.
  - destruct (rank_iterator_empty (compress r) k Hd) as [Hit Hend].
    unfold CompressedRecord.rankAt. rewrite seek_end by exact Hend.
    rewrite Hit. simpl. simpl in Htot. assert (i = 0) as -> by lia.
    rewrite Hoff. unfold rank_value. change (wsub 0 0) with 0.
    change (0 <? wrap 0) with false. cbn [andb fst snd].
    assert (Hz : forall b : bool, (if b then 0 else 0) = 0) by (intros []; reflexivity).
    rewrite Hz. symmetry. apply wsub_0_r, Hres.
  - destruct (rank_init (compress r) r0 rest0 k i Hd
                ltac:(unfold is_word in Hw; lia) ltac:(rewrite Hoff; exact Hres)
                ltac:(lia) ltac:(lia))
      as (pre' & r' & rest' & _ & _ & _ & Hrank).
    rewrite Hrank, Hoff. reflexivity.
Qed.

(** ** Two calls of rankAt on one iterator *)

Lemma next_last k c body pre r ranks0 value result0 :
  decodes c body -> body = pre ++ [r] ->
  CompressedRecord.at_end c
    (CompressedRecord.next k c (iter_on k c pre r ranks0 value result0)) = true.
Proof.
  intros Hd Hbody. rewrite next_on.
  assert (Hend : CompressedRecord.at_end c
                   (iter_before k c (pre ++ [r]) r ranks0 value result0) = true).
  { rewrite <- Hbody. apply at_end_before, Hd. }
  unfold CompressedRecord.read. rewrite Hend. exact Hend.
Qed.

Lemma next_more k c body pre r r1 rest ranks0 value result0 :
  decodes c body -> body = pre ++ r :: r1 :: rest ->
  CompressedRecord.next k c (iter_on k c pre r ranks0 value result0)
  = iter_on k c (pre ++ [r]) r1 ranks0 value result0
  /\ body = (pre ++ [r]) ++ r1 :: rest.
Proof.
  intros Hd Hbody.
  assert (Hbody' : body = (pre ++ [r]) ++ r1 :: rest).
  { rewrite Hbody, <- app_assoc. reflexivity. }
  split; [|exact Hbody'].
  rewrite next_on. apply (read_before _ c body (pre ++ [r]) r1 rest _ _ _ _ Hd Hbody').
Qed.

Lemma seek_fuel c body v res0 limit :
  decodes c body ->
  forall rest pre r f f',
    body = pre ++ r :: rest -> (length rest < f)%nat -> (length rest < f')%nat ->
    CompressedRecord.seek f c (iter_on CompressedRecord.Rank c pre r [] v res0) limit
    = CompressedRecord.seek f' c (iter_on CompressedRecord.Rank c pre r [] v res0) limit.
Proof.
  intros Hd. induction rest as [|r1 rest IH]; intros pre r f f' Hbody Hf Hf';
    (destruct f as [|f]; [simpl in Hf; lia|]);
    (destruct f' as [|f']; [simpl in Hf'; lia|]);
    cbn [CompressedRecord.seek];
    destruct (negb _ && _); try reflexivity.
  - rewrite !seek_end by (apply (next_last _ c body pre r _ _ _ Hd Hbody)). reflexivity.
  - destruct (next_more CompressedRecord.Rank c body pre r r1 rest [] v res0 Hd Hbody)
      as [-> Hbody'].
    apply IH; [exact Hbody'|simpl in *; lia..].
Qed.

Lemma seek_compose c body v res0 a b :
  decodes c body -> a <= b ->
  forall rest pre r f1 f2 f3,
    body = pre ++ r :: rest ->
    (length rest < f1)%nat -> (length rest < f2)%nat -> (length rest < f3)%nat ->
    CompressedRecord.seek f2 c
      (CompressedRecord.seek f1 c (iter_on CompressedRecord.Rank c pre r [] v res0) a) b
    = CompressedRecord.seek f3 c (iter_on CompressedRecord.Rank c pre r [] v res0) b.
Proof.
  intros Hd Hab. induction rest as [|r1 rest IH]; intros pre r f1 f2 f3 Hbody Hf1 Hf2 Hf3;
    (destruct f1 as [|f1]; [simpl in Hf1; lia|]);
    (destruct f3 as [|f3]; [simpl in Hf3; lia|]);
    cbn [CompressedRecord.seek];
    rewrite (at_end_on _ c body pre r _ _ _ _ Hd Hbody); cbn [negb andb];
    set (off := CompressedRecord.record_offset
                  (iter_on CompressedRecord.Rank c pre r [] v res0));
    (destruct (Z.ltb_spec off a) as [Ha|Ha];
     [destruct (Z.ltb_spec off b) as [_|?]; [|lia]|]).
  - pose proof (next_last CompressedRecord.Rank c body pre r [] v res0 Hd Hbody) as Hend.
    rewrite (seek_end f1 _ _ a Hend), (seek_end f2 _ _ b Hend), (seek_end f3 _ _ b Hend).
    reflexivity.
  - rewrite (seek_fuel c body v res0 b Hd [] pre r f2 (S f3) Hbody Hf2 ltac:(simpl; lia)).
    cbn [CompressedRecord.seek].
    rewrite (at_end_on _ c body pre r _ _ _ _ Hd Hbody). reflexivity.
  - destruct (next_more CompressedRecord.Rank c body pre r r1 rest [] v res0 Hd Hbody)
      as [-> Hbody'].
    apply IH; [exact Hbody'|simpl in *; lia..].
  - rewrite (seek_fuel c body v res0 b Hd (r1 :: rest) pre r f2 (S f3) Hbody Hf2
               ltac:(simpl in *; lia)).
    cbn [CompressedRecord.seek].
    rewrite (at_end_on _ c body pre r _ _ _ _ Hd Hbody). reflexivity.
Qed.

Lemma fuel_of_enough c body pre (r : Z * Z) rest :
  decodes c body -> body = pre ++ r :: rest ->
  (length rest < CompressedRecord.fuel_of c)%nat.
Proof.
  intros Hd Hbody. unfold CompressedRecord.fuel_of. rewrite (dec_size c _ Hd).
  pose proof (enc_length (Run.make (CompressedRecord.outdegree c)) body) as Hl.
  rewrite Hbody, length_app in Hl. simpl in Hl. rewrite <- Hbody in Hl. lia.
Qed.

(** The second [rankAt] of a pair behaves like a first one. *)
Lemma rankAt_compose c body v a b :
  decodes c body -> a <= b ->
  (CompressedRecord.rankAt c
     (CompressedRecord.rankAt c (CompressedRecord.rank_iterator c v) a).2 b)
  = CompressedRecord.rankAt c (CompressedRecord.rank_iterator c v) b.
Proof.
  intros Hd Hab.
  assert (Hseek : CompressedRecord.seek (CompressedRecord.fuel_of c) c
                    (CompressedRecord.seek (CompressedRecord.fuel_of c) c
                       (CompressedRecord.rank_iterator c v) a) b
                  = CompressedRecord.seek (CompressedRecord.fuel_of c) c
                      (CompressedRecord.rank_iterator c v) b).
  { destruct body as [|r0 rest0].
    - destruct (rank_iterator_empty c v Hd) as [_ Hend].
      rewrite !(seek_end _ c _ _ Hend). reflexivity.
    - rewrite (rank_iterator_on c r0 rest0 v Hd).
      pose proof (fuel_of_enough c (r0 :: rest0) [] r0 rest0 Hd eq_refl) as Hf.
      apply (seek_compose c (r0 :: rest0) v _ a b Hd Hab rest0 [] r0); auto. }
  unfold CompressedRecord.rankAt. cbn [snd]. rewrite Hseek. reflexivity.
Qed.

Lemma compressed_LF_range_decompose c body a b to :
  decodes c body -> a <= b -> 0 <= b < WORD - 1 ->
  CompressedRecord.LF_range c (a, b) to
  = if CompressedRecord.edgeTo c to >=? CompressedRecord.outdegree c then Range.empty_range
    else (CompressedRecord.LF_to c a to, wsub (CompressedRecord.LF_to c (b + 1) to) 1).
Proof.
  intros Hd Hab Hb. unfold CompressedRecord.LF_range, CompressedRecord.LF_to, Range.empty.
  cbn [fst snd].
  destruct (Z.gtb_spec a b) as [?|_]; [lia|].
  destruct (_ >=? _); [reflexivity|].
  assert (Hb1 : wadd b 1 = b + 1).
  { apply wrap_small. unfold is_word. lia. }
  rewrite Hb1.
  set (k := CompressedRecord.edgeTo c to).
  pose proof (rankAt_compose c body k a (b + 1) Hd ltac:(lia)) as Hc.
  destruct (CompressedRecord.rankAt c (CompressedRecord.rank_iterator c k) a)
    as [first it].
  cbn [snd] in Hc. rewrite Hc.
  destruct (CompressedRecord.rankAt c (CompressedRecord.rank_iterator c k) (b + 1))
    as [second it2].
  reflexivity.
Qed.

Lemma seek_stop fuel c body v res0 pre r rest limit :
  decodes c body -> body = pre ++ r :: rest ->
  limit <= wrap (total_length (pre ++ [r])) ->
  CompressedRecord.seek fuel c (iter_on CompressedRecord.Rank c pre r [] v res0) limit
  = iter_on CompressedRecord.Rank c pre r [] v res0.
Proof.
  intros Hd Hbody Hle. destruct fuel; simpl; [reflexivity|].
  destruct (Z.ltb_spec (wrap (total_length (pre ++ [r]))) limit); [lia|].
  rewrite andb_false_r. reflexivity.
Qed.

Lemma compress_bdLF r a b to ro0 :
  typed r -> body_ok r -> outgoing_ok r ->
  0 <= a -> a <= b -> b < DynamicRecord.size r ->
  to ∈ (DynamicRecord.outgoing r).*1 ->
  CompressedRecord.bdLF (compress r) (a, b) to ro0 = DynamicRecord.bdLF r (a, b) to ro0.
Proof.
  intros Ht Hb Hs H0 Hab Hbs Hin.
  rewrite bdLF_occurrences by assumption.
  pose proof (sorted_keys_strict _ Hs) as Hstrict.
  pose proof (keys_strict_sorted _ Hstrict) as Hsorted.
  pose proof (body_ok_runs r Hb) as Hruns.
  pose proof (typed_size r Ht) as Hw.
  pose proof (typed_outdegree r Ht) as Hod.
  pose proof (body_total r Hb) as Htot.
  pose proof (compress_outgoing r Ht) as Hout.
  destruct (edgeTo_present to _ Hsorted Hin) as [Hk Hkey].
  unfold DynamicRecord.size in *.
  fold (DynamicRecord.edgeTo r to) in Hk, Hkey. fold (DynamicRecord.outdegree r) in Hk.
  pose proof (decodes_compress r Ht Hb ltac:(lia)) as Hd.
  assert (Hb1 : wadd b 1 = b + 1).
  { apply wrap_small. unfold is_word in *. lia. }
  rewrite LF_range_decompose by (unfold is_word in *; lia).
  destruct (Z.geb_spec (DynamicRecord.edgeTo r to) (DynamicRecord.outdegree r)) as [?|_]; [lia|].
  rewrite <- (compress_LF_to r a to Ht Hb ltac:(unfold DynamicRecord.size; lia)).
  rewrite <- (compress_LF_to r (b + 1) to Ht Hb ltac:(unfold DynamicRecord.size; lia)).
  unfold CompressedRecord.bdLF, Range.empty. cbn [fst snd].
  destruct (Z.gtb_spec a b) as [?|_]; [lia|].
  unfold CompressedRecord.LF_to.
  unfold CompressedRecord.edgeTo, CompressedRecord.outdegree. rewrite Hout.
  fold (DynamicRecord.edgeTo r to). fold (DynamicRecord.edgeTo r (Node.reverse to)).
  fold (DynamicRecord.outdegree r).
  destruct (Z.geb_spec (DynamicRecord.edgeTo r to) (DynamicRecord.outdegree r)) as [?|_]; [lia|].
  rewrite Hb1.
  set (k := DynamicRecord.edgeTo r to) in *.
  set (rr0 := DynamicRecord.edgeTo r (Node.reverse to)) in *.
  set (od := DynamicRecord.outdegree r) in *.
  set (c := compress r) in *.
  set (rr := if rr0 >=? od then k else if negb (Node.is_reverse to) then wadd rr0 1 else rr0).
  destruct (DynamicRecord.body r) as [|r0 rest0] eqn:Hbody.
  { simpl in Htot. lia. }
  assert (Hoff : CompressedRecord.offset c k = DynamicRecord.offset r k).
  { unfold CompressedRecord.offset, DynamicRecord.offset. rewrite Hout. reflexivity. }
  assert (Hres : is_word (CompressedRecord.offset c k)).
  { rewrite Hoff. unfold DynamicRecord.offset.
    pose proof (typed_outgoing r Ht) as Hall. rewrite Forall_forall in Hall.
    apply (Hall (vec_at (DynamicRecord.outgoing r) k)).
    apply list_elem_of_lookup. exists (Z.to_nat k). apply lookup_vec_at. exact Hk. }
  assert (HW : total_length (r0 :: rest0) < WORD) by (unfold is_word in Hw; lia).
  destruct (rank_init c r0 rest0 k a Hd HW Hres H0 ltac:(lia))
    as (pre_a & r_a & rest_a & Hba & Hscan_a & Hge_a & Hrank_a).
  rewrite Hrank_a.
  cbn [fst].
  pose proof (fuel_of_enough c _ pre_a r_a rest_a Hd Hba) as Hfuel.
  rewrite (compressed_bdLF_loop c (r0 :: rest0) k (CompressedRecord.offset c k) k rr Hd HW
             rest_a pre_a r_a _ (b + 1) _ Hba Hfuel ltac:(lia)).
  destruct (rankAt_on c (r0 :: rest0) k (CompressedRecord.offset c k) pre_a r_a rest_a
              (b + 1) Hd HW Hres Hba ltac:(lia))
    as (pre' & r' & rest' & Hb' & Hscan2 & Hge2 & Hrank2).
  assert (Hseek : CompressedRecord.seek (CompressedRecord.fuel_of c) c
                    (iter_on CompressedRecord.Rank c pre_a r_a [] k
                       (CompressedRecord.offset c k)) (b + 1)
                  = iter_on CompressedRecord.Rank c pre' r' [] k
                      (CompressedRecord.offset c k)).
  { apply (f_equal snd) in Hrank2. exact Hrank2. }
  rewrite Hseek.
  assert (Hep : CompressedRecord.rankAt c
                  (iter_on CompressedRecord.Rank c pre' r' [] k
                     (CompressedRecord.offset c k)) (b + 1)
                = CompressedRecord.rankAt c (CompressedRecord.rank_iterator c k) (b + 1)).
  { rewrite <- (rankAt_compose c _ k a (b + 1) Hd ltac:(lia)).
    rewrite Hrank_a. cbn [snd].
    unfold CompressedRecord.rankAt. rewrite Hseek.
    rewrite (seek_stop _ c _ k _ pre' r' rest' (b + 1) Hd Hb' Hge2). reflexivity. }
  rewrite Hep.
  destruct (CompressedRecord.rankAt c (CompressedRecord.rank_iterator c k) (b + 1))
    as [ep it2].
  cbn [fst snd iter_on CompressedRecord.run CompressedRecord.record_offset].
  f_equal.
  set (counted := fun x => (x <? rr) && negb (x =? k)).
  pose proof (scan_two_phase counted (fun x => x =? k) (r0 :: rest0) a (Z.max a 1) (b + 1)
                (CompressedRecord.offset c k) Hruns HW H0 ltac:(lia) ltac:(lia) ltac:(lia)
                ltac:(lia)) as Htp.
  rewrite Hscan_a in Htp.
  pose proof (scan_state_indep counted (fun x => x =? k) rest_a (b + 1) r_a
                (wrap (total_length (pre_a ++ [r_a])))
                (if counted r_a.1 then wsub (wrap (total_length (pre_a ++ [r_a]))) a else 0)
                (result_after CompressedRecord.Rank k (CompressedRecord.offset c k)
                   (pre_a ++ [r_a]))) as Hind.
  rewrite Hscan2 in Hind.
  fold (counted r_a.1). fold (counted r'.1).
  destruct (scan counted rest_a (b + 1) r_a (wrap (total_length (pre_a ++ [r_a])))
              (if counted r_a.1 then wsub (wrap (total_length (pre_a ++ [r_a]))) a else 0))
    as [[[x1 x2] x3] ro2].
  simpl in Hind. injection Hind as -> -> ->. cbn [snd].
  rewrite Htp.
  apply occurrences_ext. intros x Hx.
  assert (Hvalid : 0 <= x < od).
  { pose proof (expand_ranks _ _ (body_runs r Hb)) as Hranks.
    rewrite Hbody, Forall_forall in Hranks. apply Hranks.
    apply list_elem_of_In in Hx. unfold window in Hx.
    eapply subseteq_drop, subseteq_take, Hx. }
  unfold counted, rr, counted_rank.
  destruct (Z.geb_spec rr0 od) as [Hge|Hlt].
  { destruct (Z.ltb_spec x k), (Z.eqb_spec x k); simpl; try reflexivity; lia. }
  assert (Hrng : 0 <= rr0) by (apply edgeTo_range; exact Hsorted).
  destruct (negb (Node.is_reverse to)) eqn:Hrev.
  { replace (wadd rr0 1) with (rr0 + 1); [reflexivity|].
    symmetry. apply wrap_small. unfold is_word. lia. }
  destruct (edgeTo_spec (Node.reverse to) _ Hsorted) as [[Hr Hrkey]|[Hr _]].
  2:{ unfold rr0, od, DynamicRecord.edgeTo, DynamicRecord.outdegree in Hlt. lia. }
  fold (DynamicRecord.edgeTo r (Node.reverse to)) in Hr, Hrkey. fold rr0 in Hr, Hrkey.
  assert (Hto : 0 <= to).
  { pose proof (typed_outgoing r Ht) as Hwords. rewrite Forall_forall in Hwords.
    apply list_elem_of_fmap in Hin as (e & -> & He). apply (Hwords e He). }
  destruct (reverse_decomp _ Hto) as (q & bt & Hbt & Hq & Htn & Htr & Hti).
  rewrite Hti in Hrev.
  pose proof (keys_strict_lt _ rr0 k Hstrict Hr Hk) as Hlt'.
  rewrite Hkey, Hrkey in Hlt'.
  destruct (Z.eqb_spec bt 1); [|discriminate].
  destruct (Z.ltb_spec x rr0), (Z.eqb_spec x k); simpl; try reflexivity; lia.
Qed.

(** ** Records inside a RecordArray *)

Lemma writeBWT_app r data : writeBWT r data = data ++ writeBWT r [].
Proof. rewrite !writeBWT_bytes. reflexivity. Qed.

Lemma make_writeBWT r post :
  typed r ->
  CompressedRecord.make (writeBWT r [] ++ post) 0 (length (writeBWT r []))
  = CompressedRecord.mk (DynamicRecord.outgoing r) (body_bytes r ++ post)
      (length (body_bytes r)).
Proof.
  intros Ht. rewrite writeBWT_bytes. simpl app. fold (body_bytes r).
  unfold CompressedRecord.make.
  assert (Hod : is_word (DynamicRecord.outdegree r)).
  { pose proof (typed_outdegree r Ht). unfold is_word, DynamicRecord.outdegree, vec_size in *.
    lia. }
  pose proof (ByteCode_read_encode [] (DynamicRecord.outdegree r)
                (edges_bytes 0 (DynamicRecord.outgoing r) ++ body_bytes r ++ post) Hod)
    as Hread.
  simpl in Hread. rewrite <- !app_assoc. rewrite Hread.
  assert (Hn : Z.to_nat (DynamicRecord.outdegree r) = length (DynamicRecord.outgoing r)).
  { unfold DynamicRecord.outdegree, vec_size. lia. }
  rewrite Hn.
  pose proof (read_edges_bytes (DynamicRecord.outgoing r)
                (ByteCode.encode (DynamicRecord.outdegree r)) 0 (body_bytes r ++ post)
                (typed_outgoing r Ht) ltac:(unfold is_word, WORD; lia)) as Hedges.
  rewrite Hedges.
  rewrite !app_assoc, <- length_app.
  rewrite <- (app_assoc _ (body_bytes r) post).
  rewrite drop_app_length. f_equal.
  rewrite !length_app. lia.
Qed.

Lemma decodes_make r c post :
  typed r -> body_ok r -> 0 < DynamicRecord.outdegree r ->
  c = CompressedRecord.mk (DynamicRecord.outgoing r) (body_bytes r ++ post)
        (length (body_bytes r)) ->
  decodes c (DynamicRecord.body r).
Proof.
  intros Ht Hb Hod ->. unfold body_bytes.
  destruct (Z.gtb_spec (DynamicRecord.outdegree r) 0) as [_|?]; [|lia].
  constructor; unfold CompressedRecord.outdegree; simpl;
    fold (DynamicRecord.outdegree r).
  - pose proof (typed_outdegree r Ht). lia.
  - pose proof (body_runs r Hb) as Hruns. pose proof (typed_body r Ht) as Hw.
    rewrite Forall_forall in *. intros run Hin.
    destruct (Hruns run Hin) as [Hr Hl]. destruct (Hw run Hin) as [_ [_ Hlw]]. lia.
  - exists post. reflexivity.
  - reflexivity.
Qed.

Lemma read_runs_on c body :
  decodes c body ->
  forall rest pre r fuel,
    body = pre ++ r :: rest -> (length rest + 1 < fuel)%nat ->
    RecordArray.read_runs fuel c (iter_on CompressedRecord.Forward c pre r [] 0 0)
    = r :: rest.
Proof.
  intros Hd. induction rest as [|r1 rest IH]; intros pre r fuel Hbody Hfuel;
    (destruct fuel as [|fuel]; [simpl in Hfuel; lia|]);
    cbn [RecordArray.read_runs];
    rewrite (at_end_on _ c body pre r _ _ _ _ Hd Hbody); f_equal.
  - pose proof (next_last CompressedRecord.Forward c body pre r [] 0 0 Hd Hbody) as Hend.
    destruct fuel as [|fuel]; [simpl in Hfuel; lia|]. simpl. rewrite Hend. reflexivity.
  - destruct (next_more CompressedRecord.Forward c body pre r r1 rest [] 0 0 Hd Hbody)
      as [-> Hbody'].
    apply IH; [exact Hbody'|simpl in *; lia].
Qed.

Lemma read_runs_decodes c body :
  decodes c body ->
  RecordArray.read_runs (CompressedRecord.fuel_of c) c (CompressedRecord.forward_iterator c)
  = body.
Proof.
  intros Hd. rewrite forward_iterator_before.
  destruct body as [|r rest].
  - assert (Hend := at_end_before CompressedRecord.Forward c [] (0, 0) [] 0 0 Hd).
    unfold CompressedRecord.read. rewrite Hend.
    unfold CompressedRecord.fuel_of. simpl. rewrite Hend. reflexivity.
  - rewrite (read_before _ c (r :: rest) [] r rest _ _ _ _ Hd eq_refl).
    apply (read_runs_on c (r :: rest) Hd rest [] r); [reflexivity|].
    unfold CompressedRecord.fuel_of. rewrite (dec_size c _ Hd).
    pose proof (enc_length (Run.make (CompressedRecord.outdegree c)) (r :: rest)).
    simpl in *. lia.
Qed.

(** ** The merge constructor and the endmarker *)

Lemma build_fold bwt : forall offs data,
  fold_left RecordArray.build_step bwt (offs, data)
  = (offs ++ offsets_from (vec_size data) bwt,
     data ++ concat (map (fun r => writeBWT r []) bwt)).
Proof.
  induction bwt as [|r bwt IH]; intros offs data; simpl.
  - rewrite !app_nil_r. reflexivity.
  - unfold RecordArray.build_step at 2. cbn [fst snd]. rewrite IH.
    rewrite (writeBWT_app r data), <- !app_assoc. simpl.
    replace (vec_size (data ++ writeBWT r []))
      with (vec_size data + vec_size (writeBWT r []))
      by (unfold vec_size; rewrite length_app; lia).
    reflexivity.
Qed.

Lemma buildIndex_ones data offsets :
  RecordArray.buildIndex data offsets = sdsl.mk_sd (vec_size data) offsets.
Proof.
  unfold RecordArray.buildIndex, sdsl.sd_empty.
  assert (H : forall l, fold_left sdsl.sd_set offsets (sdsl.mk_sd (vec_size data) l)
                        = sdsl.mk_sd (vec_size data) (l ++ offsets)).
  { induction offsets as [|o offsets IH]; intros l; simpl.
    - rewrite app_nil_r. reflexivity.
    - unfold sdsl.sd_set at 2. simpl. rewrite IH, <- app_assoc. reflexivity. }
  apply (H []).
Qed.

Lemma build_endmarker e bwt :
  vec_size (e :: bwt) < WORD ->
  let a := RecordArray.build (e :: bwt) in
  RecordArray.empty a = false /\
  RecordArray.start a ENDMARKER = 0 /\
  RecordArray.limit a ENDMARKER = vec_size (writeBWT e []) /\
  exists post, RecordArray.data a = writeBWT e [] ++ post.
Proof.
  intros Hsize. cbv zeta. unfold RecordArray.build.
  rewrite build_fold, buildIndex_ones. cbn [fst snd app].
  unfold RecordArray.empty, RecordArray.size, RecordArray.start, RecordArray.limit.
  cbn [RecordArray.records RecordArray.index RecordArray.data].
  unfold ENDMARKER. change (wadd 0 1) with 1. change (wadd 0 2) with 2.
  split; [|split; [|split]].
  - apply Z.eqb_neq. unfold vec_size. simpl. lia.
  - reflexivity.
  - destruct bwt as [|r1 bwt].
    + simpl. rewrite app_nil_r. reflexivity.
    + assert (Hlt : (1 <? vec_size (e :: r1 :: bwt)) = true).
      { apply Z.ltb_lt. unfold vec_size. simpl. lia. }
      rewrite Hlt. reflexivity.
  - eexists. reflexivity.
Qed.

Lemma fold_push_runs runs : forall m,
  is_word (DynamicRecord.body_size m) ->
  fold_left (fun (m : DynamicRecord.t) (run : Z * Z) =>
               DynamicRecord.mk (wadd (DynamicRecord.body_size m) run.2)
                 (DynamicRecord.incoming m) (DynamicRecord.outgoing m)
                 (DynamicRecord.body m ++ [(wadd run.1 (DynamicRecord.outdegree m), run.2)])
                 (DynamicRecord.ids m)) runs m
  = DynamicRecord.mk (wadd (DynamicRecord.body_size m) (total_length runs))
      (DynamicRecord.incoming m) (DynamicRecord.outgoing m)
      (DynamicRecord.body m
         ++ map (fun run : Z * Z => (wadd run.1 (DynamicRecord.outdegree m), run.2)) runs)
      (DynamicRecord.ids m).
Proof.
  induction runs as [|run runs IH]; intros m Hw.
  - simpl. rewrite app_nil_r. unfold wadd. rewrite Z.add_0_r, (wrap_small _ Hw).
    destruct m; reflexivity.
  - cbn [fold_left]. rewrite IH by apply wrap_is_word.
    cbn [DynamicRecord.body_size DynamicRecord.incoming DynamicRecord.outgoing
         DynamicRecord.body DynamicRecord.ids].
    unfold DynamicRecord.outdegree at 2.
    cbn [DynamicRecord.outgoing]. fold (DynamicRecord.outdegree m).
    rewrite <- app_assoc. simpl. f_equal.
    unfold wadd. rewrite wrap_add_l. f_equal. lia.
Qed.

Lemma fold_push_edges outs : forall m,
  fold_left (fun (m : DynamicRecord.t) (outedge : Z * Z) =>
               DynamicRecord.mk (DynamicRecord.body_size m) (DynamicRecord.incoming m)
                 (DynamicRecord.outgoing m ++ [outedge]) (DynamicRecord.body m)
                 (DynamicRecord.ids m)) outs m
  = DynamicRecord.mk (DynamicRecord.body_size m) (DynamicRecord.incoming m)
      (DynamicRecord.outgoing m ++ outs) (DynamicRecord.body m) (DynamicRecord.ids m).
Proof.
  induction outs as [|o outs IH]; intros m.
  - simpl. rewrite app_nil_r. destruct m; reflexivity.
  - cbn [fold_left]. rewrite IH. simpl. rewrite <- app_assoc. reflexivity.
Qed.

Lemma merge_step_nonempty sources st i e bwt :
  nth i sources (RecordArray.mk 0 (sdsl.sd_empty 0) []) = RecordArray.build (e :: bwt) ->
  source_ok (e :: bwt) -> is_word (DynamicRecord.body_size st.1) ->
  (RecordArray.merge_endmarker_step sources st i).1 = append_endmarker st.1 e.
Proof.
  intros Hnth [Hsize (Ht & Hb & Hod)] Hw.
  unfold RecordArray.merge_endmarker_step. rewrite Hnth.
  destruct (build_endmarker e bwt Hsize) as (Hne & Hstart & Hlimit & post & Hdata).
  rewrite Hne, Hstart, Hlimit, Hdata.
  replace (Z.to_nat (vec_size (writeBWT e []))) with (length (writeBWT e []))
    by (unfold vec_size; lia).
  change (Z.to_nat 0) with O.
  rewrite (make_writeBWT e post Ht).
  pose proof (decodes_make e _ post Ht Hb Hod eq_refl) as Hd.
  rewrite (read_runs_decodes _ _ Hd).
  cbn [fst CompressedRecord.outgoing].
  rewrite fold_push_runs by exact Hw.
  rewrite fold_push_edges.
  unfold append_endmarker. simpl. rewrite (body_total e Hb). reflexivity.
Qed.

Lemma merge_step_empty sources st i :
  nth i sources (RecordArray.mk 0 (sdsl.sd_empty 0) []) = RecordArray.build [] ->
  RecordArray.merge_endmarker_step sources st i = st.
Proof.
  intros Hnth. unfold RecordArray.merge_endmarker_step. rewrite Hnth. reflexivity.
Qed.

Lemma merge_fold bwts : forall pre st,
  Forall source_ok bwts -> is_word (DynamicRecord.body_size st.1) ->
  (fold_left (RecordArray.merge_endmarker_step (map RecordArray.build (pre ++ bwts)))
             (seq (length pre) (length bwts)) st).1
  = fold_left append_endmarker (endmarkers bwts) st.1.
Proof.
  induction bwts as [|bwt bwts IH]; intros pre st Hok Hw.
  - reflexivity.
  - inversion Hok as [|? ? Hb Hok']; subst.
    cbn [length seq fold_left].
    assert (Hnth : nth (length pre) (map RecordArray.build (pre ++ bwt :: bwts))
                     (RecordArray.mk 0 (sdsl.sd_empty 0) []) = RecordArray.build bwt).
    { rewrite map_app. rewrite app_nth2 by (rewrite length_map; lia).
      rewrite length_map, Nat.sub_diag. reflexivity. }
    specialize (IH (pre ++ [bwt])).
    rewrite length_app in IH. simpl in IH.
    replace (length pre + 1)%nat with (S (length pre)) in IH by lia.
    rewrite <- app_assoc in IH. simpl in IH.
    rewrite IH; [|exact Hok'|].
    + destruct bwt as [|e bwt].
      * rewrite (merge_step_empty _ _ _ Hnth). reflexivity.
      * rewrite (merge_step_nonempty _ _ _ e bwt Hnth Hb Hw). reflexivity.
    + destruct bwt as [|e bwt].
      * rewrite (merge_step_empty _ _ _ Hnth). exact Hw.
      * rewrite (merge_step_nonempty _ _ _ e bwt Hnth Hb Hw). apply wrap_is_word.
Qed.

Lemma merge_endmarker_spec bwts :
  Forall source_ok bwts ->
  (RecordArray.merge_endmarker (map RecordArray.build bwts)).1
  = DynamicRecord.recode
      (fold_left append_endmarker (endmarkers bwts) (DynamicRecord.mk 0 [] [] [] [])).
Proof.
  intros Hok. unfold RecordArray.merge_endmarker. cbn [fst].
  rewrite length_map. f_equal.
  apply (merge_fold bwts [] (DynamicRecord.mk 0 [] [] [] [], replicate (length bwts) 0) Hok).
  simpl. unfold is_word, WORD. simpl. lia.
Qed.

(** ** DASamples *)

Lemma count_fold_marks bwt : forall k rc bo sc done,
  length done = k ->
  (fold_left DASamples.count_step (combine (seq k (length bwt)) bwt)
             (rc, bo, sc, done ++ replicate (length bwt) false)).2
  = done ++ map sampled bwt.
Proof.
  induction bwt as [|r bwt IH]; intros k rc bo sc done Hk.
  - reflexivity.
  - cbn [length seq combine fold_left]. unfold DASamples.count_step at 2.
    fold (sampled r).
    replace (done ++ replicate (S (length bwt)) false)
      with ((done ++ [false]) ++ replicate (length bwt) false)
      by (rewrite <- app_assoc; reflexivity).
    destruct (sampled r) eqn:Hs.
    + unfold sdsl.bit_set. rewrite Nat2Z.id.
      rewrite <- app_assoc. rewrite insert_app_r_alt by lia.
      rewrite <- Hk, Nat.sub_diag. simpl.
      replace (done ++ true :: replicate (length bwt) false)
        with ((done ++ [true]) ++ replicate (length bwt) false)
        by (rewrite <- app_assoc; reflexivity).
      rewrite IH by (rewrite length_app; simpl; lia).
      rewrite <- app_assoc. cbn [map]. rewrite Hs. reflexivity.
    + rewrite IH by (rewrite length_app; simpl; lia).
      rewrite <- app_assoc. cbn [map]. rewrite Hs. reflexivity.
Qed.

Lemma fold_sd_set (f : Z * Z -> Z) ids : forall b mx,
  fold_left (fun (b : sdsl.sd_vector * Z) (sample : Z * Z) =>
               (sdsl.sd_set b.1 (f sample), Z.max b.2 sample.2)) ids (b, mx)
  = (sdsl.mk_sd (sdsl.sd_size b) (sdsl.sd_ones b ++ map f ids),
     fold_left (fun m (sample : Z * Z) => Z.max m sample.2) ids mx).
Proof.
  induction ids as [|s ids IH]; intros b mx; simpl.
  - rewrite app_nil_r. destruct b; reflexivity.
  - rewrite IH. simpl. rewrite <- app_assoc. reflexivity.
Qed.

Lemma mark_fold bwt : forall rb ob off mx,
  fold_left DASamples.mark_step bwt (rb, ob, off, mx)
  = (sdsl.mk_sd (sdsl.sd_size rb) (sdsl.sd_ones rb ++ ranges_of off bwt),
     sdsl.mk_sd (sdsl.sd_size ob) (sdsl.sd_ones ob ++ (entries_of off bwt).*1),
     fold_left (fun o (r : DynamicRecord.t) =>
                  if sampled r then wadd o (DynamicRecord.size r) else o) bwt off,
     max_sample_of mx bwt).
Proof.
  induction bwt as [|r bwt IH]; intros rb ob off mx.
  - simpl. rewrite !app_nil_r. destruct rb, ob; reflexivity.
  - cbn [fold_left ranges_of entries_of]. unfold DASamples.mark_step at 2.
    unfold max_sample_of. cbn [fold_left]. fold (sampled r).
    destruct (sampled r).
    + rewrite fold_sd_set. rewrite IH. simpl.
      rewrite fmap_app, <- !app_assoc. simpl.
      rewrite <- list_fmap_compose. reflexivity.
    + rewrite IH. reflexivity.
Qed.

Lemma count_fold_samples (l : list (nat * DynamicRecord.t)) : forall rc bo sc marks,
  (fold_left DASamples.count_step l (rc, bo, wrap sc, marks)).1.2
  = wrap (sc + sample_total l.*2).
Proof.
  induction l as [|[i r] l IH]; intros rc bo sc marks.
  - simpl. rewrite Z.add_0_r. reflexivity.
  - cbn [fold_left fmap list_fmap snd]. unfold DASamples.count_step at 2.
    cbn [sample_total]. fold (sampled r). destruct (sampled r).
    + unfold wadd at 3. rewrite wrap_add_l. rewrite IH. f_equal. lia.
    + apply IH.
Qed.

Lemma snd_combine_seq {A} (l : list A) k : (combine (seq k (length l)) l).*2 = l.
Proof.
  revert k. induction l as [|x l IH]; intros k; simpl; [reflexivity|].
  f_equal. apply IH.
Qed.

Lemma sampled_size_nonneg bwt : Forall sample_ok bwt -> 0 <= sampled_size bwt.
Proof.
  induction 1 as [|r bwt Hr _ IH]; simpl; [lia|].
  destruct Hr as [Hs _ _]. unfold is_word, DynamicRecord.size in *.
  destruct (sampled r); lia.
Qed.

Ltac size_lia := unfold is_word, DynamicRecord.size in *; lia.

Lemma entries_of_at bwt : forall off,
  Forall sample_ok bwt -> 0 <= off -> off + sampled_size bwt < WORD ->
  entries_of off bwt = entries_at off bwt.
Proof.
  induction bwt as [|r bwt IH]; intros off Hok Hoff Hb; [reflexivity|].
  inversion Hok as [|? ? Hr Hok']; subst.
  pose proof (sampled_size_nonneg _ Hok') as Hn.
  destruct Hr as [Hs Hw [_ Hbound]]. unfold is_word, DynamicRecord.size in *.
  cbn [entries_of entries_at sampled_size] in *. destruct (sampled r).
  - f_equal.
    + apply map_ext_Forall. eapply Forall_impl; [exact Hbound|].
      intros s Hs'. simpl in Hs'. cbn beta. f_equal.
      unfold wadd. apply wrap_small. size_lia.
    + unfold wadd. rewrite wrap_small by size_lia. apply IH; auto; size_lia.
  - apply IH; auto.
Qed.

Lemma ranges_of_at bwt : forall off,
  Forall sample_ok bwt -> 0 <= off -> off + sampled_size bwt < WORD ->
  ranges_of off bwt = ranges_at off bwt.
Proof.
  induction bwt as [|r bwt IH]; intros off Hok Hoff Hb; [reflexivity|].
  inversion Hok as [|? ? Hr Hok']; subst.
  pose proof (sampled_size_nonneg _ Hok') as Hn.
  destruct Hr as [Hs Hw [_ Hbound]]. unfold is_word, DynamicRecord.size in *.
  cbn [ranges_of ranges_at sampled_size] in *. destruct (sampled r).
  - f_equal. unfold wadd. rewrite wrap_small by size_lia. apply IH; auto; size_lia.
  - apply IH; auto.
Qed.

Lemma entries_at_app pre : forall off l,
  entries_at off (pre ++ l) = entries_at off pre ++ entries_at (off + sampled_size pre) l.
Proof.
  induction pre as [|r pre IH]; intros off l; simpl.
  - rewrite Z.add_0_r. reflexivity.
  - destruct (sampled r); rewrite IH;
      [rewrite <- app_assoc, Z.add_assoc|]; reflexivity.
Qed.

Lemma ranges_at_app pre : forall off l,
  ranges_at off (pre ++ l) = ranges_at off pre ++ ranges_at (off + sampled_size pre) l.
Proof.
  induction pre as [|r pre IH]; intros off l; simpl.
  - rewrite Z.add_0_r. reflexivity.
  - destruct (sampled r); rewrite IH; [rewrite Z.add_assoc|]; reflexivity.
Qed.

Lemma entries_at_bounds bwt : forall off,
  Forall sample_ok bwt ->
  Forall (fun e : Z * Z => off <= e.1 < off + sampled_size bwt /\ is_word e.2)
         (entries_at off bwt).
Proof.
  induction bwt as [|r bwt IH]; intros off Hok; [constructor|].
  inversion Hok as [|? ? Hr Hok']; subst.
  pose proof (sampled_size_nonneg _ Hok') as Hn.
  destruct Hr as [Hs Hw [_ Hbound]]. unfold is_word, DynamicRecord.size in *.
  cbn [entries_at sampled_size]. destruct (sampled r).
  - apply Forall_app. split.
    + apply Forall_map. rewrite Forall_forall in Hbound, Hw. apply Forall_forall.
      intros s Hin. specialize (Hbound s Hin). destruct (Hw s Hin) as [_ H2].
      simpl in *. size_lia.
    + eapply Forall_impl; [apply (IH (off + DynamicRecord.body_size r) Hok')|].
      intros e He. simpl in He. size_lia.
  - apply IH; auto.
Qed.

Lemma entries_at_sorted bwt : forall off,
  Forall sample_ok bwt -> StronglySorted Z.lt (entries_at off bwt).*1.
Proof.
  induction bwt as [|r bwt IH]; intros off Hok; [constructor|].
  inversion Hok as [|? ? Hr Hok']; subst.
  pose proof (entries_at_bounds bwt (off + DynamicRecord.size r) Hok') as Hb.
  destruct Hr as [Hs Hw [Hsorted Hbound]].
  cbn [entries_at]. destruct (sampled r); [|apply IH; auto].
  rewrite fmap_app. specialize (IH (off + DynamicRecord.size r) Hok').
  revert Hsorted Hbound. generalize (DynamicRecord.ids r) as ids.
  induction ids as [|s ids IHs]; intros Hsorted Hbound; [exact IH|].
  inversion Hsorted as [|? ? Hs' Hlt]; subst.
  inversion Hbound as [|? ? Hb1 Hb2]; subst.
  cbn [map fmap list_fmap fst app]. constructor.
  - apply IHs; auto.
  - apply Forall_app. split.
    + rewrite Forall_forall in Hlt. apply Forall_forall. intros x Hx.
      apply list_elem_of_fmap in Hx as [e [-> He]].
      apply list_elem_of_fmap in He as [s' [-> Hs'']]. simpl.
      assert (s.1 < s'.1); [|lia].
      apply Hlt. apply list_elem_of_fmap. eauto.
    + rewrite Forall_forall in Hb. apply Forall_forall. intros x Hx.
      apply list_elem_of_fmap in Hx as [e [-> He]].
      specialize (Hb e He). simpl in *. size_lia.
Qed.

Lemma entries_at_values bwt : forall off, (entries_at off bwt).*2 = values_of bwt.
Proof.
  induction bwt as [|r bwt IH]; intros off; [reflexivity|].
  simpl. destruct (sampled r); [|apply IH].
  rewrite fmap_app, IH. f_equal.
  rewrite <- list_fmap_compose. reflexivity.
Qed.

Lemma sample_total_values bwt : sample_total bwt = Z.of_nat (length (values_of bwt)).
Proof.
  induction bwt as [|r bwt IH]; [reflexivity|].
  simpl. destruct (sampled r); [|exact IH].
  rewrite length_app, length_fmap, Nat2Z.inj_add, <- IH. reflexivity.
Qed.

Lemma store_inner (f : Z * Z -> Z) ids : forall done n,
  (length ids <= n)%nat -> Z.of_nat (length done + length ids) < WORD ->
  fold_left (fun (b : list Z * Z) (sample : Z * Z) =>
               (<[Z.to_nat b.2 := f sample]> b.1, wadd b.2 1))
            ids (done ++ replicate n 0, Z.of_nat (length done))
  = ((done ++ map f ids) ++ replicate (n - length ids) 0,
     Z.of_nat (length (done ++ map f ids))).
Proof.
  induction ids as [|s ids IH]; intros done n Hn Hw.
  - simpl. rewrite app_nil_r, Nat.sub_0_r. reflexivity.
  - cbn [fold_left fst snd length map] in *.
    destruct n as [|n]; [lia|].
    rewrite Nat2Z.id. rewrite insert_app_r_alt by lia.
    rewrite Nat.sub_diag. cbn [replicate]. simpl (<[0%nat := _]> _).
    replace (done ++ f s :: replicate n 0) with ((done ++ [f s]) ++ replicate n 0)
      by (rewrite <- app_assoc; reflexivity).
    replace (wadd (Z.of_nat (length done)) 1) with (Z.of_nat (length (done ++ [f s]))).
    2:{ rewrite length_app. simpl. unfold wadd. rewrite wrap_small by (unfold is_word; lia).
        lia. }
    rewrite IH.
    + rewrite <- !app_assoc. reflexivity.
    + lia.
    + rewrite length_app. simpl. lia.
Qed.

Lemma store_fold width bwt : forall done n,
  (length (values_of bwt) <= n)%nat ->
  Z.of_nat (length done + length (values_of bwt)) < WORD ->
  fold_left (DASamples.store_step width) bwt
            (done ++ replicate n 0, Z.of_nat (length done))
  = ((done ++ map (fun v => v mod 2 ^ width) (values_of bwt))
       ++ replicate (n - length (values_of bwt)) 0,
     Z.of_nat (length (done ++ map (fun v => v mod 2 ^ width) (values_of bwt)))).
Proof.
  induction bwt as [|r bwt IH]; intros done n Hn Hw.
  - simpl. rewrite app_nil_r, Nat.sub_0_r. reflexivity.
  - cbn [fold_left values_of] in *. unfold DASamples.store_step at 2.
    fold (sampled r). destruct (sampled r).
    + rewrite length_app, length_fmap in Hn, Hw.
      rewrite (store_inner (fun sample : Z * Z => sample.2 mod 2 ^ width)) by lia.
      rewrite IH.
      * rewrite map_app, (map_map snd (fun v => v mod 2 ^ width)).
        rewrite (length_app (_.*2)), length_fmap, Nat.sub_add_distr, <- !app_assoc.
        reflexivity.
      * rewrite ?length_app, ?length_map; lia.
      * rewrite ?length_app, ?length_map; lia.
    + apply IH; auto.
Qed.

Lemma max_sample_inner ids : forall mx,
  mx <= fold_left (fun m (sample : Z * Z) => Z.max m sample.2) ids mx /\
  Forall (fun s : Z * Z =>
            s.2 <= fold_left (fun m (sample : Z * Z) => Z.max m sample.2) ids mx) ids.
Proof.
  induction ids as [|s ids IH]; intros mx; simpl; [split; [lia|constructor]|].
  destruct (IH (Z.max mx s.2)) as [H1 H2]. split; [lia|].
  constructor; [lia|exact H2].
Qed.

Lemma max_sample_values bwt : forall mx,
  mx <= max_sample_of mx bwt /\ Forall (fun v => v <= max_sample_of mx bwt) (values_of bwt).
Proof.
  induction bwt as [|r bwt IH]; intros mx; [split; [reflexivity|constructor]|].
  unfold max_sample_of. cbn [fold_left values_of]. fold (max_sample_of).
  destruct (sampled r); [|apply IH].
  destruct (max_sample_inner (DynamicRecord.ids r) mx) as [H1 H2].
  set (mx1 := fold_left _ (DynamicRecord.ids r) mx) in *.
  change (fold_left _ bwt mx1) with (max_sample_of mx1 bwt).
  destruct (IH mx1) as [H3 H4]. split; [lia|].
  apply Forall_app. split; [|exact H4].
  apply Forall_fmap. eapply Forall_impl; [exact H2|].
  intros s Hs. simpl in *. lia.
Qed.

Lemma mod_bit_length v mx : 0 <= v <= mx -> v mod 2 ^ bit_length mx = v.
Proof.
  intros Hv. apply Z.mod_small. split; [lia|]. unfold bit_length.
  destruct (Z.eq_dec mx 0) as [->|Hne].
  - simpl. lia.
  - pose proof (Z.log2_spec mx ltac:(lia)) as [_ H].
    replace (Z.succ (Z.log2 mx)) with (Z.log2 mx + 1) in H by lia. lia.
Qed.

Lemma sorted_length l : forall lo hi,
  StronglySorted Z.lt l -> Forall (fun x => lo <= x < hi) l -> lo <= hi ->
  Z.of_nat (length l) <= hi - lo.
Proof.
  induction l as [|x l IH]; intros lo hi Hs Hb Hle; simpl length; [lia|].
  inversion Hs as [|? ? Hs' Hlt]; subst. inversion Hb as [|? ? Hx Hb']; subst.
  assert (Z.of_nat (length l) <= hi - (x + 1)); [|lia].
  apply IH; [exact Hs'| |lia].
  rewrite Forall_forall in Hlt, Hb'. apply Forall_forall. intros y Hy.
  specialize (Hlt y Hy). specialize (Hb' y Hy). lia.
Qed.

Lemma values_length_bound bwt :
  Forall sample_ok bwt -> Z.of_nat (length (values_of bwt)) <= sampled_size bwt.
Proof.
  intros Hok. rewrite <- (entries_at_values bwt 0), length_fmap.
  rewrite <- (length_fmap fst).
  pose proof (sampled_size_nonneg _ Hok).
  replace (sampled_size bwt) with (0 + sampled_size bwt - 0) by lia.
  apply sorted_length; [apply entries_at_sorted; exact Hok| |lia].
  apply Forall_fmap. eapply Forall_impl; [apply (entries_at_bounds bwt 0 Hok)|].
  intros e He. simpl in *. lia.
Qed.

Lemma values_words bwt : Forall sample_ok bwt -> Forall is_word (values_of bwt).
Proof.
  intros Hok. rewrite <- (entries_at_values bwt 0). apply Forall_fmap.
  eapply Forall_impl; [apply (entries_at_bounds bwt 0 Hok)|].
  intros e He. simpl in *. tauto.
Qed.

Lemma build_spec bwt :
  Forall sample_ok bwt -> sampled_size bwt < WORD ->
  exists n m,
    DASamples.build bwt
    = DASamples.mk (map sampled bwt) (sdsl.mk_sd n (ranges_at 0 bwt))
                   (sdsl.mk_sd m (entries_at 0 bwt).*1) (values_of bwt).
Proof.
  intros Hok Hsize. unfold DASamples.build.
  pose proof (count_fold_marks bwt 0 0 0 0 [] eq_refl) as Hmarks.
  pose proof (count_fold_samples (combine (seq 0 (length bwt)) bwt) 0 0 0
                                 (replicate (length bwt) false)) as Hcount.
  change (wrap 0) with 0 in Hcount. rewrite snd_combine_seq in Hcount.
  simpl app in Hmarks.
  destruct (fold_left DASamples.count_step _ _) as [[[rc bo] sc] marks].
  simpl in Hmarks, Hcount. subst marks sc.
  rewrite mark_fold. simpl sdsl.sd_ones. simpl app.
  pose proof (values_length_bound bwt Hok) as Hlen.
  pose proof (sampled_size_nonneg bwt Hok) as Hnn.
  rewrite Z.add_0_l, sample_total_values, wrap_small by (unfold is_word; lia).
  rewrite Nat2Z.id.
  pose proof (store_fold (bit_length (max_sample_of 0 bwt)) bwt [] (length (values_of bwt)))
    as Hstore.
  simpl app in Hstore. simpl length in Hstore. change (Z.of_nat 0) with 0 in Hstore.
  rewrite Hstore by (simpl; lia).
  rewrite Nat.sub_diag, app_nil_r.
  rewrite entries_of_at, ranges_of_at by (auto; lia).
  exists (sdsl.sd_size (sdsl.sd_empty bo)), (sdsl.sd_size (sdsl.sd_empty bo)).
  f_equal.
  rewrite <- (map_id (values_of bwt)) at 2.
  apply map_ext_Forall.
  destruct (max_sample_values bwt 0) as [_ Hmax].
  pose proof (values_words bwt Hok) as Hw.
  rewrite Forall_forall in Hmax, Hw. apply Forall_forall. intros v Hv.
  apply mod_bit_length. specialize (Hmax v Hv). specialize (Hw v Hv).
  unfold is_word in Hw. lia.
Qed.

Lemma filter_none {A} (P : A -> bool) l :
  Forall (fun x => P x = false) l -> List.filter P l = [].
Proof.
  induction 1 as [|x l Hx _ IH]; simpl; [reflexivity|]. rewrite Hx. exact IH.
Qed.

Lemma filter_all {A} (P : A -> bool) l :
  Forall (fun x => P x = true) l -> List.filter P l = l.
Proof.
  induction 1 as [|x l Hx _ IH]; simpl; [reflexivity|]. rewrite Hx, IH. reflexivity.
Qed.

Lemma sorted_entry (E : list (Z * Z)) p v :
  StronglySorted Z.lt E.*1 -> (p, v) ∈ E ->
  existsb (fun q => q =? p) E.*1 = true /\
  nth (length (List.filter (fun q => q <? p) E.*1)) E.*2 0 = v.
Proof.
  induction E as [|[q w] E IH]; intros Hs Hin; [inversion Hin|].
  cbn [fmap list_fmap fst snd] in *. inversion Hs as [|? ? Hs' Hlt]; subst.
  apply elem_of_cons in Hin as [Heq|Hin].
  - inversion Heq; subst q w. cbn [existsb List.filter]. rewrite Z.eqb_refl, Z.ltb_irrefl.
    split; [reflexivity|].
    rewrite filter_none; [reflexivity|].
    eapply Forall_impl; [exact Hlt|]. intros x Hx. simpl in Hx. lia.
  - destruct (IH Hs' Hin) as [H1 H2].
    assert (Hqp : q < p).
    { rewrite Forall_forall in Hlt. apply Hlt.
      apply (list_elem_of_fmap_2 fst) in Hin. exact Hin. }
    cbn [existsb List.filter]. rewrite H1, orb_true_r.
    destruct (q <? p) eqn:Hlt'; [|lia]. split; [reflexivity|exact H2].
Qed.

Lemma absent_entry (l : list Z) p : p ∉ l -> existsb (fun q => q =? p) l = false.
Proof.
  induction l as [|q l IH]; intros Hnot; [reflexivity|].
  apply not_elem_of_cons in Hnot as [Hne Hnot]. simpl.
  rewrite IH by exact Hnot. destruct (q =? p) eqn:E; [lia|reflexivity].
Qed.

Lemma ranges_length pre : forall off,
  length (List.filter (fun b : bool => b) (map sampled pre)) = length (ranges_at off pre).
Proof.
  induction pre as [|r pre IH]; intros off; [reflexivity|].
  simpl. destruct (sampled r); simpl; [f_equal|]; apply IH.
Qed.

Lemma sampled_nonempty r : sampled r = true <-> DynamicRecord.ids r <> [].
Proof.
  unfold sampled, DynamicRecord.samples, vec_size.
  destruct (DynamicRecord.ids r) as [|s ids]; split; intros H; try congruence.
  - discriminate H.
  - apply Z.gtb_lt. simpl length. lia.
Qed.

Lemma sampled_size_pos r : sample_ok r -> sampled r = true -> 0 < DynamicRecord.size r.
Proof.
  intros [_ _ [_ Hb]] Hs. apply sampled_nonempty in Hs.
  destruct (DynamicRecord.ids r) as [|s ids]; [congruence|].
  inversion Hb; subst. size_lia.
Qed.

Lemma ranges_length_bound pre : forall off,
  Forall sample_ok pre -> Z.of_nat (length (ranges_at off pre)) <= sampled_size pre.
Proof.
  induction pre as [|r pre IH]; intros off Hok; [reflexivity|].
  inversion Hok as [|? ? Hr Hok']; subst. simpl.
  pose proof (sampled_size_pos r Hr) as Hpos.
  destruct (sampled r); [|apply IH; exact Hok'].
  specialize (IH (off + DynamicRecord.size r) Hok'). simpl length. lia.
Qed.

Lemma sampled_size_app pre l : sampled_size (pre ++ l) = sampled_size pre + sampled_size l.
Proof.
  induction pre as [|r pre IH]; simpl; [reflexivity|].
  destruct (sampled r); lia.
Qed.

Lemma tryLocate_unsampled_record pre r post offset :
  Forall sample_ok (pre ++ r :: post) -> sampled_size (pre ++ r :: post) < WORD ->
  sampled r = false ->
  DASamples.tryLocate (DASamples.build (pre ++ r :: post)) (Z.of_nat (length pre)) offset
  = invalid_sequence.
Proof.
  intros Hok Hsize Hs. destruct (build_spec _ Hok Hsize) as [n [m ->]].
  unfold DASamples.tryLocate, DASamples.isSampled, sdsl.bit_get.
  cbn [DASamples.sampled_records]. rewrite Nat2Z.id, map_app.
  rewrite <- (length_map sampled pre). cbn [map]. rewrite nth_middle, Hs. reflexivity.
Qed.

Lemma tryLocate_sampled_record pre r post offset :
  Forall sample_ok (pre ++ r :: post) -> sampled_size (pre ++ r :: post) < WORD ->
  sampled r = true -> 0 <= offset < DynamicRecord.size r ->
  DASamples.tryLocate (DASamples.build (pre ++ r :: post)) (Z.of_nat (length pre)) offset
  = if existsb (fun q => q =? sampled_size pre + offset)
               (entries_at 0 (pre ++ r :: post)).*1
    then nth (length (List.filter (fun q => q <? sampled_size pre + offset)
                                  (entries_at 0 (pre ++ r :: post)).*1))
             (entries_at 0 (pre ++ r :: post)).*2 0
    else invalid_sequence.
Proof.
  intros Hok Hsize Hs Hoff. destruct (build_spec _ Hok Hsize) as [n [m ->]].
  apply Forall_app in Hok as Hok2. destruct Hok2 as [Hpre Hrest].
  pose proof (ranges_length_bound pre 0 Hpre) as Hk.
  pose proof (sampled_size_nonneg _ Hpre) as Hn1.
  inversion Hrest as [|? ? Hr Hpost]; subst.
  pose proof (sampled_size_nonneg _ Hpost) as Hn2.
  rewrite sampled_size_app in Hsize. cbn [sampled_size] in Hsize. rewrite Hs in Hsize.
  unfold DASamples.tryLocate, DASamples.isSampled, DASamples.start, sdsl.bit_get,
    sdsl.bit_rank, sdsl.select_1, sdsl.sd_get, sdsl.rank_1, sdsl.int_get.
  cbn [DASamples.sampled_records DASamples.bwt_ranges DASamples.sampled_offsets
       DASamples.array sdsl.sd_ones sdsl.sd_size].
  rewrite Nat2Z.id, map_app.
  assert (Hnth : nth (length pre) (map sampled pre ++ map sampled (r :: post)) false = true).
  { rewrite <- (length_map sampled pre). cbn [map]. rewrite nth_middle. exact Hs. }
  assert (Htake : take (length pre) (map sampled pre ++ map sampled (r :: post))
                  = map sampled pre).
  { rewrite <- (length_map sampled pre) at 1. apply take_app_length. }
  assert (Hstart : nth (Z.to_nat (wadd (Z.of_nat (length (ranges_at 0 pre))) 1 - 1))
                       (ranges_at 0 (pre ++ r :: post)) n = sampled_size pre).
  { unfold wadd. rewrite wrap_small by (unfold is_word; lia).
    replace (Z.to_nat (Z.of_nat (length (ranges_at 0 pre)) + 1 - 1))
      with (length (ranges_at 0 pre)) by lia.
    rewrite ranges_at_app. cbn [ranges_at]. rewrite Hs, nth_middle. lia. }
  rewrite Hnth, Htake, (ranges_length pre 0), Hstart. cbn [negb].
  unfold wadd. rewrite wrap_small by size_lia.
  rewrite Nat2Z.id, entries_at_values. rewrite <- (entries_at_values _ 0).
  reflexivity.
Qed.

Lemma locate_sample pre r post offset s :
  Forall sample_ok (pre ++ r :: post) -> sampled_size (pre ++ r :: post) < WORD ->
  (offset, s) ∈ DynamicRecord.ids r ->
  DASamples.tryLocate (DASamples.build (pre ++ r :: post)) (Z.of_nat (length pre)) offset = s.
Proof.
  intros Hok Hsize Hin.
  assert (Hs : sampled r = true).
  { apply sampled_nonempty. intros Hnil. rewrite Hnil in Hin. inversion Hin. }
  assert (Hr : sample_ok r).
  { rewrite Forall_forall in Hok. apply Hok. apply elem_of_app. right. left. }
  assert (Hoff : 0 <= offset < DynamicRecord.size r).
  { destruct Hr as [_ _ [_ Hb]]. rewrite Forall_forall in Hb. apply (Hb _ Hin). }
  rewrite tryLocate_sampled_record by assumption.
  destruct (sorted_entry (entries_at 0 (pre ++ r :: post)) (sampled_size pre + offset) s)
    as [H1 H2].
  - apply entries_at_sorted. exact Hok.
  - rewrite entries_at_app. cbn [entries_at]. rewrite Hs, Z.add_0_l.
    apply elem_of_app. right. apply elem_of_app. left.
    apply (list_elem_of_fmap_2 (fun s0 : Z * Z => (sampled_size pre + s0.1, s0.2))) in Hin.
    exact Hin.
  - rewrite H1. exact H2.
Qed.

Lemma locate_no_sample pre r post offset :
  Forall sample_ok (pre ++ r :: post) -> sampled_size (pre ++ r :: post) < WORD ->
  0 <= offset < DynamicRecord.size r -> offset ∉ (DynamicRecord.ids r).*1 ->
  DASamples.tryLocate (DASamples.build (pre ++ r :: post)) (Z.of_nat (length pre)) offset
  = invalid_sequence.
Proof.
  intros Hok Hsize Hoff Hnot.
  destruct (sampled r) eqn:Hs; [|apply tryLocate_unsampled_record; assumption].
  rewrite tryLocate_sampled_record by assumption.
  rewrite absent_entry; [reflexivity|].
  apply Forall_app in Hok as [Hpre Hrest].
  inversion Hrest as [|? ? Hr Hpost]; subst.
  pose proof (entries_at_bounds pre 0 Hpre) as Hb1.
  pose proof (entries_at_bounds post (sampled_size pre + DynamicRecord.size r) Hpost) as Hb2.
  rewrite Forall_forall in Hb1, Hb2.
  rewrite entries_at_app. cbn [entries_at]. rewrite Hs, Z.add_0_l.
  intros Hin. apply list_elem_of_fmap in Hin as [e [He Hin]].
  apply elem_of_app in Hin as [Hin|Hin].
  { specialize (Hb1 e Hin). lia. }
  apply elem_of_app in Hin as [Hin|Hin].
  - apply list_elem_of_fmap in Hin as [s [-> Hin]]. simpl in He.
    apply Hnot. apply list_elem_of_fmap. exists s. split; [lia|exact Hin].
  - specialize (Hb2 e Hin). lia.
Qed.

(** ** Metadata *)

Lemma get_unset m f g :
  Metadata.get (Metadata.unset m f) g
  = negb (Z.land (Metadata.flags m) (Z.land (wrap (Z.lnot f)) g) =? 0).
Proof. unfold Metadata.get, Metadata.unset. simpl. rewrite Z.land_assoc. reflexivity. Qed.

Lemma clearSampleNames_spec m :
  let m' := Metadata.clearSampleNames m in
  Metadata.hasSampleNames m' = false /\
  Metadata.sample_names m' = Dictionary.default /\
  Metadata.hasContigNames m' = Metadata.hasContigNames m /\
  Metadata.sample_count m' = Metadata.sample_count m /\
  Metadata.haplotype_count m' = Metadata.haplotype_count m /\
  Metadata.contig_count m' = Metadata.contig_count m /\
  Metadata.contig_names m' = Metadata.contig_names m.
Proof.
  unfold Metadata.clearSampleNames, Metadata.hasSampleNames, Metadata.hasContigNames.
  cbn zeta. repeat split.
  - change (Metadata.get (Metadata.with_sample_names ?a ?d) ?f) with (Metadata.get a f).
    rewrite get_unset. change (Z.land (wrap _) _) with 0. rewrite Z.land_0_r. reflexivity.
  - change (Metadata.get (Metadata.with_sample_names ?a ?d) ?f) with (Metadata.get a f).
    rewrite get_unset. reflexivity.
Qed.

Lemma clearContigNames_spec m :
  let m' := Metadata.clearContigNames m in
  Metadata.hasContigNames m' = false /\
  Metadata.contig_names m' = Dictionary.default /\
  Metadata.hasSampleNames m' = Metadata.hasSampleNames m /\
  Metadata.sample_count m' = Metadata.sample_count m /\
  Metadata.haplotype_count m' = Metadata.haplotype_count m /\
  Metadata.contig_count m' = Metadata.contig_count m /\
  Metadata.sample_names m' = Metadata.sample_names m.
Proof.
  unfold Metadata.clearContigNames, Metadata.hasSampleNames, Metadata.hasContigNames.
  cbn zeta. repeat split.
  - change (Metadata.get (Metadata.with_contig_names ?a ?d) ?f) with (Metadata.get a f).
    rewrite get_unset. change (Z.land (wrap _) _) with 0. rewrite Z.land_0_r. reflexivity.
  - change (Metadata.get (Metadata.with_contig_names ?a ?d) ?f) with (Metadata.get a f).
    rewrite get_unset. reflexivity.
Qed.

Lemma merge_paths_parts m source a b :
  sample_part (Metadata.merge_paths m source a b) = sample_part m /\
  contig_part (Metadata.merge_paths m source a b) = contig_part m.
Proof.
  unfold Metadata.merge_paths.
  destruct (Metadata.hasPathNames m); [|split; reflexivity].
  destruct (Metadata.hasPathNames source); [split; reflexivity|].
  unfold sample_part, contig_part, Metadata.clearPathNames, Metadata.hasSampleNames,
    Metadata.hasContigNames.
  change (Metadata.get (Metadata.with_path_names ?a ?d) ?f) with (Metadata.get a f).
  rewrite !get_unset. split; reflexivity.
Qed.

Lemma merge_contigs_sample_part m source same_contigs :
  sample_part (Metadata.merge_contigs m source same_contigs).1 = sample_part m.
Proof.
  unfold Metadata.merge_contigs. destruct same_contigs; cbn [fst].
  - destruct (negb _ && _); reflexivity.
  - match goal with |- context [Metadata.hasContigNames ?x] => destruct (Metadata.hasContigNames x) end;
      [|reflexivity].
    destruct (Metadata.hasContigNames source); [reflexivity|].
    match goal with |- context [Metadata.clearContigNames ?x] =>
      destruct (clearContigNames_spec x) as (_ & _ & H1 & H2 & H3 & _ & H4) end.
    unfold sample_part. rewrite H1, H2, H3, H4. reflexivity.
Qed.

Lemma merge_samples_contig_part m source same_samples :
  contig_part (Metadata.merge_samples m source same_samples).1 = contig_part m.
Proof.
  unfold Metadata.merge_samples. destruct same_samples; cbn [fst].
  - destruct (negb _ && _); reflexivity.
  - match goal with |- context [Metadata.hasSampleNames ?x] => destruct (Metadata.hasSampleNames x) end;
      [|reflexivity].
    destruct (Metadata.hasSampleNames source); [reflexivity|].
    match goal with |- context [Metadata.clearSampleNames ?x] =>
      destruct (clearSampleNames_spec x) as (_ & _ & H1 & _ & _ & H2 & H3) end.
    unfold contig_part. rewrite H1, H2, H3. reflexivity.
Qed.

Lemma merge_samples_clear m source :
  Metadata.hasSampleNames m = true -> Metadata.hasSampleNames source = false ->
  sample_part (Metadata.merge_samples m source false).1
  = (false, Dictionary.default,
     wadd (Metadata.sample_count m) (Metadata.sample_count source),
     wadd (Metadata.haplotype_count m) (Metadata.haplotype_count source)).
Proof.
  intros Hm Hs. unfold Metadata.merge_samples. cbn [fst].
  change (Metadata.hasSampleNames (Metadata.with_samples m ?a ?b))
    with (Metadata.hasSampleNames m).
  rewrite Hm, Hs.
  match goal with |- context [Metadata.clearSampleNames ?x] =>
    destruct (clearSampleNames_spec x) as (H1 & H2 & _ & H3 & H4 & _) end.
  unfold sample_part. rewrite H1, H2, H3, H4. reflexivity.
Qed.

Lemma merge_contigs_clear m source :
  Metadata.hasContigNames m = true -> Metadata.hasContigNames source = false ->
  contig_part (Metadata.merge_contigs m source false).1
  = (false, Dictionary.default,
     wadd (Metadata.contig_count m) (Metadata.contig_count source)).
Proof.
  intros Hm Hs. unfold Metadata.merge_contigs. cbn [fst].
  change (Metadata.hasContigNames (Metadata.with_contigs m ?a))
    with (Metadata.hasContigNames m).
  rewrite Hm, Hs.
  match goal with |- context [Metadata.clearContigNames ?x] =>
    destruct (clearContigNames_spec x) as (H1 & H2 & _ & _ & _ & H3 & _) end.
  unfold contig_part. rewrite H1, H2, H3. reflexivity.
Qed.

Lemma merge_parts m source same_samples same_contigs :
  sample_part (Metadata.merge m source same_samples same_contigs)
  = sample_part (Metadata.merge_samples m source same_samples).1 /\
  contig_part (Metadata.merge m source same_samples same_contigs)
  = contig_part (Metadata.merge_contigs
                   (Metadata.merge_samples m source same_samples).1 source same_contigs).1.
Proof.
  unfold Metadata.merge.
  destruct (Metadata.merge_samples m source same_samples) as [m1 so] eqn:E1.
  destruct (Metadata.merge_contigs m1 source same_contigs) as [m2 co] eqn:E2.
  destruct (merge_paths_parts m2 source so co) as [H1 H2].
  rewrite H1, H2. cbn [fst]. split; [|rewrite E2; reflexivity].
  pose proof (merge_contigs_sample_part m1 source same_contigs) as H.
  rewrite E2 in H. exact H.
Qed.

(** * The properties of the specification *)

Ltac concrete :=
  repeat (first [constructor | split]);
  unfold pair_words, is_word, WORD, DynamicRecord.size, DynamicRecord.outdegree, vec_size;
  simpl; try lia; try discriminate.


Lemma runLF_edge r i run_end :
  i < DynamicRecord.size r -> (DynamicRecord.runLF r i run_end).1 = DynamicRecord.LF r i.
Proof.
  intros Hi. unfold DynamicRecord.LF, DynamicRecord.runLF.
  destruct (i >=? DynamicRecord.size r) eqn:E; [lia|reflexivity].
Qed.

Lemma count_reverse r to lo hi :
  typed r -> body_ok r -> outgoing_ok r ->
  to ∈ (DynamicRecord.outgoing r).*1 ->
  0 <= lo -> lo <= hi -> hi <= DynamicRecord.size r ->
  count_positions (fun j => Node.reverse (DynamicRecord.at_ r j) <? Node.reverse to) lo hi
  = occurrences (counted_rank (DynamicRecord.outdegree r) (DynamicRecord.edgeTo r to)
                   (DynamicRecord.edgeTo r (Node.reverse to)) to)
                (window lo hi (expand (DynamicRecord.body r))).
Proof.
  intros Ht Hb Hs Hin H0 Hle Hhi.
  pose proof (sorted_keys_strict _ Hs) as Hstrict.
  pose proof (body_ok_runs r Hb) as Hruns.
  pose proof (expand_length _ Hruns) as Hlen.
  pose proof (expand_ranks _ _ (body_runs r Hb)) as Hranks.
  pose proof (typed_size r Ht) as Hw.
  unfold DynamicRecord.size in *.
  rewrite (body_total r Hb) in Hhi.
  apply count_positions_window; try lia.
  intros j Hj. rewrite at_expand; auto.
  2:{ unfold DynamicRecord.size. rewrite (body_total r Hb). lia. }
  set (x := nth (Z.to_nat j) (expand (DynamicRecord.body r)) 0).
  assert (Hx : 0 <= x < DynamicRecord.outdegree r).
  { rewrite Forall_forall in Hranks. apply Hranks.
    apply list_elem_of_In, nth_In. lia. }
  unfold DynamicRecord.edgeTo, DynamicRecord.outdegree in *.
  symmetry. apply counted_rank_reverse; auto.
  apply (typed_outgoing r Ht).
Qed.

Lemma present_rank r to :
  outgoing_ok r -> to ∈ (DynamicRecord.outgoing r).*1 ->
  (DynamicRecord.edgeTo r to >=? DynamicRecord.outdegree r) = false.
Proof.
  intros Hs Hin.
  destruct (edgeTo_present to _ (keys_strict_sorted _ (sorted_keys_strict _ Hs)) Hin) as [Hk _].
  unfold DynamicRecord.edgeTo, DynamicRecord.outdegree. lia.
Qed.

Lemma absent_rank r to :
  to ∉ (DynamicRecord.outgoing r).*1 ->
  (DynamicRecord.edgeTo r to >=? DynamicRecord.outdegree r) = true.
Proof.
  intros Hnot. unfold DynamicRecord.edgeTo, DynamicRecord.outdegree.
  rewrite (edgeTo_absent _ _ Hnot). lia.
Qed.

Lemma compress_rank r to :
  typed r ->
  CompressedRecord.edgeTo (compress r) to = DynamicRecord.edgeTo r to /\
  CompressedRecord.outdegree (compress r) = DynamicRecord.outdegree r.
Proof.
  intros Ht. unfold CompressedRecord.edgeTo, CompressedRecord.outdegree.
  rewrite (compress_outgoing r Ht). split; reflexivity.
Qed.




(** C2: for every DynamicRecord [r] with [outgoing] sorted by successor,
    every node [to] and every [0 <= i <= r.size()]: if [to] is not among
    the successors of [r] then [r.LF(i, to)] is [invalid_offset()];
    otherwise it is [r.offset(edge_to(to))] plus (in 64-bit arithmetic) the
    number of positions [j < i] with [r[j] = to].  The same holds for
    [CompressedRecord::LF(i, to)] on the encoded record. *)
Theorem LF_to_spec r to i :
  typed r -> body_ok r -> outgoing_ok r -> 0 <= i <= DynamicRecord.size r ->
  let expected :=
    if bool_decide (to ∈ (DynamicRecord.outgoing r).*1)
    then wadd (DynamicRecord.offset r (DynamicRecord.edgeTo r to))
              (count_positions (fun j => DynamicRecord.at_ r j =? to) 0 i)
    else invalid_offset in
  DynamicRecord.LF_to r i to = expected /\
  CompressedRecord.LF_to (compress r) i to = expected.
Proof.
  intros Ht Hb Hs Hi expected.
  assert (H : DynamicRecord.LF_to r i to = expected).
  { subst expected. destruct (bool_decide_reflect (to ∈ (DynamicRecord.outgoing r).*1)) as [Hin|Hnot].
    - pose proof (present_rank r to Hs Hin) as Hrank.
      pose proof (typed_size r Ht) as Hw.
      rewrite LF_to_occurrences by (assumption || lia).
      rewrite (count_target r to 0 i) by (assumption || lia).
      reflexivity.
    - unfold DynamicRecord.LF_to. cbn zeta. rewrite (absent_rank r to Hnot). reflexivity. }
  split; [exact H|]. rewrite compress_LF_to; assumption.
Qed.

Lemma LF_to_spec_witness :
  (DynamicRecord.LF_to scenario2 4 6 = 5 /\
   CompressedRecord.LF_to (compress scenario2) 4 6 = 5) /\
  (DynamicRecord.LF_to scenario2 4 5 = invalid_offset /\
   CompressedRecord.LF_to (compress scenario2) 4 5 = invalid_offset).
Proof.
  split.
  - apply (LF_to_spec scenario2 6 4); concrete.
  - apply (LF_to_spec scenario2 5 4); concrete.
Defined.

Lemma LF_range_both r a b to :
  typed r -> body_ok r -> outgoing_ok r ->
  a <= b -> to ∈ (DynamicRecord.outgoing r).*1 -> 0 <= b < WORD - 1 ->
  DynamicRecord.LF_range r (a, b) to
  = (DynamicRecord.LF_to r a to, wsub (DynamicRecord.LF_to r (b + 1) to) 1) /\
  CompressedRecord.LF_range (compress r) (a, b) to
  = (CompressedRecord.LF_to (compress r) a to,
     wsub (CompressedRecord.LF_to (compress r) (b + 1) to) 1).
Proof.
  intros Ht Hb Hs Hab Hin Hbound. destruct (compress_rank r to Ht) as [He Ho].
  pose proof (present_rank r to Hs Hin) as Hrank. split.
  - rewrite LF_range_decompose by assumption. rewrite Hrank. reflexivity.
  - assert (Hout : 0 < DynamicRecord.outdegree r).
    { destruct (edgeTo_present to _ (keys_strict_sorted _ (sorted_keys_strict _ Hs)) Hin)
        as [Hk _]. unfold DynamicRecord.outdegree. lia. }
    rewrite (compressed_LF_range_decompose _ _ a b to (decodes_compress r Ht Hb Hout))
      by assumption.
    rewrite He, Ho, Hrank. reflexivity.
Qed.




(** C4: for every DynamicRecord [r], every non-empty range [(a, b)]
    contained in [[0, r.size())] and every node [to] among the successors
    of [r]: [r.bdLF((a, b), to, reverse_offset)] returns the range
    [r.LF((a, b), to)] and sets [reverse_offset] to the number of positions
    [j] of the range with [Node::reverse(r[j]) < Node::reverse(to)].  The
    same holds for [CompressedRecord::bdLF] on the encoded record. *)
Theorem bdLF_spec r a b to reverse_offset :
  typed r -> body_ok r -> outgoing_ok r ->
  0 <= a -> a <= b -> b < DynamicRecord.size r ->
  to ∈ (DynamicRecord.outgoing r).*1 ->
  let count :=
    count_positions (fun j => Node.reverse (DynamicRecord.at_ r j) <? Node.reverse to)
                    a (b + 1) in
  DynamicRecord.bdLF r (a, b) to reverse_offset
  = (DynamicRecord.LF_range r (a, b) to, count) /\
  CompressedRecord.bdLF (compress r) (a, b) to reverse_offset
  = (CompressedRecord.LF_range (compress r) (a, b) to, count).
Proof.
  intros Ht Hb Hs Ha Hab Hsize Hin count.
  assert (H : DynamicRecord.bdLF r (a, b) to reverse_offset
              = (DynamicRecord.LF_range r (a, b) to, count)).
  { rewrite bdLF_occurrences by assumption. subst count.
    rewrite (count_reverse r to a (b + 1)) by (auto; lia). reflexivity. }
  split; [exact H|].
  rewrite compress_bdLF by assumption. rewrite H. f_equal.
  pose proof (typed_size r Ht) as Hw. unfold is_word, DynamicRecord.size in *.
  destruct (LF_range_both r a b to Ht Hb Hs Hab Hin ltac:(lia)) as [Hd Hc].
  rewrite Hd, Hc. rewrite !compress_LF_to by (auto; unfold DynamicRecord.size; lia).
  reflexivity.
Qed.

Lemma bdLF_spec_witness :
  DynamicRecord.bdLF scenario2 (1, 4) 6 0 = (DynamicRecord.LF_range scenario2 (1, 4) 6, 1) /\
  CompressedRecord.bdLF (compress scenario2) (1, 4) 6 0
  = (CompressedRecord.LF_range (compress scenario2) (1, 4) 6, 1).
Proof. apply (bdLF_spec scenario2 1 4 6 0); concrete. Defined.

(** C5, as stated, fails on its example: the edges of the sources are
    appended as they are, so the merged endmarker has the edge [(2, 0)],
    not [(2, 3)]. *)
Lemma merge_endmarker_counterexample :
  Forall source_ok [source0; source1] /\
  DynamicRecord.outgoing
    (RecordArray.merge_endmarker (map RecordArray.build [source0; source1])).1
  = [(1, 0); (2, 0)] /\
  [(1, 0); (2, 0)] <> [(1, 0); (2, 3)].
Proof.
  split; [concrete|]. split; [vm_compute; reflexivity|discriminate].
Qed.

(** C5 (amended): the merging constructor builds the destination endmarker
    by concatenating the endmarker bodies of all non-empty sources in
    source order, shifting the ranks of each by the merged outdegree
    accumulated so far, appending the outgoing edges of each source, and
    then applying [recode].  In particular, for two sources with endmarkers
    outgoing = [(1,0)], body = [(0,3)] and outgoing = [(2,0)],
    body = [(0,2)], the merged endmarker has outgoing = [(1,0),(2,0)],
    body = [(0,3),(1,2)] and body_size = 5. *)
Theorem merge_endmarker_recode :
  (forall bwts, Forall source_ok bwts ->
     (RecordArray.merge_endmarker (map RecordArray.build bwts)).1
     = DynamicRecord.recode
         (fold_left append_endmarker (endmarkers bwts) (DynamicRecord.mk 0 [] [] [] []))) /\
  (forall e0 rest0 e1 rest1,
     Forall source_ok [e0 :: rest0; e1 :: rest1] ->
     DynamicRecord.outgoing e0 = [(1, 0)] -> DynamicRecord.body e0 = [(0, 3)] ->
     DynamicRecord.outgoing e1 = [(2, 0)] -> DynamicRecord.body e1 = [(0, 2)] ->
     (RecordArray.merge_endmarker
        (map RecordArray.build [e0 :: rest0; e1 :: rest1])).1
     = DynamicRecord.mk 5 [] [(1, 0); (2, 0)] [(0, 3); (1, 2)] []).
Proof.
  split; [exact merge_endmarker_spec|].
  intros e0 rest0 e1 rest1 Hok Ho0 Hb0 Ho1 Hb1.
  rewrite (merge_endmarker_spec _ Hok).
  assert (Hbody0 : body_ok e0).
  { inversion Hok as [|? ? H0 _]; subst. destruct H0 as [_ H0]. apply H0. }
  assert (Hbody1 : body_ok e1).
  { inversion Hok as [|? ? _ Hok']; subst. inversion Hok' as [|? ? H1 _]; subst.
    destruct H1 as [_ H1]. apply H1. }
  pose proof (body_total _ Hbody0) as Hs0. pose proof (body_total _ Hbody1) as Hs1.
  rewrite Hb0 in Hs0. rewrite Hb1 in Hs1.
  cbn [endmarkers flat_map app fold_left]. unfold append_endmarker.
  cbn [DynamicRecord.body_size DynamicRecord.incoming DynamicRecord.outgoing
       DynamicRecord.body DynamicRecord.ids].
  rewrite Ho0, Hb0, Ho1, Hb1, Hs0, Hs1. vm_compute. reflexivity.
Qed.

Lemma merge_endmarker_recode_witness :
  (RecordArray.merge_endmarker (map RecordArray.build [source0; source1])).1
  = DynamicRecord.mk 5 [] [(1, 0); (2, 0)] [(0, 3); (1, 2)] [].
Proof.
  apply (proj2 merge_endmarker_recode
           (DynamicRecord.mk 3 [] [(1, 0)] [(0, 3)] [])
           [DynamicRecord.mk 3 [(0, 3)] [(0, 0)] [(0, 3)] []]
           (DynamicRecord.mk 2 [] [(2, 0)] [(0, 2)] [])
           [DynamicRecord.mk 2 [(0, 2)] [(0, 0)] [(0, 2)] []]); concrete.
Defined.

(** C6: for a DASamples structure built from a vector of DynamicRecords
    (whose sample offsets are strictly increasing and below the size of
    their record, and whose sampled records have a total size below
    [2^64]): for every record and offset such that the [ids] of the record
    hold the sample [(offset, s)], [tryLocate(record, offset)] returns [s];
    for every offset within the size of a record that carries no sample,
    and for every record with no samples at all, [tryLocate] returns
    [invalid_sequence()]. *)
Theorem tryLocate_spec bwt (record : nat) r :
  Forall sample_ok bwt -> sampled_size bwt < WORD -> bwt !! record = Some r ->
  (forall offset s, (offset, s) ∈ DynamicRecord.ids r ->
     DASamples.tryLocate (DASamples.build bwt) (Z.of_nat record) offset = s) /\
  (forall offset, 0 <= offset < DynamicRecord.size r ->
     offset ∉ (DynamicRecord.ids r).*1 ->
     DASamples.tryLocate (DASamples.build bwt) (Z.of_nat record) offset = invalid_sequence) /\
  (DynamicRecord.ids r = [] ->
   forall offset,
     DASamples.tryLocate (DASamples.build bwt) (Z.of_nat record) offset = invalid_sequence).
Proof.
  intros Hok Hsize Hr.
  pose proof (take_drop_middle bwt record r Hr) as Hsplit.
  assert (Hlen : length (take record bwt) = record).
  { apply length_take_le. apply lookup_lt_Some in Hr. lia. }
  remember (take record bwt) as pre eqn:Hpre.
  remember (drop (S record) bwt) as post eqn:Hpost.
  clear Hpre Hpost Hr. subst bwt record. repeat split.
  - intros offset s Hin. apply locate_sample; assumption.
  - intros offset Hoff Hnot. apply locate_no_sample; assumption.
  - intros Hnil offset. apply tryLocate_unsampled_record; try assumption.
    destruct (sampled r) eqn:Hs; [|reflexivity].
    apply sampled_nonempty in Hs. contradiction.
Qed.

Lemma tryLocate_spec_witness :
  DASamples.tryLocate (DASamples.build sampled_bwt) 1 5 = 99 /\
  DASamples.tryLocate (DASamples.build sampled_bwt) 1 6 = invalid_sequence /\
  DASamples.tryLocate (DASamples.build sampled_bwt) 2 0 = invalid_sequence.
Proof.
  split; [|split].
  - apply (proj1 (tryLocate_spec sampled_bwt 1
                    (DynamicRecord.mk 10 [] [(1, 0)] [(0, 10)] [(2, 7); (5, 99)])
                    ltac:(concrete) ltac:(reflexivity) ltac:(reflexivity)) 5 99).
    concrete.
  - apply (proj1 (proj2 (tryLocate_spec sampled_bwt 1
                    (DynamicRecord.mk 10 [] [(1, 0)] [(0, 10)] [(2, 7); (5, 99)])
                    ltac:(concrete) ltac:(reflexivity) ltac:(reflexivity))) 6).
    + concrete.
    + simpl. intros H. repeat (apply elem_of_cons in H as [H|H]; [discriminate H|]).
      inversion H.
  - apply (proj2 (proj2 (tryLocate_spec sampled_bwt 2
                    (DynamicRecord.mk 4 [] [(1, 0)] [(0, 4)] [])
                    ltac:(concrete) ltac:(reflexivity) ltac:(reflexivity))) eq_refl 0).
Defined.

(** C7 does not hold for the code: after [A.append(B)] with A = {"a"} and
    B = {"b"} the dictionary has two entries, but every offset of B was
    written to the entry [old size + 1] of the new offsets and the entry
    [old size] was left 0: the offsets are [0, 0, 2], the string with id 0
    is empty instead of "a", the string with id 1 is "ab" instead of "b",
    and [find] locates neither "a" nor "b". *)
Theorem append_offsets_misplaced :
  let merged := Dictionary.append dictionary_a dictionary_b in
  Dictionary.size merged = Dictionary.size dictionary_a + Dictionary.size dictionary_b /\
  Dictionary.data merged = [97; 98] /\
  Dictionary.offsets merged = [0; 0; 2] /\
  Dictionary.at_ dictionary_a 0 = [97] /\ Dictionary.at_ merged 0 = [] /\
  Dictionary.at_ dictionary_b 0 = [98] /\ Dictionary.at_ merged 1 = [97; 98] /\
  Dictionary.find merged [97] = Dictionary.size merged /\
  Dictionary.find merged [98] = Dictionary.size merged.
Proof. vm_compute. repeat split; reflexivity. Qed.

(** C8: for every DynamicRecord [r] satisfying the record invariants (the
    ranks of the body are below the outdegree; for [removeUnusedEdges],
    which finds the new ranks by binary search, [outgoing] is sorted by
    successor): [removeUnusedEdges] is idempotent, [recode] is idempotent
    after a first application, and both preserve [r[i]] for every [i]. *)
Theorem cleanup_idempotent r :
  body_ok r ->
  DynamicRecord.recode (DynamicRecord.recode r) = DynamicRecord.recode r /\
  (forall i, DynamicRecord.at_ (DynamicRecord.recode r) i = DynamicRecord.at_ r i) /\
  (outgoing_ok r ->
   DynamicRecord.removeUnusedEdges (DynamicRecord.removeUnusedEdges r)
   = DynamicRecord.removeUnusedEdges r /\
   forall i, DynamicRecord.at_ (DynamicRecord.removeUnusedEdges r) i = DynamicRecord.at_ r i).
Proof.
  intros Hb. pose proof (body_ok_ranks r Hb) as Hr. split; [|split].
  - apply recode_idempotent.
  - intros i. apply recode_at. exact Hr.
  - intros Hs. split.
    + apply removeUnusedEdges_idempotent; assumption.
    + intros i. apply removeUnusedEdges_at; assumption.
Qed.

Lemma cleanup_idempotent_witness :
  (DynamicRecord.recode (DynamicRecord.recode unsorted_record)
   = DynamicRecord.recode unsorted_record /\
   forall i, DynamicRecord.at_ (DynamicRecord.recode unsorted_record) i
             = DynamicRecord.at_ unsorted_record i) /\
  (DynamicRecord.removeUnusedEdges (DynamicRecord.removeUnusedEdges unused_edge_record)
   = DynamicRecord.removeUnusedEdges unused_edge_record /\
   forall i, DynamicRecord.at_ (DynamicRecord.removeUnusedEdges unused_edge_record) i
             = DynamicRecord.at_ unused_edge_record i).
Proof.
  split.
  - split.
    + apply (proj1 (cleanup_idempotent unsorted_record ltac:(concrete))).
    + apply (proj1 (proj2 (cleanup_idempotent unsorted_record ltac:(concrete)))).
  - apply (proj2 (proj2 (cleanup_idempotent unused_edge_record ltac:(concrete)))).
    concrete.
Defined.

(** C9: for every DynamicRecord whose body is empty ([body_size == 0]),
    [recode()] returns without modifying any field; in particular an
    [outgoing] list that is not sorted by successor stays unsorted. *)
Theorem recode_empty_body r :
  DynamicRecord.body_size r = 0 ->
  DynamicRecord.recode r = r /\
  DynamicRecord.successors_sorted (DynamicRecord.outgoing (DynamicRecord.recode r))
  = DynamicRecord.successors_sorted (DynamicRecord.outgoing r).
Proof.
  intros H0.
  assert (H : DynamicRecord.recode r = r).
  { apply recode_fixed. left. unfold DynamicRecord.empty, DynamicRecord.size.
    rewrite H0. reflexivity. }
  rewrite H. split; reflexivity.
Qed.

Lemma recode_empty_body_witness :
  (DynamicRecord.recode empty_unsorted_record = empty_unsorted_record /\
   DynamicRecord.successors_sorted
     (DynamicRecord.outgoing (DynamicRecord.recode empty_unsorted_record))
   = DynamicRecord.successors_sorted (DynamicRecord.outgoing empty_unsorted_record)) /\
  DynamicRecord.successors_sorted (DynamicRecord.outgoing empty_unsorted_record) = false.
Proof.
  split; [apply (recode_empty_body empty_unsorted_record); reflexivity|reflexivity].
Defined.

(** C10: for every Metadata [m] and source [s], [m.merge(s, false,
    same_contigs)], when [m] has sample names and [s] does not, leaves [m]
    with no sample names (the flag is unset and the dictionary is the empty
    one) while the sample and haplotype counts are added; likewise
    [m.merge(s, same_samples, false)], when [m] has contig names and [s]
    does not, leaves [m] with no contig names while the contig counts are
    added. *)
Theorem merge_clears_names m s :
  (forall same_contigs,
     Metadata.hasSampleNames m = true -> Metadata.hasSampleNames s = false ->
     let m' := Metadata.merge m s false same_contigs in
     Metadata.hasSampleNames m' = false /\
     Metadata.sample_names m' = Dictionary.default /\
     Metadata.sample_count m' = wadd (Metadata.sample_count m) (Metadata.sample_count s) /\
     Metadata.haplotype_count m'
     = wadd (Metadata.haplotype_count m) (Metadata.haplotype_count s)) /\
  (forall same_samples,
     Metadata.hasContigNames m = true -> Metadata.hasContigNames s = false ->
     let m' := Metadata.merge m s same_samples false in
     Metadata.hasContigNames m' = false /\
     Metadata.contig_names m' = Dictionary.default /\
     Metadata.contig_count m' = wadd (Metadata.contig_count m) (Metadata.contig_count s)).
Proof.
  split.
  - intros same_contigs Hm Hs m'.
    destruct (merge_parts m s false same_contigs) as [H _].
    rewrite (merge_samples_clear m s Hm Hs) in H. fold m' in H.
    unfold sample_part in H. injection H as H1 H2 H3 H4. repeat split; assumption.
  - intros same_samples Hm Hs m'.
    destruct (merge_parts m s same_samples false) as [_ H].
    pose proof (merge_samples_contig_part m s same_samples) as Hpart.
    unfold contig_part in Hpart. injection Hpart as Hf Hn Hc.
    rewrite merge_contigs_clear in H by (rewrite ?Hf; assumption).
    rewrite Hc in H. fold m' in H.
    unfold contig_part in H. injection H as H1 H2 H3. repeat split; assumption.
Qed.

Lemma merge_clears_names_witness :
  (let m' := Metadata.merge named_metadata unnamed_metadata false true in
   Metadata.hasSampleNames m' = false /\
   Metadata.sample_names m' = Dictionary.default /\
   Metadata.sample_count m' = 3 /\ Metadata.haplotype_count m' = 6) /\
  (let m' := Metadata.merge named_metadata unnamed_metadata true false in
   Metadata.hasContigNames m' = false /\
   Metadata.contig_names m' = Dictionary.default /\
   Metadata.contig_count m' = 3).
Proof.
  split.
  - apply (proj1 (merge_clears_names named_metadata unnamed_metadata) true); reflexivity.
  - apply (proj2 (merge_clears_names named_metadata unnamed_metadata) true); reflexivity.
Defined.

(** * Further properties of the operations *)

(** ** Searching the outgoing edges *)

Lemma sorted_le_keys (v : list (Z * Z)) : StronglySorted Z.le v.*1 -> keys_sorted v.
Proof.
  intros Hs i j Hi Hij Hj. unfold key.
  destruct (Z.eq_dec i j) as [->|Hne]; [lia|].
  assert (Hi' : 0 <= i < vec_size v) by lia.
  assert (Hj' : 0 <= j < vec_size v) by lia.
  pose proof (lookup_vec_at v i Hi') as Li. pose proof (lookup_vec_at v j Hj') as Lj.
  apply (StronglySorted_index Z.le v.*1 (Z.to_nat i) (Z.to_nat j)); auto; try lia.
  - rewrite list_lookup_fmap, Li. reflexivity.
  - rewrite list_lookup_fmap, Lj. reflexivity.
Qed.

Lemma edgeTo_loop_sound fuel to v : forall low high,
  0 <= low -> high <= vec_size v ->
  let k := edgeTo_loop fuel to v low high in
  k = vec_size v \/ (low <= k < high /\ key v k = to).
Proof.
  induction fuel as [|fuel IH]; intros low high Hl Hh; cbn [edgeTo_loop]; [left; reflexivity|].
  destruct (low <? high) eqn:Hlt; [|left; reflexivity].
  set (mid := low + (high - low) / 2).
  assert (Hmid : low <= mid < high).
  { subst mid. pose proof (Z.div_pos (high - low) 2).
    assert ((high - low) / 2 < high - low) by (apply Z.div_lt; lia). lia. }
  destruct ((vec_at v mid).1 =? to) eqn:He.
  - right. split; [lia|]. unfold key. lia.
  - destruct ((vec_at v mid).1 >? to).
    + destruct (IH low mid ltac:(lia) ltac:(lia)) as [H|[H1 H2]]; [left; exact H|right].
      split; [lia|exact H2].
    + destruct (IH (mid + 1) high ltac:(lia) ltac:(lia)) as [H|[H1 H2]]; [left; exact H|right].
      split; [lia|exact H2].
Qed.

(** X1: the binary search [edgeTo(to, outgoing)] never returns a wrong
    rank: its result is [outgoing.size()] or a rank whose successor is
    [to]; it returns [outgoing.size()] when [to] is not a successor, and,
    when the successors are in increasing order, it returns a rank of [to]
    whenever [to] is a successor. *)
Theorem edgeTo_search to (v : list (Z * Z)) :
  (edgeTo to v = vec_size v \/
   (0 <= edgeTo to v < vec_size v /\ (vec_at v (edgeTo to v)).1 = to)) /\
  (to ∉ v.*1 -> edgeTo to v = vec_size v) /\
  (StronglySorted Z.le v.*1 -> to ∈ v.*1 ->
   0 <= edgeTo to v < vec_size v /\ (vec_at v (edgeTo to v)).1 = to).
Proof.
  split; [|split].
  - unfold edgeTo. apply (edgeTo_loop_sound (length v) to v 0 (vec_size v)); lia.
  - apply edgeTo_absent.
  - intros Hs Hin. apply (edgeTo_present to v (sorted_le_keys v Hs) Hin).
Qed.

Lemma edgeTo_search_witness :
  (0 <= edgeTo 6 [(4, 0); (6, 3); (6, 5); (9, 1)] < 4 /\
   (vec_at [(4, 0); (6, 3); (6, 5); (9, 1)] (edgeTo 6 [(4, 0); (6, 3); (6, 5); (9, 1)])).1 = 6) /\
  edgeTo 5 [(4, 0); (6, 3); (6, 5); (9, 1)] = 4.
Proof.
  split.
  - apply (proj2 (proj2 (edgeTo_search 6 [(4, 0); (6, 3); (6, 5); (9, 1)]))).
    + repeat constructor; simpl; lia.
    + simpl. apply elem_of_cons. right. apply elem_of_cons. left. reflexivity.
  - apply (proj1 (proj2 (edgeTo_search 5 [(4, 0); (6, 3); (6, 5); (9, 1)]))).
    simpl. intros H. repeat (apply elem_of_cons in H as [H|H]; [discriminate H|]).
    inversion H.
Defined.





(** ** The incoming edges *)

Lemma total_length_nonneg (v : list (Z * Z)) :
  Forall pair_words v -> 0 <= total_length v.
Proof.
  induction 1 as [|e v [_ He] _ IH]; simpl; [lia|]. unfold is_word in He. lia.
Qed.

Lemma total_length_filter_le (P : Z * Z -> bool) (v : list (Z * Z)) :
  Forall pair_words v -> 0 <= total_length (List.filter P v) <= total_length v.
Proof.
  induction 1 as [|e v [_ He] _ IH]; simpl; [lia|]. unfold is_word in He.
  destruct (P e); simpl; lia.
Qed.

Lemma total_length_filter_mono (P Q : Z * Z -> bool) (v : list (Z * Z)) :
  Forall pair_words v -> (forall e, P e = true -> Q e = true) ->
  total_length (List.filter P v) <= total_length (List.filter Q v).
Proof.
  intros Hw HPQ. induction Hw as [|e v [_ He] _ IH]; simpl; [lia|]. unfold is_word in He.
  destruct (P e) eqn:EP.
  - rewrite (HPQ e EP). simpl. lia.
  - destruct (Q e); simpl; lia.
Qed.

Lemma countBefore_loop_spec v from : forall acc,
  StronglySorted Z.le v.*1 ->
  DynamicRecord.countBefore_loop v from (wrap acc)
  = wrap (acc + total_length (List.filter (fun e : Z * Z => e.1 <? from) v)).
Proof.
  induction v as [|e v IH]; intros acc Hs; simpl.
  - rewrite Z.add_0_r. reflexivity.
  - cbn [fmap list_fmap] in Hs. inversion Hs as [|? ? Hs' Hall]; subst.
    destruct (e.1 <? from) eqn:E.
    + unfold wadd. rewrite wrap_add_l, IH by exact Hs'. simpl. f_equal. lia.
    + rewrite filter_none; [simpl; rewrite Z.add_0_r; reflexivity|].
      rewrite Forall_forall in Hall. apply Forall_forall. intros x Hx.
      assert (e.1 <= x.1) by (apply Hall, list_elem_of_fmap; eauto). lia.
Qed.

Lemma countUntil_loop_spec v from : forall acc,
  StronglySorted Z.le v.*1 ->
  DynamicRecord.countUntil_loop v from (wrap acc)
  = wrap (acc + total_length (List.filter (fun e : Z * Z => e.1 <=? from) v)).
Proof.
  induction v as [|e v IH]; intros acc Hs; simpl.
  - rewrite Z.add_0_r. reflexivity.
  - cbn [fmap list_fmap] in Hs. inversion Hs as [|? ? Hs' Hall]; subst.
    destruct (e.1 <=? from) eqn:E.
    + unfold wadd. rewrite wrap_add_l, IH by exact Hs'. simpl. f_equal. lia.
    + rewrite filter_none; [simpl; rewrite Z.add_0_r; reflexivity|].
      rewrite Forall_forall in Hall. apply Forall_forall. intros x Hx.
      assert (e.1 <= x.1) by (apply Hall, list_elem_of_fmap; eauto). lia.
Qed.

Lemma sorted_lt_le (l : list Z) : StronglySorted Z.lt l -> StronglySorted Z.le l.
Proof.
  induction 1 as [|x l _ IH Hall]; constructor; [exact IH|].
  eapply Forall_impl; [exact Hall|]. intros y Hy. simpl in Hy. lia.
Qed.

(** X3: in a record whose incoming edges are sorted by predecessor, whose
    counts are 64-bit values and add up to the size of the record,
    [countBefore(from)] is the sum of the counts of the predecessors
    smaller than [from], [countUntil(from)] the sum of the counts of the
    predecessors up to [from], and
    [countBefore(from) <= countUntil(from) <= size()]. *)
Theorem countBefore_countUntil r from :
  Forall pair_words (DynamicRecord.incoming r) -> is_word (DynamicRecord.body_size r) ->
  incoming_ok r ->
  DynamicRecord.countBefore r from
  = total_length (List.filter (fun e : Z * Z => e.1 <? from) (DynamicRecord.incoming r)) /\
  DynamicRecord.countUntil r from
  = total_length (List.filter (fun e : Z * Z => e.1 <=? from) (DynamicRecord.incoming r)) /\
  0 <= DynamicRecord.countBefore r from /\
  DynamicRecord.countBefore r from <= DynamicRecord.countUntil r from /\
  DynamicRecord.countUntil r from <= DynamicRecord.size r.
Proof.
  intros Hw Hsize [Hs Htotal]. apply sorted_lt_le in Hs.
  pose proof (total_length_filter_le (fun e : Z * Z => e.1 <? from) _ Hw) as H1.
  pose proof (total_length_filter_le (fun e : Z * Z => e.1 <=? from) _ Hw) as H2.
  assert (H3 : total_length (List.filter (fun e : Z * Z => e.1 <? from)
                                         (DynamicRecord.incoming r))
               <= total_length (List.filter (fun e : Z * Z => e.1 <=? from)
                                            (DynamicRecord.incoming r))).
  { apply total_length_filter_mono; [exact Hw|]. intros e He. lia. }
  unfold is_word in Hsize.
  assert (Hb : DynamicRecord.countBefore r from
               = total_length (List.filter (fun e : Z * Z => e.1 <? from)
                                           (DynamicRecord.incoming r))).
  { unfold DynamicRecord.countBefore. change 0 with (wrap 0).
    rewrite countBefore_loop_spec by exact Hs.
    rewrite Z.add_0_l. apply wrap_small. unfold is_word. lia. }
  assert (Hu : DynamicRecord.countUntil r from
               = total_length (List.filter (fun e : Z * Z => e.1 <=? from)
                                           (DynamicRecord.incoming r))).
  { unfold DynamicRecord.countUntil. change 0 with (wrap 0).
    rewrite countUntil_loop_spec by exact Hs.
    rewrite Z.add_0_l. apply wrap_small. unfold is_word. lia. }
  rewrite Hb, Hu. unfold DynamicRecord.size. repeat split; lia.
Qed.

Lemma countBefore_countUntil_witness :
  DynamicRecord.countBefore (DynamicRecord.mk 9 [(2, 4); (5, 2); (8, 3)] [] [] []) 5 = 4 /\
  DynamicRecord.countUntil (DynamicRecord.mk 9 [(2, 4); (5, 2); (8, 3)] [] [] []) 5 = 6.
Proof.
  destruct (countBefore_countUntil (DynamicRecord.mk 9 [(2, 4); (5, 2); (8, 3)] [] [] []) 5
              ltac:(concrete) ltac:(concrete) ltac:(concrete)) as (H1 & H2 & _).
  split; [exact H1|exact H2].
Defined.

Lemma sorted_le_nodup (l : list Z) :
  StronglySorted Z.le l -> NoDup l -> StronglySorted Z.lt l.
Proof.
  induction 1 as [|x l _ IH Hall]; intros Hnd; [constructor|].
  apply NoDup_cons in Hnd as [Hx Hnd]. constructor; [apply IH; exact Hnd|].
  rewrite Forall_forall in Hall. apply Forall_forall. intros y Hy.
  specialize (Hall y Hy). assert (x <> y) by (intros ->; contradiction). lia.
Qed.

Lemma sorted_lt_nodup (l : list Z) : StronglySorted Z.lt l -> NoDup l.
Proof.
  induction 1 as [|x l _ IH Hall]; [constructor|].
  apply NoDup_cons. split; [|exact IH].
  intros Hin. rewrite Forall_forall in Hall. specialize (Hall x Hin). lia.
Qed.

Lemma increment_loop_spec v from :
  match DynamicRecord.increment_loop v from with
  | Some v' =>
      exists pre c post,
        v = pre ++ (from, c) :: post /\ (from ∉ pre.*1) /\
        v' = pre ++ (from, wadd c 1) :: post
  | None => from ∉ v.*1
  end.
Proof.
  induction v as [|e v IH]; simpl; [apply not_elem_of_nil|].
  destruct (e.1 =? from) eqn:E.
  - exists [], e.2, v. destruct e as [p c]. simpl in *.
    assert (p = from) by lia. subst p. split; [reflexivity|].
    split; [apply not_elem_of_nil|reflexivity].
  - destruct (DynamicRecord.increment_loop v from) as [v'|]; simpl.
    + destruct IH as (pre & c & post & -> & Hnot & ->).
      exists (e :: pre), c, post. split; [reflexivity|]. split; [|reflexivity].
      cbn [fmap list_fmap]. apply not_elem_of_cons. split; [lia|exact Hnot].
    + apply not_elem_of_cons. split; [lia|exact IH].
Qed.

(** X4: [increment(from)] on a record whose incoming edges are strictly
    increasing by predecessor keeps them so; it adds one to the count of
    [from], inserts [(from, 1)] when [from] was not a predecessor, and
    changes neither the entry of any other predecessor nor any other
    field. *)
Theorem increment_spec r from :
  StronglySorted Z.lt (DynamicRecord.incoming r).*1 ->
  let r' := DynamicRecord.increment r from in
  StronglySorted Z.lt (DynamicRecord.incoming r').*1 /\
  (forall c, (from, c) ∈ DynamicRecord.incoming r ->
             (from, wadd c 1) ∈ DynamicRecord.incoming r') /\
  (from ∉ (DynamicRecord.incoming r).*1 -> (from, 1) ∈ DynamicRecord.incoming r') /\
  (forall e : Z * Z, e.1 <> from ->
     (e ∈ DynamicRecord.incoming r' <-> e ∈ DynamicRecord.incoming r)) /\
  DynamicRecord.with_incoming r' (DynamicRecord.incoming r) = r.
Proof.
  intros Hs r'. subst r'. unfold DynamicRecord.increment.
  pose proof (increment_loop_spec (DynamicRecord.incoming r) from) as Hloop.
  destruct (DynamicRecord.increment_loop (DynamicRecord.incoming r) from) as [v'|].
  - destruct Hloop as (pre & c & post & Hv & Hnot & ->).
    cbn [DynamicRecord.with_incoming DynamicRecord.incoming].
    assert (Hkeys : (pre ++ (from, wadd c 1) :: post).*1 = (DynamicRecord.incoming r).*1).
    { rewrite Hv, !fmap_app. reflexivity. }
    split; [rewrite Hkeys; exact Hs|]. split; [|split; [|split]].
    + intros c0 Hin. rewrite Hv in Hin.
      assert (c0 = c); [|subst c0; apply elem_of_app; right; left].
      apply sorted_lt_nodup in Hs. rewrite Hv, fmap_app in Hs. cbn [fmap list_fmap] in Hs.
      apply NoDup_app in Hs as (_ & _ & Hnd). apply NoDup_cons in Hnd as [Hnp _].
      apply elem_of_app in Hin as [Hin|Hin].
      { exfalso. apply Hnot. apply (list_elem_of_fmap_2 fst) in Hin. exact Hin. }
      apply elem_of_cons in Hin as [Hin|Hin]; [congruence|].
      exfalso. apply Hnp. apply (list_elem_of_fmap_2 fst) in Hin. exact Hin.
    + intros Habs. exfalso. apply Habs. rewrite Hv, fmap_app.
      apply elem_of_app. right. left.
    + intros e He. rewrite Hv, !elem_of_app, !elem_of_cons.
      split; (intros [H|[H|H]]; [left; exact H| |right; right; exact H]);
        subst e; simpl in He; contradiction.
    + destruct r; reflexivity.
  - unfold DynamicRecord.addIncoming.
    cbn [DynamicRecord.with_incoming DynamicRecord.incoming].
    pose proof (sequentialSort_perm (DynamicRecord.incoming r ++ [(from, 1)])) as Hperm.
    split; [|split; [|split; [|split]]].
    + apply sorted_le_nodup.
      * apply sorted_edges_successors, sequentialSort_sorted.
      * rewrite Hperm, fmap_app. apply NoDup_app. split; [apply sorted_lt_nodup, Hs|].
        split; [|apply NoDup_singleton].
        intros x Hx Hx'. simpl in Hx'. apply list_elem_of_singleton in Hx'. subst x.
        contradiction.
    + intros c Hin. exfalso. apply Hloop. apply (list_elem_of_fmap_2 fst) in Hin. exact Hin.
    + intros _. rewrite Hperm. apply elem_of_app. right. left.
    + intros e He. rewrite Hperm, elem_of_app, list_elem_of_singleton.
      split; [intros [H|H]; [exact H|subst e; simpl in He; contradiction]|tauto].
    + destruct r; reflexivity.
Qed.

Lemma increment_spec_witness :
  DynamicRecord.incoming
    (DynamicRecord.increment (DynamicRecord.mk 9 [(2, 4); (5, 2); (8, 3)] [] [] []) 5)
  = [(2, 4); (5, 3); (8, 3)] /\
  StronglySorted Z.lt
    (DynamicRecord.incoming
       (DynamicRecord.increment (DynamicRecord.mk 9 [(2, 4); (5, 2); (8, 3)] [] [] []) 6)).*1.
Proof.
  split; [reflexivity|].
  apply (increment_spec (DynamicRecord.mk 9 [(2, 4); (5, 2); (8, 3)] [] [] []) 6).
  concrete.
Defined.

(** ** The samples of a record *)

Lemma nextSample_loop_spec ids i :
  exists skipped,
    ids = skipped ++ DynamicRecord.nextSample_loop ids i /\
    Forall (fun s : Z * Z => s.1 < i) skipped /\
    match DynamicRecord.nextSample_loop ids i with
    | s :: _ => i <= s.1
    | [] => True
    end.
Proof.
  induction ids as [|s ids IH]; simpl.
  - exists []. repeat split; constructor.
  - destruct (s.1 <? i) eqn:E.
    + destruct IH as (skipped & Heq & Hall & Hhd).
      exists (s :: skipped). split; [simpl; congruence|].
      split; [constructor; [lia|exact Hall]|exact Hhd].
    + exists []. split; [reflexivity|]. split; [constructor|lia].
Qed.

(** X5: [nextSample(i)] skips exactly the samples at the front of [ids]
    whose offset is smaller than [i]; when the sample offsets are
    increasing, the iterator it returns covers exactly the samples with
    offset at least [i], the first of them being the one with the smallest
    such offset. *)
Theorem nextSample_spec r i :
  StronglySorted Z.lt (DynamicRecord.ids r).*1 ->
  DynamicRecord.nextSample r i
  = List.filter (fun s : Z * Z => i <=? s.1) (DynamicRecord.ids r) /\
  exists skipped,
    DynamicRecord.ids r = skipped ++ DynamicRecord.nextSample r i /\
    Forall (fun s : Z * Z => s.1 < i) skipped.
Proof.
  intros Hs. unfold DynamicRecord.nextSample.
  destruct (nextSample_loop_spec (DynamicRecord.ids r) i) as (skipped & Heq & Hall & Hhd).
  split; [|exists skipped; split; assumption].
  rewrite Heq at 2. rewrite List.filter_app.
  rewrite filter_none by (eapply Forall_impl; [exact Hall|]; intros s Hs'; simpl in *; lia).
  rewrite filter_all; [reflexivity|].
  rewrite Heq, fmap_app in Hs. apply StronglySorted_app_1_r in Hs.
  destruct (DynamicRecord.nextSample_loop (DynamicRecord.ids r) i) as [|s rest]; [constructor|].
  cbn [fmap list_fmap] in Hs. inversion Hs as [|? ? _ Hlt]; subst.
  constructor; [lia|]. rewrite Forall_forall in Hlt. apply Forall_forall. intros x Hx.
  assert (s.1 < x.1) by (apply Hlt, list_elem_of_fmap; eauto). lia.
Qed.

Lemma nextSample_spec_witness :
  DynamicRecord.nextSample (DynamicRecord.mk 10 [] [(1, 0)] [(0, 10)] [(2, 7); (5, 99); (8, 3)]) 3
  = [(5, 99); (8, 3)].
Proof.
  apply (proj1 (nextSample_spec
                  (DynamicRecord.mk 10 [] [(1, 0)] [(0, 10)] [(2, 7); (5, 99); (8, 3)]) 3
                  ltac:(concrete))).
Defined.

(** ** Cleaning up the outgoing edges *)

(** X6: on a record with a non-empty body, [recode()] leaves the outgoing
    edges sorted by successor; they are a permutation of the edges before,
    and the size, the incoming edges, the samples and the lengths of the
    runs are unchanged. *)
Theorem recode_sorts r :
  DynamicRecord.empty r = false ->
  let r' := DynamicRecord.recode r in
  DynamicRecord.successors_sorted (DynamicRecord.outgoing r') = true /\
  DynamicRecord.outgoing r' ≡ₚ DynamicRecord.outgoing r /\
  DynamicRecord.body_size r' = DynamicRecord.body_size r /\
  DynamicRecord.incoming r' = DynamicRecord.incoming r /\
  DynamicRecord.ids r' = DynamicRecord.ids r /\
  (DynamicRecord.body r').*2 = (DynamicRecord.body r).*2.
Proof.
  intros He r'. subst r'. unfold DynamicRecord.recode. rewrite He.
  destruct (DynamicRecord.successors_sorted (DynamicRecord.outgoing r)) eqn:Hs.
  - repeat split; auto.
  - cbn [DynamicRecord.outgoing DynamicRecord.body_size DynamicRecord.incoming
         DynamicRecord.ids DynamicRecord.body].
    split; [apply recode_sorted_output|]. split; [apply sequentialSort_perm|].
    repeat split. generalize (DynamicRecord.body r) as body.
    induction body as [|run body IH]; simpl; [reflexivity|]. f_equal. exact IH.
Qed.

Lemma recode_sorts_witness :
  DynamicRecord.successors_sorted
    (DynamicRecord.outgoing (DynamicRecord.recode unsorted_record)) = true /\
  DynamicRecord.outgoing (DynamicRecord.recode unsorted_record)
  ≡ₚ DynamicRecord.outgoing unsorted_record.
Proof.
  destruct (recode_sorts unsorted_record ltac:(reflexivity)) as (H1 & H2 & _).
  split; [exact H1|exact H2].
Defined.

(** X7: on a record whose runs have ranks below the outdegree and whose
    successors are strictly increasing, [removeUnusedEdges()] keeps
    exactly the edges some run of the body refers to, and afterwards every
    rank below the new outdegree is the rank of some run; the successors
    stay strictly increasing and the ranks stay below the outdegree. *)
Theorem removeUnusedEdges_keeps_used r :
  ranks_ok r -> outgoing_ok r ->
  let r' := DynamicRecord.removeUnusedEdges r in
  (forall e, e ∈ DynamicRecord.outgoing r' <->
             exists run : Z * Z, run ∈ DynamicRecord.body r /\
                                 DynamicRecord.outgoing r !! Z.to_nat run.1 = Some e) /\
  (forall k, 0 <= k < DynamicRecord.outdegree r' ->
             exists run : Z * Z, run ∈ DynamicRecord.body r' /\ run.1 = k) /\
  outgoing_ok r' /\ ranks_ok r'.
Proof.
  intros Hr Hs r'.
  assert (Hkeep : forall e, e ∈ DynamicRecord.outgoing r' <->
             exists run : Z * Z, run ∈ DynamicRecord.body r /\
                                 DynamicRecord.outgoing r !! Z.to_nat run.1 = Some e).
  { intros e. subst r'. rewrite removeUnusedEdges_outgoing, elem_of_select. split.
    - intros (i & Hu & Hl). apply mark_used_spec in Hu as (_ & run & Hin & Hrun).
      exists run. rewrite Hrun. split; assumption.
    - intros (run & Hin & Hl). exists (Z.to_nat run.1). split; [|exact Hl].
      apply mark_used_spec. split; [apply lookup_lt_Some in Hl; exact Hl|].
      exists run. split; [exact Hin|reflexivity]. }
  pose proof (removeUnusedEdges_sorted r Hs) as Hs'. fold r' in Hs'.
  split; [exact Hkeep|]. split; [|split; [exact Hs'|apply removeUnusedEdges_ranks; assumption]].
  intros k Hk. unfold DynamicRecord.outdegree in Hk.
  pose proof (lookup_vec_at _ k Hk) as Hl.
  assert (Hin : vec_at (DynamicRecord.outgoing r') k ∈ DynamicRecord.outgoing r').
  { apply list_elem_of_lookup. eauto. }
  apply Hkeep in Hin as (run & Hin & Hlook).
  exists (edgeTo (key (DynamicRecord.outgoing r) run.1) (DynamicRecord.outgoing r'), run.2).
  split.
  - subst r'. rewrite removeUnusedEdges_body.
    apply list_elem_of_fmap. exists (key (DynamicRecord.outgoing r) run.1, run.2).
    split; [reflexivity|]. apply list_elem_of_fmap. exists run. split; [reflexivity|exact Hin].
  - cbn [fst].
    assert (Hkey : key (DynamicRecord.outgoing r) run.1 = key (DynamicRecord.outgoing r') k).
    { unfold ranks_ok in Hr. rewrite Forall_forall in Hr. specialize (Hr run Hin).
      unfold key. rewrite <- (vec_at_lookup _ _ _ Hlook).
      rewrite Z2Nat.id by lia. reflexivity. }
    rewrite Hkey. apply edgeTo_key; [apply sorted_keys_strict; exact Hs'|exact Hk].
Qed.

Lemma removeUnusedEdges_keeps_used_witness :
  DynamicRecord.outgoing (DynamicRecord.removeUnusedEdges unused_edge_record)
  = [(4, 0); (6, 3)] /\
  outgoing_ok (DynamicRecord.removeUnusedEdges unused_edge_record).
Proof.
  split; [reflexivity|].
  apply (removeUnusedEdges_keeps_used unused_edge_record); concrete.
Defined.

(** ** [LF] and [runLF] of a dynamic record *)

Lemma vec_at_set_second_ne v i j x :
  0 <= i -> 0 <= j -> i <> j -> vec_at (set_second v i x) j = vec_at v j.
Proof.
  intros Hi Hj Hne. unfold set_second, vec_at.
  destruct (decide (Z.to_nat j < length v)%nat) as [Hlt|Hge].
  - destruct (lookup_lt_is_Some_2 v (Z.to_nat j) Hlt) as [e He].
    rewrite (nth_lookup_Some _ _ _ _ He).
    apply nth_lookup_Some. rewrite list_lookup_insert_ne by lia. exact He.
  - rewrite !nth_overflow; [reflexivity|lia|rewrite length_insert; lia].
Qed.

Lemma add_rank_words ranks run :
  Forall (fun e : Z * Z => is_word e.2) ranks ->
  Forall (fun e : Z * Z => is_word e.2) (add_rank ranks run).
Proof.
  intros H. unfold add_rank, set_second. apply Forall_insert; [exact H|].
  simpl. apply wrap_is_word.
Qed.

Lemma add_rank_at ranks (run : Z * Z) k :
  Forall (fun e : Z * Z => is_word e.2) ranks ->
  0 <= run.1 < vec_size ranks -> 0 <= k < vec_size ranks ->
  (vec_at (add_rank ranks run) k).1 = (vec_at ranks k).1 /\
  (vec_at (add_rank ranks run) k).2
  = wrap ((vec_at ranks k).2 + if run.1 =? k then run.2 else 0).
Proof.
  intros Hw Hr Hk. unfold add_rank.
  destruct (Z.eqb_spec run.1 k) as [->|Hne].
  - rewrite vec_at_set_second by exact Hk. split; reflexivity.
  - rewrite vec_at_set_second_ne by lia. split; [reflexivity|].
    rewrite Z.add_0_r. symmetry. apply wrap_small.
    rewrite Forall_forall in Hw. apply Hw.
    apply list_elem_of_lookup. exists (Z.to_nat k). apply lookup_vec_at. exact Hk.
Qed.

Lemma LFLoop_array_spec body : forall result i le off,
  runs_ok body ->
  Forall (fun run : Z * Z => 0 <= run.1 < vec_size result) body ->
  Forall (fun e : Z * Z => is_word e.2) result ->
  0 <= off -> off <= i -> i < off + total_length body -> off + total_length body < WORD ->
  exists res off',
    DynamicRecord.LFLoop_array result body i le off
    = (res, nth (Z.to_nat (i - off)) (expand body) 0, off') /\
    i < off' <= off + total_length body /\
    (forall j, i <= j < off' ->
       nth (Z.to_nat (j - off)) (expand body) 0 = nth (Z.to_nat (i - off)) (expand body) 0) /\
    (forall k, 0 <= k < vec_size result ->
       (vec_at res k).1 = (vec_at result k).1 /\
       (vec_at res k).2
       = wrap ((vec_at result k).2
               + occurrences (fun y => y =? k) (window 0 (off' - off) (expand body)))).
Proof.
  induction body as [|run body IH]; intros result i le off Hruns Hranks Hw H0 Hle Hi Hb.
  - simpl in Hi. lia.
  - inversion Hruns as [|? ? Hlen Hruns']; subst.
    inversion Hranks as [|? ? Hrank Hranks']; subst.
    pose proof (runs_ok_total_nonneg body Hruns') as Hnn.
    assert (Htot : total_length (run :: body) = run.2 + total_length body) by reflexivity.
    rewrite Htot in *.
    rewrite LFLoop_array_cons. cbn [expand].
    assert (Hadd : wadd off run.2 = off + run.2).
    { unfold wadd. apply wrap_small. unfold is_word. lia. }
    rewrite Hadd.
    assert (Hrl : length (replicate (Z.to_nat run.2) run.1) = Z.to_nat run.2)
      by apply length_replicate.
    destruct (off + run.2 >? i) eqn:Hgt.
    + exists (add_rank result run), (off + run.2).
      assert (Hnth : forall j, i <= j < off + run.2 ->
                nth (Z.to_nat (j - off)) (replicate (Z.to_nat run.2) run.1 ++ expand body) 0
                = run.1).
      { intros j Hj. rewrite app_nth1 by (rewrite Hrl; lia).
        apply nth_lookup_Some with (d := 0). apply lookup_replicate_2. lia. }
      split; [rewrite (Hnth i) by lia; reflexivity|]. split; [lia|].
      split; [intros j Hj; rewrite (Hnth i), (Hnth j) by lia; reflexivity|].
      intros k Hk. destruct (add_rank_at result run k Hw Hrank Hk) as [H1 H2].
      split; [exact H1|]. rewrite H2. f_equal. f_equal.
      replace (off + run.2 - off) with run.2 by lia.
      rewrite window_replicate by lia. rewrite occurrences_replicate.
      destruct (run.1 =? k); lia.
    + destruct (IH (add_rank result run) i run.1 (off + run.2) Hruns')
        as (res & off' & Heq & Hoff & Hsame & Hres); try lia.
      * unfold add_rank. eapply Forall_impl; [exact Hranks'|].
        intros x Hx. simpl in Hx. unfold vec_size in *. rewrite set_second_length. exact Hx.
      * apply add_rank_words. exact Hw.
      * assert (Hshift : forall j, off + run.2 <= j ->
                  nth (Z.to_nat (j - off)) (replicate (Z.to_nat run.2) run.1 ++ expand body) 0
                  = nth (Z.to_nat (j - (off + run.2))) (expand body) 0).
        { intros j Hj. rewrite app_nth2 by (rewrite Hrl; lia). rewrite Hrl. f_equal. lia. }
        exists res, off'. rewrite (Hshift i) by lia.
        split; [exact Heq|]. split; [lia|].
        split; [intros j Hj; rewrite (Hshift j) by lia; apply Hsame; lia|].
        intros k Hk.
        assert (Hk' : 0 <= k < vec_size (add_rank result run)).
        { unfold add_rank, vec_size in *. rewrite set_second_length. exact Hk. }
        destruct (Hres k Hk') as [H1 H2].
        destruct (add_rank_at result run k Hw Hrank Hk) as [H3 H4].
        split; [congruence|]. rewrite H2, H4, wrap_add_l. f_equal.
        rewrite window_0_app by (rewrite Hrl; lia).
        rewrite occurrences_app, occurrences_replicate, Hrl.
        replace (off' - off - Z.of_nat (Z.to_nat run.2)) with (off' - (off + run.2)) by lia.
        destruct (run.1 =? k); lia.
Qed.

Lemma occurrences_all (x : Z) lo hi (l : list Z) :
  0 <= lo -> lo <= hi -> hi <= Z.of_nat (length l) ->
  (forall j, lo <= j < hi -> nth (Z.to_nat j) l 0 = x) ->
  occurrences (fun y => y =? x) (window lo hi l) = hi - lo.
Proof.
  intros H0 Hle Hhi Hall.
  rewrite <- (count_positions_window (fun _ => true)) by (auto; intros j Hj; rewrite Hall; lia).
  unfold count_positions. rewrite filter_all by (apply Forall_forall; reflexivity).
  rewrite length_seqZ. lia.
Qed.

Lemma runLF_formula r i run_end0 :
  typed r -> body_ok r -> 0 <= i < DynamicRecord.size r ->
  exists run_end,
    DynamicRecord.runLF r i run_end0
    = ((key (DynamicRecord.outgoing r) (nth (Z.to_nat i) (expand (DynamicRecord.body r)) 0),
        wrap (DynamicRecord.offset r (nth (Z.to_nat i) (expand (DynamicRecord.body r)) 0)
              + occurrences (fun y => y =? nth (Z.to_nat i) (expand (DynamicRecord.body r)) 0)
                            (window 0 i (expand (DynamicRecord.body r))))),
       run_end) /\
    i <= run_end < DynamicRecord.size r /\
    forall j, i <= j <= run_end ->
      nth (Z.to_nat j) (expand (DynamicRecord.body r)) 0
      = nth (Z.to_nat i) (expand (DynamicRecord.body r)) 0.
Proof.
  intros Ht Hb Hi.
  pose proof (body_ok_runs r Hb) as Hruns.
  pose proof (expand_length _ Hruns) as Hlen.
  pose proof (expand_ranks _ _ (body_runs r Hb)) as Hranks.
  pose proof (typed_size r Ht) as Hw. unfold is_word in Hw.
  pose proof (body_total r Hb) as Htot.
  unfold DynamicRecord.size in *.
  set (E := expand (DynamicRecord.body r)) in *.
  set (x := nth (Z.to_nat i) E 0).
  assert (Hx : 0 <= x < DynamicRecord.outdegree r).
  { rewrite Forall_forall in Hranks. apply Hranks. apply list_elem_of_In, nth_In. lia. }
  unfold DynamicRecord.runLF, DynamicRecord.size.
  destruct (i >=? DynamicRecord.body_size r) eqn:Hge; [lia|].
  unfold DynamicRecord.LFLoop_result.
  destruct (LFLoop_array_spec (DynamicRecord.body r) (DynamicRecord.outgoing r) i 0 0)
    as (res & off' & Heq & Hoff & Hsame & Hres); try lia; try exact Hruns.
  { eapply Forall_impl; [apply (body_runs r Hb)|]. intros run Hrun. simpl in Hrun.
    unfold DynamicRecord.outdegree in Hrun. tauto. }
  { eapply Forall_impl; [apply (typed_outgoing r Ht)|]. intros e [_ He]. exact He. }
  rewrite Z.sub_0_r in Heq. fold E x in Heq.
  pose proof (LFLoop_array_state (DynamicRecord.body r) (DynamicRecord.outgoing r) i 0 0)
    as Hstate.
  rewrite Heq in Hstate. destruct Hstate as [Hlres _].
  rewrite Heq. exists (wsub off' 1).
  assert (Hend : wsub off' 1 = off' - 1).
  { unfold wsub. apply wrap_small. unfold is_word. lia. }
  rewrite Hend. split; [|split; [lia|]].
  - assert (Hx' : 0 <= x < vec_size res).
    { unfold vec_size, DynamicRecord.outdegree in *. rewrite Hlres. exact Hx. }
    f_equal. rewrite vec_at_set_second by exact Hx'.
    destruct (Hres x Hx) as [H1 H2]. unfold key, DynamicRecord.offset.
    rewrite H1, H2. f_equal.
    unfold wsub. rewrite wrap_sub_r, wrap_sub_l. f_equal.
    rewrite Z.sub_0_r. fold E.
    rewrite (window_split 0 i off') by lia. rewrite occurrences_app.
    rewrite (occurrences_all x i off') by
      (try lia; intros j Hj; specialize (Hsame j Hj); rewrite !Z.sub_0_r in Hsame; exact Hsame).
    lia.
  - intros j Hj. specialize (Hsame j ltac:(lia)). rewrite !Z.sub_0_r in Hsame. exact Hsame.
Qed.

(** X8: for a well-formed record with strictly increasing successors and
    every position [i < size()], [LF(i)] is the pair of the successor [r[i]]
    at that position and of [LF(i, r[i])]. *)
Theorem LF_by_target r i :
  typed r -> body_ok r -> outgoing_ok r -> 0 <= i < DynamicRecord.size r ->
  DynamicRecord.LF r i = (DynamicRecord.at_ r i, DynamicRecord.LF_to r i (DynamicRecord.at_ r i)).
Proof.
  intros Ht Hb Hs Hi. unfold DynamicRecord.LF.
  destruct (runLF_formula r i 0 Ht Hb Hi) as (run_end & Heq & _ & _).
  rewrite Heq. cbn [fst].
  pose proof (expand_ranks _ _ (body_runs r Hb)) as Hranks.
  pose proof (expand_length _ (body_ok_runs r Hb)) as Hlen.
  pose proof (body_total r Hb) as Htot. unfold DynamicRecord.size in *.
  set (x := nth (Z.to_nat i) (expand (DynamicRecord.body r)) 0).
  assert (Hx : 0 <= x < DynamicRecord.outdegree r).
  { rewrite Forall_forall in Hranks. apply Hranks. apply list_elem_of_In, nth_In. lia. }
  rewrite (at_expand r i Hb (typed_size r Ht)) by (unfold DynamicRecord.size; lia). fold x.
  assert (Hrank : DynamicRecord.edgeTo r (key (DynamicRecord.outgoing r) x) = x).
  { apply edgeTo_key; [apply sorted_keys_strict; exact Hs|exact Hx]. }
  rewrite LF_to_occurrences; auto using typed_size.
  - rewrite Hrank. reflexivity.
  - unfold DynamicRecord.size. lia.
  - rewrite Hrank. lia.
Qed.

Lemma LF_by_target_witness :
  DynamicRecord.LF scenario2 4
  = (DynamicRecord.at_ scenario2 4, DynamicRecord.LF_to scenario2 4 (DynamicRecord.at_ scenario2 4)).
Proof. apply (LF_by_target scenario2 4); concrete. Defined.

(** X9: for a well-formed record, [runLF(i, run_end)] with [i >= size()]
    returns [invalid_edge()] and leaves [run_end] alone; with [i < size()]
    it returns [LF(i)] and sets [run_end] to a position with
    [i <= run_end < size()] such that every position [j] from [i] to
    [run_end] has the successor [r[i]] and [LF(j)] is [LF(i)] with the
    offset advanced by [j - i]. *)
Theorem runLF_run r i run_end0 :
  typed r -> body_ok r -> 0 <= i ->
  (DynamicRecord.size r <= i ->
   DynamicRecord.runLF r i run_end0 = (invalid_edge, run_end0)) /\
  (i < DynamicRecord.size r ->
   (DynamicRecord.runLF r i run_end0).1 = DynamicRecord.LF r i /\
   i <= (DynamicRecord.runLF r i run_end0).2 < DynamicRecord.size r /\
   forall j, i <= j <= (DynamicRecord.runLF r i run_end0).2 ->
     DynamicRecord.at_ r j = DynamicRecord.at_ r i /\
     DynamicRecord.LF r j
     = ((DynamicRecord.LF r i).1, wadd (DynamicRecord.LF r i).2 (j - i))).
Proof.
  intros Ht Hb H0. split.
  - intros Hge. unfold DynamicRecord.runLF.
    destruct (i >=? DynamicRecord.size r) eqn:E; [reflexivity|lia].
  - intros Hlt. rewrite runLF_edge by exact Hlt.
    destruct (runLF_formula r i run_end0 Ht Hb ltac:(lia)) as (run_end & Heq & Hend & Hsame).
    rewrite Heq. cbn [snd]. split; [reflexivity|]. split; [exact Hend|].
    intros j Hj. specialize (Hsame j Hj).
    pose proof (typed_size r Ht) as Hw.
    pose proof (expand_length _ (body_ok_runs r Hb)) as Hlen.
    pose proof (body_total r Hb) as Htot.
    rewrite !(at_expand r) by (auto; lia). rewrite Hsame. split; [reflexivity|].
    unfold DynamicRecord.LF.
    destruct (runLF_formula r i 0 Ht Hb ltac:(lia)) as (e1 & Heq1 & _ & _).
    destruct (runLF_formula r j 0 Ht Hb ltac:(lia)) as (e2 & Heq2 & _ & _).
    rewrite Heq1, Heq2. cbn [fst snd]. rewrite Hsame. f_equal.
    unfold wadd. rewrite wrap_add_l. f_equal.
    unfold DynamicRecord.size in *.
    rewrite (window_split 0 i j) by lia. rewrite occurrences_app.
    rewrite (occurrences_all _ i j); try lia.
    intros k Hk. transitivity (nth (Z.to_nat i) (expand (DynamicRecord.body r)) 0).
    + destruct (runLF_formula r i run_end0 Ht Hb ltac:(unfold DynamicRecord.size; lia))
        as (e3 & Heq3 & _ & Hsame3).
      rewrite Heq in Heq3. injection Heq3 as <-. apply Hsame3. lia.
    + reflexivity.
Qed.

Lemma runLF_run_witness :
  (DynamicRecord.runLF scenario2 2 0).2 = 4 /\
  DynamicRecord.LF scenario2 4
  = ((DynamicRecord.LF scenario2 2).1, wadd (DynamicRecord.LF scenario2 2).2 (4 - 2)).
Proof.
  split; [reflexivity|].
  destruct (runLF_run scenario2 2 0 ltac:(concrete) ltac:(concrete) ltac:(lia)) as [_ H].
  destruct (H ltac:(concrete)) as (_ & _ & Hrun).
  apply (Hrun 4). vm_compute. split; discriminate.
Defined.

(** ** Paths *)

Lemma Node_reverse_involutive n : Node.reverse (Node.reverse n) = n.
Proof.
  unfold Node.reverse. rewrite Z.lxor_assoc. change (Z.lxor 1 1) with 0.
  apply Z.lxor_0_r.
Qed.

(** X10: [reversePath] is an involution: reversing a path twice gives the
    path back; the reverse has the length of the path, its [k]-th node is
    the flipped node at distance [k] from the end, and
    [reversePath(path, output)] appends to [output] exactly the reverse
    that [reversePath(path)] computes in place. *)
Theorem reversePath_involutive path :
  reversePath (reversePath path) = path /\
  length (reversePath path) = length path /\
  (forall output, reversePath_into path output = output ++ reversePath path) /\
  (forall k, (k < length path)%nat ->
     nth k (reversePath path) 0 = Node.reverse (nth (length path - S k) path 0)).
Proof.
  unfold reversePath. split; [|split; [|split]].
  - rewrite <- map_rev, rev_involutive, map_map.
    rewrite <- (map_id path) at 2. apply map_ext. apply Node_reverse_involutive.
  - rewrite length_map, length_rev. reflexivity.
  - intros output. unfold reversePath_into. generalize (rev path) as l. intros l.
    revert output. induction l as [|x l IH]; intros output; simpl.
    + rewrite app_nil_r. reflexivity.
    + rewrite IH, <- app_assoc. reflexivity.
  - intros k Hk.
    rewrite (nth_indep _ 0 (Node.reverse 0)) by (rewrite length_map, length_rev; exact Hk).
    rewrite map_nth. f_equal. rewrite rev_nth by exact Hk. reflexivity.
Qed.

(** ** DecompressedRecord *)

Lemma push_run_table n rank : forall after body,
  DecompressedRecord.push_run n rank (after, body)
  = (after_table after (replicate n rank), body ++ lf_table after (replicate n rank)).
Proof.
  induction n as [|n IH]; intros after body; simpl.
  - rewrite app_nil_r. reflexivity.
  - rewrite IH, <- app_assoc. reflexivity.
Qed.

Lemma lf_table_app after a b :
  lf_table after (a ++ b) = lf_table after a ++ lf_table (after_table after a) b.
Proof.
  revert after. induction a as [|x a IH]; intros after; simpl; [reflexivity|].
  rewrite IH. reflexivity.
Qed.

Lemma after_table_app after a b :
  after_table after (a ++ b) = after_table (after_table after a) b.
Proof.
  revert after. induction a as [|x a IH]; intros after; simpl; [reflexivity|]. apply IH.
Qed.

Lemma push_runs_table runs : forall after body,
  fold_left (fun st (run : Z * Z) => DecompressedRecord.push_run (Z.to_nat run.2) run.1 st)
            runs (after, body)
  = (after_table after (expand runs), body ++ lf_table after (expand runs)).
Proof.
  induction runs as [|run runs IH]; intros after body; simpl.
  - rewrite app_nil_r. reflexivity.
  - rewrite push_run_table, IH, lf_table_app, after_table_app, <- app_assoc. reflexivity.
Qed.

Lemma lf_table_length after E : length (lf_table after E) = length E.
Proof.
  revert after. induction E as [|x E IH]; intros after; simpl; [reflexivity|].
  rewrite IH. reflexivity.
Qed.

Lemma lf_table_nth E : forall after p,
  Forall (fun e : Z * Z => is_word e.2) after ->
  Forall (fun x => 0 <= x < vec_size after) E ->
  (p < length E)%nat ->
  nth p (lf_table after E) (0, 0)
  = ((vec_at after (nth p E 0)).1,
     wrap ((vec_at after (nth p E 0)).2
           + occurrences (fun y => y =? nth p E 0) (take p E))).
Proof.
  induction E as [|x E IH]; intros after p Hw Hr Hp; [simpl in Hp; lia|].
  inversion Hr as [|? ? Hx Hr']; subst.
  destruct p as [|p]; cbn [lf_table nth take].
  - unfold occurrences. simpl. rewrite Z.add_0_r.
    rewrite wrap_small; [destruct (vec_at after x); reflexivity|].
    rewrite Forall_forall in Hw. apply Hw.
    apply list_elem_of_lookup. exists (Z.to_nat x). apply lookup_vec_at. exact Hx.
  - assert (Hlen : vec_size (add_rank after (x, 1)) = vec_size after).
    { unfold add_rank, vec_size. rewrite set_second_length. reflexivity. }
    simpl in Hp. rewrite IH; [|apply add_rank_words; exact Hw|rewrite Hlen; exact Hr'|lia].
    set (y := nth p E 0).
    assert (Hy : 0 <= y < vec_size after).
    { rewrite Forall_forall in Hr'. apply Hr'. apply list_elem_of_In, nth_In. lia. }
    destruct (add_rank_at after (x, 1) y Hw Hx Hy) as [H1 H2].
    rewrite H1, H2, wrap_add_l. f_equal. f_equal.
    change (x :: take p E) with ([x] ++ take p E). rewrite occurrences_app.
    unfold occurrences at 2. cbn [List.filter fst snd].
    destruct (x =? y); simpl; lia.
Qed.

Lemma of_dynamic_body r :
  DecompressedRecord.body (DecompressedRecord.of_dynamic r)
  = lf_table (DynamicRecord.outgoing r) (expand (DynamicRecord.body r)).
Proof.
  unfold DecompressedRecord.of_dynamic. rewrite push_runs_table. reflexivity.
Qed.

Lemma lf_table_LF r i :
  typed r -> body_ok r -> 0 <= i < DynamicRecord.size r ->
  vec_at (lf_table (DynamicRecord.outgoing r) (expand (DynamicRecord.body r))) i
  = DynamicRecord.LF r i.
Proof.
  intros Ht Hb Hi.
  pose proof (expand_length _ (body_ok_runs r Hb)) as Hlen.
  pose proof (body_total r Hb) as Htot. unfold DynamicRecord.size in *.
  unfold DynamicRecord.LF.
  destruct (runLF_formula r i 0 Ht Hb Hi) as (run_end & Heq & _ & _).
  rewrite Heq. cbn [fst]. unfold vec_at. rewrite lf_table_nth.
  - unfold key, DynamicRecord.offset, window. rewrite Z.sub_0_r. reflexivity.
  - eapply Forall_impl; [apply (typed_outgoing r Ht)|]. intros e [_ He]. exact He.
  - apply (expand_ranks _ _ (body_runs r Hb)).
  - lia.
Qed.

(** X11: the [DecompressedRecord] built from a well-formed [DynamicRecord]
    has the size and the outgoing edges of the record, and at every
    position its [LF(i)] and its [operator[]] return what the dynamic
    record's do; past the end both return [invalid_edge()] and
    [ENDMARKER]. *)
Theorem of_dynamic_spec r :
  typed r -> body_ok r ->
  let d := DecompressedRecord.of_dynamic r in
  DecompressedRecord.size d = DynamicRecord.size r /\
  DecompressedRecord.outgoing d = DynamicRecord.outgoing r /\
  forall i, 0 <= i ->
    DecompressedRecord.LF d i = DynamicRecord.LF r i /\
    DecompressedRecord.at_ d i = DynamicRecord.at_ r i.
Proof.
  intros Ht Hb d.
  pose proof (expand_length _ (body_ok_runs r Hb)) as Hlen.
  pose proof (body_total r Hb) as Htot.
  assert (Hsize : DecompressedRecord.size d = DynamicRecord.size r).
  { unfold DecompressedRecord.size, d. rewrite of_dynamic_body.
    unfold vec_size. rewrite lf_table_length. unfold DynamicRecord.size. lia. }
  split; [exact Hsize|]. split; [reflexivity|].
  intros i Hi. unfold DecompressedRecord.LF, DecompressedRecord.at_. rewrite Hsize.
  destruct (i >=? DynamicRecord.size r) eqn:Hge.
  - unfold DynamicRecord.LF, DynamicRecord.runLF, DynamicRecord.at_. rewrite Hge.
    split; reflexivity.
  - unfold d. rewrite of_dynamic_body, lf_table_LF by (auto; lia). split; [reflexivity|].
    unfold DynamicRecord.LF.
    destruct (runLF_formula r i 0 Ht Hb ltac:(lia)) as (run_end & Heq & _ & _).
    rewrite Heq. cbn [fst].
    rewrite (at_expand r i Hb (typed_size r Ht)) by lia. reflexivity.
Qed.

Lemma of_dynamic_spec_witness :
  DecompressedRecord.body (DecompressedRecord.of_dynamic scenario2)
  = [(4, 0); (4, 1); (6, 3); (6, 4); (6, 5); (4, 2)] /\
  DecompressedRecord.LF (DecompressedRecord.of_dynamic scenario2) 4
  = DynamicRecord.LF scenario2 4.
Proof.
  split; [reflexivity|].
  apply (proj2 (proj2 (of_dynamic_spec scenario2 ltac:(concrete) ltac:(concrete))) 4).
  lia.
Defined.

Lemma decompressed_runLF_loop fuel d i : forall run_end,
  0 <= i ->
  i <= run_end -> run_end < DecompressedRecord.size d -> DecompressedRecord.size d < WORD ->
  (Z.to_nat (DecompressedRecord.size d - 1 - run_end) <= fuel)%nat ->
  (forall j, i <= j <= run_end ->
     (vec_at (DecompressedRecord.body d) j).1 = (vec_at (DecompressedRecord.body d) i).1) ->
  let e := DecompressedRecord.runLF_loop fuel d i run_end in
  run_end <= e < DecompressedRecord.size d /\
  (forall j, i <= j <= e ->
     (vec_at (DecompressedRecord.body d) j).1 = (vec_at (DecompressedRecord.body d) i).1) /\
  (e + 1 = DecompressedRecord.size d \/
   (vec_at (DecompressedRecord.body d) (e + 1)).1 <> (vec_at (DecompressedRecord.body d) i).1).
Proof.
  induction fuel as [|fuel IH]; intros run_end H0 Hi Hlt Hw Hfuel Hsame;
    cbn [DecompressedRecord.runLF_loop]; cbn zeta.
  - split; [lia|]. split; [exact Hsame|]. left. lia.
  - assert (Hadd : wadd run_end 1 = run_end + 1).
    { unfold wadd. apply wrap_small. unfold is_word. lia. }
    rewrite Hadd.
    destruct (run_end + 1 <? DecompressedRecord.size d) eqn:E1; cbn [andb].
    + destruct ((vec_at (DecompressedRecord.body d) (run_end + 1)).1
                =? (vec_at (DecompressedRecord.body d) i).1) eqn:E2.
      * destruct (IH (run_end + 1) H0 ltac:(lia) ltac:(lia) Hw ltac:(lia)) as (H1 & H2 & H3).
        { intros j Hj. destruct (Z.eq_dec j (run_end + 1)) as [->|Hne]; [lia|].
          apply Hsame. lia. }
        split; [lia|]. split; [exact H2|exact H3].
      * split; [lia|]. split; [exact Hsame|]. right. lia.
    + split; [lia|]. split; [exact Hsame|]. left. lia.
Qed.

(** X12: on a decompressed record with fewer than [2^64] positions,
    [runLF(i, run_end)] with [i < size()] returns the edge [body[i]] and
    sets [run_end] to the last position of the maximal block of positions
    from [i] on whose edges lead to the same node: every position from [i]
    to [run_end] leads to the node of position [i], and position
    [run_end + 1] is the end of the record or leads elsewhere. *)
Theorem decompressed_runLF d i run_end0 :
  DecompressedRecord.size d < WORD -> 0 <= i < DecompressedRecord.size d ->
  let '(edge, run_end) := DecompressedRecord.runLF d i run_end0 in
  edge = DecompressedRecord.LF d i /\
  i <= run_end < DecompressedRecord.size d /\
  (forall j, i <= j <= run_end -> DecompressedRecord.at_ d j = DecompressedRecord.at_ d i) /\
  (run_end + 1 = DecompressedRecord.size d \/
   DecompressedRecord.at_ d (run_end + 1) <> DecompressedRecord.at_ d i).
Proof.
  intros Hw Hi. unfold DecompressedRecord.runLF, DecompressedRecord.LF.
  destruct (i >=? DecompressedRecord.size d) eqn:Hge; [lia|].
  destruct (decompressed_runLF_loop (length (DecompressedRecord.body d)) d i i)
    as (H1 & H2 & H3); try lia.
  { unfold DecompressedRecord.size, vec_size in *. lia. }
  { intros j Hj. replace j with i by lia. reflexivity. }
  set (e := DecompressedRecord.runLF_loop _ d i i) in *.
  assert (Hat : forall j, 0 <= j < DecompressedRecord.size d ->
            DecompressedRecord.at_ d j = (vec_at (DecompressedRecord.body d) j).1).
  { intros j Hj. unfold DecompressedRecord.at_.
    destruct (j >=? DecompressedRecord.size d) eqn:E; [lia|reflexivity]. }
  split; [reflexivity|]. split; [lia|]. split.
  - intros j Hj. rewrite !Hat by lia. apply H2. exact Hj.
  - destruct H3 as [H3|H3]; [left; exact H3|].
    destruct (Z.eq_dec (e + 1) (DecompressedRecord.size d)) as [Heq|Hne]; [left; exact Heq|].
    right. rewrite !Hat by lia. exact H3.
Qed.

Lemma decompressed_runLF_witness :
  let d := DecompressedRecord.of_dynamic scenario2 in
  let '(edge, run_end) := DecompressedRecord.runLF d 2 0 in
  edge = DecompressedRecord.LF d 2 /\
  2 <= run_end < DecompressedRecord.size d /\
  (forall j, 2 <= j <= run_end -> DecompressedRecord.at_ d j = DecompressedRecord.at_ d 2) /\
  (run_end + 1 = DecompressedRecord.size d \/
   DecompressedRecord.at_ d (run_end + 1) <> DecompressedRecord.at_ d 2).
Proof.
  apply (decompressed_runLF (DecompressedRecord.of_dynamic scenario2) 2 0).
  - reflexivity.
  - vm_compute. split; [discriminate|reflexivity].
Defined.

(** ** Dictionary *)

Lemma stringCompare_irrefl a : stringCompare a a = false.
Proof.
  induction a as [|x a IH]; simpl; [reflexivity|]. rewrite Z.eqb_refl. exact IH.
Qed.

Lemma stringCompare_trans a : forall b c,
  stringCompare a b = true -> stringCompare b c = true -> stringCompare a c = true.
Proof.
  induction a as [|x a IH]; intros [|y b] [|z c]; simpl; try discriminate; auto.
  destruct (Z.eqb_spec x y) as [Hxy|Hxy]; destruct (Z.eqb_spec y z) as [Hyz|Hyz];
    destruct (Z.eqb_spec x z) as [Hxz|Hxz]; simpl; try lia.
  apply IH.
Qed.

Lemma stringCompare_total a : forall b,
  stringCompare a b = false -> stringCompare b a = false -> a = b.
Proof.
  induction a as [|x a IH]; intros [|y b]; simpl; try discriminate; auto.
  destruct (Z.eqb_spec x y) as [Hxy|Hxy]; destruct (Z.eqb_spec y x) as [Hyx|Hyx];
    simpl; try lia.
  intros H1 H2. subst y. f_equal. apply IH; assumption.
Qed.

(** X13: [stringCompare] is a strict total order on character sequences:
    no sequence is smaller than itself, the comparison is transitive, two
    sequences of which neither is smaller are equal, and a proper prefix
    is smaller than the sequence it begins. *)
Theorem stringCompare_order :
  (forall a, stringCompare a a = false) /\
  (forall a b c, stringCompare a b = true -> stringCompare b c = true ->
                 stringCompare a c = true) /\
  (forall a b, stringCompare a b = true -> stringCompare b a = false) /\
  (forall a b, stringCompare a b = false -> stringCompare b a = false -> a = b) /\
  (forall a x b, stringCompare a (a ++ x :: b) = true).
Proof.
  split; [exact stringCompare_irrefl|]. split; [exact stringCompare_trans|].
  split; [|split; [exact stringCompare_total|]].
  - intros a b Hab. destruct (stringCompare b a) eqn:Hba; [|reflexivity].
    rewrite <- (stringCompare_irrefl a). symmetry. apply (stringCompare_trans a b a Hab Hba).
  - intros a x b. induction a as [|y a IH]; simpl; [reflexivity|].
    rewrite Z.eqb_refl. exact IH.
Qed.




Lemma total_fold source : forall a,
  fold_left (fun n (s : list Z) => wadd n (vec_size s)) source (wrap a)
  = wrap (a + vec_size (concat source)).
Proof.
  induction source as [|s source IH]; intros a; simpl.
  - unfold vec_size. simpl. rewrite Z.add_0_r. reflexivity.
  - unfold wadd at 2. rewrite wrap_add_l, IH. f_equal.
    unfold vec_size. rewrite length_app. lia.
Qed.

Lemma make_fold width source : forall offs dat off,
  0 <= off -> off + vec_size (concat source) < WORD ->
  fold_left (fun (st : list Z * list Z * Z) (s : list Z) =>
               let '(offs, dat, offset) := st in
               (offs ++ [Dictionary.stored width offset], dat ++ s, wadd offset (vec_size s)))
            source (offs, dat, off)
  = (offs ++ map (Dictionary.stored width) (prefix_from off source),
     dat ++ concat source, off + vec_size (concat source)).
Proof.
  induction source as [|s source IH]; intros offs dat off H0 Hb; simpl.
  - unfold vec_size. simpl. rewrite !app_nil_r, Z.add_0_r. reflexivity.
  - assert (Hlen : vec_size (s ++ concat source) = vec_size s + vec_size (concat source)).
    { unfold vec_size. rewrite length_app. lia. }
    simpl in Hb. rewrite Hlen in Hb.
    assert (0 <= vec_size (concat source)) by (unfold vec_size; lia).
    assert (0 <= vec_size s) by (unfold vec_size; lia).
    unfold wadd. rewrite wrap_small by (unfold is_word; lia).
    rewrite IH by lia. rewrite <- !app_assoc, Hlen. simpl. f_equal. lia.
Qed.

Lemma prefix_from_bound source : forall off,
  0 <= off ->
  Forall (fun p => 0 <= p <= off + vec_size (concat source)) (prefix_from off source).
Proof.
  induction source as [|s source IH]; intros off H0; simpl; [constructor|].
  assert (Hlen : vec_size (s ++ concat source) = vec_size s + vec_size (concat source)).
  { unfold vec_size. rewrite length_app. lia. }
  assert (0 <= vec_size (concat source)) by (unfold vec_size; lia).
  assert (0 <= vec_size s) by (unfold vec_size; lia).
  rewrite Hlen. constructor; [lia|].
  eapply Forall_impl; [apply (IH (off + vec_size s)); lia|]. intros p Hp. simpl in Hp. lia.
Qed.

Lemma prefix_from_slice source : forall off (pre : list Z) i,
  off = vec_size pre -> (i < length source)%nat ->
  let bounds := prefix_from off source ++ [off + vec_size (concat source)] in
  take (Z.to_nat (nth (S i) bounds 0 - nth i bounds 0))
       (drop (Z.to_nat (nth i bounds 0)) (pre ++ concat source))
  = nth i source [].
Proof.
  induction source as [|s source IH]; intros off pre i Hoff Hi; [simpl in Hi; lia|].
  assert (Hlen : vec_size (s ++ concat source) = vec_size s + vec_size (concat source)).
  { unfold vec_size. rewrite length_app. lia. }
  cbn zeta. cbn [prefix_from concat app]. rewrite Hlen.
  destruct i as [|i].
  - cbn [nth]. 
    assert (Hnext : nth 0 (prefix_from (off + vec_size s) source
                           ++ [off + (vec_size s + vec_size (concat source))]) 0
                    = off + vec_size s).
    { destruct source as [|s' source]; simpl.
      - unfold vec_size. simpl. lia.
      - reflexivity. }
    rewrite Hnext. replace (Z.to_nat (off + vec_size s - off)) with (length s)
      by (unfold vec_size; lia).
    rewrite Hoff. unfold vec_size. rewrite Nat2Z.id, drop_app_length, take_app_length.
    reflexivity.
  - cbn [nth]. simpl in Hi.
    specialize (IH (off + vec_size s) (pre ++ s) i).
    cbn zeta in IH. rewrite <- app_assoc in IH.
    replace (off + vec_size s + vec_size (concat source))
      with (off + (vec_size s + vec_size (concat source))) in IH by lia.
    apply IH; [|lia]. unfold vec_size in *. rewrite length_app. lia.
Qed.

Lemma make_fields source :
  source <> [] -> vec_size (concat source) < WORD ->
  Dictionary.make source
  = let offs1 := map (Dictionary.stored (bit_length (vec_size (concat source))))
                     (prefix_from 0 source)
                 ++ [Dictionary.stored (bit_length (vec_size (concat source)))
                       (vec_size (concat source))] in
    Dictionary.mk offs1
      (Dictionary.sort_ids (Dictionary.mk offs1 (seqZ 0 (vec_size source)) (concat source)))
      (concat source).
Proof.
  intros Hne Hw. destruct source as [|s0 source0]; [congruence|].
  unfold Dictionary.make. cbv zeta.
  change (fold_left (fun n (s : list Z) => wadd n (vec_size s)) (s0 :: source0) 0)
    with (fold_left (fun n (s : list Z) => wadd n (vec_size s)) (s0 :: source0) (wrap 0)).
  rewrite !total_fold. rewrite !Z.add_0_l.
  assert (0 <= vec_size (concat (s0 :: source0))) by (unfold vec_size; lia).
  rewrite wrap_small by (unfold is_word; lia).
  rewrite make_fold by lia. reflexivity.
Qed.

(** The constructor [Dictionary(source)], field by field. *)
Lemma make_strings source :
  vec_size (concat source) < WORD ->
  Dictionary.size (Dictionary.make source) = vec_size source /\
  Dictionary.sorted_ids (Dictionary.make source) ≡ₚ seqZ 0 (vec_size source) /\
  Dictionary.data (Dictionary.make source) = concat source /\
  forall i, (i < length source)%nat ->
    Dictionary.at_ (Dictionary.make source) (Z.of_nat i) = nth i source [].
Proof.
  intros Hw. destruct (decide (source = [])) as [->|Hne].
  { simpl. repeat split; [reflexivity|]. intros i Hi. simpl in Hi. lia. }
  rewrite (make_fields source Hne Hw). cbn zeta.
  assert (Hnn : 0 <= vec_size (concat source)) by (unfold vec_size; lia).
  assert (Hoffs : map (Dictionary.stored (bit_length (vec_size (concat source))))
                      (prefix_from 0 source)
                  ++ [Dictionary.stored (bit_length (vec_size (concat source)))
                        (vec_size (concat source))]
                  = prefix_from 0 source ++ [0 + vec_size (concat source)]).
  { f_equal.
    - rewrite <- (map_id (prefix_from 0 source)) at 2. apply map_ext_Forall.
      eapply Forall_impl; [apply (prefix_from_bound source 0); lia|].
      intros p Hp. simpl in Hp. unfold Dictionary.stored. apply mod_bit_length. lia.
    - rewrite Z.add_0_l. unfold Dictionary.stored. f_equal. apply mod_bit_length. lia. }
  rewrite Hoffs.
  set (d0 := Dictionary.mk _ (seqZ 0 (vec_size source)) (concat source)).
  assert (Hperm : Dictionary.sort_ids d0 ≡ₚ seqZ 0 (vec_size source)).
  { unfold Dictionary.sort_ids. apply merge_sort_Permutation. }
  split; [|split; [exact Hperm|split; [reflexivity|]]].
  - unfold Dictionary.size, vec_size. cbn [Dictionary.sorted_ids].
    rewrite Hperm, length_seqZ. unfold vec_size. lia.
  - intros i Hi. unfold Dictionary.at_, Dictionary.between, sdsl.int_get.
    cbn [Dictionary.offsets Dictionary.data].
    replace (Z.to_nat (Z.of_nat i + 1)) with (S i) by lia. rewrite Nat2Z.id.
    apply (prefix_from_slice source 0 [] i); [reflexivity|exact Hi].
Qed.



(** ** Metadata: paths and merging *)

Lemma filter_filter {A} (P Q : A -> bool) l :
  List.filter (fun x => P x && Q x) l = List.filter Q (List.filter P l).
Proof.
  induction l as [|x l IH]; simpl; [reflexivity|].
  destruct (P x); simpl; [destruct (Q x); rewrite IH; reflexivity|exact IH].
Qed.

Lemma collect_paths_spec select paths : forall i result,
  0 <= i -> i + vec_size paths < WORD ->
  Metadata.collect_paths select paths i result
  = result ++ List.filter
                (fun j => select (nth (Z.to_nat (j - i)) paths (PathName.mk 0 0 0 0)))
                (seqZ i (vec_size paths)).
Proof.
  induction paths as [|p paths IH]; intros i result H0 Hb.
  - simpl. rewrite app_nil_r. reflexivity.
  - assert (Hsz : vec_size (p :: paths) = Z.succ (vec_size paths))
      by (unfold vec_size; simpl length; lia).
    assert (0 <= vec_size paths) by (unfold vec_size; lia).
    cbn [Metadata.collect_paths]. rewrite Hsz, seqZ_cons by lia.
    unfold wadd. rewrite wrap_small by (unfold is_word; lia).
    rewrite IH by lia. cbn [List.filter].
    replace (Z.to_nat (i - i)) with 0%nat by lia. cbn [nth].
    replace (Z.pred (Z.succ (vec_size paths))) with (vec_size paths) by lia.
    replace (Z.succ i) with (i + 1) by lia.
    assert (Hext : List.filter
                     (fun j => select (nth (Z.to_nat (j - (i + 1))) paths (PathName.mk 0 0 0 0)))
                     (seqZ (i + 1) (vec_size paths))
                   = List.filter
                       (fun j => select (nth (Z.to_nat (j - i)) (p :: paths)
                                             (PathName.mk 0 0 0 0)))
                       (seqZ (i + 1) (vec_size paths))).
    { apply List.filter_ext_in. intros j Hj. apply list_elem_of_In, elem_of_seqZ in Hj.
      replace (Z.to_nat (j - i)) with (S (Z.to_nat (j - (i + 1)))) by lia. reflexivity. }
    rewrite Hext. destruct (select p); [rewrite <- app_assoc|]; reflexivity.
Qed.

Lemma collect_paths_all select paths :
  vec_size paths < WORD ->
  Metadata.collect_paths select paths 0 []
  = List.filter (fun j => select (nth (Z.to_nat j) paths (PathName.mk 0 0 0 0)))
                (seqZ 0 (vec_size paths)).
Proof.
  intros Hw. rewrite collect_paths_spec by lia. cbn [app].
  apply List.filter_ext. intros j. rewrite Z.sub_0_r. reflexivity.
Qed.

(** X16: with fewer than [2^64] path names, [pathsForSample(sample_id)]
    and [pathsForContig(contig_id)] return, in increasing order, exactly
    the indices of the paths with that sample, respectively that contig,
    and [findPaths(sample_id, contig_id)] returns the paths of
    [pathsForSample(sample_id)] whose contig is [contig_id]. *)
Theorem findPaths_spec m sample_id contig_id :
  Metadata.paths m < WORD ->
  Metadata.pathsForSample m sample_id
  = List.filter (fun i => PathName.sample (Metadata.path m i) =? sample_id)
                (seqZ 0 (Metadata.paths m)) /\
  Metadata.pathsForContig m contig_id
  = List.filter (fun i => PathName.contig (Metadata.path m i) =? contig_id)
                (seqZ 0 (Metadata.paths m)) /\
  Metadata.findPaths m sample_id contig_id
  = List.filter (fun i => PathName.contig (Metadata.path m i) =? contig_id)
                (Metadata.pathsForSample m sample_id).
Proof.
  intros Hw. unfold Metadata.pathsForSample, Metadata.pathsForContig, Metadata.findPaths,
    Metadata.paths, Metadata.path in *.
  rewrite !collect_paths_all by lia.
  split; [reflexivity|]. split; [reflexivity|].
  apply (filter_filter
           (fun j => PathName.sample (nth (Z.to_nat j) (Metadata.path_names m)
                                          (PathName.mk 0 0 0 0)) =? sample_id)
           (fun j => PathName.contig (nth (Z.to_nat j) (Metadata.path_names m)
                                          (PathName.mk 0 0 0 0)) =? contig_id)).
Qed.

Lemma findPaths_spec_witness :
  Metadata.findPaths
    (Metadata.mk 0 1 2 2 2 1
       [PathName.mk 0 0 0 0; PathName.mk 1 0 0 0; PathName.mk 0 1 0 0; PathName.mk 0 0 1 0]
       Dictionary.default Dictionary.default) 0 0
  = [0; 3].
Proof.
  rewrite (proj2 (proj2 (findPaths_spec
     (Metadata.mk 0 1 2 2 2 1
       [PathName.mk 0 0 0 0; PathName.mk 1 0 0 0; PathName.mk 0 1 0 0; PathName.mk 0 0 1 0]
       Dictionary.default Dictionary.default) 0 0 ltac:(reflexivity)))).
  reflexivity.
Defined.

Lemma merge_counts m s same_samples same_contigs :
  Metadata.sample_count (Metadata.merge m s same_samples same_contigs)
  = (if same_samples then Metadata.sample_count m
     else wadd (Metadata.sample_count m) (Metadata.sample_count s)) /\
  Metadata.haplotype_count (Metadata.merge m s same_samples same_contigs)
  = (if same_samples then Metadata.haplotype_count m
     else wadd (Metadata.haplotype_count m) (Metadata.haplotype_count s)) /\
  Metadata.contig_count (Metadata.merge m s same_samples same_contigs)
  = (if same_contigs then Metadata.contig_count m
     else wadd (Metadata.contig_count m) (Metadata.contig_count s)).
Proof.
  destruct (merge_parts m s same_samples same_contigs) as [Hs Hc].
  pose proof (merge_samples_contig_part m s same_samples) as Hsc.
  unfold sample_part in Hs. unfold contig_part in Hc, Hsc.
  injection Hs as _ _ Hs1 Hs2. injection Hc as _ _ Hc1. injection Hsc as _ _ Hsc1.
  rewrite Hs1, Hs2, Hc1. clear Hs1 Hs2 Hc1. split; [|split].
  - unfold Metadata.merge_samples. destruct same_samples; cbn [fst].
    + destruct (negb _ && _); reflexivity.
    + destruct (Metadata.hasSampleNames _); [|reflexivity].
      destruct (Metadata.hasSampleNames s); reflexivity.
  - unfold Metadata.merge_samples. destruct same_samples; cbn [fst].
    + destruct (negb _ && _); reflexivity.
    + destruct (Metadata.hasSampleNames _); [|reflexivity].
      destruct (Metadata.hasSampleNames s); reflexivity.
  - rewrite <- Hsc1. generalize (Metadata.merge_samples m s same_samples).1 as m1. intros m1.
    unfold Metadata.merge_contigs. destruct same_contigs; cbn [fst].
    + destruct (negb _ && _); reflexivity.
    + destruct (Metadata.hasContigNames _); [|reflexivity].
      destruct (Metadata.hasContigNames s); reflexivity.
Qed.

(** X17: [merge(sources, same_samples, same_contigs)] over a vector of
    sources adds, in 64-bit arithmetic, the sample and haplotype counts of
    all the sources to those of the metadata when [same_samples] is false
    and leaves them as they are when it is true; likewise for the contig
    count and [same_contigs]. *)
Theorem merge_all_counts sources : forall m same_samples same_contigs,
  is_word (Metadata.sample_count m) -> is_word (Metadata.haplotype_count m) ->
  is_word (Metadata.contig_count m) ->
  let m' := Metadata.merge_all m sources same_samples same_contigs in
  Metadata.sample_count m'
  = (if same_samples then Metadata.sample_count m
     else wrap (Metadata.sample_count m
                + foldr (fun s n => Metadata.sample_count s + n) 0 sources)) /\
  Metadata.haplotype_count m'
  = (if same_samples then Metadata.haplotype_count m
     else wrap (Metadata.haplotype_count m
                + foldr (fun s n => Metadata.haplotype_count s + n) 0 sources)) /\
  Metadata.contig_count m'
  = (if same_contigs then Metadata.contig_count m
     else wrap (Metadata.contig_count m
                + foldr (fun s n => Metadata.contig_count s + n) 0 sources)).
Proof.
  induction sources as [|s sources IH]; intros m ss sc Hw1 Hw2 Hw3; cbn zeta.
  - simpl. rewrite !Z.add_0_r, !wrap_small by assumption.
    destruct ss, sc; repeat split; reflexivity.
  - unfold Metadata.merge_all. cbn [fold_left foldr].
    destruct (merge_counts m s ss sc) as (H1 & H2 & H3).
    specialize (IH (Metadata.merge m s ss sc) ss sc).
    cbn zeta in IH. unfold Metadata.merge_all in IH.
    destruct IH as (I1 & I2 & I3).
    + rewrite H1. destruct ss; [exact Hw1|apply wrap_is_word].
    + rewrite H2. destruct ss; [exact Hw2|apply wrap_is_word].
    + rewrite H3. destruct sc; [exact Hw3|apply wrap_is_word].
    + rewrite I1, I2, I3, H1, H2, H3.
      split; [|split].
      * destruct ss; [reflexivity|]. unfold wadd. rewrite wrap_add_l. f_equal. lia.
      * destruct ss; [reflexivity|]. unfold wadd. rewrite wrap_add_l. f_equal. lia.
      * destruct sc; [reflexivity|]. unfold wadd. rewrite wrap_add_l. f_equal. lia.
Qed.

Lemma merge_all_counts_witness :
  Metadata.sample_count
    (Metadata.merge_all named_metadata [unnamed_metadata; unnamed_metadata] false true) = 4 /\
  Metadata.contig_count
    (Metadata.merge_all named_metadata [unnamed_metadata; unnamed_metadata] false true) = 2.
Proof.
  destruct (merge_all_counts [unnamed_metadata; unnamed_metadata] named_metadata false true
              ltac:(concrete) ltac:(concrete) ltac:(concrete)) as (H1 & _ & H3).
  split; [exact H1|exact H3].
Defined.

Lemma merge_paths_flags m source a b :
  Metadata.hasSampleNames (Metadata.merge_paths m source a b) = Metadata.hasSampleNames m /\
  Metadata.hasContigNames (Metadata.merge_paths m source a b) = Metadata.hasContigNames m.
Proof.
  destruct (merge_paths_parts m source a b) as [H1 H2].
  unfold sample_part in H1. unfold contig_part in H2.
  injection H1 as H1 _ _ _. injection H2 as H2 _ _. split; assumption.
Qed.

(** X18: [merge(source, true, true)] keeps the three counts and the
    sample-names and contig-names flags of the metadata; where the
    metadata has no sample (contig) names and the source has, it copies
    the source's dictionary, and the flag stays unset. *)
Theorem merge_same_counts m source :
  let m' := Metadata.merge m source true true in
  Metadata.sample_count m' = Metadata.sample_count m /\
  Metadata.haplotype_count m' = Metadata.haplotype_count m /\
  Metadata.contig_count m' = Metadata.contig_count m /\
  Metadata.hasSampleNames m' = Metadata.hasSampleNames m /\
  Metadata.hasContigNames m' = Metadata.hasContigNames m /\
  Metadata.sample_names m'
  = (if negb (Metadata.hasSampleNames m) && Metadata.hasSampleNames source
     then Metadata.sample_names source else Metadata.sample_names m) /\
  Metadata.contig_names m'
  = (if negb (Metadata.hasContigNames m) && Metadata.hasContigNames source
     then Metadata.contig_names source else Metadata.contig_names m).
Proof.
  cbn zeta. destruct (merge_counts m source true true) as (H1 & H2 & H3).
  destruct (merge_parts m source true true) as [Hs Hc].
  unfold sample_part in Hs. unfold contig_part in Hc.
  injection Hs as Hs1 Hs2 _ _. injection Hc as Hc1 Hc2 _.
  rewrite H1, H2, H3, Hs1, Hs2, Hc1, Hc2.
  repeat split.
  - unfold Metadata.merge_samples. cbn [fst]. destruct (negb _ && _); reflexivity.
  - unfold Metadata.merge_contigs, Metadata.merge_samples. cbn [fst].
    destruct (negb (Metadata.hasSampleNames m) && _);
      destruct (negb _ && _); reflexivity.
  - unfold Metadata.merge_samples. cbn [fst]. destruct (negb _ && _); reflexivity.
  - unfold Metadata.merge_contigs, Metadata.merge_samples. cbn [fst].
    destruct (negb (Metadata.hasSampleNames m) && Metadata.hasSampleNames source);
      cbn [Metadata.hasContigNames Metadata.get Metadata.with_sample_names Metadata.flags
           Metadata.contig_names];
      destruct (negb _ && _); reflexivity.
Qed.

Lemma get_set m f : f <> 0 -> Metadata.get (Metadata.set m f) f = true.
Proof.
  intros Hf. unfold Metadata.get, Metadata.set. simpl.
  assert (H : Z.land (Z.lor (Metadata.flags m) f) f = f).
  { apply Z.bits_inj'. intros n Hn. rewrite Z.land_spec, Z.lor_spec.
    destruct (Z.testbit f n), (Z.testbit (Metadata.flags m) n); reflexivity. }
  rewrite H. destruct (f =? 0) eqn:E; [lia|reflexivity].
Qed.

(** X19: [setSamples(names)] with a non-empty vector of names whose total
    length is below [2^64] sets the sample count to the number of names,
    sets the sample-names flag, and stores the names so that the string
    with identifier [i] is [names[i]]; with an empty vector it unsets the
    flag and empties the dictionary, and the sample count stays as it
    was. *)
Theorem setSampleNames_spec m names :
  vec_size (concat names) < WORD ->
  let m' := Metadata.setSampleNames m names in
  (names = [] ->
   Metadata.hasSampleNames m' = false /\
   Metadata.sample_names m' = Dictionary.default /\
   Metadata.sample_count m' = Metadata.sample_count m) /\
  (names <> [] ->
   Metadata.hasSampleNames m' = true /\
   Metadata.sample_count m' = vec_size names /\
   Dictionary.size (Metadata.sample_names m') = vec_size names /\
   forall i, (i < length names)%nat ->
     Dictionary.at_ (Metadata.sample_names m') (Z.of_nat i) = nth i names []).
Proof.
  intros Hw m'. subst m'. split.
  - intros ->. cbn [Metadata.setSampleNames].
    destruct (clearSampleNames_spec m) as (H1 & H2 & _ & H3 & _).
    repeat split; assumption.
  - intros Hne. destruct names as [|s names']; [congruence|].
    cbn [Metadata.setSampleNames].
    destruct (make_strings (s :: names') Hw) as (Hsize & _ & _ & Hat).
    split; [|split; [reflexivity|split; [exact Hsize|exact Hat]]].
    unfold Metadata.hasSampleNames.
    change (Metadata.get (Metadata.with_sample_names ?a ?d) ?f) with (Metadata.get a f).
    apply get_set. discriminate.
Qed.

Lemma setSampleNames_spec_witness :
  Metadata.hasSampleNames (Metadata.setSampleNames unnamed_metadata [[97]; [98; 99]]) = true /\
  Metadata.sample_count (Metadata.setSampleNames unnamed_metadata [[97]; [98; 99]]) = 2 /\
  Dictionary.at_ (Metadata.sample_names (Metadata.setSampleNames unnamed_metadata [[97]; [98; 99]])) 1
  = [98; 99].
Proof.
  destruct (setSampleNames_spec unnamed_metadata [[97]; [98; 99]] ltac:(reflexivity))
    as [_ H].
  destruct (H ltac:(discriminate)) as (H1 & H2 & _ & H4).
  split; [exact H1|]. split; [exact H2|]. apply (H4 1%nat). simpl. lia.
Defined.

(** ** DASamples: the next sample and the limits *)

Lemma count_fold_offsets (l : list (nat * DynamicRecord.t)) : forall rc bo sc marks,
  (fold_left DASamples.count_step l (rc, wrap bo, sc, marks)).1.1.2
  = wrap (bo + sampled_size l.*2).
Proof.
  induction l as [|[i r] l IH]; intros rc bo sc marks.
  - simpl. rewrite Z.add_0_r. reflexivity.
  - cbn [fold_left fmap list_fmap snd]. unfold DASamples.count_step at 2.
    cbn [sampled_size]. fold (sampled r). destruct (sampled r).
    + unfold wadd at 2. rewrite wrap_add_l. rewrite IH. f_equal. lia.
    + apply IH.
Qed.

Lemma build_sizes bwt :
  sdsl.sd_size (DASamples.bwt_ranges (DASamples.build bwt)) = wrap (sampled_size bwt) /\
  sdsl.sd_size (DASamples.sampled_offsets (DASamples.build bwt)) = wrap (sampled_size bwt).
Proof.
  unfold DASamples.build.
  pose proof (count_fold_offsets (combine (seq 0 (length bwt)) bwt) 0 0 0
                                 (replicate (length bwt) false)) as Hbo.
  change (wrap 0) with 0 in Hbo. rewrite snd_combine_seq, Z.add_0_l in Hbo.
  destruct (fold_left DASamples.count_step _ _) as [[[rc bo] sc] marks].
  simpl in Hbo. subst bo. rewrite mark_fold.
  destruct (fold_left (DASamples.store_step _) _ _) as [arr curr].
  split; reflexivity.
Qed.

Lemma sampled_record_start pre r post :
  Forall sample_ok (pre ++ r :: post) -> sampled_size (pre ++ r :: post) < WORD ->
  sampled r = true ->
  DASamples.isSampled (DASamples.build (pre ++ r :: post)) (Z.of_nat (length pre)) = true /\
  DASamples.start (DASamples.build (pre ++ r :: post)) (Z.of_nat (length pre))
  = sampled_size pre /\
  sdsl.bit_rank (DASamples.sampled_records (DASamples.build (pre ++ r :: post)))
                (Z.of_nat (length pre))
  = Z.of_nat (length (ranges_at 0 pre)).
Proof.
  intros Hok Hsize Hs. destruct (build_spec _ Hok Hsize) as [n [m ->]].
  apply Forall_app in Hok as Hok2. destruct Hok2 as [Hpre Hrest].
  pose proof (ranges_length_bound pre 0 Hpre) as Hk.
  pose proof (sampled_size_nonneg _ Hpre) as Hn1.
  inversion Hrest as [|? ? Hr Hpost]; subst.
  pose proof (sampled_size_nonneg _ Hpost) as Hn2.
  pose proof (sampled_size_pos r Hr Hs) as Hpos.
  rewrite sampled_size_app in Hsize. cbn [sampled_size] in Hsize. rewrite Hs in Hsize.
  unfold DASamples.isSampled, DASamples.start, sdsl.bit_get, sdsl.bit_rank, sdsl.select_1.
  cbn [DASamples.sampled_records DASamples.bwt_ranges sdsl.sd_ones sdsl.sd_size].
  rewrite Nat2Z.id, map_app.
  assert (Hnth : nth (length pre) (map sampled pre ++ map sampled (r :: post)) false = true).
  { rewrite <- (length_map sampled pre). cbn [map]. rewrite nth_middle. exact Hs. }
  assert (Htake : take (length pre) (map sampled pre ++ map sampled (r :: post))
                  = map sampled pre).
  { rewrite <- (length_map sampled pre) at 1. apply take_app_length. }
  rewrite Hnth, Htake, (ranges_length pre 0).
  split; [reflexivity|]. split; [|reflexivity].
  unfold wadd. rewrite wrap_small by (unfold is_word; lia).
  replace (Z.to_nat (Z.of_nat (length (ranges_at 0 pre)) + 1 - 1))
    with (length (ranges_at 0 pre)) by lia.
  rewrite ranges_at_app. cbn [ranges_at]. rewrite Hs, nth_middle. lia.
Qed.

Lemma filter_split (p : Z) (A B : list Z) :
  Forall (fun q => q < p) A -> Forall (fun q => p <= q) B ->
  List.filter (fun q => q <? p) (A ++ B) = A.
Proof.
  intros HA HB. rewrite List.filter_app.
  rewrite filter_all by (eapply Forall_impl; [exact HA|]; intros q Hq; simpl in *; lia).
  rewrite filter_none by (eapply Forall_impl; [exact HB|]; intros q Hq; simpl in *; lia).
  apply app_nil_r.
Qed.

Lemma nextSample_loop_ge ids i :
  StronglySorted Z.lt ids.*1 ->
  Forall (fun s : Z * Z => i <= s.1) (DynamicRecord.nextSample_loop ids i).
Proof.
  intros Hs.
  destruct (nextSample_loop_spec ids i) as (skipped & Heq & Hall & Hhd).
  rewrite Heq, fmap_app in Hs. apply StronglySorted_app_1_r in Hs.
  destruct (DynamicRecord.nextSample_loop ids i) as [|s rest]; [constructor|].
  cbn [fmap list_fmap] in Hs. inversion Hs as [|? ? _ Hlt]; subst.
  constructor; [lia|]. rewrite Forall_forall in Hlt. apply Forall_forall. intros x Hx.
  assert (s.1 < x.1) by (apply Hlt, list_elem_of_fmap; eauto). lia.
Qed.

Lemma nextSample_sampled_record pre r post offset :
  Forall sample_ok (pre ++ r :: post) -> sampled_size (pre ++ r :: post) < WORD ->
  sampled r = true -> 0 <= offset <= DynamicRecord.size r ->
  DASamples.nextSample (DASamples.build (pre ++ r :: post)) (Z.of_nat (length pre)) offset
  = hd invalid_sample
       (DynamicRecord.nextSample r offset
          ++ map (fun e : Z * Z => (e.1 - sampled_size pre, e.2))
                 (entries_at (sampled_size pre + DynamicRecord.size r) post)).
Proof.
  intros Hok Hsize Hs Hoff.
  destruct (sampled_record_start pre r post Hok Hsize Hs) as (Hsam & Hstart & _).
  unfold DASamples.nextSample. rewrite Hsam, Hstart. cbn [negb].
  pose proof (values_length_bound _ Hok) as Hvals.
  pose proof (entries_at_values (pre ++ r :: post) 0) as Hvalues.
  destruct (build_spec _ Hok Hsize) as [n [m ->]].
  cbn [DASamples.sampled_offsets DASamples.array].
  apply Forall_app in Hok as [Hpre Hrest].
  inversion Hrest as [|? ? Hr Hpost]; subst.
  pose proof (sampled_size_nonneg _ Hpre) as Hn1.
  pose proof (sampled_size_nonneg _ Hpost) as Hn2.
  pose proof Hsize as Htotal.
  rewrite sampled_size_app in Hsize. cbn [sampled_size] in Hsize. rewrite Hs in Hsize.
  set (S0 := sampled_size pre) in *.
  destruct Hr as [Hrsize Hrwords [Hrsorted Hrbound]].
  unfold DynamicRecord.nextSample.
  destruct (nextSample_loop_spec (DynamicRecord.ids r) offset) as (skipped & Heq & Hskip & _).
  pose proof (nextSample_loop_ge (DynamicRecord.ids r) offset Hrsorted) as Hnext.
  set (next := DynamicRecord.nextSample_loop (DynamicRecord.ids r) offset) in *.
  set (shift := fun s : Z * Z => (S0 + s.1, s.2)).
  set (Epost := entries_at (S0 + DynamicRecord.size r) post).
  set (A := entries_at 0 pre ++ map shift skipped).
  set (B := map shift next ++ Epost).
  assert (HE : entries_at 0 (pre ++ r :: post) = A ++ B).
  { rewrite entries_at_app. cbn [entries_at]. rewrite Hs, Z.add_0_l. fold S0 shift Epost.
    rewrite Heq, map_app. unfold A, B. rewrite <- !app_assoc. reflexivity. }
  rewrite <- Hvalues, HE in *. clear Hvalues.
  assert (HA : Forall (fun q => q < S0 + offset) A.*1).
  { unfold A. rewrite fmap_app. apply Forall_app. split.
    - apply Forall_fmap. eapply Forall_impl; [apply (entries_at_bounds pre 0 Hpre)|].
      intros e He. simpl in *. unfold S0. lia.
    - apply Forall_fmap, Forall_fmap. eapply Forall_impl; [exact Hskip|].
      intros s Hs'. simpl in *. lia. }
  assert (HBpost : Forall (fun e : Z * Z => S0 + DynamicRecord.size r <= e.1 < WORD) Epost).
  { eapply Forall_impl; [apply (entries_at_bounds post _ Hpost)|].
    intros e He. simpl in *. lia. }
  assert (HB : Forall (fun q => S0 + offset <= q) B.*1).
  { unfold B. rewrite fmap_app. apply Forall_app. split.
    - apply Forall_fmap, Forall_fmap. eapply Forall_impl; [exact Hnext|].
      intros s Hs'. simpl in *. lia.
    - apply Forall_fmap. eapply Forall_impl; [exact HBpost|]. intros e He. simpl in *. lia. }
  assert (Hadd : wadd S0 offset = S0 + offset).
  { unfold wadd. apply wrap_small. unfold is_word, DynamicRecord.size in *. lia. }
  rewrite Hadd. unfold sdsl.rank_1, sdsl.select_1, sdsl.int_get. cbn [sdsl.sd_ones sdsl.sd_size].
  rewrite !fmap_app, (filter_split (S0 + offset) A.*1 B.*1 HA HB).
  unfold vec_size. rewrite ?length_app, ?length_fmap.
  rewrite ?length_fmap, ?length_app in Hvals.
  destruct B as [|b B'] eqn:HBeq.
  - simpl length. rewrite Nat.add_0_r, Z.ltb_irrefl.
    apply app_eq_nil in HBeq as [Hn He]. apply map_eq_nil in Hn. rewrite Hn, He. reflexivity.
  - simpl length.
    assert (E : (Z.of_nat (length A) <? Z.of_nat (length A + S (length B'))) = true)
      by (apply Z.ltb_lt; lia).
    rewrite E. simpl length in Hvals.
    unfold wadd. rewrite wrap_small by (unfold is_word; lia).
    replace (Z.to_nat (Z.of_nat (length A) + 1 - 1)) with (length A.*1)
      by (rewrite length_fmap; lia).
    rewrite Nat2Z.id. rewrite <- (length_fmap snd A).
    cbn [fmap list_fmap]. rewrite !nth_middle.
    unfold B in HBeq. clear HE HB E. destruct next as [|s next'].
    + cbn [map app] in HBeq |- *. rewrite HBeq in HBpost |- *.
      inversion HBpost as [|? ? Hb _]; subst. cbn [map hd].
      f_equal. unfold wsub. apply wrap_small. unfold is_word. lia.
    + cbn [map app] in HBeq |- *. injection HBeq as <- _. cbn [hd]. unfold shift. cbn [fst snd].
      destruct s as [o v]. f_equal. unfold wsub.
      replace (S0 + (o, v).1 - S0) with o by (simpl; lia).
      apply wrap_small.
      assert (Hin : (o, v) ∈ DynamicRecord.ids r).
      { rewrite Heq. apply elem_of_app. right. left. }
      rewrite Forall_forall in Hrwords. apply (Hrwords _ Hin).
Qed.

Lemma nextSample_unsampled_record pre r post offset :
  Forall sample_ok (pre ++ r :: post) -> sampled_size (pre ++ r :: post) < WORD ->
  sampled r = false ->
  DASamples.nextSample (DASamples.build (pre ++ r :: post)) (Z.of_nat (length pre)) offset
  = invalid_sample.
Proof.
  intros Hok Hsize Hs. destruct (build_spec _ Hok Hsize) as [n [m ->]].
  unfold DASamples.nextSample, DASamples.isSampled, sdsl.bit_get.
  cbn [DASamples.sampled_records]. rewrite Nat2Z.id, map_app.
  rewrite <- (length_map sampled pre). cbn [map]. rewrite nth_middle, Hs. reflexivity.
Qed.

(** X20: for a DASamples structure built from a vector of records (with
    the sample offsets of every record strictly increasing and below its
    size, and the sizes of the sampled records adding up to less than
    [2^64]) and an offset within a record: [nextSample(record, offset)] is
    [invalid_sample()] when the record has no samples; it is the first
    sample of the record at or after [offset], the one
    [DynamicRecord::nextSample] points to, when there is one; and when the
    record has no sample from [offset] on, the offset it returns is not
    below the size of the record. *)
Theorem DASamples_nextSample_spec bwt (record : nat) r offset :
  Forall sample_ok bwt -> sampled_size bwt < WORD -> bwt !! record = Some r ->
  0 <= offset <= DynamicRecord.size r ->
  (DynamicRecord.ids r = [] ->
   DASamples.nextSample (DASamples.build bwt) (Z.of_nat record) offset = invalid_sample) /\
  (forall s rest, DynamicRecord.nextSample r offset = s :: rest ->
   DASamples.nextSample (DASamples.build bwt) (Z.of_nat record) offset = s) /\
  (DynamicRecord.nextSample r offset = [] ->
   DynamicRecord.size r
   <= (DASamples.nextSample (DASamples.build bwt) (Z.of_nat record) offset).1).
Proof.
  intros Hok Hsize Hr Hoff.
  pose proof (take_drop_middle bwt record r Hr) as Hsplit.
  assert (Hlen : length (take record bwt) = record).
  { apply length_take_le. apply lookup_lt_Some in Hr. lia. }
  remember (take record bwt) as pre eqn:Hpre.
  remember (drop (S record) bwt) as post eqn:Hpost.
  clear Hpre Hpost Hr. subst bwt record.
  assert (Hrok : sample_ok r).
  { rewrite Forall_forall in Hok. apply Hok. apply elem_of_app. right. left. }
  destruct (sampled r) eqn:Hs.
  - rewrite nextSample_sampled_record by assumption. split; [|split].
    + intros Hnil. apply sampled_nonempty in Hs. contradiction.
    + intros s rest ->. reflexivity.
    + intros ->. cbn [app].
      apply Forall_app in Hok as [Hpre Hrest]. inversion Hrest as [|? ? _ Hpost]; subst.
      pose proof (entries_at_bounds post (sampled_size pre + DynamicRecord.size r) Hpost) as Hb.
      destruct (entries_at _ post) as [|e l]; cbn [map hd fst].
      * destruct Hrok as [Hw _ _]. unfold invalid_sample, invalid_offset, is_word,
          DynamicRecord.size in *. simpl. lia.
      * inversion Hb as [|? ? He _]; subst. lia.
  - rewrite nextSample_unsampled_record by assumption. split; [reflexivity|]. split.
    + intros s rest Hnext. exfalso.
      assert (Hne : DynamicRecord.ids r <> []).
      { unfold DynamicRecord.nextSample in Hnext.
        destruct (DynamicRecord.ids r); [discriminate Hnext|discriminate]. }
      apply sampled_nonempty in Hne. congruence.
    + intros _. destruct Hrok as [Hw _ _]. unfold invalid_sample, invalid_offset, is_word,
        DynamicRecord.size in *. simpl. lia.
Qed.

Lemma DASamples_nextSample_spec_witness :
  DASamples.nextSample (DASamples.build sampled_bwt) 1 3 = (5, 99) /\
  DASamples.nextSample (DASamples.build sampled_bwt) 0 0 = invalid_sample.
Proof.
  split.
  - apply (proj1 (proj2 (DASamples_nextSample_spec sampled_bwt 1
                    (DynamicRecord.mk 10 [] [(1, 0)] [(0, 10)] [(2, 7); (5, 99)]) 3
                    ltac:(concrete) ltac:(reflexivity) ltac:(reflexivity) ltac:(concrete)))
             (5, 99) []).
    reflexivity.
  - apply (proj1 (DASamples_nextSample_spec sampled_bwt 0
                    (DynamicRecord.mk 4 [] [(1, 0)] [(0, 4)] []) 0
                    ltac:(concrete) ltac:(reflexivity) ltac:(reflexivity) ltac:(concrete))).
    reflexivity.
Defined.

Lemma ranges_at_head l : forall off,
  ranges_at off l = [] \/ exists rest, ranges_at off l = off :: rest.
Proof.
  induction l as [|r l IH]; intros off; simpl; [left; reflexivity|].
  destruct (sampled r); [right; eauto|apply IH].
Qed.

Lemma ranges_at_nil l off : ranges_at off l = [] -> sampled_size l = 0.
Proof.
  revert off. induction l as [|r l IH]; intros off; simpl; [reflexivity|].
  destruct (sampled r); [discriminate|apply IH].
Qed.

(** X21: in a DASamples structure built from a vector of records (with
    the invariants of X20), the range of a sampled record ends where its
    size says: [limit(rank)], for the rank of the record among the sampled
    records, is [start(record) + size()]. *)
Theorem DASamples_limit_spec bwt (record : nat) r :
  Forall sample_ok bwt -> sampled_size bwt < WORD -> bwt !! record = Some r ->
  DynamicRecord.ids r <> [] ->
  let s := DASamples.build bwt in
  DASamples.limit s (sdsl.bit_rank (DASamples.sampled_records s) (Z.of_nat record))
  = DASamples.start s (Z.of_nat record) + DynamicRecord.size r.
Proof.
  intros Hok Hsize Hr Hne s. subst s. apply sampled_nonempty in Hne.
  pose proof (take_drop_middle bwt record r Hr) as Hsplit.
  assert (Hlen : length (take record bwt) = record).
  { apply length_take_le. apply lookup_lt_Some in Hr. lia. }
  remember (take record bwt) as pre eqn:Hpre.
  remember (drop (S record) bwt) as post eqn:Hpost.
  clear Hpre Hpost Hr. subst bwt record.
  destruct (sampled_record_start pre r post Hok Hsize Hne) as (_ & Hstart & Hrank).
  rewrite Hstart, Hrank. unfold DASamples.limit.
  destruct (build_sizes (pre ++ r :: post)) as [Hsz _]. rewrite Hsz.
  pose proof (sampled_size_nonneg _ Hok) as Hnn.
  rewrite wrap_small by (unfold is_word; lia).
  destruct (build_spec _ Hok Hsize) as [n [m ->]].
  cbn [DASamples.sampled_records DASamples.bwt_ranges].
  unfold sdsl.bit_rank, sdsl.select_1. cbn [sdsl.sd_ones sdsl.sd_size].
  unfold vec_size. rewrite Nat2Z.id, firstn_all.
  rewrite (ranges_length (pre ++ r :: post) 0), ranges_at_app.
  cbn [ranges_at]. rewrite Hne, Z.add_0_l, length_app. cbn [length].
  pose proof (ranges_length_bound (pre ++ r :: post) 0 Hok) as Hbound.
  rewrite ranges_at_app in Hbound. cbn [ranges_at] in Hbound.
  rewrite Hne, Z.add_0_l, length_app in Hbound. cbn [length] in Hbound.
  rewrite sampled_size_app. cbn [sampled_size]. rewrite Hne.
  set (k := length (ranges_at 0 pre)) in *.
  set (S0 := sampled_size pre) in *.
  unfold wadd at 1. rewrite wrap_small by (unfold is_word; lia).
  destruct (ranges_at_head post (S0 + DynamicRecord.size r)) as [Hnil|[rest Hcons]].
  - rewrite Hnil in *. cbn [length] in *.
    assert (E : (Z.of_nat k + 1 <? Z.of_nat (k + 1)) = false) by (apply Z.ltb_ge; lia).
    rewrite E, (ranges_at_nil _ _ Hnil). lia.
  - rewrite Hcons in *. cbn [length] in *.
    assert (E : (Z.of_nat k + 1 <? Z.of_nat (k + S (S (length rest)))) = true)
      by (apply Z.ltb_lt; lia).
    rewrite E.
    unfold wadd. rewrite wrap_small by (unfold is_word; lia).
    replace (Z.to_nat (Z.of_nat k + 2 - 1)) with (S k) by lia.
    change (ranges_at 0 pre ++ S0 :: (S0 + DynamicRecord.size r) :: rest)
      with (ranges_at 0 pre ++ [S0] ++ (S0 + DynamicRecord.size r) :: rest).
    rewrite app_assoc.
    replace (S k) with (length (ranges_at 0 pre ++ [S0]))
      by (rewrite length_app; simpl; lia).
    apply nth_middle.
Qed.

Lemma DASamples_limit_spec_witness :
  DASamples.limit (DASamples.build sampled_bwt)
    (sdsl.bit_rank (DASamples.sampled_records (DASamples.build sampled_bwt)) 1)
  = DASamples.start (DASamples.build sampled_bwt) 1 + 10.
Proof.
  apply (DASamples_limit_spec sampled_bwt 1
           (DynamicRecord.mk 10 [] [(1, 0)] [(0, 10)] [(2, 7); (5, 99)])
           ltac:(concrete) ltac:(reflexivity) ltac:(reflexivity) ltac:(discriminate)).
Defined.

(** ** Reading a compressed record run by run *)

Lemma size_loop_runs fuel c : forall it acc,
  CompressedRecord.size_loop fuel c it acc
  = fold_left (fun a (run : Z * Z) => wadd a run.2) (RecordArray.read_runs fuel c it) acc.
Proof.
  induction fuel as [|fuel IH]; intros it acc; simpl; [reflexivity|].
  destruct (CompressedRecord.at_end c it); [reflexivity|]. simpl. apply IH.
Qed.

Lemma runs_loop_runs fuel c : forall it acc,
  CompressedRecord.runs_loop fuel c it acc
  = fold_left (fun a (run : Z * Z) => wadd a 1) (RecordArray.read_runs fuel c it) acc.
Proof.
  induction fuel as [|fuel IH]; intros it acc; simpl; [reflexivity|].
  destruct (CompressedRecord.at_end c it); [reflexivity|]. simpl. apply IH.
Qed.

Lemma of_compressed_loop_runs fuel c : forall it st,
  DecompressedRecord.of_compressed_loop fuel c it st
  = fold_left (fun st (run : Z * Z) => DecompressedRecord.push_run (Z.to_nat run.2) run.1 st)
              (RecordArray.read_runs fuel c it) st.
Proof.
  induction fuel as [|fuel IH]; intros it st; simpl; [reflexivity|].
  destruct (CompressedRecord.at_end c it); [reflexivity|]. simpl. apply IH.
Qed.

Lemma fold_lengths (body : list (Z * Z)) : forall acc,
  fold_left (fun a (run : Z * Z) => wadd a run.2) body (wrap acc)
  = wrap (acc + total_length body).
Proof.
  induction body as [|run body IH]; intros acc; simpl.
  - rewrite Z.add_0_r. reflexivity.
  - unfold wadd at 2. rewrite wrap_add_l, IH. f_equal. lia.
Qed.

Lemma fold_count (body : list (Z * Z)) : forall acc,
  fold_left (fun a (run : Z * Z) => wadd a 1) body (wrap acc)
  = wrap (acc + vec_size body).
Proof.
  induction body as [|run body IH]; intros acc.
  - unfold vec_size. simpl. rewrite Z.add_0_r. reflexivity.
  - cbn [fold_left]. unfold wadd at 2. rewrite wrap_add_l, IH. f_equal.
    unfold vec_size. simpl length. lia.
Qed.

Lemma runs_le_total (body : list (Z * Z)) :
  runs_ok body -> vec_size body <= total_length body.
Proof.
  induction 1 as [|run body Hrun _ IH]; [unfold vec_size; simpl; lia|].
  unfold vec_size in *. simpl. lia.
Qed.

Lemma body_ok_empty r :
  body_ok r -> DynamicRecord.outdegree r = 0 -> DynamicRecord.body r = [].
Proof.
  intros [Hruns _] H0. destruct (DynamicRecord.body r) as [|run body]; [reflexivity|].
  inversion Hruns as [|? ? [Hr _] _]; subst. lia.
Qed.

Lemma compress_empty_runs r fuel :
  typed r -> DynamicRecord.outdegree r = 0 ->
  RecordArray.read_runs fuel (compress r) (CompressedRecord.forward_iterator (compress r)) = [].
Proof.
  intros Ht H0. destruct (compress_fields r Ht) as (Hout & Hbody & Hsize).
  rewrite H0 in Hbody. simpl in Hbody. rewrite Hbody in Hsize. simpl in Hsize.
  assert (Hend : forall it, CompressedRecord.at_end (compress r) it = true).
  { intros it. unfold CompressedRecord.at_end. rewrite Hsize. reflexivity. }
  destruct fuel; simpl; [reflexivity|]. rewrite Hend. reflexivity.
Qed.

(** X22: for a well-formed DynamicRecord [r] and the CompressedRecord [c]
    obtained by encoding it with [writeBWT] and parsing the bytes,
    [c.size()] is [r.size()], [c.runs()] is the number of runs of [r],
    [c.hasEdge(to)] is [r.hasEdge(to)], and [emptyRecord] on the bytes
    tells whether [r] has no outgoing edges. *)
Theorem compress_size_runs r to :
  typed r -> body_ok r ->
  CompressedRecord.size (compress r) = DynamicRecord.size r /\
  CompressedRecord.runs (compress r) = DynamicRecord.runs r /\
  CompressedRecord.hasEdge (compress r) to = DynamicRecord.hasEdge r to /\
  CompressedRecord.emptyRecord (writeBWT r []) 0 = (DynamicRecord.outdegree r =? 0).
Proof.
  intros Ht Hb.
  pose proof (compress_outgoing r Ht) as Hout.
  pose proof (typed_size r Ht) as Hw. unfold is_word in Hw.
  pose proof (body_total r Hb) as Htot.
  pose proof (runs_le_total _ (body_ok_runs r Hb)) as Hle.
  assert (Hnn : 0 <= DynamicRecord.outdegree r)
    by (unfold DynamicRecord.outdegree, vec_size; lia).
  unfold CompressedRecord.size, CompressedRecord.runs, CompressedRecord.hasEdge,
    CompressedRecord.outdegree, DynamicRecord.hasEdge, DynamicRecord.size, DynamicRecord.runs.
  rewrite Hout. fold (DynamicRecord.outdegree r).
  split; [|split; [|split; [reflexivity|]]].
  - destruct (DynamicRecord.outdegree r >? 0) eqn:E.
    + rewrite size_loop_runs, (read_runs_decodes _ _ (decodes_compress r Ht Hb ltac:(lia))).
      change 0 with (wrap 0) at 1. rewrite fold_lengths, Z.add_0_l.
      rewrite <- Htot. apply wrap_small. exact (typed_size r Ht).
    + rewrite Htot, (body_ok_empty r Hb ltac:(lia)). reflexivity.
  - destruct (DynamicRecord.outdegree r >? 0) eqn:E.
    + rewrite runs_loop_runs, (read_runs_decodes _ _ (decodes_compress r Ht Hb ltac:(lia))).
      change 0 with (wrap 0) at 1. rewrite fold_count, Z.add_0_l.
      apply wrap_small. unfold is_word. unfold vec_size in *. lia.
    + rewrite (body_ok_empty r Hb ltac:(lia)). reflexivity.
  - unfold CompressedRecord.emptyRecord. rewrite writeBWT_bytes. cbn [app].
    pose proof (ByteCode_read_encode [] (DynamicRecord.outdegree r)
                  (edges_bytes 0 (DynamicRecord.outgoing r)
                   ++ (if DynamicRecord.outdegree r >? 0
                       then enc (Run.make (DynamicRecord.outdegree r)) (DynamicRecord.body r)
                       else []))) as Hread.
    cbn [app length] in Hread. rewrite Hread; [reflexivity|].
    unfold is_word. pose proof (typed_outdegree r Ht). lia.
Qed.

Lemma compress_size_runs_witness :
  CompressedRecord.size (compress scenario2) = 6 /\
  CompressedRecord.runs (compress scenario2) = 3.
Proof.
  destruct (compress_size_runs scenario2 0 ltac:(concrete) ltac:(concrete)) as (H1 & H2 & _).
  split; [exact H1|exact H2].
Defined.

(** X23: the [DecompressedRecord] built from the CompressedRecord that
    encodes a well-formed DynamicRecord [r] is the one built from [r]
    itself. *)
Theorem of_compressed_of_dynamic r :
  typed r -> body_ok r ->
  DecompressedRecord.of_compressed (compress r) = DecompressedRecord.of_dynamic r.
Proof.
  intros Ht Hb. unfold DecompressedRecord.of_compressed, DecompressedRecord.of_dynamic.
  rewrite of_compressed_loop_runs, (compress_outgoing r Ht).
  assert (Hruns : RecordArray.read_runs (CompressedRecord.fuel_of (compress r)) (compress r)
                    (CompressedRecord.forward_iterator (compress r))
                  = DynamicRecord.body r).
  { destruct (Z.eq_dec (DynamicRecord.outdegree r) 0) as [H0|Hne].
    - rewrite (compress_empty_runs r _ Ht H0), (body_ok_empty r Hb H0). reflexivity.
    - apply read_runs_decodes, decodes_compress; auto.
      unfold DynamicRecord.outdegree, vec_size in *. lia. }
  rewrite Hruns. reflexivity.
Qed.

Lemma of_compressed_of_dynamic_witness :
  DecompressedRecord.of_compressed (compress scenario2)
  = DecompressedRecord.of_dynamic scenario2.
Proof. apply (of_compressed_of_dynamic scenario2); concrete. Defined.

(** ** The records of a RecordArray built from dynamic records *)

Lemma make_writeBWT_at pre r post :
  typed r ->
  CompressedRecord.make (pre ++ writeBWT r [] ++ post) (length pre)
    (length pre + length (writeBWT r []))
  = CompressedRecord.mk (DynamicRecord.outgoing r) (body_bytes r ++ post)
      (length (body_bytes r)).
Proof.
  intros Ht. rewrite writeBWT_bytes. simpl app. fold (body_bytes r).
  unfold CompressedRecord.make.
  assert (Hod : is_word (DynamicRecord.outdegree r)).
  { pose proof (typed_outdegree r Ht). unfold is_word, DynamicRecord.outdegree, vec_size in *.
    lia. }
  pose proof (ByteCode_read_encode pre (DynamicRecord.outdegree r)
                (edges_bytes 0 (DynamicRecord.outgoing r) ++ body_bytes r ++ post) Hod)
    as Hread.
  rewrite <- !app_assoc. rewrite Hread.
  assert (Hn : Z.to_nat (DynamicRecord.outdegree r) = length (DynamicRecord.outgoing r)).
  { unfold DynamicRecord.outdegree, vec_size. lia. }
  rewrite Hn.
  pose proof (read_edges_bytes (DynamicRecord.outgoing r)
                (pre ++ ByteCode.encode (DynamicRecord.outdegree r)) 0 (body_bytes r ++ post)
                (typed_outgoing r Ht) ltac:(unfold is_word, WORD; lia)) as Hedges.
  rewrite <- app_assoc, length_app in Hedges. rewrite Hedges.
  assert (Hdrop : forall (a b c d : list Z),
            drop (length a + length b + length c) (a ++ b ++ c ++ d) = d).
  { intros a b c d. rewrite !app_assoc, <- !length_app. apply drop_app_length. }
  rewrite Hdrop. f_equal. rewrite !length_app. lia.
Qed.

Lemma offsets_from_length bwt : forall s, length (offsets_from s bwt) = length bwt.
Proof. induction bwt as [|r bwt IH]; intros s; simpl; [reflexivity|]. rewrite IH. reflexivity. Qed.

Lemma offsets_from_app pre : forall s post,
  offsets_from s (pre ++ post)
  = offsets_from s pre
    ++ offsets_from (s + vec_size (concat (map (fun r => writeBWT r []) pre))) post.
Proof.
  induction pre as [|r pre IH]; intros s post; simpl.
  - unfold vec_size. simpl. rewrite Z.add_0_r. reflexivity.
  - rewrite IH. do 3 f_equal. unfold vec_size. rewrite length_app. lia.
Qed.

Lemma empty_record_runs c fuel it :
  CompressedRecord.data_size c = 0%nat -> RecordArray.read_runs fuel c it = [].
Proof.
  intros H0. destruct fuel; simpl; [reflexivity|].
  unfold CompressedRecord.at_end. rewrite H0. reflexivity.
Qed.

(** X24: the RecordArray built from a vector of well-formed
    DynamicRecords stores every record where its index says: the
    CompressedRecord parsed between [start(i)] and [limit(i)] has the
    outgoing edges of [bwt[i]], and the forward iterator reads from it
    the runs of [bwt[i]]. *)
Theorem build_record pre r post :
  typed r -> body_ok r -> vec_size (pre ++ r :: post) < WORD ->
  let a := RecordArray.build (pre ++ r :: post) in
  let i := vec_size pre in
  let c := CompressedRecord.make (RecordArray.data a) (Z.to_nat (RecordArray.start a i))
             (Z.to_nat (RecordArray.limit a i)) in
  CompressedRecord.outgoing c = DynamicRecord.outgoing r /\
  RecordArray.read_runs (CompressedRecord.fuel_of c) c (CompressedRecord.forward_iterator c)
  = DynamicRecord.body r.
Proof.
  intros Ht Hb Hsize. cbv zeta.
  set (bytes := fun l => concat (map (fun r => writeBWT r []) l)).
  assert (Hlen : vec_size (pre ++ r :: post) = vec_size pre + 1 + vec_size post).
  { unfold vec_size. rewrite length_app. simpl. lia. }
  assert (Hpre : 0 <= vec_size pre) by (unfold vec_size; lia).
  assert (Hpost : 0 <= vec_size post) by (unfold vec_size; lia).
  assert (Hstart : RecordArray.start (RecordArray.build (pre ++ r :: post)) (vec_size pre)
                   = vec_size (bytes pre)).
  { unfold RecordArray.build, RecordArray.start. rewrite build_fold, buildIndex_ones.
    cbn [fst snd app RecordArray.index]. unfold sdsl.select_1. cbn [sdsl.sd_ones sdsl.sd_size].
    unfold wadd. rewrite wrap_small by (unfold is_word; lia).
    replace (Z.to_nat (vec_size pre + 1 - 1)) with (length pre) by (unfold vec_size; lia).
    rewrite offsets_from_app. cbn [offsets_from].
    rewrite app_nth2 by (rewrite offsets_from_length; lia).
    rewrite offsets_from_length, Nat.sub_diag. reflexivity. }
  assert (Hlimit : RecordArray.limit (RecordArray.build (pre ++ r :: post)) (vec_size pre)
                   = vec_size (bytes pre) + vec_size (writeBWT r [])).
  { unfold RecordArray.build, RecordArray.limit. rewrite build_fold, buildIndex_ones.
    cbn [fst snd app RecordArray.index RecordArray.records RecordArray.data].
    unfold sdsl.select_1. cbn [sdsl.sd_ones sdsl.sd_size].
    destruct post as [|r1 post].
    - assert (E : (vec_size pre + 1 <? vec_size (pre ++ [r])) = false)
        by (apply Z.ltb_ge; unfold vec_size in *; simpl in *; lia).
      unfold wadd at 1. rewrite wrap_small by (unfold is_word; lia).
      rewrite E. rewrite map_app, concat_app. simpl. rewrite app_nil_r.
      unfold vec_size, bytes. rewrite length_app. lia.
    - assert (Hp1 : vec_size (r1 :: post) = 1 + vec_size post)
        by (unfold vec_size; simpl length; lia).
      assert (Hpost' : 0 <= vec_size post) by (unfold vec_size; lia).
      assert (E : (vec_size pre + 1 <? vec_size (pre ++ r :: r1 :: post)) = true)
        by (apply Z.ltb_lt; lia).
      unfold wadd. rewrite !wrap_small by (unfold is_word; lia).
      rewrite E.
      replace (Z.to_nat (vec_size pre + 2 - 1)) with (S (length pre))
        by (unfold vec_size; lia).
      rewrite offsets_from_app. cbn [offsets_from].
      rewrite app_nth2 by (rewrite offsets_from_length; lia).
      rewrite offsets_from_length.
      replace (S (length pre) - length pre)%nat with 1%nat by lia.
      simpl. reflexivity. }
  assert (Hdata : RecordArray.data (RecordArray.build (pre ++ r :: post))
                  = bytes pre ++ writeBWT r [] ++ bytes post).
  { unfold RecordArray.build. rewrite build_fold. cbn [fst snd app RecordArray.data].
    unfold bytes. rewrite map_app, concat_app. reflexivity. }
  rewrite Hstart, Hlimit, Hdata.
  replace (Z.to_nat (vec_size (bytes pre))) with (length (bytes pre))
    by (unfold vec_size; lia).
  replace (Z.to_nat (vec_size (bytes pre) + vec_size (writeBWT r [])))
    with (length (bytes pre) + length (writeBWT r []))%nat by (unfold vec_size; lia).
  rewrite (make_writeBWT_at _ r _ Ht).
  split; [reflexivity|].
  destruct (Z.eq_dec (DynamicRecord.outdegree r) 0) as [H0|Hne].
  - rewrite (body_ok_empty r Hb H0). apply empty_record_runs.
    cbn [CompressedRecord.data_size]. unfold body_bytes. rewrite H0. reflexivity.
  - apply read_runs_decodes. apply (decodes_make r _ (bytes post) Ht Hb); [|reflexivity].
    unfold DynamicRecord.outdegree, vec_size in *. lia.
Qed.

Lemma build_record_witness :
  let a := RecordArray.build [sentinel_record; scenario2; two_runs] in
  let c := CompressedRecord.make (RecordArray.data a) (Z.to_nat (RecordArray.start a 1))
             (Z.to_nat (RecordArray.limit a 1)) in
  CompressedRecord.outgoing c = DynamicRecord.outgoing scenario2 /\
  RecordArray.read_runs (CompressedRecord.fuel_of c) c (CompressedRecord.forward_iterator c)
  = DynamicRecord.body scenario2.
Proof. apply (build_record [sentinel_record] scenario2 [two_runs]); concrete. Defined.
